(** * Resilient SDN multicast: tree builder, join strategies, forwarding compiler

    A shallow embedding of the Python sources (SPT.py, DST.py,
    AbstractTreeBuilder.py, PerLinkTreeBuilder.py, and the forwarding
    compiler and topology handlers of MulticastController.py) together with
    the properties established about them.

    Conventions of the embedding.
    - Node identifiers (datapath ids, host MACs), IP addresses, ports, VLAN
      tags and group ids are opaque hashable Python values; they are modelled
      as [Z].
    - A Python [dict] is a [gmap], a Python [set] a [gset]; iteration over
      either follows stdpp's canonical order (Python 2 leaves it unspecified).
    - Python objects that are shared by reference (the trees) live in a heap
      indexed by handles.
    - Exceptions are values of [exn]; an effectful function returns an
      [outcome] together with the state it has reached, since Python keeps
      every mutation performed before a raise.
    - [while] loops take fuel; running out of fuel is the outcome [Diverge]. *)

From Stdlib Require Import QArith Lqa.
From stdpp Require Import gmap list.
Close Scope Q_scope.

Definition node := Z.
Definition edge : Type := node * node.

Inductive exn :=
| KeyError | IndexError | TypeError | ValueError | UnboundLocalError
| NetworkXNoPath | NetworkXError.

Inductive outcome (A : Type) :=
| Ret (a : A)
| Raise (e : exn)
| Diverge.
Arguments Ret {A} a.
Arguments Raise {A} e.
Arguments Diverge {A}.

Definition is_some {A} (o : option A) : bool :=
  match o with Some _ => true | None => false end.

(** ** The part of networkx the sources rely on *)
Module nx.

(** [nx.DiGraph]: the successor adjacency [G[u][v] = data]; every node is a
    key of the outer dictionary. *)
Definition has_node {E} (G : gmap node (gmap node E)) (n : node) : bool :=
  is_some (G !! n).

Definition edge_data {E} (G : gmap node (gmap node E)) (u v : node) : option E :=
  match G !! u with
  | Some nb => nb !! v
  | None => None
  end.

Definition has_edge {E} (G : gmap node (gmap node E)) (u v : node) : bool :=
  is_some (edge_data G u v).

Definition nodes {E} (G : gmap node (gmap node E)) : list node :=
  elements (dom G).

(** [list(G.predecessors(v))] *)
Definition predecessors {E} (G : gmap node (gmap node E)) (v : node) : list node :=
  filter (λ u, has_edge G u v = true) (nodes G).

Definition out_degree {E} (G : gmap node (gmap node E)) (u : node) : option nat :=
  size <$> (G !! u).

(** [G.size()] and [G.number_of_edges()] *)
Definition number_of_edges {E} (G : gmap node (gmap node E)) : nat :=
  map_fold (λ _ nb acc, size nb + acc) 0 G.

Definition add_node {E} (G : gmap node (gmap node E)) (n : node) : gmap node (gmap node E) :=
  match G !! n with
  | Some _ => G
  | None => <[n := ∅]> G
  end.

(** [G.add_edge(u, v, **data)]: creates missing end points, overwrites the
    data of an existing edge. *)
Definition add_edge {E} (G : gmap node (gmap node E)) (u v : node) (d : E)
  : gmap node (gmap node E) :=
  let G1 := add_node (add_node G u) v in
  <[u := <[v := d]> (default ∅ (G1 !! u))]> G1.

(** [G.remove_node(n)]; networkx raises [NetworkXError] on a missing node. *)
Definition remove_node {E} (G : gmap node (gmap node E)) (n : node)
  : option (gmap node (gmap node E)) :=
  match G !! n with
  | Some _ => Some (delete n <$> delete n G)
  | None => None
  end.

(** Every successor is itself a node. *)
Definition wf {E} (G : gmap node (gmap node E)) : Prop :=
  map_Forall (λ _ nb, map_Forall (λ v _, is_Some (G !! v)) nb) G.

(** *** Dijkstra's algorithm ([_dijkstra_multisource]) *)

Definition Qlt_bool (a b : Q) : bool := negb (Qle_bool b a).

(** An entry [(distance, counter, node)] of the [heapq] fringe. *)
Definition entry : Type := Q * nat * node.

Definition entry_lt (a b : entry) : bool :=
  if Qlt_bool a.1.1 b.1.1 then true
  else if Qlt_bool b.1.1 a.1.1 then false
  else bool_decide (a.1.2 < b.1.2).

(** [heappop]: the least entry and the remaining ones. *)
Fixpoint pop_from (x : entry) (l : list entry) : entry * list entry :=
  match l with
  | [] => (x, [])
  | y :: l' =>
      let '(m, r) := pop_from y l' in
      if entry_lt m x then (m, x :: r) else (x, l)
  end.

Definition heappop (h : list entry) : option (entry * list entry) :=
  match h with
  | [] => None
  | x :: l => Some (pop_from x l)
  end.

Record dstate := DState {
  dist : gmap node Q;
  seen : gmap node Q;
  paths : gmap node (list node);
  fringe : list entry;
  counter : nat
}.

Definition push (vu : Q) (u : node) (pv : list node) (st : dstate) : dstate :=
  {| dist := dist st;
     seen := <[u := vu]> (seen st);
     paths := <[u := pv ++ [u]]> (paths st);
     fringe := (vu, counter st, u) :: fringe st;
     counter := S (counter st) |}.

(** One pass of the body of [for u, e in G_succ[v].items()]. *)
Definition relax {E} (weight : node → node → E → option Q) (v : node) (dv : Q)
    (st : dstate) (ue : node * E) : exn + dstate :=
  let '(u, e) := ue in
  match weight v u e with
  | None => inr st
  | Some cost =>
      let vu := Qplus dv cost in
      match dist st !! u with
      | Some du => if Qlt_bool vu du then inl ValueError else inr st
      | None =>
          let update :=
            match paths st !! v with
            | None => inl KeyError
            | Some pv => inr (push vu u pv st)
            end in
          match seen st !! u with
          | None => update
          | Some su => if Qlt_bool vu su then update else inr st
          end
      end
  end.

Fixpoint relax_all {E} (weight : node → node → E → option Q) (v : node) (dv : Q)
    (st : dstate) (items : list (node * E)) : exn + dstate :=
  match items with
  | [] => inr st
  | ue :: rest =>
      match relax weight v dv st ue with
      | inl e => inl e
      | inr st' => relax_all weight v dv st' rest
      end
  end.

(** [while fringe: ...] *)
Fixpoint dijkstra_loop {E} (fuel : nat) (G : gmap node (gmap node E))
    (weight : node → node → E → option Q) (target : node) (st : dstate)
  : outcome dstate :=
  match fuel with
  | O => Diverge
  | S fuel' =>
      match heappop (fringe st) with
      | None => Ret st
      | Some ((d, _, v), rest) =>
          let st1 := {| dist := dist st; seen := seen st; paths := paths st;
                        fringe := rest; counter := counter st |} in
          match dist st !! v with
          | Some _ => dijkstra_loop fuel' G weight target st1
          | None =>
              let st2 := {| dist := <[v := d]> (dist st); seen := seen st;
                            paths := paths st; fringe := rest;
                            counter := counter st |} in
              if decide (v = target) then Ret st2
              else
                match G !! v with
                | None => Raise KeyError
                | Some nb =>
                    match relax_all weight v d st2 (map_to_list nb) with
                    | inl e => Raise e
                    | inr st3 => dijkstra_loop fuel' G weight target st3
                    end
                end
          end
      end
  end.

(** [for source in sources: seen[source] = 0; push(fringe, (0, next(c), source))] *)
Definition init_source (st : dstate) (s : node) : dstate :=
  {| dist := dist st;
     seen := <[s := 0%Q]> (seen st);
     paths := paths st;
     fringe := (0%Q, counter st, s) :: fringe st;
     counter := S (counter st) |}.

Definition init_state (sources : list node) : dstate :=
  foldl init_source
    {| dist := ∅; seen := ∅;
       paths := list_to_map ((λ s, (s, [s])) <$> sources);
       fringe := []; counter := 0 |}
    sources.

(** Every pop either discards an entry or settles a node, and settling a
    node pushes at most one entry per outgoing edge: the loop runs at most
    [|sources| + |E|] times before the fringe is empty. *)
Definition dijkstra_fuel {E} (G : gmap node (gmap node E)) (sources : list node) : nat :=
  S (length sources + number_of_edges G).

(** [multi_source_dijkstra(G, sources, target, weight)], in the form the
    callers use it: the dictionary of paths found. *)
Definition multi_source_dijkstra {E} (G : gmap node (gmap node E))
    (sources : list node) (target : node)
    (weight : node → node → E → option Q) : outcome (gmap node (list node)) :=
  match sources with
  | [] => Raise ValueError
  | _ =>
      if bool_decide (target ∈ sources) then Ret {[target := [target]]}
      else
        match dijkstra_loop (dijkstra_fuel G sources) G weight target
                (init_state sources) with
        | Ret st => Ret (paths st)
        | Raise e => Raise e
        | Diverge => Diverge
        end
  end.

(** [dijkstra_path(G, source, target, weight)] *)
Definition dijkstra_path {E} (G : gmap node (gmap node E)) (source target : node)
    (weight : node → node → E → option Q) : outcome (list node) :=
  match multi_source_dijkstra G [source] target weight with
  | Ret ps =>
      match ps !! target with
      | Some p => Ret p
      | None => Raise NetworkXNoPath
      end
  | Raise e => Raise e
  | Diverge => Diverge
  end.

End nx.

(** ** Network and trees *)

(** Data of a network edge. *)
Record edata := EData { src_port : Z; dst_port : Z; live : bool }.

(** A tree: the [nx.DiGraph] whose edges carry the [backup] attribute (a
    reference to another tree, or [None]) and whose graph attributes are
    [root], [parent], [primary], [predecessor_switch], [tag], [tag_index]. *)
Definition handle := nat.

Record tree := Tree {
  t_adj : gmap node (gmap node (option handle));
  t_root : node;
  t_parent : option handle;
  t_primary : handle;
  t_predecessor_switch : option node;
  t_tag : option Z;
  t_tag_index : option Z
}.

(** ** Join strategies *)

Module SPT.

Definition weight (exclude : gset edge) (T : tree) (epsilon : Q)
    (x y : node) (e : edata) : option Q :=
  if negb (live e) then None
  else if bool_decide ((x, y) ∈ exclude) then None
  else if nx.has_edge (t_adj T) x y then Some (1 - epsilon)%Q
  else if nx.has_node (t_adj T) y then None
  else Some 1%Q.

Definition join (network : gmap node (gmap node edata)) (exclude : gset edge)
    (T : tree) (v : node) : outcome (list node) :=
  if nx.has_node (t_adj T) v then Ret []
  else
    let epsilon := (1 / inject_Z (Z.of_nat (nx.number_of_edges (t_adj T)) + 1))%Q in
    match nx.dijkstra_path network (t_root T) v (weight exclude T epsilon) with
    | Ret p => Ret p
    | Raise NetworkXNoPath | Raise NetworkXError => Ret []
    | Raise e => Raise e
    | Diverge => Diverge
    end.

End SPT.

Module DST.

Definition weight (exclude : gset edge) (T : tree)
    (x y : node) (e : edata) : option Q :=
  if negb (live e) then None
  else if bool_decide ((x, y) ∈ exclude) then None
  else if negb (nx.has_edge (t_adj T) x y) && nx.has_node (t_adj T) y then None
  else Some 1%Q.

(** [while cur != root: cur = list(T.predecessors(cur))[0]; pre.append(cur)].
    The result is [pre] before it is reversed. [T.predecessors] raises
    [NetworkXError] on a node that is not in [T]. *)
Fixpoint walk_up (fuel : nat) (T : tree) (cur : node) (pre : list node)
  : outcome (list node) :=
  if decide (cur = t_root T) then Ret pre
  else
    match fuel with
    | O => Diverge
    | S fuel' =>
        if nx.has_node (t_adj T) cur then
          match nx.predecessors (t_adj T) cur with
          | [] => Raise IndexError
          | p :: _ => walk_up fuel' T p (pre ++ [p])
          end
        else Raise NetworkXError
    end.

(** The body of the [try] block. *)
Definition join_body (network : gmap node (gmap node edata)) (exclude : gset edge)
    (T : tree) (v : node) : outcome (list node) :=
  match nx.multi_source_dijkstra network (nx.nodes (t_adj T)) v
          (weight exclude T) with
  | Ret ps =>
      match ps !! v with
      | None => Ret []
      | Some path =>
          match path with
          | [] => Raise IndexError
          | w :: _ =>
              (* a walk of more steps than the tree has nodes repeats a
                 node without meeting the root: the loop never ends *)
              match walk_up (size (dom (t_adj T))) T w [] with
              | Ret pre => Ret (reverse pre ++ path)
              | Raise e => Raise e
              | Diverge => Diverge
              end
          end
      end
  | Raise e => Raise e
  | Diverge => Diverge
  end.

Definition join (network : gmap node (gmap node edata)) (exclude : gset edge)
    (T : tree) (v : node) : outcome (list node) :=
  if nx.has_node (t_adj T) v then Ret []
  else
    match join_body network exclude T v with
    | Raise NetworkXNoPath | Raise NetworkXError => Ret []
    | o => o
    end.

End DST.

(** ** Controller state *)

(** A flow key, [_get_key]: the tuple
    [(dst_address, src_address, tag, prev_switch_id)] of a multicast flow, or
    the destination address alone. *)
Inductive flow_key :=
| McKey (dst_address src_address : Z) (tag : option Z) (prev_switch_id : option node)
| UcKey (dst_address : Z).

Global Instance flow_key_eq_dec : EqDecision flow_key.
Proof. solve_decision. Defined.

Global Instance flow_key_countable : Countable flow_key.
Proof.
  refine (inj_countable'
    (λ k, match k with
          | McKey d s t p => inl (d, s, t, p)
          | UcKey d => inr d
          end)
    (λ x, match x with
          | inl (d, s, t, p) => McKey d s t p
          | inr d => UcKey d
          end) _).
  by intros [].
Defined.

(** The first component of a bucket entry: a port, or the list of ports of
    a coalesced bucket. *)
Inductive bport :=
| Port (p : Z)
| PortList (l : list Z).

Global Instance bport_eq_dec : EqDecision bport.
Proof. solve_decision. Defined.

(** An entry [(port, tag, drop)] of the [buckets] map. *)
Definition bucket : Type := bport * option Z * bool.

(** The attributes of a switch node: [flows], [FF_groups], [buckets],
    [group_id_index]. *)
Record switch := Switch {
  flows : gmap flow_key (gset Z * gset Z * nat);
  FF_groups : gmap (Z * flow_key) (list (Z * nat));
  buckets : gmap Z (list bucket);
  group_id_index : Z
}.

(** [network.node[n]]: a host carries [host = True] only. *)
Inductive node_attr :=
| NHost
| NSwitch (sw : switch).

(** *** Messages for the switch driver *)

Definition OFPP_IN_PORT : Z := 0xfffffff8.

Inductive action :=
| OFPActionOutput (port : Z)
| OFPActionGroup (group_id : Z)
| OFPActionPushVlan
| OFPActionSetField_vlan_vid (vid : Z)
| OFPActionPopVlan.

Inductive instruction :=
| OFPInstructionActions (actions : list action)
| OFPInstructionGotoTable (table_id : nat).

Record ofp_match := OFPMatch {
  eth_dst : Z;
  eth_src : option Z;
  vlan_vid : option Z;
  in_port : option Z
}.

Inductive flow_command := OFPFC_ADD | OFPFC_MODIFY_STRICT | OFPFC_DELETE_STRICT.
Inductive group_command := OFPGC_ADD | OFPGC_MODIFY | OFPGC_DELETE.

(** [OFPBucket(0, watch_port, 0, actions)] *)
Record ofp_bucket := OFPBucket { watch_port : bport; bucket_actions : list action }.

Inductive message :=
| OFPFlowMod (table_id : nat) (command : flow_command) (priority : Z)
    (mtch : ofp_match) (instructions : list instruction)
| OFPGroupMod (command : group_command) (group_id : Z) (bkts : list ofp_bucket).

(** *** Log lines *)

Inductive log_msg :=
| LogGroupAlreadyCreated (key : Z * Z)
| LogCreatedNewGroup (key : Z * Z)
| LogGroupDoesNotExist (key : Z * Z)
| LogAlreadyAdded (subscriber : node) (key : Z * Z)
| LogAddedToGroup (subscriber : node) (key : Z * Z)
| LogGroupRemoved (key : Z * Z)
| LogNotSubscribed (subscriber : node) (key : Z * Z)
| LogRemovedFromGroup (subscriber : node) (key : Z * Z)
| LogNoPath (root v : node)
| LogNoBackupPath (x v : node)
| LogAddedGroup (g_id : Z) (switch_id : node)
| LogRemovedGroup (g_id : Z) (switch_id : node)
| LogAddedFlow (switch_id : node) (ports_s ports_h : gset Z)
| LogDestination (dst_address : Z)
| LogTag (tag : Z)
| LogRemoveMissingFlow (switch_id : node)
| LogRemovedFlow (switch_id : node) (ports_s ports_h : gset Z)
| LogAddingBackup (backup_dst dst switch_id : node) (prev_switch_id : option node)
| LogBackupAlreadyInstalled
| LogAddedBackup (dst switch_id : node)
| LogFromTagToTag (tag_origin tag : option Z)
| LogRemovingBackup (backup_dst dst switch_id : node)
| LogBackupNotInstalled
| LogRemovedBackup (backup_dst dst switch_id : node).

Global Instance log_msg_eq_dec : EqDecision log_msg.
Proof. solve_decision. Defined.

(** *** The state of controller and builder *)

Record state := State {
  network : gmap node (gmap node edata);
  node_attrs : gmap node node_attr;
  ip_2_mac : gmap Z Z;
  sent : list (node * message);
  logs : list log_msg;
  groups : gmap (Z * Z) handle;
  heap : gmap handle tree;
  next_handle : handle
}.

(** ** A state and exception monad *)

Definition M (A : Type) : Type := state → outcome A * state.

Definition ret {A} (a : A) : M A := λ s, (Ret a, s).

Definition bind {A B} (m : M A) (f : A → M B) : M B :=
  λ s, match m s with
       | (Ret a, s') => f a s'
       | (Raise e, s') => (Raise e, s')
       | (Diverge, s') => (Diverge, s')
       end.

Definition raise {A} (e : exn) : M A := λ s, (Raise e, s).
Definition diverge {A} : M A := λ s, (Diverge, s).
Definition get_state : M state := λ s, (Ret s, s).
Definition put_state (s : state) : M unit := λ _, (Ret tt, s).

Declare Scope M_scope.
Delimit Scope M_scope with M.
Notation "'let!' x := m 'in' k" := (bind m (λ x, k))
  (at level 10, x pattern, m at level 100, k at level 200) : M_scope.
Notation "m ;;; k" := (bind m (λ _, k))
  (at level 100, k at level 200, right associativity) : M_scope.
Open Scope M_scope.

(** [d[k]] on a dictionary: [KeyError] when the key is missing. *)
Definition lookup_or_raise {A} (e : exn) (o : option A) : M A :=
  match o with
  | Some a => ret a
  | None => raise e
  end.

Fixpoint for_each {A} (l : list A) (body : A → M unit) : M unit :=
  match l with
  | [] => ret tt
  | a :: l' => body a ;;; for_each l' body
  end.

Definition log (m : log_msg) : M unit :=
  λ s, (Ret tt, {| network := network s; node_attrs := node_attrs s;
                   ip_2_mac := ip_2_mac s; sent := sent s;
                   logs := logs s ++ [m]; groups := groups s;
                   heap := heap s; next_handle := next_handle s |}).

(** [dp.send_msg(cmd)] for the datapath of [switch_id]. *)
Definition send_msg (switch_id : node) (cmd : message) : M unit :=
  λ s, (Ret tt, {| network := network s; node_attrs := node_attrs s;
                   ip_2_mac := ip_2_mac s; sent := sent s ++ [(switch_id, cmd)];
                   logs := logs s; groups := groups s;
                   heap := heap s; next_handle := next_handle s |}).

(** [self.network.node[switch_id]['switch'].dp]: the node must exist and
    be a switch. The attributes are returned for the accesses that follow. *)
Definition get_switch (switch_id : node) : M switch :=
  let! s := get_state in
  match node_attrs s !! switch_id with
  | Some (NSwitch sw) => ret sw
  | _ => raise KeyError
  end.

Definition set_switch (switch_id : node) (sw : switch) : M unit :=
  λ s, (Ret tt, {| network := network s;
                   node_attrs := <[switch_id := NSwitch sw]> (node_attrs s);
                   ip_2_mac := ip_2_mac s; sent := sent s;
                   logs := logs s; groups := groups s;
                   heap := heap s; next_handle := next_handle s |}).

(** [self.network[u][v]] *)
Definition get_edge (u v : node) : M edata :=
  let! s := get_state in
  lookup_or_raise KeyError (nx.edge_data (network s) u v).

(** [self.network.node[n]['host']] *)
Definition is_host (n : node) : M bool :=
  let! s := get_state in
  match node_attrs s !! n with
  | Some NHost => ret true
  | Some (NSwitch _) => ret false
  | None => raise KeyError
  end.

(** ** MulticastController: the forwarding compiler *)

Definition LOWPRIO : Z := 1.
Definition MEDPRIO : Z := 2.
Definition HIGHPRIO : Z := 3.

Definition _get_key (multicast : bool) (dst_address src_address : Z)
    (tag : option Z) (prev_switch_id : option node) : flow_key :=
  if multicast then McKey dst_address src_address tag prev_switch_id
  else UcKey dst_address.

Definition _get_FF_key (port : Z) (key : flow_key) : Z * flow_key := (port, key).

Definition _get_priority (tag : option Z) (in_port : option Z) : Z :=
  let ret := match tag with None => MEDPRIO | Some _ => HIGHPRIO end in
  match in_port with None => ret | Some _ => ret + 1 end.

(** [_get_ports(switch_id, dsts)] *)
Fixpoint _get_ports_loop (switch_id : node) (dsts : list node)
    (ports_s ports_h : gset Z) : M (gset Z * gset Z) :=
  match dsts with
  | [] => ret (ports_s, ports_h)
  | dst :: rest =>
      let! e := get_edge switch_id dst in
      let! h := is_host dst in
      if h then _get_ports_loop switch_id rest ports_s ({[src_port e]} ∪ ports_h)
      else _get_ports_loop switch_id rest ({[src_port e]} ∪ ports_s) ports_h
  end.

Definition _get_ports (switch_id : node) (dsts : list node) : M (gset Z * gset Z) :=
  _get_ports_loop switch_id dsts ∅ ∅.

Definition _get_match (dst_address : Z) (src_address : Z) (multicast : bool)
    (tag : option Z) (in_port : option Z) : M ofp_match :=
  let! s := get_state in
  let! base :=
    (if multicast then
       let! d := lookup_or_raise KeyError (ip_2_mac s !! dst_address) in
       let! a := lookup_or_raise KeyError (ip_2_mac s !! src_address) in
       ret (OFPMatch d (Some a) None None)
     else ret (OFPMatch dst_address None None None)) in
  ret (OFPMatch (eth_dst base) (eth_src base)
         (Z.lor 0x1000 <$> tag) in_port).

(** [_get_actions]: up to three action lists, for tables 0, 1 and 2. *)
Definition _get_actions (FF : gmap (Z * flow_key) (list (Z * nat))) (key : flow_key)
    (tag : option Z) (ports_s ports_h : gset Z) : list (list action) :=
  let actions_groups :=
    concat ((λ port, match FF !! _get_FF_key port key with
                     | Some gs => (λ gi, OFPActionGroup gi.1) <$> gs
                     | None => []
                     end) <$> elements ports_s) in
  let outputs_s :=
    concat ((λ port, match FF !! _get_FF_key port key with
                     | Some _ => []
                     | None => [OFPActionOutput port]
                     end) <$> elements ports_s) in
  let actions_outputs :=
    outputs_s ++ match tag with
                 | None => OFPActionOutput <$> elements ports_h
                 | Some _ => []
                 end in
  let actions_remove_tag :=
    OFPActionPopVlan :: match tag with
                        | None => []
                        | Some _ => OFPActionOutput <$> elements ports_h
                        end in
  (if bool_decide (0 < length actions_groups) then [actions_groups] else []) ++
  (if bool_decide (0 < length actions_outputs) then [actions_outputs] else []) ++
  (if bool_decide (1 < length actions_remove_tag) then [actions_remove_tag] else []).

(** [_install_actions]: one flow-mod per action list, then the removal of
    the tables a longer previous pipeline had. *)
Definition _install_actions (switch_id : node) (prio : Z) (current_tables : nat)
    (mtch : ofp_match) (actions : list (list action)) : M unit :=
  for_each (seq 0 (length actions)) (λ i,
    let instr :=
      OFPInstructionActions (default [] (actions !! i)) ::
      (if bool_decide (i < length actions - 1) then [OFPInstructionGotoTable (i + 1)]
       else []) in
    let command :=
      if bool_decide (i < current_tables) then OFPFC_MODIFY_STRICT else OFPFC_ADD in
    send_msg switch_id (OFPFlowMod i command prio mtch instr)) ;;;
  for_each (seq (length actions) (current_tables - length actions)) (λ i,
    send_msg switch_id (OFPFlowMod i OFPFC_DELETE_STRICT prio mtch [])).

Definition set_flows (sw : switch) (f : gmap flow_key (gset Z * gset Z * nat)) : switch :=
  {| flows := f; FF_groups := FF_groups sw; buckets := buckets sw;
     group_id_index := group_id_index sw |}.

Definition set_FF_groups (sw : switch) (f : gmap (Z * flow_key) (list (Z * nat))) : switch :=
  {| flows := flows sw; FF_groups := f; buckets := buckets sw;
     group_id_index := group_id_index sw |}.

Definition set_buckets (sw : switch) (b : gmap Z (list bucket)) : switch :=
  {| flows := flows sw; FF_groups := FF_groups sw; buckets := b;
     group_id_index := group_id_index sw |}.

Definition set_group_id_index (sw : switch) (i : Z) : switch :=
  {| flows := flows sw; FF_groups := FF_groups sw; buckets := buckets sw;
     group_id_index := i |}.

(** [in_port = None if prev_switch_id is None else
    self.network[prev_switch_id][switch_id]['dst_port']] *)
Definition in_port_of (prev_switch_id : option node) (switch_id : node) : M (option Z) :=
  match prev_switch_id with
  | None => ret None
  | Some prev => let! e := get_edge prev switch_id in ret (Some (dst_port e))
  end.

(** [add_flow(switch_id, dst_address, dsts, multicast, src_address, tag,
    forced, prev_switch_id)] *)
Definition add_flow (switch_id : node) (dst_address : Z) (dsts : list node)
    (multicast : bool) (src_address : Z) (tag : option Z) (forced : bool)
    (prev_switch_id : option node) : M unit :=
  let! _ := get_switch switch_id in
  let key := _get_key multicast dst_address src_address tag prev_switch_id in
  let! (ports_s, ports_h) := _get_ports switch_id dsts in
  let! in_port := in_port_of prev_switch_id switch_id in
  let! sw := get_switch switch_id in
  let '(install, current_tables, ports_s, ports_h) :=
    match flows sw !! key with
    | Some (current_s, current_h, current_tables) =>
        if bool_decide (0 < size current_s) || bool_decide (0 < size current_h) then
          if forced then
            (true, current_tables, ports_s ∪ current_s, ports_h ∪ current_h)
          else if bool_decide (ports_s ⊆ current_s) then
            if bool_decide (ports_h ⊆ current_h) then
              (false, current_tables, ports_s, ports_h)
            else (true, current_tables, ports_s ∪ current_s, ports_h ∪ current_h)
          else (true, current_tables, ports_s ∪ current_s, ports_h ∪ current_h)
        else (true, 0, ports_s, ports_h)
    | None => (true, 0, ports_s, ports_h)
    end in
  if install then
    let! mtch := _get_match dst_address src_address multicast tag in_port in
    let prio := _get_priority tag in_port in
    let actions := _get_actions (FF_groups sw) key tag ports_s ports_h in
    _install_actions switch_id prio current_tables mtch actions ;;;
    let! sw := get_switch switch_id in
    set_switch switch_id
      (set_flows sw (<[key := (ports_s, ports_h, length actions)]> (flows sw))) ;;;
    log (LogAddedFlow switch_id ports_s ports_h) ;;;
    log (LogDestination dst_address) ;;;
    match tag with
    | Some t => log (LogTag t)
    | None => ret tt
    end
  else ret tt.

(** [_add_group(switch_id, buckets)] *)
Definition _add_group (switch_id : node) (bkts : list ofp_bucket) : M Z :=
  let! sw := get_switch switch_id in
  let g_id := group_id_index sw in
  send_msg switch_id (OFPGroupMod OFPGC_ADD g_id bkts) ;;;
  log (LogAddedGroup g_id switch_id) ;;;
  let g_index := (g_id + 1)%Z in
  let g_index := if bool_decide (g_index < 1)%Z then 1%Z else g_index in
  let! sw := get_switch switch_id in
  set_switch switch_id (set_group_id_index sw g_index) ;;;
  ret g_id.

(** [_add_FF_group(switch_id, g_key, port, tag)] *)
Definition _add_FF_group (switch_id : node) (g_key : Z * flow_key) (port : Z)
    (tag : option Z) : M unit :=
  let! _ := get_switch switch_id in
  let bkts := [OFPBucket (Port port) [OFPActionOutput port]] in
  let! g_id := _add_group switch_id bkts in
  let! sw := get_switch switch_id in
  set_switch switch_id (set_FF_groups sw (<[g_key := [(g_id, 0)]]> (FF_groups sw))) ;;;
  let! sw := get_switch switch_id in
  set_switch switch_id
    (set_buckets sw (<[g_id := [(Port port, tag, false)]]> (buckets sw))).

(** [del d[k]]: [KeyError] on a missing key. *)
Definition del_FF_group (switch_id : node) (k : Z * flow_key) : M unit :=
  let! sw := get_switch switch_id in
  match FF_groups sw !! k with
  | Some _ => set_switch switch_id (set_FF_groups sw (delete k (FF_groups sw)))
  | None => raise KeyError
  end.

(** A bucket port used in a dictionary key: a port list is unhashable. *)
Definition hashable_port (p : bport) : M Z :=
  match p with
  | Port p => ret p
  | PortList _ => raise TypeError
  end.

(** [for i in range(len(g_buckets)-1,0,-1)]: from the last bucket down to
    the second, unregister the live ones and stop at the first drop-marked
    one. The argument is that range of buckets, last first. *)
Fixpoint unregister_live (switch_id : node) (dst_address src_address : Z)
    (prev_switch_id : option node) (bs : list bucket) : M unit :=
  match bs with
  | [] => ret tt
  | (port, tag, drop) :: rest =>
      if drop then ret tt
      else
        let! p := hashable_port port in
        del_FF_group switch_id
          (_get_FF_key p (_get_key true dst_address src_address tag prev_switch_id)) ;;;
        unregister_live switch_id dst_address src_address prev_switch_id rest
  end.

(** [for i in range(0,len(first_groups)): if first_groups[i][0] == g_id:
    first_groups.pop(i)]. The range is fixed before the loop, so an index
    past the end of the shortened list raises [IndexError]; the list keeps
    what was popped until then. *)
Fixpoint pop_group (n i : nat) (l : list (Z * nat)) (g_id : Z)
  : list (Z * nat) * bool :=
  match n with
  | O => (l, true)
  | S n' =>
      match l !! i with
      | None => (l, false)
      | Some (g, _) =>
          pop_group n' (S i) (if decide (g = g_id) then delete i l else l) g_id
      end
  end.

(** [_remove_FF_group(switch_id, g_id, dst_address, src_address, prev_switch_id)] *)
Definition _remove_FF_group (switch_id : node) (g_id : Z)
    (dst_address src_address : Z) (prev_switch_id : option node) : M unit :=
  let! _ := get_switch switch_id in
  send_msg switch_id (OFPGroupMod OFPGC_DELETE g_id []) ;;;
  let! sw := get_switch switch_id in
  let! g_buckets := lookup_or_raise KeyError (buckets sw !! g_id) in
  unregister_live switch_id dst_address src_address prev_switch_id
    (reverse (drop 1 g_buckets)) ;;;
  let! first_bucket := lookup_or_raise IndexError (g_buckets !! 0) in
  let '(f_port, f_tag, _) := first_bucket in
  let! f_p := hashable_port f_port in
  let f_g_key :=
    _get_FF_key f_p (_get_key true dst_address src_address f_tag prev_switch_id) in
  let! sw := get_switch switch_id in
  let! first_groups := lookup_or_raise KeyError (FF_groups sw !! f_g_key) in
  let '(first_groups', ok) := pop_group (length first_groups) 0 first_groups g_id in
  set_switch switch_id (set_FF_groups sw (<[f_g_key := first_groups']> (FF_groups sw))) ;;;
  (if ok then ret tt else raise IndexError) ;;;
  (if bool_decide (length first_groups' = 0) then del_FF_group switch_id f_g_key
   else ret tt) ;;;
  let! sw := get_switch switch_id in
  match buckets sw !! g_id with
  | Some _ => set_switch switch_id (set_buckets sw (delete g_id (buckets sw)))
  | None => raise KeyError
  end ;;;
  log (LogRemovedGroup g_id switch_id).

(** The key under which [_remove_FF_group] will look for the list of copies
    of group [g_id]. *)
Definition first_key (sw : switch) (g_id : Z) (dst_address src_address : Z)
    (prev_switch_id : option node) : option (Z * flow_key) :=
  match buckets sw !! g_id with
  | Some ((Port p, t, _) :: _) =>
      Some (_get_FF_key p (_get_key true dst_address src_address t prev_switch_id))
  | _ => None
  end.

(** [for g_id,index in FF_groups[g_key]: self._remove_FF_group(...)].
    The list being iterated is the object stored under [g_key], and the body
    pops from it or deletes its key. [cur] is the content of that object,
    [i] the position of the iterator, [attached] whether the object is still
    the one stored under [g_key]. Once its key is deleted the object is out
    of reach: it is empty when the body deleted the key after popping its
    last entry (the body's own list of copies), unchanged otherwise. *)
Fixpoint remove_groups_of (n i : nat) (cur : list (Z * nat)) (attached : bool)
    (switch_id : node) (g_key : Z * flow_key) (dst_address src_address : Z)
    (prev_switch_id : option node) : M unit :=
  match n with
  | O => ret tt
  | S n' =>
      match cur !! i with
      | None => ret tt
      | Some (g_id, _) =>
          let! sw0 := get_switch switch_id in
          let fk := first_key sw0 g_id dst_address src_address prev_switch_id in
          _remove_FF_group switch_id g_id dst_address src_address prev_switch_id ;;;
          let! sw := get_switch switch_id in
          let '(cur', attached') :=
            if attached then
              match FF_groups sw !! g_key with
              | Some l => (l, true)
              | None => (if decide (fk = Some g_key) then [] else cur, false)
              end
            else (cur, false) in
          remove_groups_of n' (S i) cur' attached' switch_id g_key
            dst_address src_address prev_switch_id
      end
  end.

(** [for port in ports: g_key = (port, key); if g_key in FF_groups: ...] *)
Definition remove_relevant_groups (switch_id : node) (ports : list Z)
    (key : flow_key) (dst_address src_address : Z) (prev_switch_id : option node)
  : M unit :=
  for_each ports (λ port,
    let g_key := _get_FF_key port key in
    let! sw := get_switch switch_id in
    match FF_groups sw !! g_key with
    | Some l =>
        remove_groups_of (length l) 0 l true switch_id g_key
          dst_address src_address prev_switch_id
    | None => ret tt
    end).

(** The [dsts] argument of [remove_flow]: the string ['all'] or a list. *)
Inductive dsts_arg :=
| All
| Dsts (l : list node).

(** [remove_flow(switch_id, dst_address, dsts, multicast, src_address, tag,
    prev_switch_id)] *)
Definition remove_flow (switch_id : node) (dst_address : Z) (dsts : dsts_arg)
    (multicast : bool) (src_address : Z) (tag : option Z)
    (prev_switch_id : option node) : M unit :=
  let! _ := get_switch switch_id in
  let key := _get_key multicast dst_address src_address tag prev_switch_id in
  let! in_port := in_port_of prev_switch_id switch_id in
  let! sw := get_switch switch_id in
  match flows sw !! key with
  | None =>
      log (LogRemoveMissingFlow switch_id) ;;;
      match tag with
      | Some t => log (LogTag t)
      | None => ret tt
      end
  | Some (current_s, current_h, current_tables) =>
      let prio := _get_priority tag in_port in
      (* [ports] stays unbound when [dsts == 'all'] *)
      let! (ports, other_s, other_h) :=
        match dsts with
        | All => ret (None, ∅, ∅)
        | Dsts l =>
            let! (ports_s, ports_h) := _get_ports switch_id l in
            ret (Some (ports_s, ports_h), current_s ∖ ports_s, current_h ∖ ports_h)
        end in
      let! mtch := _get_match dst_address src_address multicast tag in_port in
      let! sw := get_switch switch_id in
      (if bool_decide (size other_s = 0) && bool_decide (size other_h = 0) then
         (* the flow-mod names no table: ryu's default [table_id=0] *)
         for_each (seq 0 current_tables) (λ _,
           send_msg switch_id (OFPFlowMod 0 OFPFC_DELETE_STRICT prio mtch [])) ;;;
         set_switch switch_id (set_flows sw (delete key (flows sw)))
       else
         let actions := _get_actions (FF_groups sw) key tag other_s other_h in
         _install_actions switch_id prio current_tables mtch actions ;;;
         set_switch switch_id
           (set_flows sw (<[key := (other_s, other_h, length actions)]> (flows sw)))) ;;;
      remove_relevant_groups switch_id
        match ports with
        | None => elements current_s
        | Some (ports_s, _) => filter (λ p, p ∈ current_s) (elements ports_s)
        end
        key dst_address src_address prev_switch_id ;;;
      match ports with
      | None => raise UnboundLocalError
      | Some (ports_s, ports_h) =>
          log (LogRemovedFlow switch_id ports_s ports_h) ;;;
          log (LogDestination dst_address) ;;;
          match tag with
          | Some t => log (LogTag t)
          | None => ret tt
          end
      end
  end.

(** [_parse_buckets_list(in_port, buckets, dp)] *)
Definition output_or_in_port (in_port p : Z) : action :=
  OFPActionOutput (if decide (p = in_port) then OFPP_IN_PORT else p).

Fixpoint parse_buckets (in_port : Z) (tagged first : bool) (bkts : list bucket)
  : list ofp_bucket :=
  match bkts with
  | [] => []
  | (port, tag, drop) :: rest =>
      let parsed :=
        if drop then OFPBucket port []
        else
          let vlan :=
            match tag with
            | Some t =>
                if first then []
                else (if tagged then [] else [OFPActionPushVlan]) ++
                     [OFPActionSetField_vlan_vid (Z.lor 0x1000 t)]
            | None => []
            end in
          match port with
          | PortList l =>
              OFPBucket (Port in_port) (vlan ++ (output_or_in_port in_port <$> l))
          | Port p => OFPBucket (Port p) (vlan ++ [output_or_in_port in_port p])
          end in
      parsed :: parse_buckets in_port tagged false rest
  end.

Definition _parse_buckets_list (in_port : Z) (bkts : list bucket) : list ofp_bucket :=
  match bkts with
  | [] => []
  | (_, t0, _) :: _ => parse_buckets in_port (is_some t0) true bkts
  end.

Definition set_bucket_list (switch_id : node) (g_id : Z) (l : list bucket) : M unit :=
  let! sw := get_switch switch_id in
  set_switch switch_id (set_buckets sw (<[g_id := l]> (buckets sw))).

Definition set_FF_entry (switch_id : node) (k : Z * flow_key) (l : list (Z * nat))
  : M unit :=
  let! sw := get_switch switch_id in
  set_switch switch_id (set_FF_groups sw (<[k := l]> (FF_groups sw))).

(** [in_port = 0 if prev_switch_id is None else
    self.network[prev_switch_id][switch_id]['dst_port']] *)
Definition in_port_or_zero (prev_switch_id : option node) (switch_id : node) : M Z :=
  match prev_switch_id with
  | None => ret 0%Z
  | Some prev => let! e := get_edge prev switch_id in ret (dst_port e)
  end.

(** [add_backup(prev_switch_id, switch_id, dst_address, dst, backup_dst,
    src_address, tag, tag_origin, needs_backup, in_port_flow)].
    A port list copied into a cloned group is copied by value. *)
Definition add_backup (prev_switch_id : option node) (switch_id : node)
    (dst_address : Z) (dst backup_dst : node) (src_address : Z)
    (tag tag_origin : option Z) (needs_backup in_port_flow : bool) : M unit :=
  let! _ := get_switch switch_id in
  let! in_port := in_port_or_zero prev_switch_id switch_id in
  let prev_switch_id := if in_port_flow then prev_switch_id else None in
  let key_origin := _get_key true dst_address src_address tag_origin prev_switch_id in
  let key_backup := _get_key true dst_address src_address tag prev_switch_id in
  let! e := get_edge switch_id dst in
  let port := src_port e in
  let! e' := get_edge switch_id backup_dst in
  let backup_port := src_port e' in
  log (LogAddingBackup backup_dst dst switch_id prev_switch_id) ;;;
  let b_g_key := _get_FF_key backup_port key_backup in
  let! sw := get_switch switch_id in
  if is_some (FF_groups sw !! b_g_key) then log LogBackupAlreadyInstalled
  else
    let g_key := _get_FF_key port key_origin in
    (if is_some (FF_groups sw !! g_key) then ret tt
     else
       _add_FF_group switch_id g_key port tag_origin ;;;
       add_flow switch_id dst_address [] true src_address tag_origin true
         prev_switch_id) ;;;
    let! sw := get_switch switch_id in
    let! groups := lookup_or_raise KeyError (FF_groups sw !! g_key) in
    let! (base_id, index) := lookup_or_raise IndexError (groups !! 0) in
    let! base_group := lookup_or_raise KeyError (buckets sw !! base_id) in
    (if bool_decide (length base_group = index + 1) then
       (* no backup at this level yet *)
       let base_group' := base_group ++ [(Port backup_port, tag, false)] in
       set_bucket_list switch_id base_id base_group' ;;;
       send_msg switch_id
         (OFPGroupMod OFPGC_MODIFY base_id (_parse_buckets_list in_port base_group')) ;;;
       set_FF_entry switch_id b_g_key [(base_id, index + 1)]
     else if negb needs_backup then
       (* output to several ports in the last bucket *)
       let! (port_list, t, d) := lookup_or_raise IndexError (base_group !! (index + 1)) in
       let entry :=
         match port_list with
         | PortList l => (PortList (l ++ [backup_port]), t, d)
         | Port p => (PortList [p; backup_port], tag, false)
         end in
       let base_group' := <[index + 1 := entry]> base_group in
       set_bucket_list switch_id base_id base_group' ;;;
       send_msg switch_id
         (OFPGroupMod OFPGC_MODIFY base_id (_parse_buckets_list in_port base_group')) ;;;
       set_FF_entry switch_id b_g_key [(base_id, index)]
     else
       (* a backup exists already: a new group, the levels above dropped *)
       (if bool_decide (index + 1 ≤ length base_group) then ret tt
        else raise IndexError) ;;;
       let b_group :=
         ((λ b : bucket, (b.1.1, b.1.2, true)) <$> take (index + 1) base_group) ++
         [(Port backup_port, tag, false)] in
       let! g_id := _add_group switch_id (_parse_buckets_list in_port b_group) in
       set_bucket_list switch_id g_id b_group ;;;
       let! first_bucket := lookup_or_raise IndexError (b_group !! 0) in
       let '(f_port, f_tag, _) := first_bucket in
       let! f_p := hashable_port f_port in
       let f_g_key :=
         _get_FF_key f_p (_get_key true dst_address src_address f_tag prev_switch_id) in
       let! sw := get_switch switch_id in
       let! copies := lookup_or_raise KeyError (FF_groups sw !! f_g_key) in
       set_FF_entry switch_id f_g_key (copies ++ [(g_id, 0)]) ;;;
       set_FF_entry switch_id b_g_key [(g_id, index + 1)] ;;;
       add_flow switch_id dst_address [] true src_address f_tag true prev_switch_id) ;;;
    log (LogAddedBackup dst switch_id) ;;;
    log (LogFromTagToTag tag_origin tag).

(** [for g_id,index in FF_groups[f_g_key]: ...]: collects the copies whose
    bucket at their own [index] holds the backup port and tag. The loop
    variable [index] outlives the loop: its last value is returned. *)
Fixpoint scan_copies (sw : switch) (backup_port : Z) (tag : option Z)
    (copies : list (Z * nat)) (rem_groups : list Z) (index : nat)
  : M (list Z * nat) :=
  match copies with
  | [] => ret (rem_groups, index)
  | (g_id, index) :: rest =>
      let! group := lookup_or_raise KeyError (buckets sw !! g_id) in
      let! (bp, bt, _) := lookup_or_raise IndexError (group !! index) in
      let hit :=
        match bp with
        | Port p => bool_decide (p = backup_port)
        | PortList l => bool_decide (backup_port ∈ l)
        end && bool_decide (bt = tag) in
      scan_copies sw backup_port tag rest
        (if hit then rem_groups ++ [g_id] else rem_groups) index
  end.

(** [for i in range(index,len(group)): ... del FF_groups[g_k]] *)
Fixpoint unregister_from (switch_id : node) (dst_address src_address : Z)
    (prev_switch_id : option node) (bs : list bucket) : M unit :=
  match bs with
  | [] => ret tt
  | (p, t, d) :: rest =>
      (if d then ret tt
       else
         let! hp := hashable_port p in
         del_FF_group switch_id
           (_get_FF_key hp (_get_key true dst_address src_address t prev_switch_id))) ;;;
      unregister_from switch_id dst_address src_address prev_switch_id rest
  end.

(** The body of [for g_id in rem_groups]; returns the new [removed_group]. *)
Fixpoint remove_backup_groups (switch_id : node) (dst_address src_address : Z)
    (prev_switch_id : option node) (in_port : Z) (index : nat)
    (rem_groups : list Z) (removed_group : bool) : M bool :=
  match rem_groups with
  | [] => ret removed_group
  | g_id :: rest =>
      let! sw := get_switch switch_id in
      let! group := lookup_or_raise KeyError (buckets sw !! g_id) in
      let! can_remove :=
        match index with
        | O => ret true
        | S i =>
            let! (_, _, d) := lookup_or_raise IndexError (group !! i) in ret d
        end in
      if can_remove then
        _remove_FF_group switch_id g_id dst_address src_address prev_switch_id ;;;
        remove_backup_groups switch_id dst_address src_address prev_switch_id
          in_port index rest true
      else
        (* [isinstance(group[index], list)] is false: the entry is a tuple *)
        let! _ := lookup_or_raise IndexError (group !! index) in
        unregister_from switch_id dst_address src_address prev_switch_id
          (drop index group) ;;;
        set_bucket_list switch_id g_id (take index group) ;;;
        send_msg switch_id
          (OFPGroupMod OFPGC_MODIFY g_id (_parse_buckets_list in_port (take index group))) ;;;
        remove_backup_groups switch_id dst_address src_address prev_switch_id
          in_port index rest removed_group
  end.

(** [remove_backup(prev_switch_id, switch_id, dst_address, dst, backup_dst,
    src_address, tag, in_port_flow)]; [dst] is [None] when the caller has no
    origin destination to hand in. *)
Definition remove_backup (prev_switch_id : option node) (switch_id : node)
    (dst_address : Z) (dst : option node) (backup_dst : node) (src_address : Z)
    (tag : option Z) (in_port_flow : bool) : M unit :=
  let! _ := get_switch switch_id in
  let! in_port := in_port_or_zero prev_switch_id switch_id in
  let prev_switch_id := if in_port_flow then prev_switch_id else None in
  let key_backup := _get_key true dst_address src_address tag prev_switch_id in
  let! d := lookup_or_raise KeyError dst in
  let! _ := get_edge switch_id d in
  let! e' := get_edge switch_id backup_dst in
  let backup_port := src_port e' in
  log (LogRemovingBackup backup_dst d switch_id) ;;;
  let b_g_key := _get_FF_key backup_port key_backup in
  let! sw := get_switch switch_id in
  match FF_groups sw !! b_g_key with
  | None => log LogBackupNotInstalled
  | Some entries =>
      let! (base_id, index) := lookup_or_raise IndexError (entries !! 0) in
      let! base_group := lookup_or_raise KeyError (buckets sw !! base_id) in
      let! (f_port, f_tag, _) := lookup_or_raise IndexError (base_group !! 0) in
      let! (rem_groups, index) :=
        (if bool_decide (length base_group = index + 1) then ret ([base_id], index)
         else
           let! f_p := hashable_port f_port in
           let f_g_key :=
             _get_FF_key f_p
               (_get_key true dst_address src_address f_tag prev_switch_id) in
           let! copies := lookup_or_raise KeyError (FF_groups sw !! f_g_key) in
           scan_copies sw backup_port tag copies [] index) in
      let! removed_group :=
        remove_backup_groups switch_id dst_address src_address prev_switch_id
          in_port index rem_groups false in
      (if removed_group then
         add_flow switch_id dst_address [] true src_address f_tag true prev_switch_id
       else ret tt) ;;;
      log (LogRemovedBackup backup_dst d switch_id)
  end.

(** ** AbstractTreeBuilder *)

Definition max_vid : Z := 4094.

Definition get_tree (h : handle) : M tree :=
  let! s := get_state in lookup_or_raise KeyError (heap s !! h).

Definition set_tree (h : handle) (T : tree) : M unit :=
  λ s, (Ret tt, {| network := network s; node_attrs := node_attrs s;
                   ip_2_mac := ip_2_mac s; sent := sent s; logs := logs s;
                   groups := groups s; heap := <[h := T]> (heap s);
                   next_handle := next_handle s |}).

Definition set_groups (g : gmap (Z * Z) handle) : M unit :=
  λ s, (Ret tt, {| network := network s; node_attrs := node_attrs s;
                   ip_2_mac := ip_2_mac s; sent := sent s; logs := logs s;
                   groups := g; heap := heap s; next_handle := next_handle s |}).

(** A fresh object. *)
Definition alloc : M handle :=
  λ s, (Ret (next_handle s),
        {| network := network s; node_attrs := node_attrs s;
           ip_2_mac := ip_2_mac s; sent := sent s; logs := logs s;
           groups := groups s; heap := heap s;
           next_handle := S (next_handle s) |}).

Definition set_adj (T : tree) (a : gmap node (gmap node (option handle))) : tree :=
  {| t_adj := a; t_root := t_root T; t_parent := t_parent T;
     t_primary := t_primary T; t_predecessor_switch := t_predecessor_switch T;
     t_tag := t_tag T; t_tag_index := t_tag_index T |}.

Definition set_tag_index (T : tree) (i : Z) : tree :=
  {| t_adj := t_adj T; t_root := t_root T; t_parent := t_parent T;
     t_primary := t_primary T; t_predecessor_switch := t_predecessor_switch T;
     t_tag := t_tag T; t_tag_index := Some i |}.

(** [_create_tree(switch_id, parent, predecessor_switch)] *)
Definition _create_tree (switch_id : node) (parent : option handle)
    (predecessor_switch : option node) : M handle :=
  let! h := alloc in
  match parent with
  | None =>
      set_tree h {| t_adj := {[switch_id := ∅]}; t_root := switch_id;
                    t_parent := None; t_primary := h;
                    t_predecessor_switch := predecessor_switch;
                    t_tag := None; t_tag_index := Some 1%Z |} ;;;
      ret h
  | Some p =>
      let! pt := get_tree p in
      let primary := t_primary pt in
      let! primt := get_tree primary in
      let! tag := lookup_or_raise KeyError (t_tag_index primt) in
      set_tree h {| t_adj := {[switch_id := ∅]}; t_root := switch_id;
                    t_parent := Some p; t_primary := primary;
                    t_predecessor_switch := predecessor_switch;
                    t_tag := Some tag; t_tag_index := None |} ;;;
      let tag' := (tag + 1)%Z in
      let tag' := if bool_decide (max_vid < tag')%Z then 1%Z else tag' in
      set_tree primary (set_tag_index primt tag') ;;;
      ret h
  end.

(** [_undo_tree(tree)] *)
Definition _undo_tree (h : handle) : M unit :=
  let! T := get_tree h in
  match t_parent T with
  | None => ret tt
  | Some _ =>
      let primary := t_primary T in
      let! primt := get_tree primary in
      let! tag := lookup_or_raise KeyError (t_tag_index primt) in
      let tag' := (tag - 1)%Z in
      let tag' := if bool_decide (tag' < 1)%Z then max_vid else tag' in
      set_tree primary (set_tag_index primt tag')
  end.

(** [create_group(ip_group, ip_source, switch_id)] *)
Definition create_group (ip_group ip_source : Z) (switch_id : node) : M unit :=
  let key := (ip_group, ip_source) in
  let! s := get_state in
  match groups s !! key with
  | Some _ => log (LogGroupAlreadyCreated key)
  | None =>
      let! h := _create_tree switch_id None None in
      let! s := get_state in
      set_groups (<[key := h]> (groups s)) ;;;
      log (LogCreatedNewGroup key)
  end.

(** The type of a join strategy ([SPT.join], [DST.join]). *)
Definition join_fn : Type :=
  gmap node (gmap node edata) → gset edge → tree → node → outcome (list node).

Definition lift_outcome {A} (o : outcome A) : M A :=
  match o with
  | Ret a => ret a
  | Raise e => raise e
  | Diverge => diverge
  end.

(** [self.join(network, exclude, T, v)] on the tree object [T]. *)
Definition call_join (join : join_fn) (exclude : gset edge) (T : handle) (v : node)
  : M (list node) :=
  let! s := get_state in
  let! t := get_tree T in
  lift_outcome (join (network s) exclude t v).

(** [tree.add_edge(u, v, backup=None)] *)
Definition tree_add_edge (T : handle) (u v : node) : M unit :=
  let! t := get_tree T in
  set_tree T (set_adj t (nx.add_edge (t_adj t) u v None)).

(** [T[x][y]['backup'] = b] on an existing edge. *)
Definition tree_set_backup (T : handle) (x y : node) (b : option handle) : M unit :=
  let! t := get_tree T in
  let! nb := lookup_or_raise KeyError (t_adj t !! x) in
  let! _ := lookup_or_raise KeyError (nb !! y) in
  set_tree T (set_adj t (<[x := <[y := b]> nb]> (t_adj t))).

(** The pairs [(path[i-1], path[i])] for [i] in [range(1, len(path))]. *)
Definition consecutive (path : list node) : list (node * node) :=
  zip path (drop 1 path).

(** ** PerLinkTreeBuilder *)

(** The loop of [_add_path], over the pairs from the tail of the path to
    its head. *)
Fixpoint _add_path_loop (ip_group ip_source : Z) (T : handle) (tag : option Z)
    (pairs : list (node * node)) : M unit :=
  match pairs with
  | [] => ret tt
  | (prev, cur) :: rest =>
      let! t := get_tree T in
      if negb (nx.has_node (t_adj t) prev) || negb (nx.has_edge (t_adj t) prev cur) then
        add_flow prev ip_group [cur] true ip_source tag false None ;;;
        tree_add_edge T prev cur ;;;
        _add_path_loop ip_group ip_source T tag rest
      else ret tt
  end.

(** [_add_path(ip_group, ip_source, tree, path, needs_backup)] *)
Definition _add_path (ip_group ip_source : Z) (T : handle) (path : list node)
    (needs_backup : bool) : M unit :=
  let! t := get_tree T in
  _add_path_loop ip_group ip_source T (t_tag t) (reverse (consecutive path)).

Definition _remove_flow (src dst : node) (ip_group ip_source : Z) (T : handle) : M unit :=
  let! t := get_tree T in
  remove_flow src ip_group (Dsts [dst]) true ip_source (t_tag t) None.

Definition _remove_backup (predecessor : option node) (src : node)
    (orig_dst : option node) (dst : node) (ip_group ip_source : Z) (tag : option Z)
  : M unit :=
  remove_backup predecessor src ip_group orig_dst dst ip_source tag false.

(** [list(T.predecessors(cur))[0]] *)
Definition first_predecessor (T : handle) (cur : node) : M node :=
  let! t := get_tree T in
  if nx.has_node (t_adj t) cur then
    match nx.predecessors (t_adj t) cur with
    | [] => raise IndexError
    | p :: _ => ret p
    end
  else raise NetworkXError.

(** [T.out_degree(cur)] *)
Definition tree_out_degree (T : handle) (cur : node) : M nat :=
  let! t := get_tree T in
  lookup_or_raise KeyError (nx.out_degree (t_adj t) cur).

(** First walk of [_leave]: prune the chain that only leads to [v]. *)
Fixpoint leave_prune (fuel : nat) (T : handle) (cur : node)
    (ip_group ip_source : Z) (origin_dst : option node) : M unit :=
  match fuel with
  | O => diverge
  | S fuel' =>
      let! t := get_tree T in
      let! deg := tree_out_degree T cur in
      if bool_decide (deg ≤ 1) && negb (bool_decide (cur = t_root t)) then
        let! pre := first_predecessor T cur in
        (if negb (bool_decide (pre = t_root t)) || negb (is_some (t_parent t)) then
           _remove_flow pre cur ip_group ip_source T
         else
           _remove_backup (t_predecessor_switch t) pre origin_dst cur
             ip_group ip_source (t_tag t)) ;;;
        leave_prune fuel' T pre ip_group ip_source origin_dst
      else ret tt
  end.

(** Second walk: leave the backup of every edge on the way up. [rec] is
    [_leave] itself. *)
Fixpoint leave_backups (rec : handle → option node → M unit) (fuel : nat)
    (T : handle) (cur : node) : M unit :=
  match fuel with
  | O => diverge
  | S fuel' =>
      let! t := get_tree T in
      if bool_decide (cur = t_root t) then ret tt
      else
        let! pre := first_predecessor T cur in
        let! t := get_tree T in
        let! backup := lookup_or_raise KeyError (nx.edge_data (t_adj t) pre cur) in
        match backup with
        | Some b => rec b (Some cur)
        | None => ret tt
        end ;;;
        leave_backups rec fuel' T pre
  end.

(** Third walk: remove the nodes that have no successor left. *)
Fixpoint leave_collect (fuel : nat) (T : handle) (cur : node) : M unit :=
  match fuel with
  | O => diverge
  | S fuel' =>
      let! t := get_tree T in
      let! deg := tree_out_degree T cur in
      if bool_decide (deg = 0) && negb (bool_decide (cur = t_root t)) then
        let! pre := first_predecessor T cur in
        let! t := get_tree T in
        let! a := lookup_or_raise NetworkXError (nx.remove_node (t_adj t) cur) in
        set_tree T (set_adj t a) ;;;
        leave_collect fuel' T pre
      else ret tt
  end.

(** [_leave(T, v, ip_group, ip_source, origin_dst)]; it returns [None]. *)
Fixpoint _leave (fuel : nat) (T : handle) (v : node) (ip_group ip_source : Z)
    (origin_dst : option node) : M unit :=
  match fuel with
  | O => diverge
  | S fuel' =>
      let! t := get_tree T in
      if negb (nx.has_node (t_adj t) v) || bool_decide (v = t_root t) then ret tt
      else
        leave_prune fuel' T v ip_group ip_source origin_dst ;;;
        leave_backups (λ b od, _leave fuel' b v ip_group ip_source od) fuel' T v ;;;
        leave_collect fuel' T v
  end.

(** An entry [(path, T, down)] of the work queue. *)
Definition item : Type := list node * handle * gset edge.

(** The triples [(path[i-2] if i >= 2 else None, path[i-1], path[i])] for
    [i] in [range(1, len(path))]. *)
Definition protected_edges (path : list node) : list (option node * node * node) :=
  zip (zip (None :: (Some <$> path)) path) (drop 1 path).

(** The body of [for i in range(1, len(path))] in [_process_request];
    returns what it appends to the queue. *)
Definition protect_edge (join : join_fn) (F : nat) (v : node) (ip_group ip_source : Z)
    (T : handle) (down : gset edge) (pxy : option node * node * node)
  : M (list item) :=
  let '(before_x, x, y) := pxy in
  let! t := get_tree T in
  let predecessor :=
    match before_x with
    | Some p => Some p
    | None => t_predecessor_switch t
    end in
  let! b := lookup_or_raise KeyError (nx.edge_data (t_adj t) x y) in
  let! backup :=
    match b with
    | Some h => ret h
    | None =>
        let! h := _create_tree x (Some T) predecessor in
        tree_set_backup T x y (Some h) ;;;
        ret h
    end in
  let L : gset edge := down ∪ {[(x, y)]} ∪ {[(y, x)]} in
  let! b_path := call_join join L backup v in
  if bool_decide (0 < length b_path) then
    let not_done := bool_decide (size L / 2 < F) in
    let! next := lookup_or_raise IndexError (b_path !! 1) in
    let! bt := get_tree backup in
    let! bx := lookup_or_raise KeyError (t_adj bt !! x) in
    (if is_some (bx !! next) then ret tt
     else
       let! t := get_tree T in
       add_backup predecessor x ip_group y next ip_source (t_tag bt) (t_tag t)
         not_done false ;;;
       tree_add_edge backup x next) ;;;
    _add_path ip_group ip_source backup (drop 1 b_path) not_done ;;;
    ret (if not_done then [(b_path, backup, L)] else [])
  else
    log (LogNoBackupPath x v) ;;;
    let! bt := get_tree backup in
    (if bool_decide (nx.number_of_edges (t_adj bt) = 0) then
       tree_set_backup T x y None ;;;
       _undo_tree backup
     else ret tt) ;;;
    ret [].

Fixpoint protect_path (join : join_fn) (F : nat) (v : node) (ip_group ip_source : Z)
    (T : handle) (down : gset edge) (edges : list (option node * node * node))
  : M (list item) :=
  match edges with
  | [] => ret []
  | pxy :: rest =>
      let! new := protect_edge join F v ip_group ip_source T down pxy in
      let! more := protect_path join F v ip_group ip_source T down rest in
      ret (new ++ more)
  end.

(** [while len(queue) > 0: ...] *)
Fixpoint process_queue (fuel : nat) (join : join_fn) (F : nat) (v : node)
    (ip_group ip_source : Z) (queue : list item) : M unit :=
  match fuel with
  | O => diverge
  | S fuel' =>
      match queue with
      | [] => ret tt
      | (path, T, down) :: rest =>
          let! new :=
            protect_path join F v ip_group ip_source T down (protected_edges path) in
          process_queue fuel' join F v ip_group ip_source (rest ++ new)
      end
  end.

(** [_process_request(T, v, r, F, ip_group, ip_source)]: [True], [False],
    or [None] when it hands over to [_leave]. *)
Definition _process_request (fuel : nat) (join : join_fn) (T : handle) (v : node)
    (r : bool) (F : nat) (ip_group ip_source : Z) : M (option bool) :=
  if negb r then
    _leave fuel T v ip_group ip_source None ;;; ret None
  else
    let! path := call_join join ∅ T v in
    if bool_decide (length path = 0) then
      let! t := get_tree T in
      log (LogNoPath (t_root t) v) ;;;
      ret (Some false)
    else
      _add_path ip_group ip_source T path (bool_decide (0 < F)) ;;;
      process_queue fuel join F v ip_group ip_source
        (if bool_decide (0 < F) then [(path, T, ∅)] else []) ;;;
      ret (Some true).

(** Python truth of the value [_process_request] returns. *)
Definition truthy (r : option bool) : bool := default false r.

(** [add_subscriber(ip_group, ip_source, subscriber)] *)
Definition add_subscriber (fuel : nat) (join : join_fn) (F : nat)
    (ip_group ip_source : Z) (subscriber : node) : M unit :=
  let key := (ip_group, ip_source) in
  let! s := get_state in
  match groups s !! key with
  | None => log (LogGroupDoesNotExist key)
  | Some T =>
      let! t := get_tree T in
      if nx.has_node (t_adj t) subscriber then log (LogAlreadyAdded subscriber key)
      else
        let! r := _process_request fuel join T subscriber true F ip_group ip_source in
        if truthy r then log (LogAddedToGroup subscriber key) else ret tt
  end.

(** [remove_subscriber(ip_group, ip_source, subscriber)] *)
Definition remove_subscriber (fuel : nat) (join : join_fn) (F : nat)
    (ip_group ip_source : Z) (subscriber : node) : M unit :=
  let key := (ip_group, ip_source) in
  let! s := get_state in
  match groups s !! key with
  | None => log (LogGroupDoesNotExist key)
  | Some T =>
      let! t := get_tree T in
      if negb (nx.has_node (t_adj t) subscriber) then
        log (LogNotSubscribed subscriber key)
      else
        let! r := _process_request fuel join T subscriber false F ip_group ip_source in
        if truthy r then log (LogRemovedFromGroup subscriber key) else ret tt
  end.

(** [_remove_all_flows(ip_group, ip_source, tree)] *)
Fixpoint _remove_all_flows (fuel : nat) (ip_group ip_source : Z) (T : handle) : M unit :=
  match fuel with
  | O => diverge
  | S fuel' =>
      let! t := get_tree T in
      for_each (map_to_list (t_adj t)) (λ '(n, nb),
        if bool_decide (0 < size nb) then
          remove_flow n ip_group All true ip_source (t_tag t) None ;;;
          for_each (map_to_list nb) (λ '(_, backup),
            match backup with
            | Some b => _remove_all_flows fuel' ip_group ip_source b
            | None => ret tt
            end)
        else ret tt)
  end.

(** [remove_group(ip_group, ip_source)] *)
Definition remove_group (fuel : nat) (ip_group ip_source : Z) : M unit :=
  let key := (ip_group, ip_source) in
  let! s := get_state in
  match groups s !! key with
  | None => log (LogGroupDoesNotExist key)
  | Some T =>
      _remove_all_flows fuel ip_group ip_source T ;;;
      let! s := get_state in
      set_groups (delete key (groups s)) ;;;
      log (LogGroupRemoved key)
  end.

(** ** MulticastController: topology events *)

(** The handlers of ryu's topology events, with the fields they read off
    the event as arguments. Each writes at most one line to the log. These
    lines are not among [log_msg]: a handler hands its line back as its
    result, [None] when it logs nothing. *)
Inductive topology_log :=
| LogAddedSwitch (id : node)
| LogRemovedSwitch (sid : node)
| LogAddedLink (src dst : node)
| LogRemovedLink (src dst : node)
| LogAddedHost (mac switch_id : node).

Definition set_network (G : gmap node (gmap node edata)) : M unit :=
  λ s, (Ret tt, {| network := G; node_attrs := node_attrs s;
                   ip_2_mac := ip_2_mac s; sent := sent s; logs := logs s;
                   groups := groups s; heap := heap s;
                   next_handle := next_handle s |}).

Definition set_node_attr (n : node) (a : node_attr) : M unit :=
  λ s, (Ret tt, {| network := network s; node_attrs := <[n := a]> (node_attrs s);
                   ip_2_mac := ip_2_mac s; sent := sent s; logs := logs s;
                   groups := groups s; heap := heap s;
                   next_handle := next_handle s |}).

(** [list(G.successors(u))] and [G.edges(u)], for a node [u] of [G]. *)
Definition successors {E} (G : gmap node (gmap node E)) (u : node) : list node :=
  match G !! u with
  | Some nb => elements (dom nb)
  | None => []
  end.

Definition edges_of {E} (G : gmap node (gmap node E)) (u : node) : list edge :=
  (λ v, (u, v)) <$> successors G u.

(** [self.network[u][v]['live'] = False] *)
Definition set_dead (u v : node) : M unit :=
  let! s := get_state in
  let! nb := lookup_or_raise KeyError (network s !! u) in
  let! e := lookup_or_raise KeyError (nb !! v) in
  set_network (<[u := <[v := EData (src_port e) (dst_port e) false]> nb]> (network s)).

(** [builder.repair(broken_links)]: its first statement is [return]; the
    loop over the groups below it never runs. *)
Definition repair (broken_links : list edge) : M unit := ret tt.

(** [switchEnter(ev)] with [ev.switch.dp.id = id]: [add_node] with
    attributes creates the node or overwrites the attributes it has. *)
Definition switchEnter (id : node) : M topology_log :=
  let! s := get_state in
  set_network (nx.add_node (network s) id) ;;;
  set_node_attr id (NSwitch (Switch ∅ ∅ ∅ 1)) ;;;
  ret (LogAddedSwitch id).

(** [switchLeave(ev)] with [ev.switch.dp.id = sid] *)
Definition switchLeave (sid : node) : M (option topology_log) :=
  let! s := get_state in
  if nx.has_node (network s) sid then
    for_each (nx.predecessors (network s) sid) (λ n, set_dead n sid) ;;;
    let! s := get_state in
    for_each (successors (network s) sid) (λ n, set_dead sid n) ;;;
    let! s := get_state in
    repair (edges_of (network s) sid) ;;;
    ret (Some (LogRemovedSwitch sid))
  else ret None.

(** [linkAdd(ev)] for a link from port [src_port_no] of [src] to port
    [dst_port_no] of [dst] *)
Definition linkAdd (src dst : node) (src_port_no dst_port_no : Z) : M topology_log :=
  let! s := get_state in
  set_network (nx.add_edge (network s) src dst (EData src_port_no dst_port_no true)) ;;;
  ret (LogAddedLink src dst).

(** [linkDelete(ev)] *)
Definition linkDelete (src dst : node) : M (option topology_log) :=
  let! s := get_state in
  if nx.has_edge (network s) src dst then
    set_dead src dst ;;;
    repair [(src, dst)] ;;;
    ret (Some (LogRemovedLink src dst))
  else ret None.

(** [_hostFound(switch_id, port, mac)] *)
Definition _hostFound (switch_id : node) (port : Z) (mac : node)
  : M (option topology_log) :=
  let! s := get_state in
  if nx.has_node (network s) mac then ret None
  else
    set_network (nx.add_node (network s) mac) ;;;
    set_node_attr mac NHost ;;;
    let! s := get_state in
    set_network (nx.add_edge (network s) mac switch_id (EData (-1) port true)) ;;;
    let! s := get_state in
    set_network (nx.add_edge (network s) switch_id mac (EData port (-1) true)) ;;;
    ret (Some (LogAddedHost mac switch_id)).

(** ** Example topologies and states *)
Module Example.
Local Open Scope Z_scope.

(** A link between the switches [u] and [v], on port [pu] of [u] and port
    [pv] of [v] ([linkAdd], once per direction). *)
Definition link (u v pu pv : Z) (G : gmap node (gmap node edata))
  : gmap node (gmap node edata) :=
  nx.add_edge (nx.add_edge G u v (EData pu pv true)) v u (EData pv pu true).

(** A host [h] on port [p] of the switch [sw] ([_hostFound]). *)
Definition host_link (sw h p : Z) (G : gmap node (gmap node edata))
  : gmap node (gmap node edata) :=
  nx.add_edge (nx.add_edge G h sw (EData (-1) p true)) sw h (EData p (-1) true).

(** A switch as [switchEnter] registers it. *)
Definition fresh_switch : node_attr := NSwitch (Switch ∅ ∅ ∅ 1).

(** Two parallel paths [1 - 2 - 4] and [1 - 3 - 4], the host [9] on [4]. *)
Definition diamond : gmap node (gmap node edata) :=
  host_link 4 9 3 (link 3 4 2 2 (link 1 3 2 1 (link 2 4 2 1 (link 1 2 1 1 ∅)))).

Definition diamond_attrs : gmap node node_attr :=
  list_to_map [(1, fresh_switch); (2, fresh_switch); (3, fresh_switch);
               (4, fresh_switch); (9, NHost)]%Z.

(** The controller after it has seen the first packet of the source [10]
    for the group [230] at switch [1]. *)
Definition start (net : gmap node (gmap node edata)) (attrs : gmap node node_attr)
  : state :=
  (create_group 230 10 1
     {| network := net; node_attrs := attrs;
        ip_2_mac := list_to_map [(230, 1000); (10, 2000)]%Z;
        sent := []; logs := []; groups := ∅; heap := ∅; next_handle := 0%nat |}).2.

Definition diamond_start : state := start diamond diamond_attrs.

(** A primary tree [1 -> 2]. *)
Definition tree_1_2 : tree :=
  {| t_adj := nx.add_edge {[1%Z := ∅]} 1 2 None; t_root := 1%Z; t_parent := None;
     t_primary := 0%nat; t_predecessor_switch := None; t_tag := None;
     t_tag_index := Some 1%Z |}.

(** The attributes of a switch node of a state. *)
Definition switch_of (s : state) (n : node) : switch :=
  match node_attrs s !! n with
  | Some (NSwitch sw) => sw
  | _ => Switch ∅ ∅ ∅ 0
  end.

(** Switch [1] forwards the group to switch [2]; then to [3] as well. *)
Definition one_output : state :=
  (add_flow 1 230 [2] true 10 None false None diamond_start).2.

Definition two_outputs : state :=
  (add_flow 1 230 [3] true 10 None false None one_output).2.

(** The default protection level of the controller, and its strategy. *)
Definition run_add (F : nat) (subscriber : node) (s : state) : outcome unit * state :=
  add_subscriber 100 SPT.join F 230 10 subscriber s.

Definition run_remove (F : nat) (subscriber : node) (s : state) : outcome unit * state :=
  remove_subscriber 100 SPT.join F 230 10 subscriber s.

(** [1 - 2 - 4] and [1 - 3 - 4] with the host [8] on [2] and the host [9]
    on [4]; the direction [4 -> 2] of the link between [2] and [4] is down,
    so nothing reaches [8] when the link [1 - 2] fails. *)
Definition oneway : gmap node (gmap node edata) :=
  nx.add_edge
    (host_link 4 9 3 (host_link 2 8 3
       (link 3 4 2 2 (link 1 3 2 1 (link 2 4 2 1 (link 1 2 1 1 ∅))))))
    4 2 (EData 1 2 false).

Definition oneway_attrs : gmap node node_attr :=
  list_to_map [(1, fresh_switch); (2, fresh_switch); (3, fresh_switch);
               (4, fresh_switch); (8, NHost); (9, NHost)].

(** With [F = 1]: the host [8] has joined; then [9] joins; then [9] leaves. *)
Definition oneway_one : state := (run_add 1 8 (start oneway oneway_attrs)).2.
Definition oneway_two : state := (run_add 1 9 oneway_one).2.
Definition oneway_back : state := (run_remove 1 9 oneway_two).2.

(** The primary edge [1 -> 2] leads to the hosts [8] (behind [4]) and [9]
    (behind [6]); the detours around it leave [1] through [3] for [8] and
    through [5] for [9]. *)
Definition fork : gmap node (gmap node edata) :=
  host_link 6 9 3 (host_link 4 8 3
    (link 10 6 2 2 (link 5 10 2 1 (link 1 5 3 1
    (link 7 4 2 2 (link 3 7 2 1 (link 1 3 2 1
    (link 2 6 3 1 (link 2 4 2 1 (link 1 2 1 1 ∅)))))))))).

Definition fork_attrs : gmap node node_attr :=
  list_to_map [(1, fresh_switch); (2, fresh_switch); (3, fresh_switch);
               (4, fresh_switch); (5, fresh_switch); (6, fresh_switch);
               (7, fresh_switch); (10, fresh_switch); (8, NHost); (9, NHost)].

(** With [F = 1]: the host [8] has joined; then [9] joins. *)
Definition fork_one : state := (run_add 1 8 (start fork fork_attrs)).2.
Definition fork_two : state := (run_add 1 9 fork_one).2.

(** Whether [n] is a node of the tree object [h]. *)
Definition tree_has_node (s : state) (h : handle) (n : node) : bool :=
  match heap s !! h with
  | Some t => nx.has_node (t_adj t) n
  | None => false
  end.

(** In [fork], the host [9] leaves again. *)
Definition fork_back : state := (run_remove 1 9 fork_two).2.

End Example.

(** * Properties *)

(** ** Paths as chains *)

Fixpoint chain {A} (R : A → A → Prop) (p : list A) : Prop :=
  match p with
  | a :: q => match q with b :: _ => R a b | [] => True end ∧ chain R q
  | [] => True
  end.

Lemma chain_snoc {A} (R : A → A → Prop) p a b :
  chain R p → last p = Some a → R a b → chain R (p ++ [b]).
Proof.
  induction p as [|x q IH]; simpl; [discriminate|].
  intros [Hh Hq] Hl Hab. destruct q as [|y q'].
  - simpl in *. injection Hl as ->. auto.
  - split; [exact Hh|]. apply IH; auto.
Qed.

Lemma chain_app {A} (R : A → A → Prop) p q a b :
  chain R p → chain R q → last p = Some a → head q = Some b → R a b →
  chain R (p ++ q).
Proof.
  induction p as [|x p' IH]; simpl; [discriminate|].
  intros [Hh Hp] Hq Hl Hd Hab. destruct p' as [|y p''].
  - simpl in *. injection Hl as ->. destruct q; [discriminate|].
    simpl in Hd. injection Hd as ->. auto.
  - split; [exact Hh|]. apply IH; auto.
Qed.

Lemma chain_impl {A} (R R' : A → A → Prop) p :
  (∀ a b, R a b → R' a b) → chain R p → chain R' p.
Proof.
  intros HR. induction p as [|x q IH]; simpl; [auto|].
  intros [Hh Hq]. split; [destruct q; auto|auto].
Qed.

Lemma chain_lookup {A} (R : A → A → Prop) p i a b :
  chain R p → p !! i = Some a → p !! S i = Some b → R a b.
Proof.
  revert i. induction p as [|x q IH]; intros i Hc Ha Hb; [done|].
  destruct Hc as [Hh Hq]. destruct i as [|i].
  - simpl in Ha, Hb. injection Ha as ->. destruct q; [done|].
    simpl in Hb. injection Hb as ->. exact Hh.
  - simpl in Ha, Hb. eapply IH; eauto.
Qed.

Lemma chain_rtc {A} (R : A → A → Prop) p a b :
  chain R p → head p = Some a → last p = Some b → rtc R a b.
Proof.
  revert a. induction p as [|x q IH]; intros a Hc Hh Hl; [done|].
  simpl in Hh. injection Hh as ->. destruct Hc as [Hh Hq].
  destruct q as [|y q'].
  - simpl in Hl. injection Hl as ->. apply rtc_refl.
  - eapply rtc_l; [exact Hh|]. apply IH; auto.
Qed.

(** ** The priority queue *)

Lemma Qlt_bool_true a b : nx.Qlt_bool a b = true ↔ (a < b)%Q.
Proof.
  unfold nx.Qlt_bool. rewrite negb_true_iff. split.
  - intros H. apply Qnot_le_lt. intros Hle. apply Qle_bool_iff in Hle. congruence.
  - intros H. destruct (Qle_bool b a) eqn:Hb; [|done].
    apply Qle_bool_iff in Hb. lra.
Qed.

Lemma Qlt_bool_false a b : nx.Qlt_bool a b = false ↔ (b <= a)%Q.
Proof.
  unfold nx.Qlt_bool. rewrite negb_false_iff. apply Qle_bool_iff.
Qed.

Lemma entry_lt_le a b : nx.entry_lt a b = true → (a.1.1 <= b.1.1)%Q.
Proof.
  unfold nx.entry_lt. destruct (nx.Qlt_bool a.1.1 b.1.1) eqn:H1.
  - apply Qlt_bool_true in H1. lra.
  - destruct (nx.Qlt_bool b.1.1 a.1.1) eqn:H2; [done|].
    apply Qlt_bool_false in H2. auto.
Qed.

Lemma entry_lt_false_le a b : nx.entry_lt a b = false → (b.1.1 <= a.1.1)%Q.
Proof.
  unfold nx.entry_lt. destruct (nx.Qlt_bool a.1.1 b.1.1) eqn:H1; [done|].
  intros _. apply Qlt_bool_false in H1. exact H1.
Qed.

Lemma pop_from_spec x l m r :
  nx.pop_from x l = (m, r) →
  x :: l ≡ₚ m :: r ∧ ∀ y, y ∈ x :: l → (m.1.1 <= y.1.1)%Q.
Proof.
  revert x m r. induction l as [|y l IH]; intros x m r; simpl.
  - intros [= <- <-]. split; [done|]. intros y Hy.
    apply list_elem_of_singleton in Hy as ->. lra.
  - destruct (nx.pop_from y l) as [m' r'] eqn:Hp.
    destruct (IH _ _ _ Hp) as [Hperm Hmin].
    destruct (nx.entry_lt m' x) eqn:Hlt.
    + intros [= <- <-]. split.
      * rewrite Hperm. apply perm_swap.
      * intros z Hz. apply elem_of_cons in Hz as [->|Hz].
        -- by apply entry_lt_le.
        -- by apply Hmin.
    + intros [= <- <-]. split; [done|].
      intros z Hz. apply elem_of_cons in Hz as [->|Hz]; [lra|].
      apply entry_lt_false_le in Hlt. specialize (Hmin _ Hz). lra.
Qed.

Lemma heappop_spec h m r :
  nx.heappop h = Some (m, r) →
  h ≡ₚ m :: r ∧ ∀ y, y ∈ h → (m.1.1 <= y.1.1)%Q.
Proof.
  destruct h as [|x l]; simpl; [done|]. intros [= H]. by apply pop_from_spec.
Qed.

(** ** Dijkstra's algorithm: invariants, termination, soundness, completeness *)
Section dijkstra.
Context {E : Type} (G : gmap node (gmap node E)).
Context (w : node → node → E → option Q) (S0 : list node) (t : node).
Hypothesis G_wf : nx.wf G.
Hypothesis S0_in_G : ∀ s, s ∈ S0 → is_Some (G !! s).
Hypothesis w_nonneg : ∀ x y e c, w x y e = Some c → (0 <= c)%Q.

(** An edge the weight function lets the search use. *)
Definition usable (u v : node) : Prop :=
  ∃ nb e, G !! u = Some nb ∧ nb !! v = Some e ∧ is_Some (w u v e).

Definition link (u v : node) : Prop := usable u v ∧ u ≠ v.

(** The invariant at the head of the [while] loop ([cur = None]) and inside
    the [for] loop over the successors of [v] ([cur = Some v]). *)
Record dinv (cur : option node) (st : nx.dstate) : Prop := {
  di_paths : ∀ u p, nx.paths st !! u = Some p →
    ∃ s r, p = s :: r ∧ s ∈ S0 ∧ (∀ x, x ∈ r → x ∉ S0) ∧
           last p = Some u ∧ chain link p;
  di_seen_paths : ∀ u, is_Some (nx.seen st !! u) → is_Some (nx.paths st !! u);
  di_dist_seen : ∀ u, is_Some (nx.dist st !! u) → is_Some (nx.seen st !! u);
  di_seen_G : ∀ u, is_Some (nx.seen st !! u) → is_Some (G !! u);
  di_pending : ∀ u, is_Some (nx.seen st !! u) →
    is_Some (nx.dist st !! u) ∨ ∃ d c, (d, c, u) ∈ nx.fringe st;
  di_fringe : ∀ d c u, (d, c, u) ∈ nx.fringe st →
    is_Some (nx.seen st !! u) ∧ (0 <= d)%Q;
  di_closed : ∀ v u, is_Some (nx.dist st !! v) → cur ≠ Some v → usable v u →
    is_Some (nx.seen st !! u);
  di_target : nx.dist st !! t = None;
  di_mono : ∀ u du d c x, nx.dist st !! u = Some du → (d, c, x) ∈ nx.fringe st →
    (du <= d)%Q;
  di_sources : ∀ s, s ∈ S0 → ∃ q, nx.seen st !! s = Some q ∧ (q <= 0)%Q
}.

(** Pops still to come: the fringe, plus one push per edge leaving a node
    that is not settled yet. *)
Definition unsettled (st : nx.dstate) : gmap node (gmap node E) :=
  filter (λ kv, nx.dist st !! kv.1 = None) G.

Definition potential (st : nx.dstate) : nat :=
  length (nx.fringe st) + nx.number_of_edges (unsettled st).

Lemma number_of_edges_delete (M : gmap node (gmap node E)) v nb :
  M !! v = Some nb →
  nx.number_of_edges M = size nb + nx.number_of_edges (delete v M).
Proof.
  intros H. unfold nx.number_of_edges.
  rewrite (map_fold_delete_L _ _ v nb M); [done| |done].
  intros. lia.
Qed.

Lemma unsettled_settle st v d nb :
  G !! v = Some nb → nx.dist st !! v = None →
  nx.number_of_edges (unsettled st) =
  size nb + nx.number_of_edges
    (unsettled {| nx.dist := <[v := d]> (nx.dist st); nx.seen := nx.seen st;
                  nx.paths := nx.paths st; nx.fringe := nx.fringe st;
                  nx.counter := nx.counter st |}).
Proof.
  intros HG Hd.
  rewrite (number_of_edges_delete (unsettled st) v nb).
  2:{ unfold unsettled. apply map_lookup_filter_Some. split; done. }
  f_equal. f_equal. unfold unsettled. simpl.
  apply map_eq. intros k. destruct (decide (k = v)) as [->|Hne].
  - rewrite lookup_delete_eq. symmetry. apply map_lookup_filter_None. right.
    intros x _. simpl. rewrite lookup_insert_eq. done.
  - rewrite lookup_delete_ne by done.
    apply option_eq. intros x. rewrite !map_lookup_filter_Some. simpl.
    rewrite lookup_insert_ne by done. done.
Qed.

Lemma dinv_push v d st u e nb cost pv :
  dinv (Some v) st →
  nx.dist st !! v = Some d →
  (∀ x dx, nx.dist st !! x = Some dx → (dx <= d)%Q) →
  (0 <= d)%Q →
  G !! v = Some nb → nb !! u = Some e → w v u e = Some cost →
  nx.dist st !! u = None →
  nx.paths st !! v = Some pv →
  (∀ su, nx.seen st !! u = Some su → (d + cost < su)%Q) →
  dinv (Some v) (nx.push (d + cost) u pv st).
Proof.
  intros I Hdv Hmax Hd0 HG Hnb Hw Hdu Hpv Hsu.
  assert (0 <= cost)%Q as Hc by eauto.
  assert (u ∉ S0) as HuS.
  { intros Hin. destruct (di_sources _ _ I _ Hin) as (q & Hq & Hq0).
    specialize (Hsu _ Hq). lra. }
  assert (v ≠ u) as Hvu by congruence.
  assert (usable v u) as Huse by (exists nb, e; rewrite Hw; eauto).
  destruct (di_paths _ _ I _ _ Hpv) as (s & r & -> & Hs & Hr & Hl & Hch).
  split; simpl.
  - intros x p. destruct (decide (x = u)) as [->|Hne].
    + rewrite lookup_insert_eq. intros [= <-].
      exists s, (r ++ [u]). split_and!; [done|done| | |].
      * intros y Hy. apply elem_of_app in Hy as [Hy|Hy]; [by apply Hr|].
        apply list_elem_of_singleton in Hy as ->. done.
      * by rewrite app_comm_cons, last_snoc.
      * eapply (chain_snoc link (s :: r)); [done|done|]. split; done.
    + rewrite lookup_insert_ne by done. apply (di_paths _ _ I).
  - intros x. destruct (decide (x = u)) as [->|Hne].
    + rewrite !lookup_insert_eq. eauto.
    + rewrite !lookup_insert_ne by done. apply (di_seen_paths _ _ I).
  - intros x Hx. destruct (decide (x = u)) as [->|Hne].
    + rewrite lookup_insert_eq. eauto.
    + rewrite lookup_insert_ne by done. by apply (di_dist_seen _ _ I).
  - intros x. destruct (decide (x = u)) as [->|Hne].
    + intros _. eapply (G_wf v nb HG); eauto.
    + rewrite lookup_insert_ne by done. apply (di_seen_G _ _ I).
  - intros x. destruct (decide (x = u)) as [->|Hne].
    + intros _. right. exists (d + cost)%Q, (nx.counter st). apply elem_of_cons. by left.
    + rewrite lookup_insert_ne by done. intros Hx.
      destruct (di_pending _ _ I _ Hx) as [?|(d' & c' & Hin)]; [by left|].
      right. exists d', c'. apply elem_of_cons. by right.
  - intros d' c' x Hin. apply elem_of_cons in Hin as [[= -> -> ->]|Hin].
    + rewrite lookup_insert_eq. split; [eauto|lra].
    + destruct (di_fringe _ _ I _ _ _ Hin) as [Hx H0]. split; [|done].
      destruct (decide (x = u)) as [->|Hne].
      * rewrite lookup_insert_eq. eauto.
      * by rewrite lookup_insert_ne.
  - intros v' x Hv' Hcur Hux.
    pose proof (di_closed _ _ I _ _ Hv' Hcur Hux) as Hx.
    destruct (decide (x = u)) as [->|Hne].
    + rewrite lookup_insert_eq. eauto.
    + by rewrite lookup_insert_ne.
  - apply (di_target _ _ I).
  - intros x dx d' c' y Hx Hin. apply elem_of_cons in Hin as [[= -> -> ->]|Hin].
    + specialize (Hmax _ _ Hx). lra.
    + eapply (di_mono _ _ I); eauto.
  - intros s' Hs'. destruct (decide (s' = u)) as [->|Hne]; [done|].
    rewrite lookup_insert_ne by done. by apply (di_sources _ _ I).
Qed.

Lemma relax_inv v d st u e nb :
  dinv (Some v) st →
  nx.dist st !! v = Some d →
  (∀ x dx, nx.dist st !! x = Some dx → (dx <= d)%Q) →
  (0 <= d)%Q →
  G !! v = Some nb → nb !! u = Some e →
  ∃ st', nx.relax w v d st (u, e) = inr st' ∧
    dinv (Some v) st' ∧ nx.dist st' = nx.dist st ∧
    length (nx.fringe st') ≤ S (length (nx.fringe st)) ∧
    (∀ x, is_Some (nx.seen st !! x) → is_Some (nx.seen st' !! x)) ∧
    (is_Some (w v u e) → is_Some (nx.seen st' !! u)).
Proof.
  intros I Hdv Hmax Hd0 HG Hnb. unfold nx.relax.
  destruct (w v u e) as [cost|] eqn:Hw.
  2:{ exists st. split_and!; auto; try (intros [? ?]; done). }
  assert (0 <= cost)%Q as Hc by eauto.
  destruct (nx.dist st !! u) as [du|] eqn:Hdu.
  { assert (nx.Qlt_bool (d + cost) du = false) as ->.
    { apply Qlt_bool_false. specialize (Hmax _ _ Hdu). lra. }
    exists st. split_and!; auto. intros _. apply (di_dist_seen _ _ I). eauto. }
  assert (is_Some (nx.paths st !! v)) as [pv Hpv].
  { apply (di_seen_paths _ _ I), (di_dist_seen _ _ I). eauto. }
  rewrite Hpv. simpl.
  assert (∀ st', st' = nx.push (d + cost) u pv st →
     (∀ su, nx.seen st !! u = Some su → (d + cost < su)%Q) →
     dinv (Some v) st' ∧ nx.dist st' = nx.dist st ∧
     length (nx.fringe st') ≤ S (length (nx.fringe st)) ∧
     (∀ x, is_Some (nx.seen st !! x) → is_Some (nx.seen st' !! x)) ∧
     (is_Some (Some cost) → is_Some (nx.seen st' !! u))) as Hpush.
  { intros st' -> Hsu. split_and!.
    - eapply dinv_push; eauto.
    - done.
    - simpl. lia.
    - intros x Hx. simpl. destruct (decide (x = u)) as [->|Hne].
      + rewrite lookup_insert_eq. eauto.
      + by rewrite lookup_insert_ne.
    - intros _. simpl. rewrite lookup_insert_eq. eauto. }
  destruct (nx.seen st !! u) as [su|] eqn:Hsu.
  - destruct (nx.Qlt_bool (d + cost) su) eqn:Hlt.
    + eexists. split; [done|]. apply Hpush; [done|].
      intros ? [= <-]. by apply Qlt_bool_true.
    + exists st. split_and!; auto.
  - eexists. split; [done|]. apply Hpush; [done|]. intros ?; done.
Qed.

Lemma relax_all_inv v d nb items st :
  dinv (Some v) st →
  nx.dist st !! v = Some d →
  (∀ x dx, nx.dist st !! x = Some dx → (dx <= d)%Q) →
  (0 <= d)%Q →
  G !! v = Some nb → (∀ u e, (u, e) ∈ items → nb !! u = Some e) →
  ∃ st', nx.relax_all w v d st items = inr st' ∧
    dinv (Some v) st' ∧ nx.dist st' = nx.dist st ∧
    length (nx.fringe st') ≤ length items + length (nx.fringe st) ∧
    (∀ x, is_Some (nx.seen st !! x) → is_Some (nx.seen st' !! x)) ∧
    (∀ u e, (u, e) ∈ items → is_Some (w v u e) → is_Some (nx.seen st' !! u)).
Proof.
  revert st. induction items as [|[u e] items IH]; intros st I Hdv Hmax Hd0 HG Hit.
  - exists st. split_and!; auto. intros ? ? Hin. by apply elem_of_nil in Hin.
  - cbn [nx.relax_all].
    destruct (relax_inv v d st u e nb) as (st1 & -> & I1 & Hd1 & Hf1 & Hs1 & Hu1); auto.
    { apply Hit. apply elem_of_cons. by left. }
    destruct (IH st1) as (st2 & -> & I2 & Hd2 & Hf2 & Hs2 & Hu2); auto.
    { by rewrite Hd1. }
    { intros ??. rewrite Hd1. apply Hmax. }
    { intros ?? Hin. apply Hit. apply elem_of_cons. by right. }
    exists st2. split_and!; [done|done|congruence|simpl; lia|auto|].
    intros u' e' Hin Hw'. apply elem_of_cons in Hin as [[= -> ->]|Hin]; eauto.
Qed.

(** What the caller reads off the final state. *)
Definition dpost (st : nx.dstate) : Prop :=
  (∀ u p, nx.paths st !! u = Some p →
    ∃ s r, p = s :: r ∧ s ∈ S0 ∧ (∀ x, x ∈ r → x ∉ S0) ∧
           last p = Some u ∧ chain link p) ∧
  ((∃ s, s ∈ S0 ∧ rtc usable s t) → is_Some (nx.paths st !! t)).

Lemma dinv_settled_all st s x :
  dinv None st → nx.fringe st = [] → s ∈ S0 → rtc usable s x →
  is_Some (nx.dist st !! x).
Proof.
  intros I Hf Hs Hr.
  assert (∀ y, is_Some (nx.seen st !! y) → is_Some (nx.dist st !! y)) as Hsd.
  { intros y Hy. destruct (di_pending _ _ I _ Hy) as [?|(d & c & Hin)]; [done|].
    rewrite Hf in Hin. by apply elem_of_nil in Hin. }
  revert x Hr. apply (rtc_ind_r (λ x, is_Some (nx.dist st !! x)) s).
  - destruct (di_sources _ _ I _ Hs) as (q & Hq & _). apply Hsd. eauto.
  - intros a b _ Hab IH. apply Hsd. eapply (di_closed _ _ I); eauto.
Qed.

Lemma dinv_pop st d c v rest fr' :
  dinv None st → nx.fringe st ≡ₚ (d, c, v) :: rest →
  is_Some (nx.dist st !! v) → fr' = rest →
  dinv None {| nx.dist := nx.dist st; nx.seen := nx.seen st;
               nx.paths := nx.paths st; nx.fringe := fr';
               nx.counter := nx.counter st |}.
Proof.
  intros I Hperm Hv ->. split; simpl; try apply I.
  - intros u Hu. destruct (di_pending _ _ I _ Hu) as [?|(d' & c' & Hin)]; [by left|].
    rewrite Hperm in Hin. apply elem_of_cons in Hin as [[= -> -> ->]|Hin]; [by left|].
    right. eauto.
  - intros d' c' u Hin. apply (di_fringe _ _ I _ c'). rewrite Hperm.
    apply elem_of_cons. by right.
  - intros u du d' c' x Hu Hin. apply (di_mono _ _ I u du d' c' x Hu).
    rewrite Hperm. apply elem_of_cons. by right.
Qed.

Lemma dinv_settle st d c v rest :
  dinv None st → nx.fringe st ≡ₚ (d, c, v) :: rest →
  (∀ y, y ∈ nx.fringe st → (d <= y.1.1)%Q) →
  nx.dist st !! v = None → v ≠ t →
  dinv (Some v) {| nx.dist := <[v := d]> (nx.dist st); nx.seen := nx.seen st;
                   nx.paths := nx.paths st; nx.fringe := rest;
                   nx.counter := nx.counter st |}.
Proof.
  intros I Hperm Hmin Hv Hvt.
  assert ((d, c, v) ∈ nx.fringe st) as Hin0.
  { rewrite Hperm. apply elem_of_cons. by left. }
  split; simpl; try apply I.
  - intros u Hu. destruct (decide (u = v)) as [->|Hne].
    + apply (di_fringe _ _ I _ _ _ Hin0).
    + rewrite lookup_insert_ne in Hu by done. by apply (di_dist_seen _ _ I).
  - intros u Hu. destruct (decide (u = v)) as [->|Hne].
    { left. rewrite lookup_insert_eq. eauto. }
    rewrite lookup_insert_ne by done.
    destruct (di_pending _ _ I _ Hu) as [?|(d' & c' & Hin)]; [by left|].
    rewrite Hperm in Hin. apply elem_of_cons in Hin as [[= -> -> ->]|Hin]; [done|].
    right. eauto.
  - intros d' c' u Hin. apply (di_fringe _ _ I _ c'). rewrite Hperm.
    apply elem_of_cons. by right.
  - intros v' u Hv' Hcur Hu. assert (v' ≠ v) by congruence.
    rewrite lookup_insert_ne in Hv' by done. eapply (di_closed _ _ I); eauto.
  - rewrite lookup_insert_ne by done. apply (di_target _ _ I).
  - intros u du d' c' x Hu Hin.
    assert ((d', c', x) ∈ nx.fringe st) as Hin'.
    { rewrite Hperm. apply elem_of_cons. by right. }
    destruct (decide (u = v)) as [->|Hne].
    + rewrite lookup_insert_eq in Hu. injection Hu as <-. apply (Hmin _ Hin').
    + rewrite lookup_insert_ne in Hu by done. eapply (di_mono _ _ I); eauto.
Qed.

Lemma dinv_close st v nb :
  dinv (Some v) st → G !! v = Some nb →
  (∀ u e, (u, e) ∈ map_to_list nb → is_Some (w v u e) → is_Some (nx.seen st !! u)) →
  dinv None st.
Proof.
  intros I HG Hcl. split; try apply I.
  intros v' u Hv' _ Hu. destruct (decide (v' = v)) as [->|Hne].
  - destruct Hu as (nb' & e & HG' & Hnb & Hw). rewrite HG in HG'. injection HG' as <-.
    eapply Hcl; [|done]. by apply elem_of_map_to_list.
  - eapply (di_closed _ _ I); eauto. congruence.
Qed.

Lemma dijkstra_loop_spec fuel st :
  dinv None st → potential st < fuel →
  ∃ st', nx.dijkstra_loop fuel G w t st = Ret st' ∧ dpost st'.
Proof.
  revert st. induction fuel as [|fuel IH]; intros st I Hpot; [lia|].
  cbn [nx.dijkstra_loop].
  destruct (nx.heappop (nx.fringe st)) as [[[[d c] v] rest]|] eqn:Hpop.
  2:{ exists st. split; [done|]. split; [apply I|].
      intros (s & Hs & Hr).
      assert (nx.fringe st = []) as Hf.
      { destruct (nx.fringe st); [done|discriminate]. }
      pose proof (dinv_settled_all st s t I Hf Hs Hr) as [? Hd].
      rewrite (di_target _ _ I) in Hd. done. }
  apply heappop_spec in Hpop as [Hperm Hmin].
  assert ((d, c, v) ∈ nx.fringe st) as Hin0.
  { rewrite Hperm. apply elem_of_cons. by left. }
  assert (length (nx.fringe st) = S (length rest)) as Hlen.
  { by rewrite Hperm. }
  destruct (nx.dist st !! v) as [dv|] eqn:Hdv.
  { apply IH.
    - eapply dinv_pop; eauto.
    - unfold potential in *. simpl.
      change (unsettled _) with (unsettled st). lia. }
  destruct (decide (v = t)) as [->|Hvt].
  { eexists. split; [done|]. split; simpl; [apply I|].
    intros _. apply (di_seen_paths _ _ I), (di_fringe _ _ I _ _ _ Hin0). }
  destruct (di_seen_G _ _ I v) as [nb HG].
  { apply (di_fringe _ _ I _ _ _ Hin0). }
  rewrite HG.
  pose proof (dinv_settle st d c v rest I Hperm Hmin Hdv Hvt) as I2.
  edestruct (relax_all_inv v d nb (map_to_list nb)) as
    (st3 & -> & I3 & Hd3 & Hf3 & Hs3 & Hu3); [exact I2| | | |exact HG| |].
  - simpl. by rewrite lookup_insert_eq.
  - simpl. intros x dx Hx. destruct (decide (x = v)) as [->|Hne].
    + rewrite lookup_insert_eq in Hx. injection Hx as <-. lra.
    + rewrite lookup_insert_ne in Hx by done. eapply (di_mono _ _ I); eauto.
  - apply (di_fringe _ _ I _ _ _ Hin0).
  - intros u e. apply elem_of_map_to_list.
  - apply IH.
    + eapply dinv_close; eauto.
    + unfold potential in *.
      rewrite (unsettled_settle st v d nb HG Hdv) in Hpot.
      assert (unsettled st3 =
              unsettled {| nx.dist := <[v:=d]> (nx.dist st); nx.seen := nx.seen st;
                           nx.paths := nx.paths st; nx.fringe := nx.fringe st;
                           nx.counter := nx.counter st |}) as ->.
      { unfold unsettled. by rewrite Hd3. }
      rewrite length_map_to_list in Hf3. simpl in Hf3. lia.
Qed.

Lemma init_fold l st :
  let st' := foldl nx.init_source st l in
  nx.dist st' = nx.dist st ∧ nx.paths st' = nx.paths st ∧
  length (nx.fringe st') = length l + length (nx.fringe st) ∧
  (∀ x, nx.seen st' !! x = if bool_decide (x ∈ l) then Some 0%Q else nx.seen st !! x) ∧
  (∀ d c u, (d, c, u) ∈ nx.fringe st' → (d, c, u) ∈ nx.fringe st ∨ (d = 0%Q ∧ u ∈ l)) ∧
  (∀ e, e ∈ nx.fringe st → e ∈ nx.fringe st') ∧
  (∀ u, u ∈ l → ∃ c, (0%Q, c, u) ∈ nx.fringe st').
Proof.
  revert st. induction l as [|a l IH]; intros st; cbn [foldl].
  - split_and!; auto. intros u Hu. by apply elem_of_nil in Hu.
  - destruct (IH (nx.init_source st a)) as (Hd & Hp & Hl & Hs & Hf & Hk & Hu).
    split_and!.
    + by rewrite Hd.
    + by rewrite Hp.
    + rewrite Hl. simpl. lia.
    + intros x. rewrite Hs. simpl. destruct (decide (x ∈ l)) as [Hin|Hnin].
      * rewrite !bool_decide_eq_true_2; [done| |done]. apply elem_of_cons. by right.
      * rewrite (bool_decide_eq_false_2 (x ∈ l)) by done.
        destruct (decide (x = a)) as [->|Hne].
        -- rewrite lookup_insert_eq, bool_decide_eq_true_2; [done|]. apply elem_of_cons. by left.
        -- rewrite lookup_insert_ne, bool_decide_eq_false_2; [done| |done].
           intros Hx. apply elem_of_cons in Hx as [?|?]; done.
    + intros d c u Hin. destruct (Hf _ _ _ Hin) as [Hin'|[-> Hul]].
      * simpl in Hin'. apply elem_of_cons in Hin' as [[= -> -> ->]|Hin']; [|by left].
        right. split; [done|]. apply elem_of_cons. by left.
      * right. split; [done|]. apply elem_of_cons. by right.
    + intros e He. apply Hk. simpl. apply elem_of_cons. by right.
    + intros u Hin. apply elem_of_cons in Hin as [->|Hin]; [|by apply Hu].
      exists (nx.counter st). apply Hk. simpl. apply elem_of_cons. by left.
Qed.

Lemma init_paths_lookup u p :
  (list_to_map ((λ s, (s, [s])) <$> S0) : gmap node (list node)) !! u = Some p →
  p = [u] ∧ u ∈ S0.
Proof.
  intros H. apply elem_of_list_to_map_2 in H.
  apply list_elem_of_fmap in H as (s & [= -> ->] & Hs). done.
Qed.

Lemma init_paths_is_Some u :
  u ∈ S0 →
  is_Some ((list_to_map ((λ s, (s, [s])) <$> S0) : gmap node (list node)) !! u).
Proof.
  intros Hu. apply not_eq_None_Some. intros Hn.
  apply not_elem_of_list_to_map in Hn. apply Hn.
  rewrite <- list_fmap_compose. apply list_elem_of_fmap. exists u. done.
Qed.

Lemma init_state_inv : t ∉ S0 → dinv None (nx.init_state S0).
Proof.
  intros Ht. unfold nx.init_state.
  match goal with |- dinv _ (foldl _ ?st0 _) =>
    destruct (init_fold S0 st0) as (Hd & Hp & Hl & Hs & Hf & _ & Hu) end.
  simpl in *. split.
  - intros u p. rewrite Hp. intros H. apply init_paths_lookup in H as [-> Hin].
    exists u, []. split_and!; [done|done| |done|simpl; auto].
    intros x Hx. by apply elem_of_nil in Hx.
  - intros u. rewrite Hs, Hp. destruct (decide (u ∈ S0)) as [Hin|Hnin].
    + intros _. by apply init_paths_is_Some.
    + rewrite bool_decide_eq_false_2 by done. rewrite lookup_empty. by intros [].
  - intros u. rewrite Hd, lookup_empty. by intros [].
  - intros u. rewrite Hs. destruct (decide (u ∈ S0)) as [Hin|Hnin].
    + intros _. by apply S0_in_G.
    + rewrite bool_decide_eq_false_2 by done. rewrite lookup_empty. by intros [].
  - intros u. rewrite Hs. destruct (decide (u ∈ S0)) as [Hin|Hnin].
    + intros _. right. destruct (Hu _ Hin) as [c Hc]. eauto.
    + rewrite bool_decide_eq_false_2 by done. rewrite lookup_empty. by intros [].
  - intros d c u Hin. destruct (Hf _ _ _ Hin) as [Hn|[-> Hin']].
    + by apply elem_of_nil in Hn.
    + rewrite Hs, bool_decide_eq_true_2 by done. split; [eauto|lra].
  - intros v u. rewrite Hd, lookup_empty. by intros [].
  - by rewrite Hd.
  - intros u du d c x. rewrite Hd, lookup_empty. done.
  - intros s Hin. exists 0%Q. rewrite Hs, bool_decide_eq_true_2 by done. split; [done|lra].
Qed.

Lemma init_state_potential :
  potential (nx.init_state S0) < nx.dijkstra_fuel G S0.
Proof.
  unfold nx.init_state.
  match goal with |- potential (foldl _ ?st0 _) < _ =>
    destruct (init_fold S0 st0) as (Hd & _ & Hl & _) end.
  unfold potential, nx.dijkstra_fuel. rewrite Hl. simpl.
  assert (unsettled (foldl nx.init_source
            {| nx.dist := ∅; nx.seen := ∅;
               nx.paths := list_to_map ((λ s, (s, [s])) <$> S0);
               nx.fringe := []; nx.counter := 0 |} S0) = G) as ->; [|lia].
  unfold unsettled. rewrite Hd. simpl. apply map_filter_id.
  intros i x _. simpl. apply lookup_empty.
Qed.

(** [multi_source_dijkstra] returns; every path it reports starts at a
    source, never comes back to a source, ends at its key and follows usable
    edges between distinct nodes; and the target has a path exactly when a
    source reaches it. *)
Lemma multi_source_dijkstra_spec :
  S0 ≠ [] → t ∉ S0 →
  ∃ ps, nx.multi_source_dijkstra G S0 t w = Ret ps ∧
    (∀ u p, ps !! u = Some p →
      ∃ s r, p = s :: r ∧ s ∈ S0 ∧ (∀ x, x ∈ r → x ∉ S0) ∧
             last p = Some u ∧ chain link p) ∧
    (is_Some (ps !! t) ↔ ∃ s, s ∈ S0 ∧ rtc usable s t).
Proof.
  intros Hne Ht.
  assert (∀ l, l ≠ [] → t ∉ l →
    nx.multi_source_dijkstra G l t w =
    match nx.dijkstra_loop (nx.dijkstra_fuel G l) G w t (nx.init_state l) with
    | Ret st => Ret (nx.paths st)
    | Raise e => Raise e
    | Diverge => Diverge
    end) as Hunf.
  { intros [|a l] Hl Hnin; [done|]. unfold nx.multi_source_dijkstra.
    by rewrite bool_decide_eq_false_2 by done. }
  rewrite Hunf by done.
  destruct (dijkstra_loop_spec (nx.dijkstra_fuel G S0) (nx.init_state S0))
    as (st & -> & Hpaths & Hcompl).
  { by apply init_state_inv. }
  { apply init_state_potential. }
  exists (nx.paths st). split; [done|]. split; [done|]. split; [|done].
  intros [p Hp]. destruct (Hpaths _ _ Hp) as (s & r & -> & Hs & _ & Hl & Hch).
  exists s. split; [done|]. apply (chain_rtc _ (s :: r)); [|done|exact Hl].
  eapply chain_impl; [|exact Hch]. by intros a b [? _].
Qed.

End dijkstra.

(** *** Soundness alone, with no assumption on the graph or the weights *)
Section dijkstra_sound.
Context {E : Type} (G : gmap node (gmap node E)).
Context (w : node → node → E → option Q) (S0 : list node).

Definition sound_paths (ps : gmap node (list node)) : Prop :=
  ∀ u p, ps !! u = Some p →
    (∃ s, s ∈ S0 ∧ head p = Some s) ∧ last p = Some u ∧ chain (link G w) p.

Lemma relax_sound v d st ue nb st' :
  sound_paths (nx.paths st) → is_Some (nx.dist st !! v) →
  G !! v = Some nb → nb !! ue.1 = Some ue.2 →
  nx.relax w v d st ue = inr st' →
  sound_paths (nx.paths st') ∧ nx.dist st' = nx.dist st.
Proof.
  intros Hs Hv HG Hnb. destruct ue as [u e]. unfold nx.relax. simpl in Hnb.
  destruct (w v u e) as [cost|] eqn:Hw; [|by intros [= <-]].
  destruct (nx.dist st !! u) as [du|] eqn:Hdu.
  { destruct (nx.Qlt_bool _ _); [done|]. by intros [= <-]. }
  assert (∀ st1,
    match nx.paths st !! v with
    | Some pv => inr (nx.push (d + cost) u pv st)
    | None => inl KeyError
    end = inr st1 → sound_paths (nx.paths st1) ∧ nx.dist st1 = nx.dist st) as Hupd.
  { intros st1. destruct (nx.paths st !! v) as [pv|] eqn:Hpv; [|done].
    intros [= <-]. split; [|done]. simpl. intros x p.
    destruct (decide (x = u)) as [->|Hne].
    - rewrite lookup_insert_eq. intros [= <-].
      destruct (Hs _ _ Hpv) as ((s & Hs0 & Hh) & Hl & Hc). split_and!.
      + exists s. split; [done|]. destruct pv; [done|]. done.
      + by rewrite last_snoc.
      + eapply chain_snoc; [done|done|]. split.
        * exists nb, e. rewrite Hw. eauto.
        * intros ->. destruct Hv as [? Hv]. congruence.
    - rewrite lookup_insert_ne by done. apply Hs. }
  simpl. destruct (nx.seen st !! u) as [su|]; [|by apply Hupd].
  destruct (nx.Qlt_bool _ _); [by apply Hupd|]. by intros [= <-].
Qed.

Lemma relax_all_sound v d nb items st st' :
  sound_paths (nx.paths st) → is_Some (nx.dist st !! v) →
  G !! v = Some nb → (∀ ue, ue ∈ items → nb !! ue.1 = Some ue.2) →
  nx.relax_all w v d st items = inr st' →
  sound_paths (nx.paths st') ∧ nx.dist st' = nx.dist st.
Proof.
  revert st. induction items as [|ue items IH]; intros st Hs Hv HG Hit; cbn [nx.relax_all].
  - by intros [= <-].
  - destruct (nx.relax w v d st ue) as [e|st1] eqn:Hr; [done|].
    eapply relax_sound in Hr as [Hs1 Hd1]; eauto.
    2:{ apply Hit. apply elem_of_cons. by left. }
    intros H. apply IH in H as [Hs2 Hd2]; auto.
    + split; [done|congruence].
    + by rewrite Hd1.
    + intros ? ?. apply Hit. apply elem_of_cons. by right.
Qed.

Lemma dijkstra_loop_sound fuel t st st' :
  sound_paths (nx.paths st) →
  nx.dijkstra_loop fuel G w t st = Ret st' → sound_paths (nx.paths st').
Proof.
  revert st. induction fuel as [|fuel IH]; intros st Hs; cbn [nx.dijkstra_loop]; [done|].
  destruct (nx.heappop (nx.fringe st)) as [[[[d c] v] rest]|]; [|by intros [= <-]].
  destruct (nx.dist st !! v) as [dv|] eqn:Hdv.
  { apply IH. done. }
  destruct (decide (v = t)); [by intros [= <-]|].
  destruct (G !! v) as [nb|] eqn:HG; [|done].
  destruct (nx.relax_all _ _ _ _ _) as [e|st3] eqn:Hr; [done|].
  eapply relax_all_sound in Hr as [Hs3 _]; eauto.
  - simpl. rewrite lookup_insert_eq. eauto.
  - intros [u e] Hin. by apply elem_of_map_to_list.
Qed.

Lemma multi_source_dijkstra_sound t ps :
  nx.multi_source_dijkstra G S0 t w = Ret ps → sound_paths ps.
Proof.
  unfold nx.multi_source_dijkstra.
  destruct S0 as [|s0 S1] eqn:HS; [done|]. rewrite <- HS.
  case_bool_decide as Ht.
  - intros [= <-]. intros u p Hp. apply lookup_singleton_Some in Hp as [<- <-].
    split_and!; [eauto|done|simpl; auto].
  - destruct (nx.dijkstra_loop _ _ _ _ _) as [st| |] eqn:Hl; [|done|done].
    intros [= <-]. eapply dijkstra_loop_sound; [|exact Hl].
    unfold nx.init_state.
    match goal with |- context [foldl _ ?st0 _] =>
      destruct (init_fold S0 st0) as (_ & Hp & _) end.
    rewrite Hp. simpl. intros u p Hu. apply init_paths_lookup in Hu as [-> Hin].
    split_and!; [eauto|done|simpl; auto].
Qed.

End dijkstra_sound.

(** ** The Path Strategy contract *)

Definition in_tree (T : tree) (n : node) : Prop := is_Some (t_adj T !! n).

(** An edge a join may use: live, not excluded, and either a tree edge or
    an edge whose head is not in the tree yet. *)
Definition admissible (network : gmap node (gmap node edata)) (exclude : gset edge)
    (T : tree) (x y : node) : Prop :=
  ∃ e, nx.edge_data network x y = Some e ∧ live e = true ∧ ((x, y) ∉ exclude) ∧
       ((nx.has_edge (t_adj T) x y = true) ∨ (¬ in_tree T y)).

(** The path rides the tree first and leaves it once: nodes of the tree,
    then nodes outside of it, the last of which is [v]. *)
Definition enters_once (T : tree) (v : node) (p : list node) : Prop :=
  ∃ pre suf, p = pre ++ suf ∧ pre ≠ [] ∧ suf ≠ [] ∧
    (∀ x, x ∈ pre → in_tree T x) ∧ (∀ x, x ∈ suf → ¬ in_tree T x) ∧
    last p = Some v.

(** The contract of [join(G, exclude, T, v)], for a strategy that searches
    from the nodes in [sources]. *)
Definition path_contract (network : gmap node (gmap node edata))
    (exclude : gset edge) (T : tree) (v : node) (sources : node → Prop)
    (p : list node) : Prop :=
  (p = [] ↔ in_tree T v ∨ ¬ ∃ s, sources s ∧ rtc (admissible network exclude T) s v) ∧
  (p ≠ [] → enters_once T v p ∧ ∃ w, head p = Some w ∧ in_tree T w).

(** An out-arborescence: the root has no predecessor, every other node has
    exactly one, one level above it. *)
Definition arborescence (T : tree) : Prop :=
  in_tree T (t_root T) ∧
  nx.predecessors (t_adj T) (t_root T) = [] ∧
  ∃ depth : node → nat, ∀ n, in_tree T n → n ≠ t_root T →
    ∃ p, nx.predecessors (t_adj T) n = [p] ∧ depth n = S (depth p).

Lemma has_node_in_tree T n : nx.has_node (t_adj T) n = true ↔ in_tree T n.
Proof.
  unfold nx.has_node, in_tree. destruct (t_adj T !! n); simpl.
  - split; eauto.
  - split; [done|]. by intros [].
Qed.

Lemma has_node_not_in_tree T n : nx.has_node (t_adj T) n = false ↔ ¬ in_tree T n.
Proof.
  rewrite <- has_node_in_tree. destruct (nx.has_node (t_adj T) n); intuition congruence.
Qed.

Lemma has_edge_in_tree T x y : nx.has_edge (t_adj T) x y = true → in_tree T x.
Proof.
  unfold nx.has_edge, nx.edge_data, in_tree. destruct (t_adj T !! x); [eauto|done].
Qed.

Lemma SPT_weight_admissible network exclude T eps x y :
  usable network (SPT.weight exclude T eps) x y ↔ admissible network exclude T x y.
Proof.
  unfold usable, admissible, nx.edge_data, SPT.weight. split.
  - intros (nb & e & HG & Hnb & Hw). exists e. rewrite HG. split; [done|].
    destruct (live e); simpl in Hw; [|by destruct Hw].
    case_bool_decide; [by destruct Hw|].
    split_and!; [done|done|].
    destruct (nx.has_edge (t_adj T) x y); [by left|]. right.
    apply has_node_not_in_tree. destruct (nx.has_node (t_adj T) y); [by destruct Hw|done].
  - intros (e & He & Hl & Hex & Ht). destruct (network !! x) as [nb|] eqn:HG; [|done].
    exists nb, e. split_and!; [done|done|]. rewrite Hl. simpl.
    rewrite bool_decide_eq_false_2 by done.
    destruct Ht as [->|Hn]; [eauto|].
    apply has_node_not_in_tree in Hn. rewrite Hn.
    destruct (nx.has_edge (t_adj T) x y); eauto.
Qed.

Lemma DST_weight_admissible network exclude T x y :
  usable network (DST.weight exclude T) x y ↔ admissible network exclude T x y.
Proof.
  unfold usable, admissible, nx.edge_data, DST.weight. split.
  - intros (nb & e & HG & Hnb & Hw). exists e. rewrite HG. split; [done|].
    destruct (live e); simpl in Hw; [|by destruct Hw].
    case_bool_decide; [by destruct Hw|].
    split_and!; [done|done|].
    destruct (nx.has_edge (t_adj T) x y); [by left|]. right.
    apply has_node_not_in_tree. destruct (nx.has_node (t_adj T) y); [by destruct Hw|done].
  - intros (e & He & Hl & Hex & Ht). destruct (network !! x) as [nb|] eqn:HG; [|done].
    exists nb, e. split_and!; [done|done|]. rewrite Hl. simpl.
    rewrite bool_decide_eq_false_2 by done.
    destruct Ht as [->|Hn]; [eauto|].
    apply has_node_not_in_tree in Hn. rewrite Hn.
    rewrite andb_false_r. eauto.
Qed.

Lemma rtc_iff {A} (R R' : A → A → Prop) a b :
  (∀ x y, R x y ↔ R' x y) → rtc R a b ↔ rtc R' a b.
Proof.
  intros H. split; apply rtc_subrel; intros x y; apply H.
Qed.

(** A chain of admissible edges never comes back to the tree once it has
    left it. *)
Lemma admissible_chain_split network exclude T p :
  chain (admissible network exclude T) p →
  ∃ pre suf, p = pre ++ suf ∧
    (∀ x, x ∈ pre → in_tree T x) ∧ (∀ x, x ∈ suf → ¬ in_tree T x).
Proof.
  induction p as [|a q IH]; intros Hc.
  - exists [], []. split_and!; [done| |]; intros x Hx; by apply elem_of_nil in Hx.
  - destruct Hc as [Hh Hq]. destruct (IH Hq) as (pre & suf & -> & Hpre & Hsuf).
    destruct (decide (in_tree T a)) as [Ha|Ha].
    + exists (a :: pre), suf. split_and!; [done| |done].
      intros x Hx. apply elem_of_cons in Hx as [->|Hx]; auto.
    + destruct pre as [|b pre].
      * exists [], (a :: suf). split_and!; [done| |].
        -- intros x Hx. by apply elem_of_nil in Hx.
        -- intros x Hx. apply elem_of_cons in Hx as [->|Hx]; auto.
      * exfalso. simpl in Hh. destruct Hh as (e & _ & _ & _ & [He|Hb]).
        -- apply Ha. eapply has_edge_in_tree; eauto.
        -- apply Hb, Hpre. apply elem_of_cons. by left.
Qed.

Lemma enters_once_intro network exclude T v p w :
  chain (admissible network exclude T) p →
  head p = Some w → in_tree T w → last p = Some v → ¬ in_tree T v →
  enters_once T v p.
Proof.
  intros Hc Hh Hw Hl Hv.
  destruct (admissible_chain_split _ _ _ _ Hc) as (pre & suf & -> & Hpre & Hsuf).
  exists pre, suf. split_and!; auto.
  - intros ->. simpl in Hh. destruct suf as [|x suf]; [done|].
    simpl in Hh. injection Hh as ->. apply (Hsuf w); [|done]. apply elem_of_cons. by left.
  - intros ->. rewrite app_nil_r in Hl. apply Hv, Hpre.
    apply last_Some in Hl as (l' & ->). apply elem_of_app. right.
    by apply list_elem_of_singleton.
Qed.

Lemma SPT_weight_nonneg exclude T k x y e c :
  SPT.weight exclude T (1 / inject_Z (Z.of_nat k + 1))%Q x y e = Some c →
  (0 <= c)%Q.
Proof.
  unfold SPT.weight. intros H.
  assert (1 / inject_Z (Z.of_nat k + 1) <= 1)%Q as Heps.
  { apply Qle_shift_div_r.
    - unfold Qlt. simpl. lia.
    - unfold Qle. simpl. lia. }
  destruct (negb (live e)); [done|]. case_bool_decide; [done|].
  destruct (nx.has_edge (t_adj T) x y); [injection H as <-; lra|].
  destruct (nx.has_node (t_adj T) y); [done|]. injection H as <-. lra.
Qed.

(** *** SPT *)

Lemma SPT_join_spec network exclude T v :
  nx.wf network → is_Some (network !! t_root T) → in_tree T (t_root T) →
  ∃ p, SPT.join network exclude T v = Ret p ∧
    (p = [] ↔ in_tree T v ∨ ¬ rtc (admissible network exclude T) (t_root T) v) ∧
    (p ≠ [] →
      ¬ in_tree T v ∧ last p = Some v ∧
      (∃ r, p = t_root T :: r ∧ r ≠ []) ∧
      chain (λ a b, admissible network exclude T a b ∧ a ≠ b) p).
Proof.
  intros Hwf Hroot HrT. unfold SPT.join.
  destruct (nx.has_node (t_adj T) v) eqn:Hv.
  { apply has_node_in_tree in Hv. exists []. split; [done|]. split; [|done].
    split; auto. }
  apply has_node_not_in_tree in Hv.
  set (eps := (1 / inject_Z (Z.of_nat (nx.number_of_edges (t_adj T)) + 1))%Q).
  assert (v ∉ [t_root T]) as Hvs.
  { intros Hin. apply list_elem_of_singleton in Hin as ->. done. }
  destruct (multi_source_dijkstra_spec network (SPT.weight exclude T eps)
              [t_root T] v) as (ps & Hms & Hpaths & Hreach); auto.
  { intros s Hs. apply list_elem_of_singleton in Hs as ->. done. }
  { intros x y e c. apply SPT_weight_nonneg. }
  unfold nx.dijkstra_path. rewrite Hms.
  assert ((∃ s, s ∈ [t_root T] ∧ rtc (usable network (SPT.weight exclude T eps)) s v)
          ↔ rtc (admissible network exclude T) (t_root T) v) as Hre.
  { split.
    - intros (s & Hs & Hr). apply list_elem_of_singleton in Hs as ->.
      by apply (rtc_iff _ _ _ _ (SPT_weight_admissible network exclude T eps)).
    - intros Hr. exists (t_root T). split; [by apply list_elem_of_singleton|].
      by apply (rtc_iff _ _ _ _ (SPT_weight_admissible network exclude T eps)). }
  rewrite Hre in Hreach.
  destruct (ps !! v) as [p|] eqn:Hp.
  - destruct (Hpaths _ _ Hp) as (s & r & -> & Hs & Hr & Hl & Hch).
    apply list_elem_of_singleton in Hs as ->.
    exists (t_root T :: r). split; [done|]. split.
    + split; [done|]. intros [?|Hn]; [done|]. exfalso. apply Hn, Hreach. eauto.
    + intros _. split_and!; [done|done| |].
      * exists r. split; [done|]. intros ->. simpl in Hl. congruence.
      * eapply chain_impl; [|exact Hch]. intros a b [Hu Hab]. split; [|done].
        by apply SPT_weight_admissible in Hu.
  - exists []. split; [done|]. split; [|done]. split; [|done].
    intros _. right. intros Hr. apply Hreach in Hr. by destruct Hr.
Qed.

(** *** DST *)

Lemma walk_up_unfold fuel T cur pre :
  DST.walk_up fuel T cur pre =
  if decide (cur = t_root T) then Ret pre
  else match fuel with
       | O => Diverge
       | S fuel' =>
           if nx.has_node (t_adj T) cur then
             match nx.predecessors (t_adj T) cur with
             | [] => Raise IndexError
             | p :: _ => DST.walk_up fuel' T p (pre ++ [p])
             end
           else Raise NetworkXError
       end.
Proof. destruct fuel; reflexivity. Qed.

Lemma predecessors_spec {E} (G : gmap node (gmap node E)) v u :
  u ∈ nx.predecessors G v ↔ is_Some (G !! u) ∧ nx.has_edge G u v = true.
Proof.
  unfold nx.predecessors, nx.nodes. rewrite list_elem_of_filter, elem_of_elements, elem_of_dom.
  tauto.
Qed.

Lemma walk_up_spec T (depth : node → nat) :
  (∀ n, in_tree T n → n ≠ t_root T →
     ∃ p, nx.predecessors (t_adj T) n = [p] ∧ depth n = S (depth p)) →
  ∀ fuel cur pre visited,
    in_tree T cur → NoDup visited →
    (∀ x, x ∈ visited → in_tree T x ∧ depth cur < depth x) →
    size (dom (t_adj T)) ≤ length visited + fuel →
    ∃ anc, DST.walk_up fuel T cur pre = Ret (pre ++ anc) ∧
      (∀ x, x ∈ anc → in_tree T x) ∧
      last (cur :: anc) = Some (t_root T) ∧
      chain (λ a b, nx.has_edge (t_adj T) b a = true) (cur :: anc).
Proof.
  intros Hdepth. induction fuel as [|fuel IH]; intros cur pre visited Hcur Hnd Hvis Hsz;
    rewrite walk_up_unfold; destruct (decide (cur = t_root T)) as [->|Hne].
  - exists []. rewrite app_nil_r. split_and!; [done| |done|simpl; auto].
    intros x Hx. by apply elem_of_nil in Hx.
  - exfalso.
    assert (NoDup (cur :: visited)) as Hnd'.
    { apply NoDup_cons. split; [|done]. intros Hin. apply Hvis in Hin. lia. }
    assert (cur :: visited ⊆+ elements (dom (t_adj T))) as Hsub.
    { apply NoDup_submseteq; [done|]. intros x Hx.
      apply elem_of_elements, elem_of_dom.
      apply elem_of_cons in Hx as [->|Hx]; [done|]. by apply Hvis. }
    apply submseteq_length in Hsub. simpl in Hsub.
    change (length (elements (dom (t_adj T)))) with (size (dom (t_adj T))) in Hsub. lia.
  - exists []. rewrite app_nil_r. split_and!; [done| |done|simpl; auto].
    intros x Hx. by apply elem_of_nil in Hx.
  - assert (nx.has_node (t_adj T) cur = true) as -> by by apply has_node_in_tree.
    destruct (Hdepth cur Hcur Hne) as (p & Hp & Hd). rewrite Hp.
    assert (p ∈ nx.predecessors (t_adj T) cur) as Hpin.
    { rewrite Hp. by apply list_elem_of_singleton. }
    apply predecessors_spec in Hpin as [HpT Hedge].
    destruct (IH p (pre ++ [p]) (cur :: visited)) as (anc & -> & Hanc & Hl & Hch).
    + done.
    + apply NoDup_cons. split; [|done]. intros Hin. apply Hvis in Hin. lia.
    + intros x Hx. apply elem_of_cons in Hx as [->|Hx].
      * split; [done|lia].
      * destruct (Hvis x Hx). split; [done|lia].
    + simpl. lia.
    + exists (p :: anc). split_and!.
      * by rewrite <- app_assoc.
      * intros x Hx. apply elem_of_cons in Hx as [->|Hx]; auto.
      * done.
      * split; done.
Qed.

Lemma chain_reverse {A} (R : A → A → Prop) p :
  chain (λ a b, R b a) p → chain R (reverse p).
Proof.
  induction p as [|a q IH]; [done|]. intros [Hh Hq].
  rewrite reverse_cons. destruct q as [|b q'].
  - simpl. auto.
  - eapply chain_snoc; [by apply IH| |exact Hh].
    rewrite reverse_cons. by rewrite last_snoc.
Qed.

Lemma DST_join_spec network exclude T v :
  nx.wf network → (∀ n, in_tree T n → is_Some (network !! n)) → arborescence T →
  ∃ p, DST.join network exclude T v = Ret p ∧
    (p = [] ↔ in_tree T v ∨
       ¬ ∃ s, in_tree T s ∧ rtc (admissible network exclude T) s v) ∧
    (p ≠ [] →
      ¬ in_tree T v ∧ last p = Some v ∧ head p = Some (t_root T) ∧
      ∃ pre w r, p = pre ++ w :: r ∧ r ≠ [] ∧
        (∀ x, x ∈ pre ++ [w] → in_tree T x) ∧ (∀ x, x ∈ r → ¬ in_tree T x) ∧
        chain (λ a b, nx.has_edge (t_adj T) a b = true) (pre ++ [w]) ∧
        chain (λ a b, admissible network exclude T a b ∧ a ≠ b) (w :: r)).
Proof.
  intros Hwf HTG (HrT & _ & depth & Hdepth). unfold DST.join.
  destruct (nx.has_node (t_adj T) v) eqn:Hv.
  { apply has_node_in_tree in Hv. exists []. split; [done|]. split; [|done].
    split; auto. }
  apply has_node_not_in_tree in Hv.
  assert (∀ x, x ∈ nx.nodes (t_adj T) ↔ in_tree T x) as Hnodes.
  { intros x. unfold nx.nodes, in_tree. by rewrite elem_of_elements, elem_of_dom. }
  destruct (multi_source_dijkstra_spec network (DST.weight exclude T)
              (nx.nodes (t_adj T)) v) as (ps & Hms & Hpaths & Hreach); auto.
  { intros s Hs. apply HTG. by apply Hnodes. }
  { intros x y e c. unfold DST.weight. destruct (negb (live e)); [done|].
    case_bool_decide; [done|].
    destruct (negb (nx.has_edge (t_adj T) x y) && nx.has_node (t_adj T) y); [done|].
    intros [= <-]. lra. }
  { intros Hnil. apply Hnodes in HrT. rewrite Hnil in HrT. by apply elem_of_nil in HrT. }
  { by rewrite Hnodes. }
  unfold DST.join_body. rewrite Hms.
  assert ((∃ s, s ∈ nx.nodes (t_adj T) ∧ rtc (usable network (DST.weight exclude T)) s v)
          ↔ ∃ s, in_tree T s ∧ rtc (admissible network exclude T) s v) as Hre.
  { split; intros (s & Hs & Hr); exists s; (split; [by apply Hnodes|]).
    - by apply (rtc_iff _ _ _ _ (DST_weight_admissible network exclude T)).
    - by apply (rtc_iff _ _ _ _ (DST_weight_admissible network exclude T)). }
  rewrite Hre in Hreach.
  destruct (ps !! v) as [p|] eqn:Hp.
  2:{ exists []. split; [done|]. split; [|done]. split; [|done].
      intros _. right. intros Hr. apply Hreach in Hr. by destruct Hr. }
  destruct (Hpaths _ _ Hp) as (w & r & -> & Hw & Hr & Hl & Hch).
  apply Hnodes in Hw.
  destruct (walk_up_spec T depth Hdepth (size (dom (t_adj T))) w [] [])
    as (anc & Hwalk & Hanc & Hlast & Hchain); auto.
  { apply NoDup_nil_2. }
  { intros x Hx. by apply elem_of_nil in Hx. }
  rewrite app_nil_l in Hwalk. rewrite Hwalk. cbv iota beta.
  assert (r ≠ []) as Hrne.
  { intros ->. simpl in Hl. congruence. }
  assert (reverse anc ++ w :: r ≠ []) as Hne by (by destruct (reverse anc)).
  exists (reverse anc ++ w :: r). split; [done|]. split.
  { split; [done|]. intros [?|Hn]; [done|]. exfalso. apply Hn, Hreach. eauto. }
  intros _. split_and!; [done| | |].
  - rewrite last_app. by rewrite Hl.
  - destruct anc as [|a anc'] using rev_ind.
    + simpl in *. congruence.
    + rewrite reverse_snoc. simpl.
      rewrite app_comm_cons, last_snoc in Hlast. congruence.
  - exists (reverse anc), w, r. split_and!; [done|done| | | |].
    + intros x Hx. apply elem_of_app in Hx as [Hx|Hx].
      * rewrite elem_of_reverse in Hx. by apply Hanc.
      * apply list_elem_of_singleton in Hx as ->. done.
    + intros x Hx ?. apply (Hr x); [done|]. by apply Hnodes.
    + rewrite <- reverse_cons. by apply chain_reverse.
    + eapply chain_impl; [|exact Hch]. intros a b [Hu Hab]. split; [|done].
      by apply DST_weight_admissible in Hu.
Qed.

(** ** Tag allocation *)

(** The state with one more log line. *)
Definition with_log (s : state) (m : log_msg) : state :=
  {| network := network s; node_attrs := node_attrs s; ip_2_mac := ip_2_mac s;
     sent := sent s; logs := logs s ++ [m]; groups := groups s;
     heap := heap s; next_handle := next_handle s |}.

(** The tag a primary hands out after [t]. *)
Definition next_tag (t : Z) : Z := if decide (t = 4094)%Z then 1%Z else (t + 1)%Z.

(** Handles of live objects are below the allocation cursor: a new object
    is distinct from every existing one. *)
Definition heap_fresh (s : state) : Prop :=
  ∀ h, is_Some (heap s !! h) → h < next_handle s.

Lemma bind_run {A B} (m : M A) (f : A → M B) s a s' :
  m s = (Ret a, s') → bind m f s = f a s'.
Proof. intros H. unfold bind. by rewrite H. Qed.

Lemma bind_raise {A B} (m : M A) (f : A → M B) s e s' :
  m s = (Raise e, s') → bind m f s = (Raise e, s').
Proof. intros H. unfold bind. by rewrite H. Qed.

Lemma get_tree_run s h T : heap s !! h = Some T → get_tree h s = (Ret T, s).
Proof. intros H. unfold get_tree, bind, get_state, lookup_or_raise. by rewrite H. Qed.

Lemma create_backup_run s parent pt primt t root predecessor :
  heap s !! parent = Some pt →
  heap s !! t_primary pt = Some primt →
  t_tag_index primt = Some t →
  _create_tree root (Some parent) predecessor s =
  (Ret (next_handle s),
   {| network := network s; node_attrs := node_attrs s; ip_2_mac := ip_2_mac s;
      sent := sent s; logs := logs s; groups := groups s;
      heap :=
        <[t_primary pt :=
            set_tag_index primt
              (if bool_decide (max_vid < t + 1)%Z then 1%Z else (t + 1)%Z)]>
          (<[next_handle s :=
               {| t_adj := {[root := ∅]}; t_root := root; t_parent := Some parent;
                  t_primary := t_primary pt; t_predecessor_switch := predecessor;
                  t_tag := Some t; t_tag_index := None |}]> (heap s));
      next_handle := S (next_handle s) |}).
Proof.
  intros Hpt Hprimt Hidx. unfold _create_tree.
  erewrite bind_run; [|reflexivity].
  erewrite bind_run; [|by apply get_tree_run].
  erewrite bind_run; [|by apply get_tree_run].
  rewrite Hidx. reflexivity.
Qed.

Lemma undo_tree_run s h T primt t :
  heap s !! h = Some T → is_Some (t_parent T) →
  heap s !! t_primary T = Some primt → t_tag_index primt = Some t →
  _undo_tree h s =
  (Ret tt,
   {| network := network s; node_attrs := node_attrs s; ip_2_mac := ip_2_mac s;
      sent := sent s; logs := logs s; groups := groups s;
      heap :=
        <[t_primary T :=
            set_tag_index primt
              (if bool_decide (t - 1 < 1)%Z then max_vid else (t - 1)%Z)]> (heap s);
      next_handle := next_handle s |}).
Proof.
  intros HT [p Hp] Hprimt Hidx. unfold _undo_tree.
  erewrite bind_run; [|by apply get_tree_run].
  rewrite Hp.
  erewrite bind_run; [|by apply get_tree_run].
  rewrite Hidx. reflexivity.
Qed.

(** C5. Allocating a backup below a primary whose [tag_index] is [t], with
    [1 <= t <= 4094], gives the backup the tag [t] and moves the primary's
    [tag_index] to [t + 1], or to [1] when [t = 4094]; [_undo_tree] on the
    new backup, with no allocation in between, puts [tag_index] back to
    [t]. *)
Theorem tag_allocation_round_trip (s : state) (parent primary : handle)
    (pt primt : tree) (t : Z) (root : node) (predecessor : option node) :
  heap_fresh s →
  heap s !! parent = Some pt →
  t_primary pt = primary →
  heap s !! primary = Some primt →
  t_tag_index primt = Some t →
  (1 ≤ t ≤ 4094)%Z →
  ∃ h s1 bt prim1,
    _create_tree root (Some parent) predecessor s = (Ret h, s1) ∧
    heap s1 !! h = Some bt ∧ t_tag bt = Some t ∧ t_primary bt = primary ∧
    heap s1 !! primary = Some prim1 ∧ t_tag_index prim1 = Some (next_tag t) ∧
    ∃ s2 prim2,
      _undo_tree h s1 = (Ret tt, s2) ∧
      heap s2 !! primary = Some prim2 ∧ t_tag_index prim2 = Some t.
Proof.
  intros Hfresh Hpt <- Hprimt Hidx Ht.
  assert (t_primary pt ≠ next_handle s) as Hne.
  { intros Heq. assert (t_primary pt < next_handle s) by (apply Hfresh; eauto). lia. }
  eexists _, _, _, _. split; [by eapply create_backup_run|]. simpl.
  rewrite lookup_insert_ne by done. rewrite !lookup_insert_eq.
  split_and!; try reflexivity.
  { simpl. unfold next_tag, max_vid. case_bool_decide; case_decide; f_equal; lia. }
  eexists _, _. split.
  { eapply undo_tree_run; simpl.
    - rewrite lookup_insert_ne by done. apply lookup_insert_eq.
    - simpl. eauto.
    - simpl. apply lookup_insert_eq.
    - reflexivity. }
  simpl. rewrite lookup_insert_eq. split; [reflexivity|]. simpl. unfold max_vid.
  repeat case_bool_decide; f_equal; lia.
Qed.

Lemma tag_allocation_round_trip_witness :
  ∃ h s1 bt prim1,
    _create_tree 5%Z (Some 0) None
      {| network := ∅; node_attrs := ∅; ip_2_mac := ∅; sent := []; logs := [];
         groups := {[(230, 10)%Z := 0]};
         heap := {[0 := {| t_adj := {[1%Z := ∅]}; t_root := 1%Z; t_parent := None;
                           t_primary := 0; t_predecessor_switch := None;
                           t_tag := None; t_tag_index := Some 4094%Z |}]};
         next_handle := 1 |} = (Ret h, s1) ∧
    heap s1 !! h = Some bt ∧ t_tag bt = Some 4094%Z ∧ t_primary bt = 0 ∧
    heap s1 !! 0 = Some prim1 ∧ t_tag_index prim1 = Some (next_tag 4094) ∧
    ∃ s2 prim2,
      _undo_tree h s1 = (Ret tt, s2) ∧
      heap s2 !! 0 = Some prim2 ∧ t_tag_index prim2 = Some 4094%Z.
Proof.
  eapply (tag_allocation_round_trip _ 0 0).
  - intros h [x Hx]. simpl in *. apply lookup_singleton_Some in Hx as [<- _]. lia.
  - simpl. apply lookup_singleton_eq.
  - reflexivity.
  - simpl. apply lookup_singleton_eq.
  - reflexivity.
  - lia.
Defined.

(** ** Requests that change nothing *)

(** C6. [add_subscriber] only logs when the group does not exist or the
    subscriber is already a node of its tree; [remove_subscriber] only logs
    when the group does not exist or the subscriber is not a node of its
    tree. Registry, trees, forwarding state and the messages sent are
    untouched. *)
Theorem subscriber_requests_noop (fuel : nat) (join : join_fn) (F : nat)
    (ip_group ip_source : Z) (subscriber : node) (s : state) :
  (groups s !! (ip_group, ip_source) = None →
     add_subscriber fuel join F ip_group ip_source subscriber s =
       (Ret tt, with_log s (LogGroupDoesNotExist (ip_group, ip_source))) ∧
     remove_subscriber fuel join F ip_group ip_source subscriber s =
       (Ret tt, with_log s (LogGroupDoesNotExist (ip_group, ip_source)))) ∧
  (∀ T t, groups s !! (ip_group, ip_source) = Some T → heap s !! T = Some t →
     (nx.has_node (t_adj t) subscriber = true →
        add_subscriber fuel join F ip_group ip_source subscriber s =
          (Ret tt, with_log s (LogAlreadyAdded subscriber (ip_group, ip_source)))) ∧
     (nx.has_node (t_adj t) subscriber = false →
        remove_subscriber fuel join F ip_group ip_source subscriber s =
          (Ret tt, with_log s (LogNotSubscribed subscriber (ip_group, ip_source))))).
Proof.
  split.
  - intros Hg. unfold add_subscriber, remove_subscriber, bind, get_state.
    rewrite Hg. done.
  - intros T t Hg Ht. split; intros Hn.
    + unfold add_subscriber. erewrite bind_run; [|reflexivity]. rewrite Hg.
      erewrite bind_run; [|by apply get_tree_run]. by rewrite Hn.
    + unfold remove_subscriber. erewrite bind_run; [|reflexivity]. rewrite Hg.
      erewrite bind_run; [|by apply get_tree_run]. by rewrite Hn.
Qed.

(** ** What every returned path looks like *)

Lemma SPT_join_sound network exclude T v p :
  SPT.join network exclude T v = Ret p → p ≠ [] →
  ¬ in_tree T v ∧ head p = Some (t_root T) ∧ last p = Some v ∧
  chain (λ a b, admissible network exclude T a b ∧ a ≠ b) p.
Proof.
  unfold SPT.join. destruct (nx.has_node (t_adj T) v) eqn:Hv; [by intros [= <-]|].
  apply has_node_not_in_tree in Hv. unfold nx.dijkstra_path.
  destruct (nx.multi_source_dijkstra _ _ _ _) as [ps|[]|] eqn:Hms; try done;
    try (by intros [= <-]).
  destruct (ps !! v) as [q|] eqn:Hq; [|by intros [= <-]].
  intros [= <-] Hne.
  destruct (multi_source_dijkstra_sound _ _ _ _ _ Hms _ _ Hq) as ((s & Hs & Hh) & Hl & Hc).
  apply list_elem_of_singleton in Hs as ->. split_and!; [done|done|done|].
  eapply chain_impl; [|exact Hc]. intros a b [Hu Hab]. split; [|done].
  by apply SPT_weight_admissible in Hu.
Qed.

Lemma walk_up_sound fuel T cur pre anc :
  DST.walk_up fuel T cur pre = Ret anc →
  ∃ up, anc = pre ++ up ∧ (∀ x, x ∈ up → in_tree T x) ∧
        last (cur :: up) = Some (t_root T).
Proof.
  revert cur pre. induction fuel as [|fuel IH]; intros cur pre;
    rewrite walk_up_unfold; destruct (decide (cur = t_root T)) as [->|Hne]; try done.
  - intros [= <-]. exists []. rewrite app_nil_r. split_and!; [done| |done].
    intros x Hx. by apply elem_of_nil in Hx.
  - intros [= <-]. exists []. rewrite app_nil_r. split_and!; [done| |done].
    intros x Hx. by apply elem_of_nil in Hx.
  - destruct (nx.has_node (t_adj T) cur); [|done].
    destruct (nx.predecessors (t_adj T) cur) as [|q rest] eqn:Hp; [done|].
    intros H. apply IH in H as (up & -> & Hup & Hl).
    exists (q :: up). split_and!.
    + by rewrite <- app_assoc.
    + intros x Hx. apply elem_of_cons in Hx as [->|Hx]; [|by apply Hup].
      assert (q ∈ nx.predecessors (t_adj T) cur) as Hq.
      { rewrite Hp. apply elem_of_cons. by left. }
      apply predecessors_spec in Hq as [Hq _]. done.
    + done.
Qed.

Lemma DST_join_sound network exclude T v p :
  DST.join network exclude T v = Ret p → p ≠ [] →
  ¬ in_tree T v ∧ head p = Some (t_root T) ∧ in_tree T (t_root T) ∧
  last p = Some v ∧ 2 ≤ length p.
Proof.
  unfold DST.join. destruct (nx.has_node (t_adj T) v) eqn:Hv; [by intros [= <-]|].
  apply has_node_not_in_tree in Hv. unfold DST.join_body.
  destruct (nx.multi_source_dijkstra _ _ _ _) as [ps|[]|] eqn:Hms; try done;
    try (by intros [= <-]).
  destruct (ps !! v) as [q|] eqn:Hq; [|by intros [= <-]].
  destruct (multi_source_dijkstra_sound _ _ _ _ _ Hms _ _ Hq) as ((s & Hs & Hh) & Hl & Hc).
  destruct q as [|w r]; [done|]. simpl in Hh. injection Hh as ->.
  assert (in_tree T s) as HsT.
  { unfold nx.nodes in Hs. by apply elem_of_elements, elem_of_dom in Hs. }
  assert (r ≠ []) as Hr.
  { intros ->. simpl in Hl. congruence. }
  destruct (DST.walk_up _ _ _ _) as [anc|[]|] eqn:Hw; try done; try (by intros [= <-]).
  intros [= <-] _. apply walk_up_sound in Hw as (up & -> & Hup & Hlast).
  rewrite app_nil_l. split_and!; [done| | | |].
  - destruct up as [|a up'] using rev_ind.
    + simpl in *. congruence.
    + rewrite reverse_snoc. simpl.
      rewrite app_comm_cons, last_snoc in Hlast. congruence.
  - destruct up as [|a up'] using rev_ind.
    + simpl in Hlast. congruence.
    + rewrite app_comm_cons, last_snoc in Hlast. injection Hlast as <-.
      apply Hup. apply elem_of_app. right. by apply list_elem_of_singleton.
  - rewrite last_app. by rewrite Hl.
  - rewrite length_app. destruct r; [done|]. simpl. lia.
Qed.

(** C1. Both join strategies meet the Path Strategy contract on a network
    whose edges end in nodes, for a tree that is an out-arborescence of
    nodes of the network: the result is empty exactly when [v] is in the
    tree or no admissible path leads to [v] from where the strategy searches
    (the root for SPT, any tree node for DST); otherwise it is a path that
    starts in the tree, ends at [v], and consists of tree nodes followed by
    nodes outside the tree. *)
Theorem join_contract (network : gmap node (gmap node edata)) (exclude : gset edge)
    (T : tree) (v : node) :
  nx.wf network →
  map_Forall (λ n _, is_Some (network !! n)) (t_adj T) →
  arborescence T →
  (∃ p, SPT.join network exclude T v = Ret p ∧
        path_contract network exclude T v (λ s, s = t_root T) p) ∧
  (∃ p, DST.join network exclude T v = Ret p ∧
        path_contract network exclude T v (in_tree T) p).
Proof.
  intros Hwf HTG Harb.
  assert (∀ n, in_tree T n → is_Some (network !! n)) as HTG'.
  { intros n [x Hx]. apply (HTG n x Hx). }
  pose proof Harb as (HrT & _). split.
  - destruct (SPT_join_spec network exclude T v) as (p & Hj & Hemp & Hne); auto.
    exists p. split; [done|]. split.
    + rewrite Hemp. split; (intros [?|Hn]; [by left|right]).
      * intros (s & -> & Hr). done.
      * intros Hr. apply Hn. eauto.
    + intros Hp. destruct (Hne Hp) as (Hv & Hl & (r & -> & Hr) & Hc). split; [|eauto].
      eapply enters_once_intro; eauto.
      eapply chain_impl; [|exact Hc]. by intros a b [? _].
  - destruct (DST_join_spec network exclude T v) as (p & Hj & Hemp & Hne); auto.
    exists p. split; [done|]. split; [done|].
    intros Hp. destruct (Hne Hp) as
      (Hv & Hl & Hh & pre & w & r & -> & Hr & Hpre & Hsuf & _ & _).
    split; [|eauto]. exists (pre ++ [w]), r. split_and!; auto.
    + by rewrite <- app_assoc.
    + by destruct pre.
Qed.

Lemma in_tree_elements T n : in_tree T n ↔ n ∈ elements (dom (t_adj T)).
Proof. unfold in_tree. by rewrite elem_of_elements, elem_of_dom. Qed.

Lemma tree_1_2_arborescence : arborescence Example.tree_1_2.
Proof.
  split; [unfold in_tree; vm_compute; eauto|]. split; [by vm_compute|].
  exists (λ n, if decide (n = 2%Z) then 1 else 0).
  intros n Hn Hroot. apply in_tree_elements in Hn. vm_compute in Hn.
  set_unfold in Hn. destruct Hn as [->| [->|[]]].
  - exists 1%Z. split; [by vm_compute|done].
  - done.
Defined.

Lemma join_contract_witness :
  (∃ p, SPT.join Example.diamond ∅ Example.tree_1_2 9%Z = Ret p ∧
        path_contract Example.diamond ∅ Example.tree_1_2 9%Z
          (λ s, s = t_root Example.tree_1_2) p) ∧
  (∃ p, DST.join Example.diamond ∅ Example.tree_1_2 9%Z = Ret p ∧
        path_contract Example.diamond ∅ Example.tree_1_2 9%Z
          (in_tree Example.tree_1_2) p).
Proof.
  apply join_contract.
  - unfold nx.wf. apply (bool_decide_unpack _). by vm_compute.
  - apply (bool_decide_unpack _). by vm_compute.
  - apply tree_1_2_arborescence.
Defined.

(** C10. A non-empty path returned by either join, for a tree that holds
    its root, has at least two nodes, starts at the root of the tree, which
    is a tree node, and ends at [v]; so [path[i-1]] and [path[i]] exist for
    every [i] in [range(1, len(path))], and so does [b_path[1]]. *)
Theorem join_path_in_bounds (network : gmap node (gmap node edata))
    (exclude : gset edge) (T : tree) (v : node) (p : list node) :
  in_tree T (t_root T) →
  SPT.join network exclude T v = Ret p ∨ DST.join network exclude T v = Ret p →
  p ≠ [] →
  2 ≤ length p ∧ last p = Some v ∧
  head p = Some (t_root T) ∧ ¬ in_tree T v ∧
  (∀ i, 1 ≤ i < length p → is_Some (p !! (i - 1)) ∧ is_Some (p !! i)) ∧
  is_Some (p !! 1).
Proof.
  intros HrT Hj Hp.
  assert (2 ≤ length p ∧ last p = Some v ∧ head p = Some (t_root T) ∧ ¬ in_tree T v)
    as (Hlen & Hl & Hh & Hv).
  { destruct Hj as [Hj|Hj].
    - destruct (SPT_join_sound _ _ _ _ _ Hj Hp) as (Hv & Hh & Hl & _).
      split_and!; try done. destruct p as [|a [|b q]]; simpl in *; [done| |lia].
      congruence.
    - destruct (DST_join_sound _ _ _ _ _ Hj Hp) as (Hv & Hh & _ & Hl & Hlen). done. }
  split_and!; try done.
  - intros i Hi. split; apply lookup_lt_is_Some; lia.
  - apply lookup_lt_is_Some. lia.
Qed.

Lemma join_path_in_bounds_witness :
  2 ≤ length [1; 2; 4; 9]%Z ∧ last [1; 2; 4; 9]%Z = Some 9%Z ∧
  head [1; 2; 4; 9]%Z = Some (t_root Example.tree_1_2) ∧
  ¬ in_tree Example.tree_1_2 9%Z ∧
  (∀ i, 1 ≤ i < length [1; 2; 4; 9]%Z →
     is_Some ([1; 2; 4; 9]%Z !! (i - 1)) ∧ is_Some ([1; 2; 4; 9]%Z !! i)) ∧
  is_Some ([1; 2; 4; 9]%Z !! 1).
Proof.
  apply (join_path_in_bounds Example.diamond ∅ Example.tree_1_2 9%Z).
  - unfold in_tree. vm_compute. eauto.
  - left. vm_compute. reflexivity.
  - done.
Defined.

(** ** Running the forwarding compiler *)

Definition with_sent (s : state) (l : list (node * message)) : state :=
  {| network := network s; node_attrs := node_attrs s; ip_2_mac := ip_2_mac s;
     sent := l; logs := logs s; groups := groups s;
     heap := heap s; next_handle := next_handle s |}.

Definition with_logs (s : state) (l : list log_msg) : state :=
  {| network := network s; node_attrs := node_attrs s; ip_2_mac := ip_2_mac s;
     sent := sent s; logs := l; groups := groups s;
     heap := heap s; next_handle := next_handle s |}.

Definition with_node_attrs (s : state) (a : gmap node node_attr) : state :=
  {| network := network s; node_attrs := a; ip_2_mac := ip_2_mac s;
     sent := sent s; logs := logs s; groups := groups s;
     heap := heap s; next_handle := next_handle s |}.

Lemma get_switch_run s id sw :
  node_attrs s !! id = Some (NSwitch sw) → get_switch id s = (Ret sw, s).
Proof. intros H. unfold get_switch, bind, get_state. by rewrite H. Qed.

Lemma for_each_send {A} switch_id (f : A → message) (l : list A) s :
  for_each l (λ a, send_msg switch_id (f a)) s =
  (Ret tt, with_sent s (sent s ++ ((λ a, (switch_id, f a)) <$> l))).
Proof.
  revert s. induction l as [|a l IH]; intros s; cbn [for_each fmap list_fmap].
  - unfold ret, with_sent. rewrite app_nil_r. by destruct s.
  - erewrite bind_run; [|reflexivity]. rewrite IH. f_equal.
    unfold with_sent. simpl. by rewrite <- app_assoc.
Qed.

(** The flow-mods [_install_actions] sends. *)
Definition install_msgs (switch_id : node) (prio : Z) (current_tables : nat)
    (mtch : ofp_match) (actions : list (list action)) : list (node * message) :=
  ((λ i, (switch_id,
          OFPFlowMod i
            (if bool_decide (i < current_tables) then OFPFC_MODIFY_STRICT else OFPFC_ADD)
            prio mtch
            (OFPInstructionActions (default [] (actions !! i)) ::
             (if bool_decide (i < length actions - 1)
              then [OFPInstructionGotoTable (i + 1)] else []))))
     <$> seq 0 (length actions)) ++
  ((λ i, (switch_id, OFPFlowMod i OFPFC_DELETE_STRICT prio mtch []))
     <$> seq (length actions) (current_tables - length actions)).

Lemma install_actions_run switch_id prio current_tables mtch actions s :
  _install_actions switch_id prio current_tables mtch actions s =
  (Ret tt, with_sent s (sent s ++ install_msgs switch_id prio current_tables mtch actions)).
Proof.
  unfold _install_actions.
  erewrite bind_run; [|apply (for_each_send switch_id
    (λ i, OFPFlowMod i
            (if bool_decide (i < current_tables) then OFPFC_MODIFY_STRICT else OFPFC_ADD)
            prio mtch
            (OFPInstructionActions (default [] (actions !! i)) ::
             (if bool_decide (i < length actions - 1)
              then [OFPInstructionGotoTable (i + 1)] else []))))].
  rewrite (for_each_send switch_id (λ i, OFPFlowMod i OFPFC_DELETE_STRICT prio mtch [])).
  f_equal. unfold with_sent, install_msgs. simpl. by rewrite <- app_assoc.
Qed.

(** The log lines at the end of [add_flow]. *)
Definition add_flow_logs (switch_id : node) (ports_s ports_h : gset Z)
    (dst_address : Z) (tag : option Z) : list log_msg :=
  [LogAddedFlow switch_id ports_s ports_h; LogDestination dst_address] ++
  match tag with Some t => [LogTag t] | None => [] end.

(** C9, as the code has it. For [add_flow] with [forced = false] on a key
    that is installed with at least one output: when every requested port
    is among the installed ones the call changes nothing and sends nothing;
    otherwise it installs the pipeline for the union of the requested and
    the installed ports and records that union. *)
Theorem add_flow_unforced (s : state) (switch_id : node) (dst_address : Z)
    (dsts : list node) (multicast : bool) (src_address : Z) (tag : option Z)
    (prev_switch_id : option node) (sw : switch) (ports_s ports_h : gset Z)
    (in_port : option Z) (current_s current_h : gset Z) (current_tables : nat)
    (mtch : ofp_match) :
  let key := _get_key multicast dst_address src_address tag prev_switch_id in
  let all_s := ports_s ∪ current_s in
  let all_h := ports_h ∪ current_h in
  let actions := _get_actions (FF_groups sw) key tag all_s all_h in
  node_attrs s !! switch_id = Some (NSwitch sw) →
  _get_ports switch_id dsts s = (Ret (ports_s, ports_h), s) →
  in_port_of prev_switch_id switch_id s = (Ret in_port, s) →
  _get_match dst_address src_address multicast tag in_port s = (Ret mtch, s) →
  flows sw !! key = Some (current_s, current_h, current_tables) →
  0 < size current_s ∨ 0 < size current_h →
  add_flow switch_id dst_address dsts multicast src_address tag false prev_switch_id s =
  (Ret tt,
   if decide (ports_s ⊆ current_s ∧ ports_h ⊆ current_h) then s
   else
     {| network := network s;
        node_attrs :=
          <[switch_id :=
              NSwitch (set_flows sw (<[key := (all_s, all_h, length actions)]> (flows sw)))]>
            (node_attrs s);
        ip_2_mac := ip_2_mac s;
        sent := sent s ++
                install_msgs switch_id (_get_priority tag in_port) current_tables
                  mtch actions;
        logs := logs s ++ add_flow_logs switch_id all_s all_h dst_address tag;
        groups := groups s; heap := heap s; next_handle := next_handle s |}).
Proof.
  intros key all_s all_h actions Hsw Hports Hin Hmatch Hflow Hnonempty.
  unfold add_flow.
  erewrite bind_run; [|by apply get_switch_run].
  erewrite bind_run; [|exact Hports]. cbv beta iota.
  erewrite bind_run; [|exact Hin].
  erewrite bind_run; [|by apply get_switch_run].
  fold key. rewrite Hflow.
  assert (bool_decide (0 < size current_s) || bool_decide (0 < size current_h) = true)
    as ->.
  { destruct Hnonempty; [rewrite bool_decide_eq_true_2 by done; done|].
    rewrite (bool_decide_eq_true_2 (0 < size current_h)) by done. apply orb_true_r. }
  assert (∀ st : state, st = s →
    (let! mtch := _get_match dst_address src_address multicast tag in_port in
     _install_actions switch_id (_get_priority tag in_port) current_tables mtch actions ;;;
     let! sw0 := get_switch switch_id in
     set_switch switch_id
       (set_flows sw0 (<[key := (all_s, all_h, length actions)]> (flows sw0))) ;;;
     log (LogAddedFlow switch_id all_s all_h) ;;;
     log (LogDestination dst_address) ;;;
     match tag with Some t => log (LogTag t) | None => ret tt end) st =
    (Ret tt,
     {| network := network s;
        node_attrs :=
          <[switch_id :=
              NSwitch (set_flows sw (<[key := (all_s, all_h, length actions)]> (flows sw)))]>
            (node_attrs s);
        ip_2_mac := ip_2_mac s;
        sent := sent s ++
                install_msgs switch_id (_get_priority tag in_port) current_tables
                  mtch actions;
        logs := logs s ++ add_flow_logs switch_id all_s all_h dst_address tag;
        groups := groups s; heap := heap s; next_handle := next_handle s |})) as Hinstall.
  { intros st ->.
    erewrite bind_run; [|exact Hmatch].
    erewrite bind_run; [|apply install_actions_run].
    erewrite bind_run; [|by apply get_switch_run].
    erewrite bind_run; [|reflexivity].
    erewrite bind_run; [|reflexivity].
    erewrite bind_run; [|reflexivity].
    unfold add_flow_logs. destruct tag; simpl; unfold log, ret; simpl;
      by rewrite <- ?app_assoc. }
  case_bool_decide as Hs.
  - case_bool_decide as Hh.
    + rewrite decide_True by done. reflexivity.
    + rewrite decide_False by tauto. by apply Hinstall.
  - rewrite decide_False by tauto. by apply Hinstall.
Qed.

Local Open Scope Z_scope.

Lemma add_flow_unforced_witness :
  ∃ s', add_flow 1 230 [3] true 10 None false None Example.one_output = (Ret tt, s') ∧
    flows (Example.switch_of s' 1) !! McKey 230 10 None None =
      Some ({[1; 2]}, ∅, 1%nat) ∧
    sent s' = sent Example.one_output ++
      [(1, OFPFlowMod 0 OFPFC_MODIFY_STRICT 2
             (OFPMatch 1000 (Some 2000) None None)
             [OFPInstructionActions [OFPActionOutput 2; OFPActionOutput 1]])].
Proof.
  eexists. split.
  - apply (add_flow_unforced Example.one_output 1 230 [3] true 10 None None
             (Example.switch_of Example.one_output 1) {[2]} ∅ None {[1]} ∅ 1%nat
             (OFPMatch 1000 (Some 2000) None None)).
    + by vm_compute.
    + by vm_compute.
    + by vm_compute.
    + by vm_compute.
    + by vm_compute.
    + left. vm_compute. lia.
  - by vm_compute.
Defined.

(** The claim as the spec states it fails: switch [1] outputs on ports [1]
    and [2]; a request for port [1] alone differs from what is installed,
    and the call neither sends nor records anything. *)
Lemma add_flow_subset_counterexample :
  flows (Example.switch_of Example.two_outputs 1) !! McKey 230 10 None None =
    Some ({[1; 2]}, ∅, 1%nat) ∧
  _get_ports 1 [2] Example.two_outputs = (Ret ({[1]}, ∅), Example.two_outputs) ∧
  ({[1]} : gset Z) ≠ {[1; 2]} ∧
  add_flow 1 230 [2] true 10 None false None Example.two_outputs =
    (Ret tt, Example.two_outputs).
Proof.
  split_and!; by vm_compute.
Qed.

Local Close Scope Z_scope.

(** ** Fast-failover registrations *)

Definition key_tag (k : flow_key) : option Z :=
  match k with
  | McKey _ _ t _ => t
  | UcKey _ => None
  end.

(** The bucket holds the port (alone or in its port list) and the tag. *)
Definition bucket_matches (b : bucket) (port : Z) (tag : option Z) : bool :=
  match b.1.1 with
  | Port p => bool_decide (p = port)
  | PortList l => bool_decide (port ∈ l)
  end && bool_decide (b.1.2 = tag).

(** The entry [(g_id, index)] registered for [(port, key)] points at a
    bucket slot of group [g_id] whose port and tag are those of the key. *)
Definition ff_entry_ok (sw : switch) (port : Z) (key : flow_key) (g : Z * nat) : bool :=
  match buckets sw !! g.1 with
  | Some bs =>
      match bs !! g.2 with
      | Some b => bucket_matches b port (key_tag key)
      | None => false
      end
  | None => false
  end.

Definition ff_groups_ok (sw : switch) : bool :=
  forallb (λ e, forallb (ff_entry_ok sw e.1.1 e.1.2) e.2) (map_to_list (FF_groups sw)).

Local Open Scope Z_scope.

(** C3 fails on the code. After the first join in [fork], switch [1] has
    the group [1] with the buckets [(port 1, untagged)] and [(port 2, tag
    1)], and every registration points at its bucket. The second join
    coalesces port [3] into the second bucket (Case B) and registers
    [(1, 0)] for [(3, tag 1)]: slot [0] is the primary bucket [(port 1,
    untagged)], while the port list that holds port [3] is in slot [1].
    When the second subscriber leaves, [remove_backup] looks at slot [0],
    finds another port there, and port [3] stays in the group. *)
Lemma case_b_registers_primary_slot :
  (Example.run_add 1 9 Example.fork_one).1 = Ret tt ∧
  ff_groups_ok (Example.switch_of Example.fork_one 1) = true ∧
  buckets (Example.switch_of Example.fork_two 1) !! 1 =
    Some [(Port 1, None, false); (PortList [2; 3], Some 1, false)] ∧
  FF_groups (Example.switch_of Example.fork_two 1) !! (3, McKey 230 10 (Some 1) None) =
    Some [(1, 0%nat)] ∧
  FF_groups (Example.switch_of Example.fork_two 1) !! (2, McKey 230 10 (Some 1) None) =
    Some [(1, 1%nat)] ∧
  ff_entry_ok (Example.switch_of Example.fork_two 1) 3 (McKey 230 10 (Some 1) None)
    (1, 0%nat) = false ∧
  ff_groups_ok (Example.switch_of Example.fork_two 1) = false ∧
  (Example.run_remove 1 9 Example.fork_two).1 = Ret tt ∧
  buckets (Example.switch_of Example.fork_back 1) !! 1 =
    Some [(Port 1, None, false); (PortList [2; 3], Some 1, false)].
Proof. split_and!; by vm_compute. Qed.

Local Close Scope Z_scope.

(** ** Tearing a whole entry down *)

Lemma bind_ret_inv {A B} (m : M A) (f : A → M B) s b :
  (bind m f s).1 = Ret b → ∃ a s', m s = (Ret a, s') ∧ (f a s').1 = Ret b.
Proof.
  unfold bind. destruct (m s) as [[a| |] s']; simpl; [eauto|done|done].
Qed.

Lemma get_edge_state u v s o s' : get_edge u v s = (o, s') → s' = s.
Proof.
  unfold get_edge, bind, get_state, lookup_or_raise.
  destruct (nx.edge_data (network s) u v); by intros [= _ <-].
Qed.

Lemma in_port_of_state prev switch_id s o s' :
  in_port_of prev switch_id s = (o, s') → s' = s.
Proof.
  unfold in_port_of. destruct prev as [pr|]; [|by intros [= _ <-]].
  unfold bind. destruct (get_edge pr switch_id s) as [[e| |] s1] eqn:He;
    apply get_edge_state in He as ->; by intros [= _ <-].
Qed.

(** With [dsts = 'all'] the last statement of [remove_flow] reads the
    unbound [ports_s]: on an installed key the call never returns. *)
Lemma remove_flow_all_never_returns (s : state) (switch_id : node) (dst_address : Z)
    (multicast : bool) (src_address : Z) (tag : option Z)
    (prev_switch_id : option node) (sw : switch) :
  node_attrs s !! switch_id = Some (NSwitch sw) →
  is_Some (flows sw !! _get_key multicast dst_address src_address tag prev_switch_id) →
  (remove_flow switch_id dst_address All multicast src_address tag prev_switch_id s).1
    ≠ Ret tt.
Proof.
  intros Hsw [[[cs ch] ct] Hf] Hret. unfold remove_flow in Hret.
  erewrite bind_run in Hret; [|by apply get_switch_run].
  apply bind_ret_inv in Hret as (ip & s1 & Hin & Hret).
  apply in_port_of_state in Hin as ->.
  erewrite bind_run in Hret; [|by apply get_switch_run].
  rewrite Hf in Hret.
  erewrite bind_run in Hret; [|reflexivity]. cbv beta iota in Hret.
  apply bind_ret_inv in Hret as (mtch & s2 & _ & Hret).
  apply bind_ret_inv in Hret as (sw2 & s3 & _ & Hret).
  apply bind_ret_inv in Hret as (? & s4 & _ & Hret).
  apply bind_ret_inv in Hret as (? & s5 & _ & Hret).
  done.
Qed.

Local Open Scope Z_scope.

(** C4 fails on the code. Switch [2] of [oneway_two] forwards the group
    through a fast-failover group and to a host, a pipeline of two tables.
    [remove_flow] with ['all'] sends two [DELETE_STRICT] flow-mods that
    both name table [0], deletes the group and the entry, and then raises
    [UnboundLocalError]; [remove_group], its caller, is cut short by the
    same exception and leaves the group registered. *)
Lemma remove_flow_all_raises :
  flows (Example.switch_of Example.oneway_two 2) !! McKey 230 10 None None =
    Some ({[2]}, {[3]}, 2%nat) ∧
  (remove_flow 2 230 All true 10 None None Example.oneway_two).1 =
    Raise UnboundLocalError ∧
  drop (length (sent Example.oneway_two))
    (sent (remove_flow 2 230 All true 10 None None Example.oneway_two).2) =
    [(2, OFPFlowMod 0 OFPFC_DELETE_STRICT 2 (OFPMatch 1000 (Some 2000) None None) []);
     (2, OFPFlowMod 0 OFPFC_DELETE_STRICT 2 (OFPMatch 1000 (Some 2000) None None) []);
     (2, OFPGroupMod OFPGC_DELETE 1 [])] ∧
  (remove_group 100 230 10 Example.oneway_two).1 = Raise UnboundLocalError ∧
  groups (remove_group 100 230 10 Example.oneway_two).2 !! (230, 10) = Some 0%nat.
Proof. split_and!; by vm_compute. Qed.

Local Close Scope Z_scope.

(** ** What [remove_subscriber] reports *)

Lemma bind_ret_tt (m : M unit) s : bind m (λ _, ret tt) s = m s.
Proof. unfold bind, ret. by destruct (m s) as [[[]| |] s']. Qed.

(** [_process_request] hands a leave over to [_leave], which returns
    [None]: for a subscriber that is in the tree, [remove_subscriber] is
    [_leave] and nothing else, and the line "removed from group" is never
    logged. *)
Lemma remove_subscriber_is_leave (fuel : nat) (join : join_fn) (F : nat)
    (ip_group ip_source : Z) (subscriber : node) (s : state) (T : handle) (t : tree) :
  groups s !! (ip_group, ip_source) = Some T →
  heap s !! T = Some t →
  nx.has_node (t_adj t) subscriber = true →
  remove_subscriber fuel join F ip_group ip_source subscriber s =
  _leave fuel T subscriber ip_group ip_source None s.
Proof.
  intros Hg Ht Hn. unfold remove_subscriber.
  erewrite bind_run; [|reflexivity]. rewrite Hg.
  erewrite bind_run; [|by apply get_tree_run]. rewrite Hn. simpl.
  unfold _process_request. simpl. unfold bind at 1 2.
  destruct (_leave fuel T subscriber ip_group ip_source None s) as [[[]| |] s']; done.
Qed.

Local Open Scope Z_scope.

(** C7 fails on the code. In [oneway_two] the host [9] is a subscriber of
    the group. [remove_subscriber] completes the leave (the host is no
    longer a node of the tree) and returns [None], the same value it
    returns when it does nothing, and its last log line is that of the
    last backup removal: no "removed from group" line is logged, while
    [add_subscriber] did log "added to group". *)
Lemma remove_subscriber_reports_nothing :
  groups Example.oneway_two !! (230, 10) = Some 0%nat ∧
  (Example.tree_has_node Example.oneway_two 0%nat 9 = true ∧
   last (logs Example.oneway_two) = Some (LogAddedToGroup 9 (230, 10))) ∧
  (Example.run_remove 1 9 Example.oneway_two).1 = Ret tt ∧
  (Example.tree_has_node Example.oneway_back 0%nat 9 = false ∧
   last (logs Example.oneway_back) = Some (LogRemovedBackup 3 2 1) ∧
   bool_decide (LogRemovedFromGroup 9 (230, 10) ∈ logs Example.oneway_back) = false).
Proof. split_and!; by vm_compute. Qed.

Local Close Scope Z_scope.

(** ** Termination of the backup work loop *)

(** A computation that never runs out of fuel. *)
Definition no_div {A} (m : M A) : Prop := ∀ s, (m s).1 ≠ Diverge.

Lemma no_div_ret {A} (a : A) : no_div (ret a).
Proof. by intros s. Qed.

Lemma no_div_raise {A} e : no_div (@raise A e).
Proof. by intros s. Qed.

Lemma no_div_bind {A B} (m : M A) (f : A → M B) :
  no_div m → (∀ a, no_div (f a)) → no_div (bind m f).
Proof.
  intros Hm Hf s. unfold bind. specialize (Hm s).
  destruct (m s) as [[a| |] s']; simpl in *; [apply Hf|done|done].
Qed.

Lemma no_div_get_state : no_div get_state.
Proof. by intros s. Qed.

Lemma no_div_log m : no_div (log m).
Proof. by intros s. Qed.

Lemma no_div_send_msg sw m : no_div (send_msg sw m).
Proof. by intros s. Qed.

Lemma no_div_set_switch id sw : no_div (set_switch id sw).
Proof. by intros s. Qed.

Lemma no_div_set_tree h T : no_div (set_tree h T).
Proof. by intros s. Qed.

Lemma no_div_alloc : no_div alloc.
Proof. by intros s. Qed.

Lemma no_div_lookup_or_raise {A} e (o : option A) : no_div (lookup_or_raise e o).
Proof. destruct o; [apply no_div_ret|apply no_div_raise]. Qed.

Lemma no_div_for_each {A} (l : list A) (body : A → M unit) :
  (∀ a, no_div (body a)) → no_div (for_each l body).
Proof.
  intros Hb. induction l as [|a l IH]; cbn [for_each].
  - apply no_div_ret.
  - apply no_div_bind; auto.
Qed.

Create HintDb no_div discriminated.
#[local] Hint Resolve no_div_ret no_div_raise no_div_get_state no_div_log
  no_div_send_msg no_div_set_switch no_div_set_tree no_div_alloc
  no_div_lookup_or_raise : no_div.

(** Goes through a computation bind by bind and branch by branch. *)
Ltac no_div_step :=
  match goal with
  | |- no_div (bind _ _) => apply no_div_bind; [|intros ?]
  | |- no_div (for_each _ _) => apply no_div_for_each; intros ?
  | |- no_div (match ?x with _ => _ end) => destruct x
  | |- no_div (let '(_, _) := ?x in _) => destruct x
  | |- no_div _ => solve [eauto with no_div]
  end.

Ltac no_div_auto := repeat no_div_step.

Lemma no_div_get_switch id : no_div (get_switch id).
Proof. unfold get_switch. no_div_auto. Qed.

Lemma no_div_get_edge u v : no_div (get_edge u v).
Proof. unfold get_edge. no_div_auto. Qed.

Lemma no_div_is_host n : no_div (is_host n).
Proof. unfold is_host. no_div_auto. Qed.

Lemma no_div_get_tree h : no_div (get_tree h).
Proof. unfold get_tree. no_div_auto. Qed.

#[local] Hint Resolve no_div_get_switch no_div_get_edge no_div_is_host
  no_div_get_tree : no_div.

Lemma no_div_get_ports_loop switch_id dsts ps ph :
  no_div (_get_ports_loop switch_id dsts ps ph).
Proof.
  revert ps ph. induction dsts as [|d dsts IH]; intros ps ph; cbn [_get_ports_loop];
    no_div_auto; apply IH.
Qed.

Lemma no_div_get_match d a m t i : no_div (_get_match d a m t i).
Proof. unfold _get_match. no_div_auto. Qed.

Lemma no_div_install_actions id prio n m acts : no_div (_install_actions id prio n m acts).
Proof. unfold _install_actions. no_div_auto. Qed.

Lemma no_div_in_port_of p id : no_div (in_port_of p id).
Proof. unfold in_port_of. no_div_auto. Qed.

Lemma no_div_in_port_or_zero p id : no_div (in_port_or_zero p id).
Proof. unfold in_port_or_zero. no_div_auto. Qed.

#[local] Hint Resolve no_div_get_ports_loop no_div_get_match no_div_install_actions
  no_div_in_port_of no_div_in_port_or_zero : no_div.

Lemma no_div_add_flow id d dsts m a t f p : no_div (add_flow id d dsts m a t f p).
Proof. unfold add_flow, _get_ports. no_div_auto. Qed.

Lemma no_div_add_group id b : no_div (_add_group id b).
Proof. unfold _add_group. no_div_auto. Qed.

#[local] Hint Resolve no_div_add_flow no_div_add_group : no_div.

Lemma no_div_add_FF_group id k p t : no_div (_add_FF_group id k p t).
Proof. unfold _add_FF_group. no_div_auto. Qed.

Lemma no_div_set_bucket_list id g l : no_div (set_bucket_list id g l).
Proof. unfold set_bucket_list. no_div_auto. Qed.

Lemma no_div_set_FF_entry id k l : no_div (set_FF_entry id k l).
Proof. unfold set_FF_entry. no_div_auto. Qed.

Lemma no_div_hashable_port p : no_div (hashable_port p).
Proof. unfold hashable_port. no_div_auto. Qed.

#[local] Hint Resolve no_div_add_FF_group no_div_set_bucket_list no_div_set_FF_entry
  no_div_hashable_port : no_div.

Lemma no_div_add_backup p id d dst b a t o n i : no_div (add_backup p id d dst b a t o n i).
Proof. unfold add_backup. no_div_auto. Qed.

Lemma no_div_create_tree id p pr : no_div (_create_tree id p pr).
Proof. unfold _create_tree. no_div_auto. Qed.

Lemma no_div_undo_tree h : no_div (_undo_tree h).
Proof. unfold _undo_tree. no_div_auto. Qed.

Lemma no_div_tree_add_edge T u v : no_div (tree_add_edge T u v).
Proof. unfold tree_add_edge. no_div_auto. Qed.

Lemma no_div_tree_set_backup T x y b : no_div (tree_set_backup T x y b).
Proof. unfold tree_set_backup. no_div_auto. Qed.

#[local] Hint Resolve no_div_add_backup no_div_create_tree no_div_undo_tree
  no_div_tree_add_edge no_div_tree_set_backup : no_div.

Lemma no_div_add_path_loop g a T tag pairs : no_div (_add_path_loop g a T tag pairs).
Proof.
  induction pairs as [|[prev cur] pairs IH]; cbn [_add_path_loop]; no_div_auto; apply IH.
Qed.

#[local] Hint Resolve no_div_add_path_loop : no_div.

Lemma no_div_add_path g a T path nb : no_div (_add_path g a T path nb).
Proof. unfold _add_path. no_div_auto. Qed.

#[local] Hint Resolve no_div_add_path : no_div.

(** Dijkstra's loop ends whatever the graph and the weights are: the fuel
    argument of [dijkstra_loop_spec] needs no invariant. *)
Section dijkstra_total.
Context {E : Type} (G : gmap node (gmap node E)).
Context (w : node → node → E → option Q).

Lemma relax_fringe v d st ue st' :
  nx.relax w v d st ue = inr st' →
  length (nx.fringe st') ≤ S (length (nx.fringe st)) ∧ nx.dist st' = nx.dist st.
Proof.
  destruct ue as [u e]. unfold nx.relax.
  repeat case_match; intros [= <-]; simpl; auto with lia.
Qed.

Lemma relax_all_fringe v d items st st' :
  nx.relax_all w v d st items = inr st' →
  length (nx.fringe st') ≤ length items + length (nx.fringe st) ∧
  nx.dist st' = nx.dist st.
Proof.
  revert st. induction items as [|ue items IH]; intros st; cbn [nx.relax_all].
  - intros [= <-]. auto with lia.
  - destruct (nx.relax w v d st ue) as [e|st1] eqn:Hr; [done|].
    apply relax_fringe in Hr as [Hl Hd]. intros Hrest. apply IH in Hrest as [Hl' Hd'].
    split; [simpl; lia|congruence].
Qed.

Lemma dijkstra_loop_total fuel t st :
  potential G st < fuel → nx.dijkstra_loop fuel G w t st ≠ Diverge.
Proof.
  revert st. induction fuel as [|fuel IH]; intros st Hpot; [lia|].
  cbn [nx.dijkstra_loop].
  destruct (nx.heappop (nx.fringe st)) as [[[[d c] v] rest]|] eqn:Hpop; [|done].
  apply heappop_spec in Hpop as [Hperm _].
  assert (length (nx.fringe st) = S (length rest)) as Hlen by (by rewrite Hperm).
  destruct (nx.dist st !! v) as [dv|] eqn:Hdv.
  { apply IH. unfold potential in *. simpl.
    change (unsettled G _) with (unsettled G st). lia. }
  destruct (decide (v = t)); [done|].
  destruct (G !! v) as [nb|] eqn:HG; [|done].
  destruct (nx.relax_all _ _ _ _ _) as [e|st3] eqn:Hr; [done|].
  apply relax_all_fringe in Hr as [Hf3 Hd3]. apply IH.
  unfold potential in *.
  rewrite (unsettled_settle G st v d nb HG Hdv) in Hpot.
  assert (unsettled G st3 =
          unsettled G {| nx.dist := <[v:=d]> (nx.dist st); nx.seen := nx.seen st;
                         nx.paths := nx.paths st; nx.fringe := nx.fringe st;
                         nx.counter := nx.counter st |}) as ->.
  { unfold unsettled. by rewrite Hd3. }
  rewrite length_map_to_list in Hf3. simpl in Hf3. lia.
Qed.

Lemma multi_source_dijkstra_total S0 t : nx.multi_source_dijkstra G S0 t w ≠ Diverge.
Proof.
  unfold nx.multi_source_dijkstra. destruct S0 as [|s0 S1] eqn:HS; [done|].
  rewrite <- HS. case_bool_decide; [done|].
  pose proof (dijkstra_loop_total (nx.dijkstra_fuel G S0) t (nx.init_state S0)
                (init_state_potential G S0)) as Hloop.
  by destruct (nx.dijkstra_loop _ _ _ _ _).
Qed.

End dijkstra_total.

Lemma SPT_join_total network exclude T v : SPT.join network exclude T v ≠ Diverge.
Proof.
  unfold SPT.join. destruct (nx.has_node (t_adj T) v); [done|].
  unfold nx.dijkstra_path.
  match goal with |- context [nx.multi_source_dijkstra ?G ?S ?t ?w] =>
    pose proof (multi_source_dijkstra_total G w S t) as Hms;
    destruct (nx.multi_source_dijkstra G S t w) as [ps|e|] end; [|by destruct e|done].
  by destruct (ps !! v).
Qed.

Lemma elem_of_consecutive (p : list node) a b :
  (a, b) ∈ consecutive p ↔ ∃ i, p !! i = Some a ∧ p !! S i = Some b.
Proof.
  unfold consecutive. rewrite list_elem_of_lookup. split.
  - intros [i Hi]. exists i. apply lookup_zip_with_Some in Hi as (x & y & [= <- <-] & Hx & Hy).
    rewrite lookup_drop in Hy. done.
  - intros (i & Ha & Hb). exists i. apply lookup_zip_with_Some.
    exists a, b. rewrite lookup_drop. done.
Qed.

Lemma SPT_join_avoids network exclude T v p x y :
  SPT.join network exclude T v = Ret p → (x, y) ∈ consecutive p →
  ((x, y) ∉ exclude) ∧ x ≠ y.
Proof.
  intros Hj Hin. apply elem_of_consecutive in Hin as (i & Hx & Hy).
  assert (p ≠ []) as Hne by (by intros ->).
  destruct (SPT_join_sound _ _ _ _ _ Hj Hne) as (_ & _ & _ & Hc).
  destruct (chain_lookup _ _ _ _ _ Hc Hx Hy) as [(e & _ & _ & Hex & _) Hxy]. done.
Qed.

Lemma bind_Ret {A B} (m : M A) (f : A → M B) s b s2 :
  bind m f s = (Ret b, s2) → ∃ a s1, m s = (Ret a, s1) ∧ f a s1 = (Ret b, s2).
Proof.
  unfold bind. destruct (m s) as [[a| |] s1]; [eauto|done|done].
Qed.

Tactic Notation "bind_inv" hyp(H) "as" ident(a) ident(s) ident(Hm) :=
  apply bind_Ret in H as (a & s & Hm & H).

Tactic Notation "bind_inv" hyp(H) :=
  let a := fresh "a" in let s := fresh "s" in let Hm := fresh "Hm" in
  apply bind_Ret in H as (a & s & Hm & H).

Lemma protected_edges_consecutive path b x y :
  (b, x, y) ∈ protected_edges path → (x, y) ∈ consecutive path.
Proof.
  unfold protected_edges. rewrite list_elem_of_lookup. intros [i Hi].
  apply lookup_zip_with_Some in Hi as ([b' x'] & y' & [= <- <- <-] & Hbx & Hy).
  apply lookup_zip_with_Some in Hbx as (b' & x' & [= <- <-] & _ & Hx).
  rewrite lookup_drop in Hy. apply elem_of_consecutive. eauto.
Qed.

(** The items the work loop can hold while it serves a join of [v]: the
    item [(path, T, set())] of the primary path at level 0, and at level
    [n + 1] the items [(b_path, backup, L)] that protecting an edge of the
    path of a level-[n] item enqueues. *)
Inductive enqueued (join : join_fn) (F : nat) (v : node) (ip_group ip_source : Z)
  : nat → item → Prop :=
  | enqueued_root T s path s' :
      call_join join ∅ T v s = (Ret path, s') → length path ≠ 0 → 0 < F →
      enqueued join F v ip_group ip_source 0 (path, T, ∅)
  | enqueued_child n path T down pxy s new s' it :
      enqueued join F v ip_group ip_source n (path, T, down) →
      pxy ∈ protected_edges path →
      protect_edge join F v ip_group ip_source T down pxy s = (Ret new, s') →
      it ∈ new →
      enqueued join F v ip_group ip_source (S n) it.

(** The path of an item uses no link of its down-set, which holds both
    directions of every link in it. *)
Definition item_ok (it : item) : Prop :=
  (∀ x y, (x, y) ∈ consecutive it.1.1 → ((x, y) ∉ it.2) ∧ x ≠ y) ∧
  (∀ x y, (x, y) ∈ it.2 → (y, x) ∈ it.2).

Section backup_loop.
Variable join : join_fn.
Variables (F : nat) (v : node) (ip_group ip_source : Z).
Hypothesis join_total : ∀ network exclude T u, join network exclude T u ≠ Diverge.
Hypothesis join_avoids : ∀ network exclude T u p x y,
  join network exclude T u = Ret p → (x, y) ∈ consecutive p →
  ((x, y) ∉ exclude) ∧ x ≠ y.

Lemma call_join_inv exclude T s p s' :
  call_join join exclude T v s = (Ret p, s') →
  ∃ t, join (network s) exclude t v = Ret p.
Proof.
  unfold call_join. intros H. bind_inv H as s0 s1 Hs. injection Hs as <- <-.
  bind_inv H as t s2 Ht. exists t.
  destruct (join (network s) exclude t v); [|done|done].
  by injection H as <- _.
Qed.

Lemma no_div_call_join exclude T : no_div (call_join join exclude T v).
Proof.
  unfold call_join. apply no_div_bind; [auto with no_div|intros s].
  apply no_div_bind; [auto with no_div|intros t]. intros s1.
  pose proof (join_total (network s) exclude t v).
  by destruct (join (network s) exclude t v).
Qed.

Hint Resolve no_div_call_join : no_div.

Lemma no_div_protect_edge T down pxy :
  no_div (protect_edge join F v ip_group ip_source T down pxy).
Proof. unfold protect_edge. no_div_auto. Qed.

Hint Resolve no_div_protect_edge : no_div.

Lemma no_div_protect_path T down edges :
  no_div (protect_path join F v ip_group ip_source T down edges).
Proof. induction edges; cbn [protect_path]; no_div_auto. Qed.

(** What [protect_edge] hands back to the queue. *)
Lemma protect_edge_items T down b x y s new s' it :
  protect_edge join F v ip_group ip_source T down (b, x, y) s = (Ret new, s') →
  it ∈ new →
  let L : gset edge := down ∪ {[(x, y)]} ∪ {[(y, x)]} in
  ∃ p backup, it = (p, backup, L) ∧ size L / 2 < F ∧
    ∀ a c, (a, c) ∈ consecutive p → ((a, c) ∉ L) ∧ a ≠ c.
Proof.
  unfold protect_edge. intros H Hin. do 3 bind_inv H.
  bind_inv H as b_path sj Hj. apply call_join_inv in Hj as [bt Hj].
  destruct (bool_decide (0 < length b_path)).
  - do 4 bind_inv H. bind_inv H. injection H as <- _.
    case_bool_decide as HF; [|by apply elem_of_nil in Hin].
    apply list_elem_of_singleton in Hin as ->.
    eexists _, _. split; [done|]. split; [done|]. intros; eapply join_avoids; eauto.
  - do 3 bind_inv H. injection H as <- _. by apply elem_of_nil in Hin.
Qed.

Lemma enqueued_spec n it :
  enqueued join F v ip_group ip_source n it →
  item_ok it ∧ size it.2 = 2 * n ∧ n < F.
Proof.
  induction 1 as [T s path s' Hj Hlen HF|n path T down [[b x] y] s new s' it _ IH Hin Hpe Hit].
  - apply call_join_inv in Hj as [t Hj]. split_and!; [split|done|done]; simpl.
    + intros; eapply join_avoids; eauto.
    + intros x y Hxy. by apply elem_of_empty in Hxy.
  - destruct IH as ([Hav Hsym] & Hsz & Hn). simpl in *.
    apply protected_edges_consecutive, Hav in Hin as [Hxy Hne].
    destruct (protect_edge_items _ _ _ _ _ _ _ _ _ Hpe Hit) as (p & bk & -> & HF & Hp).
    assert ((y, x) ∉ down) as Hyx by (intros Hyx; by apply Hsym in Hyx).
    assert (size (down ∪ {[(x, y)]} ∪ {[(y, x)]}) = 2 * S n) as HL.
    { rewrite size_union, size_union, !size_singleton; [lia| |].
      - apply disjoint_singleton_r. done.
      - apply disjoint_singleton_r. rewrite elem_of_union, elem_of_singleton.
        intros [?|[= -> _]]; done. }
    split_and!; [split|done|]; simpl.
    + done.
    + intros a c. rewrite !elem_of_union, !elem_of_singleton.
      intros [[Hd|[= -> ->]]|[= -> ->]]; auto.
    + rewrite HL in HF. replace (2 * S n) with (S n * 2) in HF by lia.
      by rewrite Nat.div_mul in HF.
Qed.

Lemma protect_path_enqueued n path T down edges s new s' :
  enqueued join F v ip_group ip_source n (path, T, down) →
  (∀ e, e ∈ edges → e ∈ protected_edges path) →
  protect_path join F v ip_group ip_source T down edges s = (Ret new, s') →
  Forall (enqueued join F v ip_group ip_source (S n)) new.
Proof.
  intros Hq. revert s new. induction edges as [|pxy edges IH]; intros s new Hsub;
    cbn [protect_path].
  - by intros [= <- _].
  - intros H. bind_inv H as new1 s1 Hpe. bind_inv H as more s2 Hpp. injection H as <- <-.
    apply Forall_app. split.
    + apply Forall_forall. intros it Hit. eapply enqueued_child; eauto.
      apply Hsub, elem_of_cons. by left.
    + eapply IH; [|exact Hpp]. intros e He. apply Hsub, elem_of_cons. by right.
Qed.

(** From some amount of fuel on, the work loop started with this queue
    comes to an end, whatever the state. *)
Definition terminates (queue : list item) : Prop :=
  ∀ s, ∃ fuel, ∀ fuel', fuel ≤ fuel' →
    (process_queue fuel' join F v ip_group ip_source queue s).1 ≠ Diverge.

Definition deep (k : nat) (it : item) : Prop :=
  ∃ n, enqueued join F v ip_group ip_source n it ∧ F ≤ n + k.

Lemma terminates_nil : terminates [].
Proof. intros s. exists 1. intros [|fuel'] Hle; [lia|done]. Qed.

Lemma terminates_step k q1 q2 :
  (∀ q, Forall (deep k) q → terminates q) →
  Forall (deep (S k)) q1 → Forall (deep k) q2 → terminates (q1 ++ q2).
Proof.
  intros IHk. revert q2. induction q1 as [|[[path T] down] q1 IH]; intros q2 H1 H2.
  { by apply IHk. }
  apply Forall_cons in H1 as [(n & Hq & Hn) H1]. intros s.
  destruct (protect_path join F v ip_group ip_source T down (protected_edges path) s)
    as [[new| |] s1] eqn:Hpp.
  - assert (Forall (deep k) (q2 ++ new)) as H2'.
    { apply Forall_app. split; [done|].
      eapply Forall_impl; [eapply protect_path_enqueued; eauto|].
      intros it Hit. exists (S n). split; [done|lia]. }
    destruct (IH _ H1 H2' s1) as [fuel Hfuel]. exists (S fuel).
    intros [|fuel'] Hle; [lia|]. cbn [process_queue app]. unfold bind at 1.
    rewrite Hpp, <- app_assoc. apply Hfuel. lia.
  - exists 1. intros [|fuel'] Hle; [lia|]. cbn [process_queue app]. unfold bind at 1.
    by rewrite Hpp.
  - pose proof (no_div_protect_path T down (protected_edges path) s) as Hnd.
    by rewrite Hpp in Hnd.
Qed.

Lemma terminates_deep k q : Forall (deep k) q → terminates q.
Proof.
  revert q. induction k as [|k IHk]; intros q Hq.
  - destruct q as [|it q]; [apply terminates_nil|].
    apply Forall_cons in Hq as [(n & Hn & HF) _].
    apply enqueued_spec in Hn as (_ & _ & Hn). lia.
  - rewrite <- (app_nil_r q). by apply (terminates_step k).
Qed.

Lemma process_request_terminates T s :
  ∃ fuel, ∀ fuel', fuel ≤ fuel' →
    (_process_request fuel' join T v true F ip_group ip_source s).1 ≠ Diverge.
Proof.
  unfold _process_request. cbn [negb].
  destruct (call_join join ∅ T v s) as [[path| |] s1] eqn:Hj.
  2:{ exists 0. intros fuel' _. unfold bind at 1. by rewrite Hj. }
  2:{ by pose proof (no_div_call_join ∅ T s) as Hnd; rewrite Hj in Hnd. }
  destruct (decide (length path = 0)) as [Hlen|Hlen].
  { exists 0. intros fuel' _. unfold bind at 1. rewrite Hj.
    rewrite bool_decide_eq_true_2 by done.
    match goal with |- (?m s1).1 ≠ Diverge =>
      assert (no_div m) as Hnd by no_div_auto; apply Hnd end. }
  destruct (_add_path ip_group ip_source T path (bool_decide (0 < F)) s1)
    as [[[]| |] s2] eqn:Ha.
  2:{ exists 0. intros fuel' _. unfold bind at 1. rewrite Hj.
      rewrite bool_decide_eq_false_2 by done. unfold bind at 1. by rewrite Ha. }
  2:{ by pose proof (no_div_add_path ip_group ip_source T path (bool_decide (0 < F)) s1)
        as Hnd; rewrite Ha in Hnd. }
  assert (terminates (if bool_decide (0 < F) then [(path, T, ∅)] else [])) as Hq.
  { case_bool_decide as HF; [|apply terminates_nil].
    apply (terminates_deep F). apply Forall_singleton. exists 0. split; [|lia].
    eapply enqueued_root; eauto. }
  destruct (Hq s2) as [fuel Hfuel]. exists fuel. intros fuel' Hle.
  unfold bind at 1. rewrite Hj. rewrite bool_decide_eq_false_2 by done.
  unfold bind at 1. rewrite Ha. unfold bind at 1.
  specialize (Hfuel fuel' Hle).
  by destruct (process_queue fuel' join F v ip_group ip_source _ s2) as [[[]| |] s3].
Qed.

Lemma add_subscriber_terminates s :
  ∃ fuel, ∀ fuel', fuel ≤ fuel' →
    (add_subscriber fuel' join F ip_group ip_source v s).1 ≠ Diverge.
Proof.
  unfold add_subscriber. unfold bind at 1, get_state at 1.
  destruct (groups s !! (ip_group, ip_source)) as [T|]; [|by exists 0].
  destruct (get_tree T s) as [[t| |] s1] eqn:Ht.
  2:{ exists 0. intros fuel' _. unfold bind at 1. by rewrite Ht. }
  2:{ by pose proof (no_div_get_tree T s) as Hnd; rewrite Ht in Hnd. }
  destruct (nx.has_node (t_adj t) v) eqn:Hv.
  { exists 0. intros fuel' _. unfold bind at 1. by rewrite Ht, Hv. }
  destruct (process_request_terminates T s1) as [fuel Hfuel]. exists fuel.
  intros fuel' Hle. specialize (Hfuel fuel' Hle).
  unfold bind at 1. rewrite Ht, Hv. unfold bind at 1.
  destruct (_process_request fuel' join T v true F ip_group ip_source s1)
    as [[r| |] s2]; [|done|done].
  by destruct (truthy r).
Qed.

End backup_loop.

(** C8. For every protection level [F] and every join of a subscriber [v]
    served with the controller's shortest-path strategy, the backup work
    loop comes to an end: from some amount of fuel on, neither
    [add_subscriber] nor [_process_request] runs out of it, whatever the
    state. An item enqueued at level [n] carries a down-set of exactly [n]
    undirected links ([2 * n] directed ones, one undirected link more than
    its parent's at level [n - 1]), and it is enqueued only while
    [len(L) / 2 < F]: the level never reaches [F]. *)
Theorem backup_loop_terminates (F : nat) (v : node) (ip_group ip_source : Z) :
  (∀ s, ∃ fuel, ∀ fuel', fuel ≤ fuel' →
     (add_subscriber fuel' SPT.join F ip_group ip_source v s).1 ≠ Diverge) ∧
  (∀ T s, ∃ fuel, ∀ fuel', fuel ≤ fuel' →
     (_process_request fuel' SPT.join T v true F ip_group ip_source s).1 ≠ Diverge) ∧
  (∀ n it, enqueued SPT.join F v ip_group ip_source n it →
     size it.2 = 2 * n ∧ size it.2 / 2 = n ∧ n < F).
Proof.
  split_and!.
  - apply add_subscriber_terminates; [apply SPT_join_total|].
    intros; eapply SPT_join_avoids; eauto.
  - apply process_request_terminates; [apply SPT_join_total|].
    intros; eapply SPT_join_avoids; eauto.
  - intros n it Hq. apply enqueued_spec in Hq as (_ & Hsz & Hn).
    2:{ intros; eapply SPT_join_avoids; eauto. }
    split_and!; [done| |done].
    rewrite Hsz. replace (2 * n) with (n * 2) by lia. by apply Nat.div_mul.
Qed.

(** In [Example.fork] with [F = 2], the join of the host [8] comes to an
    end, and protecting the primary edge [1 -> 2] enqueues an item at level 1
    whose down-set is that link in both directions. *)
Lemma backup_loop_terminates_witness :
  (Example.run_add 2 8%Z (Example.start Example.fork Example.fork_attrs)).1 = Ret tt ∧
  ∃ it, enqueued SPT.join 2 8%Z 230%Z 10%Z 1 it ∧ size it.2 = 2.
Proof.
  split; [by vm_compute|].
  pose (s0 := Example.start Example.fork Example.fork_attrs).
  pose (s1 := (_add_path 230%Z 10%Z 0 [1; 2; 4; 8]%Z true s0).2).
  assert (∃ it, enqueued SPT.join 2 8%Z 230%Z 10%Z 1 it) as [it Hit].
  { eexists. eapply (enqueued_child _ _ _ _ _ 0 [1; 2; 4; 8]%Z 0 ∅ (None, 1, 2)%Z s1).
    - eapply (enqueued_root _ _ _ _ _ 0 s0); [by vm_compute|done|lia].
    - apply elem_of_cons. by left.
    - vm_compute. reflexivity.
    - apply elem_of_cons. by left. }
  exists it. split; [done|].
  destruct (backup_loop_terminates 2 8%Z 230%Z 10%Z) as (_ & _ & Hlevel).
  destruct (Hlevel 1 it Hit) as (Hsz & _). exact Hsz.
Defined.

(** ** Adding a subscriber and removing it again *)

(** The backup pointer of the edge [x -> y] of the tree object [h]. *)
Definition backup_of (s : state) (h : handle) (x y : node) : option (option handle) :=
  t ← heap s !! h; nx.edge_data (t_adj t) x y.

Local Open Scope Z_scope.

(** In [Example.oneway] with [F = 1], the host [9] joins the tree of the
    host [8] and leaves again. Both requests return; the primary edge
    [1 -> 2], which had no backup, keeps the backup tree made for [9], and
    switch [1], which had no fast-failover group, keeps the group made for
    port 1 and its bucket. *)
Lemma add_remove_leaves_backup_state :
  Example.tree_has_node Example.oneway_one 0%nat 9 = false ∧
  (Example.run_add 1 9 Example.oneway_one).1 = Ret tt ∧
  (Example.run_remove 1 9 Example.oneway_two).1 = Ret tt ∧
  backup_of Example.oneway_one 0%nat 1 2 = Some None ∧
  backup_of Example.oneway_back 0%nat 1 2 = Some (Some 3%nat) ∧
  FF_groups (Example.switch_of Example.oneway_one 1) = ∅ ∧
  FF_groups (Example.switch_of Example.oneway_back 1) !! (1, McKey 230 10 None None)
    = Some [(1, 0%nat)] ∧
  buckets (Example.switch_of Example.oneway_one 1) = ∅ ∧
  buckets (Example.switch_of Example.oneway_back 1) !! 1 = Some [(Port 1, None, false)].
Proof. by vm_compute. Qed.

Local Close Scope Z_scope.

(** *** The paths of Dijkstra's algorithm are simple *)
Section dijkstra_simple.
Context {E : Type} (G : gmap node (gmap node E)).
Context (w : node → node → E → option Q).

(** No node twice on a path, whose nodes before the last are settled. *)
Definition simple_paths (st : nx.dstate) : Prop :=
  ∀ u p, nx.paths st !! u = Some p →
    NoDup p ∧ last p = Some u ∧ ∀ x, x ∈ p → x ≠ u → is_Some (nx.dist st !! x).

Lemma relax_simple v d st ue st' :
  simple_paths st → is_Some (nx.dist st !! v) →
  nx.relax w v d st ue = inr st' → simple_paths st'.
Proof.
  intros Hs Hv. destruct ue as [u e]. unfold nx.relax.
  destruct (w v u e) as [cost|]; [|by intros [= <-]].
  destruct (nx.dist st !! u) as [du|] eqn:Hdu.
  { destruct (nx.Qlt_bool _ _); [done|]. by intros [= <-]. }
  assert (∀ st1,
    match nx.paths st !! v with
    | Some pv => inr (nx.push (d + cost) u pv st)
    | None => inl KeyError
    end = inr st1 → simple_paths st1) as Hupd.
  { intros st1. destruct (nx.paths st !! v) as [pv|] eqn:Hpv; [|done].
    intros [= <-]. destruct (Hs _ _ Hpv) as (Hnd & Hl & Hin).
    assert (∀ x, x ∈ pv → is_Some (nx.dist st !! x)) as Hall.
    { intros x Hx. destruct (decide (x = v)) as [->|Hne]; auto. }
    intros x p. simpl. destruct (decide (x = u)) as [->|Hne].
    - rewrite lookup_insert_eq. intros [= <-]. split_and!.
      + apply NoDup_app. split_and!; [done| |apply NoDup_singleton].
        intros y Hy ->%list_elem_of_singleton. apply Hall in Hy as [? Hy]. congruence.
      + by rewrite last_snoc.
      + intros y Hy Hyu. apply elem_of_app in Hy as [Hy|Hy]; [by apply Hall|].
        by apply list_elem_of_singleton in Hy.
    - rewrite lookup_insert_ne by done. apply Hs. }
  simpl. destruct (nx.seen st !! u) as [su|]; [|by apply Hupd].
  destruct (nx.Qlt_bool _ _); [by apply Hupd|]. by intros [= <-].
Qed.

Lemma relax_all_simple v d items st st' :
  simple_paths st → is_Some (nx.dist st !! v) →
  nx.relax_all w v d st items = inr st' → simple_paths st'.
Proof.
  revert st. induction items as [|ue items IH]; intros st Hs Hv; cbn [nx.relax_all].
  - by intros [= <-].
  - destruct (nx.relax w v d st ue) as [e|st1] eqn:Hr; [done|].
    pose proof (relax_simple _ _ _ _ _ Hs Hv Hr) as Hs1.
    apply relax_fringe in Hr as [_ Hd]. apply IH; [done|]. by rewrite Hd.
Qed.

Lemma dijkstra_loop_simple fuel t st st' :
  simple_paths st → nx.dijkstra_loop fuel G w t st = Ret st' → simple_paths st'.
Proof.
  revert st. induction fuel as [|fuel IH]; intros st Hs; cbn [nx.dijkstra_loop]; [done|].
  destruct (nx.heappop (nx.fringe st)) as [[[[d c] v] rest]|]; [|by intros [= <-]].
  destruct (nx.dist st !! v) as [dv|] eqn:Hdv.
  { apply IH. done. }
  assert (simple_paths
            {| nx.dist := <[v:=d]> (nx.dist st); nx.seen := nx.seen st;
               nx.paths := nx.paths st; nx.fringe := rest;
               nx.counter := nx.counter st |}) as Hs2.
  { intros u p Hp. destruct (Hs u p Hp) as (Hnd & Hl & Hin). split_and!; [done|done|].
    intros x Hx Hxu. simpl. destruct (decide (x = v)) as [->|Hne].
    - rewrite lookup_insert_eq. eauto.
    - rewrite lookup_insert_ne by done. auto. }
  destruct (decide (v = t)); [by intros [= <-]|].
  destruct (G !! v) as [nb|] eqn:HG; [|done].
  destruct (nx.relax_all _ _ _ _ _) as [e|st3] eqn:Hr; [done|].
  apply IH. eapply relax_all_simple; [exact Hs2| |exact Hr].
  simpl. rewrite lookup_insert_eq. eauto.
Qed.

Lemma multi_source_dijkstra_simple S0 t ps p :
  nx.multi_source_dijkstra G S0 t w = Ret ps → ps !! t = Some p → NoDup p.
Proof.
  unfold nx.multi_source_dijkstra.
  destruct S0 as [|s0 S1] eqn:HS; [done|]. rewrite <- HS.
  case_bool_decide as Ht.
  - intros [= <-] Hp. apply lookup_singleton_Some in Hp as [_ <-]. apply NoDup_singleton.
  - destruct (nx.dijkstra_loop _ _ _ _ _) as [st| |] eqn:Hl; [|done|done].
    intros [= <-] Hp. eapply dijkstra_loop_simple in Hl; [by apply Hl in Hp as [? _]|].
    unfold nx.init_state.
    match goal with |- context [foldl _ ?st0 _] =>
      destruct (init_fold S0 st0) as (_ & Hpaths & _) end.
    intros u q. rewrite Hpaths. simpl. intros Hu.
    apply init_paths_lookup in Hu as [-> Hin].
    split_and!; [apply NoDup_singleton|done|].
    intros x ->%list_elem_of_singleton. done.
Qed.

End dijkstra_simple.

Lemma SPT_join_simple network exclude T v p :
  SPT.join network exclude T v = Ret p → NoDup p.
Proof.
  unfold SPT.join. destruct (nx.has_node (t_adj T) v); [intros [= <-]; apply NoDup_nil_2|].
  unfold nx.dijkstra_path.
  destruct (nx.multi_source_dijkstra _ _ _ _) as [ps|[]|] eqn:Hms; try done;
    try (intros [= <-]; apply NoDup_nil_2).
  destruct (ps !! v) as [q|] eqn:Hq; [|intros [= <-]; apply NoDup_nil_2].
  intros [= <-]. eapply multi_source_dijkstra_simple; eauto.
Qed.

(** *** A path grafted on a tree, and cut off again *)

Abbreviation adjacency := (gmap node (gmap node (option handle))).

(** The tree after [_add_path] has gone through [rv], the new part of a
    path read from its end: [rv = y :: x :: ...] adds the edge [x -> y]
    first. *)
Fixpoint add_chain (G : adjacency) (rv : list node) : adjacency :=
  match rv with
  | y :: (x :: _) as r => add_chain (nx.add_edge G x y None) r
  | _ => G
  end.

(** A node the graph does not mention. *)
Definition fresh (G : adjacency) (y : node) : Prop :=
  G !! y = None ∧ ∀ u, nx.edge_data G u y = None.

Lemma adjacency_eq (G1 G2 : adjacency) :
  (∀ n, is_Some (G1 !! n) ↔ is_Some (G2 !! n)) →
  (∀ u z, nx.edge_data G1 u z = nx.edge_data G2 u z) → G1 = G2.
Proof.
  intros Hdom Hed. apply map_eq. intros n. specialize (Hdom n).
  destruct (G1 !! n) as [nb1|] eqn:H1, (G2 !! n) as [nb2|] eqn:H2.
  - f_equal. apply map_eq. intros z. specialize (Hed n z).
    unfold nx.edge_data in Hed. by rewrite H1, H2 in Hed.
  - destruct Hdom as [Hd _]. by destruct Hd.
  - destruct Hdom as [_ Hd]. by destruct Hd.
  - done.
Qed.

Lemma add_node_lookup (G : adjacency) x n :
  nx.add_node G x !! n = if decide (n = x) then Some (default ∅ (G !! x)) else G !! n.
Proof.
  unfold nx.add_node. destruct (G !! x) as [nb|] eqn:Hx; destruct (decide (n = x)) as [->|Hne].
  - by rewrite Hx.
  - done.
  - by rewrite lookup_insert_eq.
  - by rewrite lookup_insert_ne.
Qed.

Lemma add_edge_is_Some (G : adjacency) x y d n :
  is_Some (nx.add_edge G x y d !! n) ↔ is_Some (G !! n) ∨ n = x ∨ n = y.
Proof.
  unfold nx.add_edge. destruct (decide (n = x)) as [->|Hx].
  { rewrite lookup_insert_eq. split; eauto. }
  rewrite lookup_insert_ne by done. rewrite !add_node_lookup.
  destruct (decide (n = y)) as [->|Hy]; [split; eauto|].
  rewrite decide_False by done. split; [auto|]. by intros [?|[?|?]].
Qed.

Lemma add_edge_edge_data (G : adjacency) x y d u z :
  nx.edge_data (nx.add_edge G x y d) u z =
  if decide (u = x ∧ z = y) then Some d else nx.edge_data G u z.
Proof.
  unfold nx.edge_data, nx.add_edge. destruct (decide (u = x)) as [->|Hx].
  - rewrite lookup_insert_eq, !add_node_lookup.
    match goal with |- <[y:=d]> (default ∅ ?o) !! z = _ =>
      assert (default ∅ o = default ∅ (G !! x)) as -> end.
    { destruct (decide (x = y)) as [<-|Hxy].
      - by rewrite decide_True.
      - by rewrite decide_True. }
    destruct (decide (z = y)) as [->|Hz].
    + rewrite lookup_insert_eq. by rewrite decide_True.
    + rewrite lookup_insert_ne by done. rewrite decide_False by (by intros [_ ?]).
      by destruct (G !! x).
  - rewrite lookup_insert_ne by done. rewrite decide_False by (by intros [? _]).
    rewrite !add_node_lookup. destruct (decide (u = y)) as [->|Hy].
    + rewrite decide_False by done. by destruct (G !! y).
    + by rewrite decide_False.
Qed.

Lemma consecutive_cons a b (r : list node) :
  consecutive (a :: b :: r) = (a, b) :: consecutive (b :: r).
Proof. done. Qed.

Lemma consecutive_elem (rv : list node) a b :
  (a, b) ∈ consecutive rv → a ∈ rv ∧ b ∈ tail rv.
Proof.
  rewrite elem_of_consecutive. intros (i & Ha & Hb). split.
  - by eapply list_elem_of_lookup_2.
  - destruct rv as [|c rv]; [done|]. simpl in *. by eapply list_elem_of_lookup_2.
Qed.

Lemma add_chain_is_Some G rv n :
  is_Some (add_chain G rv !! n) ↔ is_Some (G !! n) ∨ (n ∈ rv ∧ 2 ≤ length rv).
Proof.
  revert G. induction rv as [|y [|x r] IH]; intros G.
  - simpl. split; [auto|]. intros [?|[_ ?]]; [done|lia].
  - simpl. split; [auto|]. intros [?|[_ ?]]; [done|lia].
  - change (add_chain G (y :: x :: r)) with (add_chain (nx.add_edge G x y None) (x :: r)).
    rewrite IH, add_edge_is_Some. rewrite !elem_of_cons. simpl. split.
    + intros [[?|[-> | ->]]|[[-> |?] ?]]; auto with lia.
    + intros [?|[[-> |[-> |Hn]] _]]; auto.
      destruct r as [|x' r]; [by apply elem_of_nil in Hn|].
      right. split; [|simpl; lia]. rewrite !elem_of_cons in *. auto.
Qed.

Lemma add_chain_edge_data G rv u z :
  nx.edge_data (add_chain G rv) u z =
  if decide ((z, u) ∈ consecutive rv) then Some None else nx.edge_data G u z.
Proof.
  revert G. induction rv as [|y [|x r] IH]; intros G.
  - by rewrite decide_False by apply not_elem_of_nil.
  - by rewrite decide_False by apply not_elem_of_nil.
  - change (add_chain G (y :: x :: r)) with (add_chain (nx.add_edge G x y None) (x :: r)).
    rewrite IH, add_edge_edge_data, consecutive_cons.
    destruct (decide ((z, u) ∈ consecutive (x :: r))) as [Hin|Hnin].
    + rewrite decide_True; [done|]. apply elem_of_cons. by right.
    + destruct (decide (u = x ∧ z = y)) as [[-> ->]|Hne].
      * rewrite decide_True; [done|]. apply elem_of_cons. by left.
      * rewrite decide_False; [done|]. intros [[= -> ->]|?]%elem_of_cons; tauto.
Qed.

(** On a path without repetition a node has one successor. *)
Lemma consecutive_inj (rv : list node) a b b' :
  NoDup rv → (a, b) ∈ consecutive rv → (a, b') ∈ consecutive rv → b = b'.
Proof.
  intros Hnd. rewrite !elem_of_consecutive. intros (i & Ha & Hb) (j & Ha' & Hb').
  assert (i = j) as -> by (eapply NoDup_lookup; eauto). congruence.
Qed.

Lemma consecutive_inj_l (rv : list node) a a' b :
  NoDup rv → (a, b) ∈ consecutive rv → (a', b) ∈ consecutive rv → a = a'.
Proof.
  intros Hnd. rewrite !elem_of_consecutive. intros (i & Ha & Hb) (j & Ha' & Hb').
  assert (S i = S j) as [= ->] by (eapply NoDup_lookup; eauto). congruence.
Qed.

Lemma consecutive_ne (rv : list node) a b :
  NoDup rv → (a, b) ∈ consecutive rv → a ≠ b.
Proof.
  intros Hnd. rewrite elem_of_consecutive. intros (i & Ha & Hb) ->.
  assert (i = S i) by (eapply NoDup_lookup; eauto). lia.
Qed.

Lemma consecutive_head (y : node) r a :
  NoDup (y :: r) → (a, y) ∉ consecutive (y :: r).
Proof.
  intros Hnd. rewrite elem_of_consecutive. intros (i & Ha & Hb).
  assert (S i = 0) by (eapply NoDup_lookup; eauto). lia.
Qed.

Lemma singleton_list (l : list node) p :
  NoDup l → (∀ u, u ∈ l ↔ u = p) → l = [p].
Proof.
  intros Hnd Hl. destruct l as [|a l].
  - exfalso. eapply not_elem_of_nil, Hl. done.
  - assert (a = p) as -> by (apply Hl, elem_of_cons; by left).
    destruct l as [|b l]; [done|]. exfalso.
    assert (b = p) as -> by (apply Hl; rewrite !elem_of_cons; auto).
    apply NoDup_cons in Hnd as [Hnin _]. apply Hnin, elem_of_cons. by left.
Qed.

Lemma predecessors_singleton (G : adjacency) v p :
  (∀ u, nx.has_edge G u v = true ↔ u = p) → nx.predecessors G v = [p].
Proof.
  intros H. apply singleton_list.
  - unfold nx.predecessors, nx.nodes. apply NoDup_filter, NoDup_elements.
  - intros u. rewrite predecessors_spec, <- H. split; [tauto|].
    intros He. split; [|done]. unfold nx.has_edge, nx.edge_data in He.
    destruct (G !! u); [eauto|done].
Qed.

Lemma predecessors_singleton_inv (G : adjacency) v p u :
  nx.predecessors G v = [p] → nx.has_edge G u v = true ↔ u = p.
Proof.
  intros H. pose proof (predecessors_spec G v u) as Hs. rewrite H in Hs.
  rewrite list_elem_of_singleton in Hs. split.
  - intros He. apply Hs. split; [|done]. unfold nx.has_edge, nx.edge_data in He.
    destruct (G !! u); [eauto|done].
  - intros Hu. by apply Hs.
Qed.

Lemma add_chain_lookup G rv n :
  is_Some (add_chain G rv !! n) →
  ∃ nb, add_chain G rv !! n = Some nb ∧
    ∀ z, nb !! z = if decide ((z, n) ∈ consecutive rv) then Some None
                   else nx.edge_data G n z.
Proof.
  intros [nb Hnb]. exists nb. split; [done|]. intros z.
  rewrite <- add_chain_edge_data. unfold nx.edge_data. by rewrite Hnb.
Qed.

Lemma consecutive_before_dec (rv : list node) y :
  (∃ z, (z, y) ∈ consecutive rv) ∨ (∀ z, (z, y) ∉ consecutive rv).
Proof.
  destruct (decide (Exists (λ ab, ab.2 = y) (consecutive rv))) as [He|Hn].
  - left. apply Exists_exists in He as ([a b] & Hin & Hb). simpl in Hb. subst. eauto.
  - right. intros z Hin. apply Hn, Exists_exists. by exists (z, y).
Qed.

Section graft.
Variables (G : adjacency) (rv : list node).
Hypothesis rv_NoDup : NoDup rv.
Hypothesis rv_fresh : ∀ y x, (y, x) ∈ consecutive rv → fresh G y.

(** A node of the new part has its follower on the path as only
    predecessor. *)
Lemma add_chain_predecessors y x :
  (y, x) ∈ consecutive rv → nx.predecessors (add_chain G rv) y = [x].
Proof.
  intros Hyx. apply predecessors_singleton. intros u.
  unfold nx.has_edge. rewrite add_chain_edge_data.
  destruct (decide ((y, u) ∈ consecutive rv)) as [Hin|Hnin].
  - split; [|done]. intros _. eapply consecutive_inj; eauto.
  - destruct (rv_fresh _ _ Hyx) as [_ Hf]. rewrite Hf. split; [done|].
    intros ->. done.
Qed.

Lemma add_chain_new_edge y x :
  (y, x) ∈ consecutive rv → nx.edge_data (add_chain G rv) x y = Some None.
Proof. intros Hyx. rewrite add_chain_edge_data. by rewrite decide_True. Qed.

Lemma add_chain_has_node n : n ∈ rv → 2 ≤ length rv → is_Some (add_chain G rv !! n).
Proof. intros. apply add_chain_is_Some. auto. Qed.

(** A node of the new part has at most one successor. *)
Lemma add_chain_out_degree y x :
  (y, x) ∈ consecutive rv →
  ∃ d, nx.out_degree (add_chain G rv) y = Some d ∧ d ≤ 1.
Proof.
  intros Hyx. destruct (rv_fresh _ _ Hyx) as [Hy Hf].
  apply consecutive_elem in Hyx as Hel. destruct Hel as [Hel _].
  assert (2 ≤ length rv) as Hlen.
  { apply elem_of_consecutive in Hyx as (i & _ & Hi). apply lookup_lt_Some in Hi. lia. }
  destruct (add_chain_lookup G rv y) as (nb & Hnb & Hz); [by apply add_chain_has_node|].
  unfold nx.out_degree. rewrite Hnb. simpl. eexists. split; [done|].
  destruct (consecutive_before_dec rv y) as [[z Hzy]|Hno].
  - assert (nb = {[z := None]}) as ->; [|by rewrite map_size_singleton].
    apply map_eq. intros z'. rewrite Hz. destruct (decide (z' = z)) as [->|Hne].
    + by rewrite decide_True, lookup_singleton_eq.
    + rewrite decide_False, lookup_singleton_ne by
        (try done; intros ?; apply Hne; eapply consecutive_inj_l; eauto).
      unfold nx.edge_data. by rewrite Hy.
  - assert (nb = ∅) as ->; [|by rewrite map_size_empty; lia].
    apply map_eq. intros z'. rewrite Hz, lookup_empty.
    rewrite decide_False by apply Hno.
    unfold nx.edge_data. by rewrite Hy.
Qed.

(** The node the path leaves the tree at has one successor more. *)
Lemma add_chain_out_degree_last y w nb :
  (y, w) ∈ consecutive rv → G !! w = Some nb →
  nx.out_degree (add_chain G rv) w = Some (S (size nb)).
Proof.
  intros Hyw Hw. destruct (rv_fresh _ _ Hyw) as [_ Hf].
  destruct (add_chain_lookup G rv w) as (nb' & Hnb & Hz).
  { apply add_chain_is_Some. left. eauto. }
  unfold nx.out_degree. rewrite Hnb. simpl. f_equal.
  assert (nb' = <[y := None]> nb) as ->.
  { apply map_eq. intros z. rewrite Hz. destruct (decide (z = y)) as [->|Hne].
    - by rewrite decide_True, lookup_insert_eq.
    - rewrite decide_False, lookup_insert_ne by
        (try done; intros ?; apply Hne; eapply consecutive_inj_l; eauto).
      unfold nx.edge_data. by rewrite Hw. }
  rewrite map_size_insert_None; [done|].
  specialize (Hf w). unfold nx.edge_data in Hf. by rewrite Hw in Hf.
Qed.

(** What the tree had before stays. *)
Lemma add_chain_old_edge u c :
  (∀ z, (c, z) ∉ consecutive rv) →
  nx.edge_data (add_chain G rv) u c = nx.edge_data G u c.
Proof. intros Hc. rewrite add_chain_edge_data. by rewrite decide_False. Qed.

Lemma add_chain_old_predecessors c par :
  (∀ z, (c, z) ∉ consecutive rv) →
  nx.predecessors G c = [par] → nx.predecessors (add_chain G rv) c = [par].
Proof.
  intros Hc Hp. apply predecessors_singleton. intros u.
  unfold nx.has_edge. rewrite add_chain_old_edge by done.
  by apply predecessors_singleton_inv.
Qed.

End graft.

(** Removing the end of the grafted path gives the graft of the rest. *)
Lemma add_chain_remove_node G y x r :
  NoDup (y :: x :: r) → fresh G y → r ≠ [] ∨ is_Some (G !! x) →
  nx.remove_node (add_chain G (y :: x :: r)) y = Some (add_chain G (x :: r)).
Proof.
  intros Hnd [Hy Hf] Hx. unfold nx.remove_node.
  destruct (add_chain G (y :: x :: r) !! y) as [nb|] eqn:Hnb.
  2:{ apply eq_None_not_Some in Hnb. exfalso. apply Hnb, add_chain_is_Some.
      right. split; [apply elem_of_cons; by left|simpl; lia]. }
  f_equal. apply NoDup_cons in Hnd as [Hyr Hnd].
  assert (∀ a b, (a, b) ∈ consecutive (x :: r) → a ≠ y ∧ b ≠ y) as Hcy.
  { intros a b Hab. apply consecutive_elem in Hab as [Ha Hb]. split; intros ->; [done|].
    apply Hyr. simpl in Hb. apply elem_of_cons. by right. }
  apply adjacency_eq.
  - intros n. rewrite lookup_fmap, fmap_is_Some.
    destruct (decide (n = y)) as [->|Hne].
    + rewrite lookup_delete_eq. split; [by intros []|].
      rewrite add_chain_is_Some. intros [[? ?]|[? _]]; congruence.
    + rewrite lookup_delete_ne by done. rewrite !add_chain_is_Some.
      rewrite (elem_of_cons _ n y). simpl. split.
      * intros [?|[[?|Hin] _]]; [by left|done|].
        destruct r as [|x' r]; [|right; split; [done|simpl; lia]].
        apply list_elem_of_singleton in Hin as ->. destruct Hx; [done|by left].
      * intros [?|[? ?]]; [by left|]. right. split; [by right|lia].
  - intros u z. unfold nx.edge_data at 1. rewrite lookup_fmap.
    rewrite add_chain_edge_data.
    destruct (decide (u = y)) as [->|Hu].
    { rewrite lookup_delete_eq. simpl.
      rewrite decide_False by (intros H; by apply Hcy in H as [_ ?]).
      unfold nx.edge_data. by rewrite Hy. }
    rewrite lookup_delete_ne by done.
    pose proof (add_chain_edge_data G (y :: x :: r) u z) as He.
    unfold nx.edge_data at 1 in He.
    destruct (add_chain G (y :: x :: r) !! u) as [nbu|]; simpl.
    + destruct (decide (z = y)) as [->|Hz].
      * rewrite lookup_delete_eq.
        rewrite decide_False by (intros H; by apply Hcy in H as [? _]). by rewrite Hf.
      * rewrite lookup_delete_ne by done. rewrite He, consecutive_cons.
        destruct (decide ((z, u) ∈ consecutive (x :: r))) as [Hin|Hnin].
        -- rewrite decide_True; [done|]. apply elem_of_cons. by right.
        -- rewrite decide_False; [done|]. intros [[= -> ->]|?]%elem_of_cons; done.
    + rewrite consecutive_cons in He.
      destruct (decide ((z, u) ∈ consecutive (x :: r))) as [Hin|Hnin].
      * rewrite decide_True in He; [done|]. apply elem_of_cons. by right.
      * destruct (decide ((z, u) ∈ (y, x) :: consecutive (x :: r))); done.
Qed.

Lemma add_chain_head_out_degree G y x r :
  NoDup (y :: x :: r) → fresh G y →
  nx.out_degree (add_chain G (y :: x :: r)) y = Some 0.
Proof.
  intros Hnd [Hy Hf].
  destruct (add_chain_lookup G (y :: x :: r) y) as (nb & Hnb & Hz).
  { apply add_chain_is_Some. right. split; [apply elem_of_cons; by left|simpl; lia]. }
  unfold nx.out_degree. rewrite Hnb. simpl. f_equal.
  assert (nb = ∅) as ->; [|apply map_size_empty].
  apply map_eq. intros z. rewrite Hz, lookup_empty.
  rewrite decide_False by (by apply consecutive_head).
  unfold nx.edge_data. by rewrite Hy.
Qed.

(** *** One switch: a destination added to a flow and taken off again *)

(** The ports [_get_ports] finds for the one destination behind [port]. *)
Definition port_sets (port : Z) (host : bool) : gset Z * gset Z :=
  if host then (∅, {[port]}) else ({[port]}, ∅).

(** The switch after [add_flow] has added the destination behind [port] to
    the flow [key] ... *)
Definition flow_with (sw : switch) (key : flow_key) (tag : option Z)
    (port : Z) (host : bool) : switch :=
  let ports :=
    match flows sw !! key with
    | Some (current_s, current_h, _) =>
        ((port_sets port host).1 ∪ current_s, (port_sets port host).2 ∪ current_h)
    | None => port_sets port host
    end in
  set_flows sw
    (<[key := (ports.1, ports.2,
               length (_get_actions (FF_groups sw) key tag ports.1 ports.2))]> (flows sw)).

(** ... and after [remove_flow] has taken it off. *)
Definition flow_without (sw : switch) (key : flow_key) (tag : option Z)
    (port : Z) (host : bool) : switch :=
  match flows sw !! key with
  | Some (current_s, current_h, _) =>
      let other_s := current_s ∖ (port_sets port host).1 in
      let other_h := current_h ∖ (port_sets port host).2 in
      if bool_decide (size other_s = 0) && bool_decide (size other_h = 0) then
        set_flows sw (delete key (flows sw))
      else
        set_flows sw
          (<[key := (other_s, other_h,
                     length (_get_actions (FF_groups sw) key tag other_s other_h))]>
             (flows sw))
  | None => sw
  end.

(** The flow [key], if the switch has it, has a destination, none behind
    [port], and the number of tables its action lists take. *)
Definition flow_ok (sw : switch) (key : flow_key) (tag : option Z)
    (port : Z) (host : bool) : Prop :=
  match flows sw !! key with
  | Some (current_s, current_h, current_tables) =>
      (current_s ≠ ∅ ∨ current_h ≠ ∅) ∧
      (port ∉ (if host then current_h else current_s)) ∧
      current_tables = length (_get_actions (FF_groups sw) key tag current_s current_h)
  | None => True
  end.

Lemma set_flows_id sw f : f = flows sw → set_flows sw f = sw.
Proof. intros ->. by destruct sw. Qed.

Lemma flow_with_without sw key tag port host :
  flow_ok sw key tag port host →
  flow_without (flow_with sw key tag port host) key tag port host = sw.
Proof.
  unfold flow_ok, flow_with, flow_without. simpl.
  rewrite lookup_insert_eq.
  destruct (flows sw !! key) as [[[cs ch] ct]|] eqn:Hk; simpl.
  - intros (Hne & Hport & ->).
    assert (((port_sets port host).1 ∪ cs) ∖ (port_sets port host).1 = cs) as ->.
    { apply set_eq. intros z. destruct host; simpl in *;
        rewrite elem_of_difference, elem_of_union, ?elem_of_singleton, ?elem_of_empty;
        [tauto|]. split; [tauto|]. intros Hz. split; [tauto|]. by intros ->. }
    assert (((port_sets port host).2 ∪ ch) ∖ (port_sets port host).2 = ch) as ->.
    { apply set_eq. intros z. destruct host; simpl in *;
        rewrite elem_of_difference, elem_of_union, ?elem_of_singleton, ?elem_of_empty;
        [|tauto]. split; [tauto|]. intros Hz. split; [tauto|]. by intros ->. }
    assert (bool_decide (size cs = 0) && bool_decide (size ch = 0) = false) as ->.
    { apply andb_false_iff. destruct Hne as [Hne|Hne]; [left|right];
        apply bool_decide_eq_false_2; by rewrite size_empty_iff, leibniz_equiv_iff. }
    destruct sw as [f FF b gi]. unfold set_flows. simpl in *. f_equal.
    rewrite insert_insert_eq. by apply insert_id.
  - intros _. rewrite !difference_diag_L, size_empty. simpl.
    destruct sw as [f FF b gi]. unfold set_flows. simpl in *. f_equal.
    by apply delete_insert_id.
Qed.

Definition host_attr (a : node_attr) : bool :=
  match a with NHost => true | NSwitch _ => false end.

(** [s'] has the network, the addresses, the groups and the allocation
    cursor of [s], and the given node attributes and objects; what was sent
    and logged on the way is left open. *)
Definition steps_to (s s' : state) (attrs : gmap node node_attr)
    (objects : gmap handle tree) : Prop :=
  network s' = network s ∧ ip_2_mac s' = ip_2_mac s ∧ groups s' = groups s ∧
  next_handle s' = next_handle s ∧ node_attrs s' = attrs ∧ heap s' = objects.

Lemma get_ports_one s x y e ay :
  nx.edge_data (network s) x y = Some e → node_attrs s !! y = Some ay →
  _get_ports x [y] s = (Ret (port_sets (src_port e) (host_attr ay)), s).
Proof.
  intros He Hy. unfold _get_ports. cbn [_get_ports_loop].
  unfold get_edge, is_host, bind, get_state, lookup_or_raise. rewrite He.
  unfold ret at 1. rewrite Hy.
  destruct ay; simpl; unfold ret, port_sets; by rewrite (right_id_L ∅ (∪)).
Qed.

Lemma get_match_run s g a tag mg ma :
  ip_2_mac s !! g = Some mg → ip_2_mac s !! a = Some ma →
  _get_match g a true tag None s =
  (Ret (OFPMatch mg (Some ma) (Z.lor 0x1000 <$> tag) None), s).
Proof.
  intros Hg Ha. unfold _get_match, bind, get_state, lookup_or_raise. by rewrite Hg, Ha.
Qed.

Section one_switch.
Variables (ip_group ip_source : Z) (tag : option Z).
Let key := McKey ip_group ip_source tag None.

Lemma add_flow_run s x y sw e ay mg ms :
  node_attrs s !! x = Some (NSwitch sw) →
  nx.edge_data (network s) x y = Some e → node_attrs s !! y = Some ay →
  ip_2_mac s !! ip_group = Some mg → ip_2_mac s !! ip_source = Some ms →
  flow_ok sw key tag (src_port e) (host_attr ay) →
  ∃ s', add_flow x ip_group [y] true ip_source tag false None s = (Ret tt, s') ∧
    steps_to s s'
      (<[x := NSwitch (flow_with sw key tag (src_port e) (host_attr ay))]> (node_attrs s))
      (heap s).
Proof.
  intros Hx He Hy Hg Ha Hok. unfold add_flow.
  erewrite bind_run; [|by apply get_switch_run].
  erewrite bind_run; [|by eapply get_ports_one].
  set (ports := port_sets (src_port e) (host_attr ay)).
  assert (ports = (ports.1, ports.2)) as Hports by (by destruct ports).
  rewrite Hports. cbv beta iota.
  erewrite bind_run; [|reflexivity].
  erewrite bind_run; [|by apply get_switch_run].
  change (_get_key true ip_group ip_source tag None) with key.
  assert (∀ ct ps ph,
    ∃ s', (let! mtch := _get_match ip_group ip_source true tag None in
           _install_actions x (_get_priority tag None) ct mtch
             (_get_actions (FF_groups sw) key tag ps ph) ;;;
           let! sw0 := get_switch x in
           set_switch x
             (set_flows sw0
                (<[key := (ps, ph, length (_get_actions (FF_groups sw) key tag ps ph))]>
                   (flows sw0))) ;;;
           log (LogAddedFlow x ps ph) ;;;
           log (LogDestination ip_group) ;;;
           match tag with Some t => log (LogTag t) | None => ret tt end) s = (Ret tt, s') ∧
      steps_to s s'
        (<[x := NSwitch (set_flows sw
             (<[key := (ps, ph, length (_get_actions (FF_groups sw) key tag ps ph))]>
                (flows sw)))]> (node_attrs s)) (heap s)) as Hinstall.
  { intros ct ps ph.
    erewrite bind_run; [|by eapply get_match_run].
    erewrite bind_run; [|apply install_actions_run].
    erewrite bind_run; [|by apply get_switch_run].
    erewrite bind_run; [|reflexivity].
    erewrite bind_run; [|reflexivity].
    erewrite bind_run; [|reflexivity].
    destruct tag; eexists; (split; [reflexivity|]); by repeat split. }
  unfold flow_ok in Hok. unfold flow_with. fold ports.
  destruct (flows sw !! key) as [[[cs ch] ct]|] eqn:Hk; [|apply Hinstall].
  destruct Hok as (Hne & Hport & _).
  assert (bool_decide (0 < size cs) || bool_decide (0 < size ch) = true) as ->.
  { apply orb_true_iff. destruct Hne as [Hne|Hne]; [left|right];
      apply bool_decide_eq_true_2;
      apply (proj1 (Nat.neq_0_lt_0 _)); by rewrite size_empty_iff, leibniz_equiv_iff. }
  assert (bool_decide (ports.1 ⊆ cs) && bool_decide (ports.2 ⊆ ch) = false) as Hsub.
  { apply andb_false_iff. unfold ports, port_sets. destruct (host_attr ay); simpl.
    - right. apply bool_decide_eq_false_2. intros Hs. apply Hport, Hs.
      by apply elem_of_singleton.
    - left. apply bool_decide_eq_false_2. intros Hs. apply Hport, Hs.
      by apply elem_of_singleton. }
  apply andb_false_iff in Hsub.
  destruct (bool_decide (ports.1 ⊆ cs)) eqn:H1.
  - destruct Hsub as [?| ->]; [done|]. apply Hinstall.
  - apply Hinstall.
Qed.

Lemma for_each_unchanged {A} (l : list A) (body : A → M unit) s :
  (∀ a, a ∈ l → body a s = (Ret tt, s)) → for_each l body s = (Ret tt, s).
Proof.
  induction l as [|a l IH]; intros Hb; cbn [for_each]; [done|].
  erewrite bind_run; [|apply Hb, elem_of_cons; by left].
  apply IH. intros b Hin. apply Hb, elem_of_cons. by right.
Qed.

Lemma remove_relevant_groups_none s x sw ports :
  node_attrs s !! x = Some (NSwitch sw) →
  (∀ port, FF_groups sw !! (port, key) = None) →
  remove_relevant_groups x ports key ip_group ip_source None s = (Ret tt, s).
Proof.
  intros Hx HFF. unfold remove_relevant_groups. apply for_each_unchanged.
  intros port _. erewrite bind_run; [|by apply get_switch_run].
  unfold _get_FF_key. by rewrite HFF.
Qed.

Lemma remove_flow_run s x y sw e ay mg ms :
  node_attrs s !! x = Some (NSwitch sw) →
  nx.edge_data (network s) x y = Some e → node_attrs s !! y = Some ay →
  ip_2_mac s !! ip_group = Some mg → ip_2_mac s !! ip_source = Some ms →
  is_Some (flows sw !! key) →
  (∀ port, FF_groups sw !! (port, key) = None) →
  ∃ s', remove_flow x ip_group (Dsts [y]) true ip_source tag None s = (Ret tt, s') ∧
    steps_to s s'
      (<[x := NSwitch (flow_without sw key tag (src_port e) (host_attr ay))]>
         (node_attrs s))
      (heap s).
Proof.
  intros Hx He Hy Hg Ha [[[cs ch] ct] Hk] HFF. unfold remove_flow.
  erewrite bind_run; [|by apply get_switch_run].
  erewrite bind_run; [|reflexivity].
  erewrite bind_run; [|by apply get_switch_run].
  change (_get_key true ip_group ip_source tag None) with key. rewrite Hk.
  erewrite bind_run.
  2:{ erewrite bind_run; [|by eapply get_ports_one].
      set (ports := port_sets (src_port e) (host_attr ay)).
      assert (ports = (ports.1, ports.2)) as Hports by (by destruct ports).
      rewrite Hports. cbv beta iota. reflexivity. }
  cbv beta iota.
  erewrite bind_run; [|by eapply get_match_run].
  erewrite bind_run; [|by apply get_switch_run].
  unfold flow_without. rewrite Hk.
  set (ports := port_sets (src_port e) (host_attr ay)).
  set (other_s := cs ∖ ports.1). set (other_h := ch ∖ ports.2).
  destruct (bool_decide (size other_s = 0) && bool_decide (size other_h = 0)).
  - erewrite bind_run.
    2:{ erewrite bind_run; [|apply (for_each_send x
          (λ _, OFPFlowMod 0 OFPFC_DELETE_STRICT (_get_priority tag None)
                  (OFPMatch mg (Some ms) (Z.lor 4096 <$> tag) None) []))].
        reflexivity. }
    erewrite bind_run.
    2:{ eapply remove_relevant_groups_none; [apply lookup_insert_eq|done]. }
    destruct tag; eexists; (split; [reflexivity|]); by repeat split.
  - erewrite bind_run.
    2:{ erewrite bind_run; [|apply install_actions_run]. reflexivity. }
    erewrite bind_run.
    2:{ eapply remove_relevant_groups_none; [apply lookup_insert_eq|done]. }
    destruct tag; eexists; (split; [reflexivity|]); by repeat split.
Qed.

End one_switch.

(** *** The walks of [_add_path] and [_leave] along the new part of a path *)

Lemma steps_to_refl s : steps_to s s (node_attrs s) (heap s).
Proof. by repeat split. Qed.

Lemma steps_to_trans s s1 s2 A1 H1 A2 H2 :
  steps_to s s1 A1 H1 → steps_to s1 s2 A2 H2 → steps_to s s2 A2 H2.
Proof.
  intros (? & ? & ? & ? & ? & ?) (? & ? & ? & ? & ? & ?). repeat split; congruence.
Qed.

Lemma set_adj_id tc : set_adj tc (t_adj tc) = tc.
Proof. by destruct tc. Qed.

Lemma tree_add_edge_run s T tc x y :
  heap s !! T = Some tc →
  ∃ s', tree_add_edge T x y s = (Ret tt, s') ∧
    steps_to s s' (node_attrs s)
      (<[T := set_adj tc (nx.add_edge (t_adj tc) x y None)]> (heap s)).
Proof.
  intros HT. unfold tree_add_edge. erewrite bind_run; [|by apply get_tree_run].
  eexists. split; [reflexivity|]. by repeat split.
Qed.

Lemma tree_out_degree_run s T tc cur d :
  heap s !! T = Some tc → nx.out_degree (t_adj tc) cur = Some d →
  tree_out_degree T cur s = (Ret d, s).
Proof.
  intros HT Hd. unfold tree_out_degree. erewrite bind_run; [|by apply get_tree_run].
  by rewrite Hd.
Qed.

Lemma first_predecessor_run s T tc cur p :
  heap s !! T = Some tc → nx.predecessors (t_adj tc) cur = [p] →
  is_Some (t_adj tc !! cur) →
  first_predecessor T cur s = (Ret p, s).
Proof.
  intros HT Hp [nb Hc]. unfold first_predecessor.
  erewrite bind_run; [|by apply get_tree_run].
  unfold nx.has_node. by rewrite Hc, Hp.
Qed.

Lemma consecutive_snoc (l : list node) a :
  consecutive (l ++ [a]) =
  consecutive l ++ match last l with Some b => [(b, a)] | None => [] end.
Proof.
  induction l as [|b [|c l] IH]; [done|done|].
  change ((b :: c :: l) ++ [a]) with (b :: c :: (l ++ [a])).
  rewrite !consecutive_cons. change (c :: (l ++ [a])) with ((c :: l) ++ [a]).
  rewrite IH. done.
Qed.

Lemma consecutive_app (l1 l2 : list node) a :
  consecutive (l1 ++ a :: l2) = consecutive (l1 ++ [a]) ++ consecutive (a :: l2).
Proof.
  induction l1 as [|b [|c l1] IH]; [done|done|].
  change ((b :: c :: l1) ++ a :: l2) with (b :: c :: (l1 ++ a :: l2)).
  change ((b :: c :: l1) ++ [a]) with (b :: c :: (l1 ++ [a])).
  rewrite !consecutive_cons. change (c :: (l1 ++ a :: l2)) with ((c :: l1) ++ a :: l2).
  rewrite IH. done.
Qed.

Lemma reverse_consecutive (l : list node) :
  reverse (consecutive l) = prod_swap <$> consecutive (reverse l).
Proof.
  induction l as [|a [|b l] IH]; [done|done|].
  rewrite consecutive_cons, reverse_cons, IH.
  rewrite (reverse_cons _ a), consecutive_snoc, fmap_app.
  f_equal. rewrite reverse_cons, last_snoc. done.
Qed.

Section walks.
Variables (ip_group ip_source : Z) (tag : option Z) (T : handle).
Let key := McKey ip_group ip_source tag None.

(** What [add_flow] and [remove_flow] need at the switch [x] for the
    destination [y]. *)
Definition pair_ready (s : state) (y x : node) : Prop :=
  ∃ sw e ay, node_attrs s !! x = Some (NSwitch sw) ∧
    nx.edge_data (network s) x y = Some e ∧ node_attrs s !! y = Some ay ∧
    flow_ok sw key tag (src_port e) (host_attr ay) ∧
    ∀ port, FF_groups sw !! (port, key) = None.

(** The attributes [A'] are [A] with, at every switch [x] of [rv] but its
    head, the switch that [f] makes of it for the destination before it. *)
Definition switches_mapped (f : switch → Z → bool → switch)
    (network : gmap node (gmap node edata)) (A A' : gmap node node_attr)
    (rv : list node) : Prop :=
  (∀ n, n ∉ tail rv → A' !! n = A !! n) ∧
  (∀ y x sw e ay, (y, x) ∈ consecutive rv →
     A !! x = Some (NSwitch sw) → nx.edge_data network x y = Some e →
     A !! y = Some ay →
     A' !! x = Some (NSwitch (f sw (src_port e) (host_attr ay)))) ∧
  (∀ n ay, A !! n = Some ay → ∃ ay', A' !! n = Some ay' ∧ host_attr ay' = host_attr ay).

Lemma add_path_loop_run rv : ∀ s tc stop mg ms,
  NoDup rv → heap s !! T = Some tc →
  ip_2_mac s !! ip_group = Some mg → ip_2_mac s !! ip_source = Some ms →
  (∀ y x, (y, x) ∈ consecutive rv →
     nx.edge_data (t_adj tc) x y = None ∧ pair_ready s y x) →
  match stop with
  | [] => True
  | (a, b) :: _ => nx.has_edge (add_chain (t_adj tc) rv) a b = true
  end →
  ∃ s', _add_path_loop ip_group ip_source T tag
          ((prod_swap <$> consecutive rv) ++ stop) s = (Ret tt, s') ∧
    steps_to s s' (node_attrs s')
      (<[T := set_adj tc (add_chain (t_adj tc) rv)]> (heap s)) ∧
    switches_mapped (λ sw, flow_with sw key tag) (network s)
      (node_attrs s) (node_attrs s') rv.
Proof.
  induction rv as [|y [|x r] IH]; intros s tc stop mg ms Hnd HT Hg Ha Hpairs Hstop.
  1,2: (assert (∃ s', _add_path_loop ip_group ip_source T tag stop s = (Ret tt, s') ∧ s' = s)
         as (s' & Hrun & ->);
        [|exists s; split; [exact Hrun|]; split;
          [repeat split; simpl; by rewrite set_adj_id, insert_id|
           split_and!; [done| |eauto]; intros ? ? ? ? ? Hin; by apply elem_of_nil in Hin]];
        destruct stop as [|[a b] rest]; [by exists s|]; cbn [_add_path_loop];
        erewrite bind_run; [|by apply get_tree_run]; simpl in Hstop;
        assert (nx.has_node (t_adj tc) a = true) as ->
          by (apply has_node_in_tree; eapply has_edge_in_tree; eauto);
        rewrite Hstop; by exists s).
  rewrite consecutive_cons. cbn [fmap list_fmap prod_swap app fst snd _add_path_loop].
  erewrite bind_run; [|by apply get_tree_run].
  destruct (Hpairs y x) as [Hnew (sw & e & ay & Hx & He & Hy & Hok & HFF)].
  { rewrite consecutive_cons. apply elem_of_cons. by left. }
  assert (nx.has_edge (t_adj tc) x y = false) as -> by (unfold nx.has_edge; by rewrite Hnew).
  rewrite orb_true_r.
  destruct (add_flow_run ip_group ip_source tag s x y sw e ay mg ms)
    as (s1 & Hrun1 & Hn1 & Hi1 & Hg1 & Hh1 & HA1 & HH1); try done.
  erewrite bind_run; [|exact Hrun1].
  destruct (tree_add_edge_run s1 T tc x y) as (s2 & Hrun2 & Hn2 & Hi2 & Hg2 & Hh2 & HA2 & HH2).
  { by rewrite HH1. }
  erewrite bind_run; [|exact Hrun2].
  apply NoDup_cons in Hnd as [Hy_r Hnd]. apply NoDup_cons in Hnd as Hnd'.
  destruct Hnd' as [Hx_r _].
  set (tc' := set_adj tc (nx.add_edge (t_adj tc) x y None)).
  destruct (IH s2 tc' stop mg ms) as (s' & Hrun & Hst & Hmap); try done.
  - by rewrite HH2, lookup_insert_eq.
  - congruence.
  - congruence.
  - intros y' x' Hin. destruct (Hpairs y' x') as [Hnew' (sw' & e' & ay' & Hx' & He' & Hy' & Hok' & HFF')].
    { rewrite consecutive_cons. apply elem_of_cons. by right. }
    apply consecutive_elem in Hin as Hel. destruct Hel as [Hy'_in Hx'_in]. simpl in Hx'_in.
    split.
    + simpl. rewrite add_edge_edge_data, decide_False; [done|].
      intros [_ ->]. done.
    + assert (x' ≠ x) as Hne by (intros ->; done).
      destruct (decide (y' = x)) as [->|Hy'x].
      * exists sw', e', (NSwitch (flow_with sw key tag (src_port e) (host_attr ay))).
        rewrite HA2, HA1, Hn2, Hn1, lookup_insert_ne, lookup_insert_eq by done.
        rewrite Hx in Hy'. injection Hy' as <-. done.
      * exists sw', e', ay'.
        rewrite HA2, HA1, Hn2, Hn1, !lookup_insert_ne by done. done.
  - exists s'. split; [exact Hrun|].
    destruct Hst as (Hn & Hi & Hg' & Hh & _ & HH). split.
    + repeat split; try congruence.
      rewrite HH, HH2, HH1, insert_insert_eq. done.
    + destruct Hmap as (Hsame & Hmapped & Hkind). rewrite HA2, HA1 in *. split_and!.
      * intros n Hn_r. simpl in Hn_r. rewrite Hsame.
        -- apply lookup_insert_ne. intros ->. apply Hn_r, elem_of_cons. by left.
        -- simpl. intros Hin. apply Hn_r, elem_of_cons. by right.
      * intros y' x' sw' e' ay' Hin Hx' He' Hy'.
        rewrite consecutive_cons in Hin. apply elem_of_cons in Hin as [[= -> ->]|Hin].
        -- rewrite Hsame by done. rewrite lookup_insert_eq.
           rewrite Hx in Hx'. rewrite He in He'. rewrite Hy in Hy'. by simplify_eq.
        -- apply consecutive_elem in Hin as Hel. destruct Hel as [Hy'_in Hx'_in].
           simpl in Hx'_in. assert (x' ≠ x) as Hne by (intros ->; done).
           destruct (decide (y' = x)) as [->|Hy'x].
           ++ rewrite Hx in Hy'. injection Hy' as <-.
              apply (Hmapped x x' sw' e' (NSwitch (flow_with sw key tag (src_port e) (host_attr ay))));
                [done| |congruence|by rewrite lookup_insert_eq].
              by rewrite lookup_insert_ne.
           ++ apply (Hmapped y' x' sw' e' ay'); [done| |congruence|by rewrite lookup_insert_ne].
              by rewrite lookup_insert_ne.
      * intros n an Hn_a. destruct (decide (n = x)) as [->|Hne].
        -- destruct (Hkind x (NSwitch (flow_with sw key tag (src_port e) (host_attr ay))))
             as (a' & Ha' & Hk'); [by rewrite lookup_insert_eq|].
           exists a'. split; [done|]. rewrite Hk'. rewrite Hx in Hn_a. by injection Hn_a as <-.
        -- apply Hkind. by rewrite lookup_insert_ne.
Qed.

End walks.

Section leave_walks.
Variables (ip_group ip_source : Z) (T : handle).

(** What [remove_flow] needs at the switch [x] for the destination [y]. *)
Definition pair_installed (tag : option Z) (s : state) (y x : node) : Prop :=
  ∃ sw e ay, node_attrs s !! x = Some (NSwitch sw) ∧
    nx.edge_data (network s) x y = Some e ∧ node_attrs s !! y = Some ay ∧
    is_Some (flows sw !! McKey ip_group ip_source tag None) ∧
    ∀ port, FF_groups sw !! (port, McKey ip_group ip_source tag None) = None.

(** First walk of [_leave]: the flows towards the new part go. *)
Lemma leave_prune_run rv : ∀ cur s tc fuel mg ms origin_dst,
  head rv = Some cur → NoDup rv → length rv ≤ fuel →
  heap s !! T = Some tc → t_parent tc = None →
  ip_2_mac s !! ip_group = Some mg → ip_2_mac s !! ip_source = Some ms →
  (∀ y x, (y, x) ∈ consecutive rv →
     y ≠ t_root tc ∧ is_Some (t_adj tc !! y) ∧
     nx.predecessors (t_adj tc) y = [x] ∧
     (∃ d, nx.out_degree (t_adj tc) y = Some d ∧ d ≤ 1) ∧
     pair_installed (t_tag tc) s y x) →
  (∀ w, last rv = Some w →
     w = t_root tc ∨ ∃ d, nx.out_degree (t_adj tc) w = Some d ∧ 1 < d) →
  (∀ w, last rv = Some w → is_Some (nx.out_degree (t_adj tc) w)) →
  ∃ s', leave_prune fuel T cur ip_group ip_source origin_dst s = (Ret tt, s') ∧
    steps_to s s' (node_attrs s') (heap s) ∧
    switches_mapped
      (λ sw, flow_without sw (McKey ip_group ip_source (t_tag tc) None) (t_tag tc))
      (network s) (node_attrs s) (node_attrs s') rv.
Proof.
  induction rv as [|y [|x r] IH];
    intros cur s tc fuel mg ms od Hhd Hnd Hfuel HT Hpar Hg Ha Hpairs Hlast Hdeg;
    [done| |].
  - injection Hhd as <-. destruct fuel as [|fuel]; [simpl in Hfuel; lia|].
    cbn [leave_prune]. erewrite bind_run; [|by apply get_tree_run].
    destruct (Hdeg y) as [d Hd]; [done|].
    erewrite bind_run; [|by eapply tree_out_degree_run].
    assert (bool_decide (d ≤ 1) && negb (bool_decide (y = t_root tc)) = false) as ->.
    { apply andb_false_iff. destruct (Hlast y) as [->|(d' & Hd' & Hlt)]; [done| |].
      - right. by rewrite bool_decide_eq_true_2.
      - left. apply bool_decide_eq_false_2. rewrite Hd in Hd'. injection Hd' as ->. lia. }
    exists s. split; [done|]. split; [apply steps_to_refl|].
    split_and!; [done| |eauto]. intros ? ? ? ? ? Hin. by apply elem_of_nil in Hin.
  - injection Hhd as <-. destruct fuel as [|fuel]; [simpl in Hfuel; lia|].
    cbn [leave_prune]. erewrite bind_run; [|by apply get_tree_run].
    destruct (Hpairs y x) as (Hyroot & Hyin & Hpred & (d & Hd & Hd1) &
                              (sw & e & ay & Hx & He & Hy & Hk & HFF)).
    { rewrite consecutive_cons. apply elem_of_cons. by left. }
    erewrite bind_run; [|by eapply tree_out_degree_run].
    rewrite (bool_decide_eq_true_2 (d ≤ 1)) by done.
    rewrite (bool_decide_eq_false_2 (y = t_root tc)) by done. cbn [negb andb].
    erewrite bind_run; [|by eapply first_predecessor_run].
    rewrite Hpar. cbn [is_some negb]. rewrite orb_true_r.
    destruct (remove_flow_run ip_group ip_source (t_tag tc) s x y sw e ay mg ms)
      as (s1 & Hrun1 & Hn1 & Hi1 & Hg1 & Hh1 & HA1 & HH1); try done.
    erewrite bind_run.
    2:{ unfold _remove_flow. erewrite bind_run; [|by apply get_tree_run]. exact Hrun1. }
    apply NoDup_cons in Hnd as [Hy_r Hnd]. apply NoDup_cons in Hnd as Hnd'.
    destruct Hnd' as [Hx_r _].
    destruct (IH x s1 tc fuel mg ms od) as (s' & Hrun & Hst & Hmap); try done.
    + simpl in *. lia.
    + by rewrite HH1.
    + congruence.
    + congruence.
    + intros y' x' Hin.
      destruct (Hpairs y' x') as (? & ? & ? & ? & (sw' & e' & ay' & Hx' & He' & Hy' & Hk' & HFF')).
      { rewrite consecutive_cons. apply elem_of_cons. by right. }
      split_and!; try done.
      apply consecutive_elem in Hin as Hel. destruct Hel as [Hy'_in Hx'_in]. simpl in Hx'_in.
      assert (x' ≠ x) as Hne by (intros ->; done).
      destruct (decide (y' = x)) as [->|Hy'x].
      * exists sw', e', (NSwitch (flow_without sw (McKey ip_group ip_source (t_tag tc) None)
                                    (t_tag tc) (src_port e) (host_attr ay))).
        rewrite HA1, Hn1, lookup_insert_ne, lookup_insert_eq by done. done.
      * exists sw', e', ay'. rewrite HA1, Hn1, !lookup_insert_ne by done. done.
    + exists s'. split; [exact Hrun|].
      destruct Hst as (Hn & Hi & Hg' & Hh & _ & HH). split.
      * repeat split; congruence.
      * destruct Hmap as (Hsame & Hmapped & Hkind). rewrite HA1 in *. split_and!.
        -- intros n Hn_r. simpl in Hn_r. rewrite Hsame.
           ++ apply lookup_insert_ne. intros ->. apply Hn_r, elem_of_cons. by left.
           ++ simpl. intros Hin. apply Hn_r, elem_of_cons. by right.
        -- intros y' x' sw' e' ay' Hin Hx' He' Hy'.
           rewrite consecutive_cons in Hin. apply elem_of_cons in Hin as [[= -> ->]|Hin].
           ++ rewrite Hsame by done. rewrite lookup_insert_eq.
              rewrite Hx in Hx'. rewrite He in He'. rewrite Hy in Hy'. by simplify_eq.
           ++ apply consecutive_elem in Hin as Hel. destruct Hel as [Hy'_in Hx'_in].
              simpl in Hx'_in. assert (x' ≠ x) as Hne by (intros ->; done).
              destruct (decide (y' = x)) as [->|Hy'x].
              ** rewrite Hx in Hy'. injection Hy' as <-.
                 apply (Hmapped x x' sw' e'
                          (NSwitch (flow_without sw (McKey ip_group ip_source (t_tag tc) None)
                                      (t_tag tc) (src_port e) (host_attr ay))));
                   [done| |congruence|by rewrite lookup_insert_eq].
                 by rewrite lookup_insert_ne.
              ** apply (Hmapped y' x' sw' e' ay'); [done| |congruence|by rewrite lookup_insert_ne].
                 by rewrite lookup_insert_ne.
        -- intros n an Hn_a. destruct (decide (n = x)) as [->|Hne].
           ++ destruct (Hkind x (NSwitch (flow_without sw (McKey ip_group ip_source (t_tag tc) None)
                                            (t_tag tc) (src_port e) (host_attr ay))))
                as (a' & Ha' & Hk'); [by rewrite lookup_insert_eq|].
              exists a'. split; [done|]. rewrite Hk'. rewrite Hx in Hn_a. by injection Hn_a as <-.
           ++ apply Hkind. by rewrite lookup_insert_ne.
Qed.

(** Second walk: up to the root, past edges that have no backup. *)
Lemma leave_backups_run rec rvp : ∀ cur s tc fuel,
  head rvp = Some cur → length rvp ≤ fuel →
  heap s !! T = Some tc → last rvp = Some (t_root tc) →
  (∀ y x, (y, x) ∈ consecutive rvp →
     y ≠ t_root tc ∧ is_Some (t_adj tc !! y) ∧
     nx.predecessors (t_adj tc) y = [x] ∧
     nx.edge_data (t_adj tc) x y = Some None) →
  leave_backups rec fuel T cur s = (Ret tt, s).
Proof.
  induction rvp as [|y [|x r] IH]; intros cur s tc fuel Hhd Hfuel HT Hlast Hpairs; [done| |].
  - injection Hhd as <-. injection Hlast as ->.
    destruct fuel as [|fuel]; [simpl in Hfuel; lia|].
    cbn [leave_backups]. erewrite bind_run; [|by apply get_tree_run].
    by rewrite bool_decide_eq_true_2.
  - injection Hhd as <-. destruct fuel as [|fuel]; [simpl in Hfuel; lia|].
    cbn [leave_backups]. erewrite bind_run; [|by apply get_tree_run].
    destruct (Hpairs y x) as (Hyroot & Hyin & Hpred & Hed).
    { rewrite consecutive_cons. apply elem_of_cons. by left. }
    rewrite bool_decide_eq_false_2 by done.
    erewrite bind_run; [|by eapply first_predecessor_run].
    erewrite bind_run; [|by apply get_tree_run].
    rewrite Hed. erewrite bind_run; [|reflexivity].
    erewrite bind_run; [|reflexivity].
    eapply IH; [done|simpl in *; lia|done|done|].
    intros y' x' Hin. apply Hpairs. rewrite consecutive_cons. apply elem_of_cons. by right.
Qed.

(** Third walk: the nodes of the new part go, from the subscriber up. *)
Lemma leave_collect_run G rv : ∀ cur s tc fuel,
  head rv = Some cur → NoDup rv → length rv ≤ fuel →
  heap s !! T = Some tc → t_adj tc = add_chain G rv →
  (∀ y x, (y, x) ∈ consecutive rv → y ≠ t_root tc ∧ fresh G y) →
  (∀ w, last rv = Some w →
     ∃ d, nx.out_degree G w = Some d ∧ (w = t_root tc ∨ 0 < d)) →
  ∃ s', leave_collect fuel T cur s = (Ret tt, s') ∧
    steps_to s s' (node_attrs s) (<[T := set_adj tc G]> (heap s)).
Proof.
  induction rv as [|y [|x r] IH];
    intros cur s tc fuel Hhd Hnd Hfuel HT HG Hpairs Hlast; [done| |].
  - injection Hhd as <-. destruct fuel as [|fuel]; [simpl in Hfuel; lia|].
    cbn [leave_collect]. erewrite bind_run; [|by apply get_tree_run].
    destruct (Hlast y) as (d & Hd & Hstop); [done|]. simpl in HG.
    erewrite bind_run; [|eapply tree_out_degree_run; [done|by rewrite HG]].
    assert (bool_decide (d = 0) && negb (bool_decide (y = t_root tc)) = false) as ->.
    { apply andb_false_iff. destruct Hstop as [->|Hlt].
      - right. by rewrite bool_decide_eq_true_2.
      - left. apply bool_decide_eq_false_2. lia. }
    exists s. split; [done|]. repeat split.
    rewrite <- HG, set_adj_id. by rewrite insert_id.
  - injection Hhd as <-. destruct fuel as [|fuel]; [simpl in Hfuel; lia|].
    cbn [leave_collect]. erewrite bind_run; [|by apply get_tree_run].
    destruct (Hpairs y x) as [Hyroot Hyfresh].
    { rewrite consecutive_cons. apply elem_of_cons. by left. }
    erewrite bind_run.
    2:{ eapply tree_out_degree_run; [done|]. rewrite HG.
        by apply add_chain_head_out_degree. }
    rewrite (bool_decide_eq_true_2 (0 = 0)) by done.
    rewrite (bool_decide_eq_false_2 (y = t_root tc)) by done. cbn [negb andb].
    erewrite bind_run.
    2:{ eapply first_predecessor_run; [done| |].
        - rewrite HG. apply add_chain_predecessors; [done| |].
          + intros y' x' Hin. by apply (Hpairs y' x').
          + rewrite consecutive_cons. apply elem_of_cons. by left.
        - rewrite HG. apply add_chain_is_Some. right.
          split; [apply elem_of_cons; by left|simpl; lia]. }
    erewrite bind_run; [|by apply get_tree_run].
    rewrite HG, add_chain_remove_node; [|done|done|].
    2:{ destruct r as [|x' r]; [right|by left].
        destruct (Hlast x) as (d & Hd & _); [done|].
        unfold nx.out_degree in Hd. destruct (G !! x); [eauto|done]. }
    erewrite bind_run; [|reflexivity].
    erewrite bind_run; [|reflexivity].
    apply NoDup_cons in Hnd as [Hy_r Hnd].
    set (tc' := set_adj tc (add_chain G (x :: r))).
    match goal with |- ∃ s', leave_collect _ _ _ ?s1 = _ ∧ _ =>
      destruct (IH x s1 tc' fuel) as (s' & Hrun & Hst) end; try done.
    + simpl in *. lia.
    + simpl. by rewrite lookup_insert_eq.
    + intros y' x' Hin. apply (Hpairs y' x'). rewrite consecutive_cons.
      apply elem_of_cons. by right.
    + exists s'. split; [exact Hrun|].
      destruct Hst as (Hn & Hi & Hg' & Hh & HA & HH). repeat split; try done.
      rewrite HH. simpl. by rewrite insert_insert_eq.
Qed.

End leave_walks.

Lemma consecutive_reverse (l : list node) x y :
  (y, x) ∈ consecutive (reverse l) ↔ (x, y) ∈ consecutive l.
Proof.
  assert ((x, y) ∈ consecutive l ↔ (x, y) ∈ reverse (consecutive l)) as ->
    by (by rewrite elem_of_reverse).
  rewrite reverse_consecutive, list_elem_of_fmap.
  split.
  - intros H. by exists (y, x).
  - intros ([a b] & [= -> ->] & H). done.
Qed.

Lemma elem_of_tail (l : list node) n : n ∈ tail l → n ∈ l.
Proof. destruct l; simpl; [done|]. intros. apply elem_of_cons. by right. Qed.

Lemma tail_consecutive (rv : list node) n :
  n ∈ tail rv → ∃ y, (y, n) ∈ consecutive rv.
Proof.
  destruct rv as [|a rv]; simpl; [by intros ?%elem_of_nil|].
  intros [i Hi]%list_elem_of_lookup.
  assert (is_Some ((a :: rv) !! i)) as [y Hy].
  { apply lookup_lt_is_Some. apply lookup_lt_Some in Hi. simpl. lia. }
  exists y. apply elem_of_consecutive. by exists i.
Qed.

Lemma wf_fresh (G : adjacency) y : nx.wf G → G !! y = None → fresh G y.
Proof.
  intros Hwf Hy. split; [done|]. intros u. unfold nx.edge_data.
  destruct (G !! u) as [nb|] eqn:Hu; [|done].
  destruct (nb !! y) as [d|] eqn:Hd; [|done].
  specialize (Hwf u nb Hu y d Hd). simpl in Hwf. rewrite Hy in Hwf. by destruct Hwf.
Qed.

Lemma chain_consecutive (R : node → node → Prop) p x y :
  chain R p → (x, y) ∈ consecutive p → R x y.
Proof.
  intros Hc (i & Hx & Hy)%elem_of_consecutive. eapply chain_lookup; eauto.
Qed.

(** The join path of the shortest-path strategy: a part in the tree, along
    edges of the tree and from its root, then a part outside of it, up to
    the subscriber. *)
Lemma SPT_join_shape network T v p :
  in_tree T (t_root T) →
  SPT.join network ∅ T v = Ret p → p ≠ [] →
  NoDup p ∧ head p = Some (t_root T) ∧ last p = Some v ∧
  ∃ pre w suf, p = pre ++ w :: suf ∧ suf ≠ [] ∧
    (∀ x, x ∈ pre ++ [w] → in_tree T x) ∧ (∀ x, x ∈ suf → ¬ in_tree T x) ∧
    (∀ x y, (x, y) ∈ consecutive (pre ++ [w]) → nx.has_edge (t_adj T) x y = true) ∧
    (∀ x y, (x, y) ∈ consecutive p → is_Some (nx.edge_data network x y)).
Proof.
  intros Hroot Hj Hne. pose proof (SPT_join_simple _ _ _ _ _ Hj) as Hnd.
  destruct (SPT_join_sound _ _ _ _ _ Hj Hne) as (Hv & Hh & Hl & Hc).
  split_and!; [done..|].
  assert (chain (admissible network ∅ T) p) as Hc'.
  { eapply chain_impl; [|exact Hc]. by intros a b [? _]. }
  destruct (admissible_chain_split _ _ _ _ Hc') as (pre' & suf & -> & Hpre & Hsuf).
  assert (pre' ≠ []) as Hpre_ne.
  { intros ->. simpl in Hh. destruct suf as [|a suf]; [done|]. injection Hh as ->.
    apply (Hsuf (t_root T)); [apply elem_of_cons; by left|done]. }
  assert (suf ≠ []) as Hsuf_ne.
  { intros ->. rewrite app_nil_r in Hl. apply Hv, Hpre.
    apply last_Some in Hl as (l' & ->). apply elem_of_app. right.
    by apply list_elem_of_singleton. }
  destruct (last pre') as [w|] eqn:Hw.
  2:{ apply last_None in Hw. done. }
  apply last_Some in Hw as (pre & ->).
  exists pre, w, suf. rewrite <- app_assoc. split_and!; try done.
  - intros x y Hxy. rewrite <- app_assoc in Hc'. simpl in Hc'.
    assert ((x, y) ∈ consecutive (pre ++ w :: suf)) as Hin.
    { rewrite consecutive_app. apply elem_of_app. by left. }
    destruct (chain_consecutive _ _ _ _ Hc' Hin) as (e & _ & _ & _ & [He|Hy]); [done|].
    exfalso. apply Hy, Hpre. apply consecutive_elem in Hxy as [_ Hy'].
    by apply elem_of_tail.
  - intros x y Hxy. simpl in Hxy.
    rewrite <- app_assoc in Hc'. simpl in Hc'.
    destruct (chain_consecutive _ _ _ _ Hc' Hxy) as (e & He & _). eauto.
Qed.

(** *** The round trip without protection *)
Section round_trip.
Variables (s : state) (ip_group ip_source : Z) (v : node) (T : handle) (t : tree).
Variables (pre : list node) (w : node) (suf : list node) (mg ms : Z).
Let p := pre ++ w :: suf.
Let rv := reverse (w :: suf).
Let key := McKey ip_group ip_source (t_tag t) None.

Hypothesis Hgroup : groups s !! (ip_group, ip_source) = Some T.
Hypothesis Hheap : heap s !! T = Some t.
Hypothesis Hparent : t_parent t = None.
Hypothesis Hwf : nx.wf (t_adj t).
Hypothesis Harb : arborescence t.
Hypothesis Hnoback : ∀ x y b, nx.edge_data (t_adj t) x y = Some b → b = None.
Hypothesis Hmg : ip_2_mac s !! ip_group = Some mg.
Hypothesis Hms : ip_2_mac s !! ip_source = Some ms.
Hypothesis Hjoin : SPT.join (network s) ∅ t v = Ret p.
Hypothesis Hnd : NoDup p.
Hypothesis Hhead : head p = Some (t_root t).
Hypothesis Hlast : last p = Some v.
Hypothesis Hsuf : suf ≠ [].
Hypothesis Hpre_in : ∀ x, x ∈ pre ++ [w] → in_tree t x.
Hypothesis Hsuf_out : ∀ x, x ∈ suf → ¬ in_tree t x.
Hypothesis Hpre_edges : ∀ x y,
  (x, y) ∈ consecutive (pre ++ [w]) → nx.has_edge (t_adj t) x y = true.
Hypothesis Hready : ∀ x y,
  (x, y) ∈ consecutive p → ¬ in_tree t y →
  pair_ready ip_group ip_source (t_tag t) s y x.
Hypothesis Hw : w = t_root t ∨ nx.out_degree (t_adj t) w ≠ Some 0.

Lemma rv_NoDup : NoDup rv.
Proof.
  unfold rv. rewrite reverse_Permutation.
  unfold p in Hnd. apply NoDup_app in Hnd as (_ & _ & H). exact H.
Qed.

Lemma rv_pair y x :
  (y, x) ∈ consecutive rv →
  (x, y) ∈ consecutive p ∧ ¬ in_tree t y ∧ fresh (t_adj t) y ∧ y ≠ t_root t.
Proof.
  unfold rv. rewrite consecutive_reverse. intros Hin.
  assert (y ∈ suf) as Hy by (by apply consecutive_elem in Hin as [_ ?]).
  pose proof (Hsuf_out y Hy) as Hout. split_and!; [|done| |].
  - unfold p. rewrite consecutive_app. apply elem_of_app. by right.
  - apply wf_fresh; [done|]. apply eq_None_not_Some. exact Hout.
  - intros ->. apply Hout. apply Harb.
Qed.

Lemma rv_head : head rv = Some v.
Proof.
  unfold rv. rewrite head_reverse. unfold p in Hlast.
  by rewrite last_app_cons in Hlast.
Qed.

Lemma rv_last : last rv = Some w.
Proof. unfold rv. by rewrite last_reverse. Qed.

Lemma rv_length : length rv ≤ length p.
Proof.
  unfold rv, p. rewrite length_reverse, length_app. lia.
Qed.

Lemma rv_long : 2 ≤ length rv.
Proof.
  unfold rv. rewrite length_reverse. destruct suf; [done|simpl; lia].
Qed.

Lemma rv_before_w : ∃ c, (c, w) ∈ consecutive rv.
Proof.
  unfold rv. destruct suf as [|c suf']; [done|]. exists c.
  apply consecutive_reverse. rewrite consecutive_cons. apply elem_of_cons. by left.
Qed.

Lemma rv_old c z : in_tree t c → (c, z) ∉ consecutive rv.
Proof. intros Hc Hin. by apply rv_pair in Hin as (_ & Hout & _). Qed.

Lemma w_in_tree : in_tree t w.
Proof. apply Hpre_in, elem_of_app. right. by apply list_elem_of_singleton. Qed.

Lemma v_not_in_tree : ¬ in_tree t v.
Proof.
  apply Hsuf_out. unfold p in Hlast. rewrite last_app_cons in Hlast.
  destruct suf as [|c suf']; [done|]. rewrite last_cons_cons in Hlast.
  by apply last_Some_elem_of.
Qed.

(** The pairs [_add_path] goes through: those of the new part, then the
    tree edge it stops at. *)
Lemma add_path_pairs :
  ∃ stop, reverse (consecutive p) = (prod_swap <$> consecutive rv) ++ stop ∧
    match stop with
    | [] => True
    | (a, b) :: _ => nx.has_edge (add_chain (t_adj t) rv) a b = true
    end.
Proof.
  exists (reverse (consecutive (pre ++ [w]))). split.
  - unfold p, rv. by rewrite consecutive_app, reverse_app, reverse_consecutive.
  - destruct (reverse (consecutive (pre ++ [w]))) as [|[a b] rest] eqn:Hrev; [done|].
    assert ((a, b) ∈ consecutive (pre ++ [w])) as Hin.
    { apply elem_of_reverse. rewrite Hrev. apply elem_of_cons. by left. }
    unfold nx.has_edge. rewrite add_chain_old_edge.
    + by apply Hpre_edges.
    + intros z. apply rv_old, Hpre_in. apply consecutive_elem in Hin as [_ Hb].
      by apply elem_of_tail.
Qed.

Lemma rt_add fuel :
  0 < fuel →
  ∃ s1, add_subscriber fuel SPT.join 0 ip_group ip_source v s = (Ret tt, s1) ∧
    steps_to s s1 (node_attrs s1)
      (<[T := set_adj t (add_chain (t_adj t) rv)]> (heap s)) ∧
    switches_mapped (λ sw, flow_with sw key (t_tag t)) (network s)
      (node_attrs s) (node_attrs s1) rv.
Proof.
  intros Hfuel. unfold add_subscriber.
  erewrite bind_run; [|reflexivity]. rewrite Hgroup.
  erewrite bind_run; [|by apply get_tree_run].
  assert (nx.has_node (t_adj t) v = false) as ->
    by (apply has_node_not_in_tree, v_not_in_tree).
  destruct add_path_pairs as (stop & Hpairs & Hstop).
  destruct (add_path_loop_run ip_group ip_source (t_tag t) T rv s t stop mg ms)
    as (s' & Hrun & Hst & Hmap); try done.
  { apply rv_NoDup. }
  { intros y x Hin. destruct (rv_pair y x Hin) as (Hp & Hout & [_ Hf] & _). split.
    - apply Hf.
    - by apply Hready. }
  erewrite bind_run.
  2:{ unfold _process_request. cbn [negb].
      erewrite bind_run.
      2:{ unfold call_join. erewrite bind_run; [|reflexivity].
          erewrite bind_run; [|by apply get_tree_run]. rewrite Hjoin. reflexivity. }
      rewrite bool_decide_eq_false_2.
      2:{ unfold p. rewrite length_app. simpl. lia. }
      erewrite bind_run.
      2:{ unfold _add_path. erewrite bind_run; [|by apply get_tree_run].
          rewrite Hpairs. exact Hrun. }
      erewrite bind_run.
      2:{ destruct fuel as [|fuel']; [lia|]. reflexivity. }
      reflexivity. }
  cbn [truthy default]. eexists. split; [reflexivity|].
  destruct Hst as (? & ? & ? & ? & ? & ?). split; [by repeat split|]. exact Hmap.
Qed.

Lemma rv_fresh y x : (y, x) ∈ consecutive rv → fresh (t_adj t) y.
Proof. intros Hin. by apply rv_pair in Hin as (_ & _ & ? & _). Qed.

Lemma rv_elem y x : (y, x) ∈ consecutive rv → y ∈ rv.
Proof. intros Hin. by apply consecutive_elem in Hin as [? _]. Qed.

(** The grafted tree along the whole path, from the subscriber up. *)
Lemma grafted_path y x :
  (x, y) ∈ consecutive p →
  y ≠ t_root t ∧ is_Some (add_chain (t_adj t) rv !! y) ∧
  nx.predecessors (add_chain (t_adj t) rv) y = [x] ∧
  nx.edge_data (add_chain (t_adj t) rv) x y = Some None.
Proof.
  intros Hin.
  assert (y ≠ t_root t) as Hroot.
  { intros ->. apply elem_of_consecutive in Hin as (i & _ & Hi).
    rewrite head_lookup in Hhead.
    assert (S i = 0) by (eapply NoDup_lookup; eauto). lia. }
  split; [done|].
  unfold p in Hin. rewrite consecutive_app in Hin. apply elem_of_app in Hin as [Hin|Hin].
  - assert (in_tree t y) as Hy.
    { apply Hpre_in. apply consecutive_elem in Hin as [_ Hy]. by apply elem_of_tail. }
    pose proof (Hpre_edges _ _ Hin) as He.
    destruct Harb as (_ & _ & depth & Hdepth).
    destruct (Hdepth y Hy Hroot) as (par & Hpar & _).
    assert (x = par) as <- by (by eapply predecessors_singleton_inv).
    split_and!.
    + apply add_chain_is_Some. by left.
    + apply add_chain_old_predecessors; [|done]. intros z. by apply rv_old.
    + rewrite add_chain_old_edge by (intros z; by apply rv_old).
      unfold nx.has_edge in He. destruct (nx.edge_data (t_adj t) x y) as [b|] eqn:Hb; [|done].
      by rewrite (Hnoback _ _ _ Hb).
  - assert ((y, x) ∈ consecutive rv) as Hrv by (by apply consecutive_reverse).
    split_and!.
    + apply add_chain_has_node; [by eapply rv_elem|apply rv_long].
    + apply add_chain_predecessors; [apply rv_NoDup|apply rv_fresh|done].
    + by apply add_chain_new_edge.
Qed.

Lemma rt_remove fuel s1 :
  length p < fuel →
  steps_to s s1 (node_attrs s1)
    (<[T := set_adj t (add_chain (t_adj t) rv)]> (heap s)) →
  switches_mapped (λ sw, flow_with sw key (t_tag t)) (network s)
    (node_attrs s) (node_attrs s1) rv →
  ∃ s2, remove_subscriber fuel SPT.join 0 ip_group ip_source v s1 = (Ret tt, s2) ∧
    steps_to s s2 (node_attrs s) (heap s).
Proof.
  intros Hfuel (Hn1 & Hi1 & Hg1 & Hh1 & _ & HH1) (Hsame1 & Hmapped1 & Hkind1).
  set (tA := set_adj t (add_chain (t_adj t) rv)) in *.
  assert (heap s1 !! T = Some tA) as HT1 by (by rewrite HH1, lookup_insert_eq).
  pose proof rv_NoDup as Hrv_nd. pose proof rv_length as Hrv_len.
  pose proof w_in_tree as [nbw Hnbw].
  destruct fuel as [|fuel]; [lia|].
  (* first walk *)
  destruct (leave_prune_run ip_group ip_source T rv v s1 tA fuel mg ms None)
    as (sB & HrunB & (HnB & HiB & HgB & HhB & _ & HHB) & (Hsame2 & Hmapped2 & Hkind2));
    try done.
  { apply rv_head. }
  { lia. }
  { congruence. }
  { congruence. }
  { intros y x Hin. destruct (rv_pair y x Hin) as (Hp & Hout & Hfresh & Hroot).
    split_and!; [done| | | |].
    - apply add_chain_has_node; [by eapply rv_elem|apply rv_long].
    - simpl. by apply add_chain_predecessors; [|apply rv_fresh|].
    - simpl. by eapply add_chain_out_degree; [|apply rv_fresh|].
    - destruct (Hready x y Hp Hout) as (sw & e & ay & Hx & He & Hy & Hok & HFF).
      destruct (Hkind1 y ay Hy) as (ay' & Hy' & _).
      exists (flow_with sw key (t_tag t) (src_port e) (host_attr ay)), e, ay'.
      split_and!; [by eapply Hmapped1|congruence|done| |done].
      unfold flow_with. simpl. rewrite lookup_insert_eq. eauto. }
  { intros w' Hw'. rewrite rv_last in Hw'. injection Hw' as <-.
    destruct Hw as [?|Hdeg]; [by left|right].
    destruct rv_before_w as [c Hc]. eexists. split.
    - simpl. by eapply add_chain_out_degree_last; [|apply rv_fresh| |].
    - unfold nx.out_degree in Hdeg. rewrite Hnbw in Hdeg. simpl in Hdeg.
      destruct (size nbw); [done|lia]. }
  { intros w' Hw'. rewrite rv_last in Hw'. injection Hw' as <-.
    destruct rv_before_w as [c Hc]. simpl.
    erewrite add_chain_out_degree_last; [eauto|done|apply rv_fresh|done|done]. }
  (* second walk *)
  assert (heap sB !! T = Some tA) as HTB by congruence.
  pose proof (leave_backups_run T
    (λ b od, _leave fuel b v ip_group ip_source od) (reverse p) v sB tA fuel) as HrunC.
  (* third walk *)
  destruct (leave_collect_run T (t_adj t) rv v sB tA fuel)
    as (sD & HrunD & (HnD & HiD & HgD & HhD & HAD & HHD)); try done.
  { apply rv_head. }
  { lia. }
  { intros y x Hin. destruct (rv_pair y x Hin) as (_ & _ & ? & ?). done. }
  { intros w' Hw'. rewrite rv_last in Hw'. injection Hw' as <-.
    exists (size nbw). unfold nx.out_degree. rewrite Hnbw. split; [done|].
    destruct Hw as [?|Hdeg]; [by left|right].
    unfold nx.out_degree in Hdeg. rewrite Hnbw in Hdeg. simpl in Hdeg.
    destruct (size nbw); [done|lia]. }
  exists sD. split.
  - unfold remove_subscriber. erewrite bind_run; [|reflexivity].
    rewrite Hg1, Hgroup. erewrite bind_run; [|by apply get_tree_run].
    assert (nx.has_node (t_adj tA) v = true) as Hv.
    { apply has_node_in_tree. apply add_chain_has_node; [|apply rv_long].
      apply head_Some_elem_of, rv_head. }
    rewrite Hv. cbn [negb].
    assert (_leave (S fuel) T v ip_group ip_source None s1 = (Ret tt, sD)) as Hleave.
    { cbn [_leave]. erewrite bind_run; [|by apply get_tree_run].
      rewrite Hv. cbn [negb orb].
      rewrite bool_decide_eq_false_2.
      2:{ intros Heq. apply v_not_in_tree. rewrite Heq. apply Harb. }
      erewrite bind_run; [|exact HrunB].
      erewrite bind_run; [exact HrunD|].
      apply HrunC; try done.
      + by rewrite head_reverse.
      + rewrite length_reverse. lia.
      + by rewrite last_reverse.
      + intros y x Hin. apply (consecutive_reverse p x y) in Hin. by apply grafted_path. }
    erewrite bind_run.
    2:{ unfold _process_request. cbn [negb].
        erewrite bind_run; [|exact Hleave]. reflexivity. }
    reflexivity.
  - repeat split; try congruence.
    + rewrite HAD. apply map_eq. intros n.
      destruct (decide (n ∈ tail rv)) as [Hin|Hnin].
      * apply tail_consecutive in Hin as [y Hin].
        destruct (rv_pair y n Hin) as (Hp & Hout & _).
        destruct (Hready n y Hp Hout) as (sw & e & ay & Hx & He & Hy & Hok & HFF).
        destruct (Hkind1 y ay Hy) as (ay' & Hy' & Hk').
        rewrite (Hmapped2 y n (flow_with sw key (t_tag t) (src_port e) (host_attr ay)) e ay');
          [|done|by eapply Hmapped1|congruence|done].
        rewrite Hx, Hk'. f_equal. f_equal. by apply flow_with_without.
      * by rewrite Hsame2, Hsame1.
    + rewrite HHD, HHB, HH1, insert_insert_eq. apply insert_id.
      rewrite Hheap. f_equal. unfold tA. by destruct t.
Qed.

End round_trip.


(** The primary tree [1 -> 2 -> 8]. *)
Definition tree_1_2_8 : tree :=
  {| t_adj := nx.add_edge (nx.add_edge {[1%Z := ∅]} 2%Z 8%Z None) 1%Z 2%Z None;
     t_root := 1%Z; t_parent := None; t_primary := 0; t_predecessor_switch := None;
     t_tag := None; t_tag_index := Some 1%Z |}.

(** [Example.oneway] without protection, after the host [8] has joined. *)
Definition oneway_unprotected : state :=
  (Example.run_add 0 8%Z (Example.start Example.oneway Example.oneway_attrs)).2.

Lemma no_backup_dec (G : adjacency) :
  map_Forall (λ _ nb, map_Forall (λ _ b, b = None) nb) G →
  ∀ x y b, nx.edge_data G x y = Some b → b = None.
Proof.
  intros HG x y b. unfold nx.edge_data. destruct (G !! x) as [nb|] eqn:Hx; [|done].
  intros Hy. exact (HG x nb Hx y b Hy).
Qed.

Local Open Scope Z_scope.


Local Close Scope Z_scope.

(** * Further properties of the code *)

(** ** Join paths *)

(** Whatever the network, the excluded links and the tree are, a path
    the shortest-path strategy returns visits no node twice, and each of its
    hops is a link of the network that is live and not excluded. *)
Theorem SPT_join_simple_live (network : gmap node (gmap node edata))
    (exclude : gset edge) (T : tree) (v : node) (p : list node) :
  SPT.join network exclude T v = Ret p →
  NoDup p ∧
  ∀ x y, (x, y) ∈ consecutive p →
    ∃ e, nx.edge_data network x y = Some e ∧ live e = true ∧ (x, y) ∉ exclude.
Proof.
  intros Hj. split; [by eapply SPT_join_simple|].
  intros x y Hin.
  assert (p ≠ []) as Hne by (intros ->; by apply elem_of_nil in Hin).
  destruct (SPT_join_sound _ _ _ _ _ Hj Hne) as (_ & _ & _ & Hc).
  destruct (chain_consecutive _ _ _ _ Hc Hin) as [(e & He & Hl & Hex & _) _]. eauto.
Qed.

Lemma SPT_join_simple_live_witness :
  ∃ p, SPT.join Example.diamond ∅ Example.tree_1_2 9%Z = Ret p ∧ p ≠ [] ∧ NoDup p ∧
    ∀ x y, (x, y) ∈ consecutive p →
      ∃ e, nx.edge_data Example.diamond x y = Some e ∧ live e = true ∧ (x, y) ∉ (∅ : gset edge).
Proof.
  eexists. split; [by vm_compute|]. split; [done|].
  apply (SPT_join_simple_live Example.diamond ∅ Example.tree_1_2 9%Z). by vm_compute.
Defined.

(** ** The forwarding compiler: flows *)

(** At one switch, [add_flow] for a destination and then [remove_flow] of
    that destination is a round trip. The switch [x] has the link to [y]; it
    has no fast-failover group for the flow; its flow, if it has one, is not
    empty, does not use the port to [y] yet and records as many tables as
    its actions take. Then [add_flow] returns with the port to [y] in the
    flow, [remove_flow] returns, and no node attribute has changed. *)
Theorem flow_round_trip (s : state) (x y : node) (ip_group ip_source : Z)
    (tag : option Z) (sw : switch) (e : edata) (ay : node_attr) :
  node_attrs s !! x = Some (NSwitch sw) →
  nx.edge_data (network s) x y = Some e →
  node_attrs s !! y = Some ay →
  is_Some (ip_2_mac s !! ip_group) → is_Some (ip_2_mac s !! ip_source) →
  flow_ok sw (McKey ip_group ip_source tag None) tag (src_port e) (host_attr ay) →
  (∀ port, FF_groups sw !! (port, McKey ip_group ip_source tag None) = None) →
  ∃ s1 s2 sw1 ports_s ports_h tables,
    add_flow x ip_group [y] true ip_source tag false None s = (Ret tt, s1) ∧
    node_attrs s1 !! x = Some (NSwitch sw1) ∧
    flows sw1 !! McKey ip_group ip_source tag None = Some (ports_s, ports_h, tables) ∧
    src_port e ∈ ports_s ∪ ports_h ∧
    remove_flow x ip_group (Dsts [y]) true ip_source tag None s1 = (Ret tt, s2) ∧
    node_attrs s2 = node_attrs s ∧ network s2 = network s ∧
    heap s2 = heap s ∧ groups s2 = groups s.
Proof.
  intros Hx He Hy [mg Hg] [ms Ha] Hok HFF.
  set (key := McKey ip_group ip_source tag None) in *.
  destruct (add_flow_run ip_group ip_source tag s x y sw e ay mg ms)
    as (s1 & Hrun1 & Hn1 & Hi1 & Hg1 & Hh1 & HA1 & HH1); try done.
  set (sw1 := flow_with sw key tag (src_port e) (host_attr ay)) in *.
  assert (∃ ay1, node_attrs s1 !! y = Some ay1 ∧ host_attr ay1 = host_attr ay)
    as (ay1 & Hy1 & Hk1).
  { rewrite HA1. destruct (decide (y = x)) as [->|Hne].
    - rewrite lookup_insert_eq. eexists. split; [done|].
      rewrite Hx in Hy. by injection Hy as <-.
    - rewrite lookup_insert_ne by done. eauto. }
  assert (node_attrs s1 !! x = Some (NSwitch sw1)) as Hx1.
  { rewrite HA1. apply lookup_insert_eq. }
  assert (is_Some (flows sw1 !! key)) as Hsome.
  { unfold sw1, flow_with. simpl. rewrite lookup_insert_eq. eauto. }
  destruct (remove_flow_run ip_group ip_source tag s1 x y sw1 e ay1 mg ms)
    as (s2 & Hrun2 & Hn2 & Hi2 & Hg2 & Hh2 & HA2 & HH2);
    [done|congruence|done|congruence|congruence|done|exact HFF|].
  destruct (flows sw1 !! key) as [[[ps ph] n]|] eqn:Hk.
  2:{ unfold sw1, flow_with in Hk. simpl in Hk. by rewrite lookup_insert_eq in Hk. }
  exists s1, s2, sw1, ps, ph, n. split_and!; try congruence.
  - unfold sw1, flow_with in Hk. simpl in Hk. rewrite lookup_insert_eq in Hk.
    injection Hk as <- <- _. unfold port_sets.
    destruct (flows sw !! key) as [[[cs ch] ct]|]; destruct (host_attr ay); simpl;
      rewrite ?elem_of_union, ?elem_of_singleton; tauto.
  - rewrite HA2, HA1, insert_insert_eq, Hk1. unfold sw1.
    rewrite flow_with_without by done. by apply insert_id.
Qed.

Local Open Scope Z_scope.

(** In [Example.diamond]: switch [1] learns the destination [2] and forgets
    it again. *)
Lemma flow_round_trip_witness :
  ∃ s1 s2 sw1 ports_s ports_h tables,
    add_flow 1 230 [2] true 10 None false None Example.diamond_start = (Ret tt, s1) ∧
    node_attrs s1 !! 1 = Some (NSwitch sw1) ∧
    flows sw1 !! McKey 230 10 None None = Some (ports_s, ports_h, tables) ∧
    1 ∈ ports_s ∪ ports_h ∧
    remove_flow 1 230 (Dsts [2]) true 10 None None s1 = (Ret tt, s2) ∧
    node_attrs s2 = node_attrs Example.diamond_start ∧
    network s2 = network Example.diamond_start ∧
    heap s2 = heap Example.diamond_start ∧ groups s2 = groups Example.diamond_start.
Proof.
  apply (flow_round_trip Example.diamond_start 1 2 230 10 None
           (Switch ∅ ∅ ∅ 1) (EData 1 1 true) (NSwitch (Switch ∅ ∅ ∅ 1))).
  - by vm_compute.
  - by vm_compute.
  - by vm_compute.
  - vm_compute. eauto.
  - vm_compute. eauto.
  - by vm_compute.
  - intros port. done.
Defined.

Local Close Scope Z_scope.

(** [remove_flow] for a flow the switch does not have, for a list of
    destinations as for ['all']: the call returns, sends nothing and changes
    nothing but the log, which gets the line on the missing flow and, for a
    tagged flow, the tag. *)
Theorem remove_flow_missing (s : state) (switch_id : node) (dst_address : Z)
    (dsts : dsts_arg) (multicast : bool) (src_address : Z) (tag : option Z)
    (prev_switch_id : option node) (sw : switch) :
  node_attrs s !! switch_id = Some (NSwitch sw) →
  (∀ prev, prev_switch_id = Some prev →
     is_Some (nx.edge_data (network s) prev switch_id)) →
  flows sw !! _get_key multicast dst_address src_address tag prev_switch_id = None →
  remove_flow switch_id dst_address dsts multicast src_address tag prev_switch_id s =
  (Ret tt,
   with_logs s (logs s ++ LogRemoveMissingFlow switch_id ::
                          match tag with Some t => [LogTag t] | None => [] end)).
Proof.
  intros Hsw Hprev Hk. unfold remove_flow.
  erewrite bind_run; [|by apply get_switch_run].
  assert (∃ in_port, in_port_of prev_switch_id switch_id s = (Ret in_port, s))
    as [in_port Hin].
  { unfold in_port_of. destruct prev_switch_id as [prev|]; [|by eexists].
    destruct (Hprev prev eq_refl) as [e He]. eexists.
    unfold get_edge, bind, get_state, lookup_or_raise. rewrite He. reflexivity. }
  erewrite bind_run; [|exact Hin].
  erewrite bind_run; [|by apply get_switch_run].
  rewrite Hk. destruct tag; unfold bind, log, ret, with_logs; simpl;
    by rewrite <- ?app_assoc.
Qed.

Local Open Scope Z_scope.

Lemma remove_flow_missing_witness :
  remove_flow 1 230 All true 10 (Some 7) None Example.diamond_start =
  (Ret tt,
   with_logs Example.diamond_start
     (logs Example.diamond_start ++ [LogRemoveMissingFlow 1; LogTag 7])).
Proof.
  apply (remove_flow_missing Example.diamond_start 1 230 All true 10 (Some 7) None
           (Switch ∅ ∅ ∅ 1)).
  - by vm_compute.
  - intros prev [=].
  - done.
Defined.

Local Close Scope Z_scope.

(** The compiler's entry points read the datapath of the switch first: on
    a node that is no switch of the network (unknown, or a host) each of
    them raises [KeyError] before it sends, records or logs anything. *)
Theorem compiler_needs_switch (s : state) (switch_id : node) (dst_address : Z)
    (dsts : list node) (multicast : bool) (src_address : Z) (tag tag_origin : option Z)
    (forced needs_backup in_port_flow : bool) (prev_switch_id : option node)
    (dst backup_dst : node) (all_or_dsts : dsts_arg) :
  (∀ sw, node_attrs s !! switch_id ≠ Some (NSwitch sw)) →
  add_flow switch_id dst_address dsts multicast src_address tag forced prev_switch_id s
    = (Raise KeyError, s) ∧
  remove_flow switch_id dst_address all_or_dsts multicast src_address tag prev_switch_id s
    = (Raise KeyError, s) ∧
  add_backup prev_switch_id switch_id dst_address dst backup_dst src_address tag
    tag_origin needs_backup in_port_flow s = (Raise KeyError, s) ∧
  remove_backup prev_switch_id switch_id dst_address (Some dst) backup_dst src_address
    tag in_port_flow s = (Raise KeyError, s).
Proof.
  intros Hno.
  assert (get_switch switch_id s = (Raise KeyError, s)) as Hget.
  { unfold get_switch, bind, get_state.
    destruct (node_attrs s !! switch_id) as [[|sw]|] eqn:Hx; try done.
    by specialize (Hno sw). }
  split_and!.
  - unfold add_flow. by erewrite bind_raise.
  - unfold remove_flow. by erewrite bind_raise.
  - unfold add_backup. by erewrite bind_raise.
  - unfold remove_backup. by erewrite bind_raise.
Qed.

Local Open Scope Z_scope.

(** The host [9] of [Example.diamond] is no switch. *)
Lemma compiler_needs_switch_witness :
  add_flow 9 230 [4] true 10 (Some 1) false None Example.diamond_start
    = (Raise KeyError, Example.diamond_start) ∧
  remove_flow 9 230 All true 10 (Some 1) None Example.diamond_start
    = (Raise KeyError, Example.diamond_start) ∧
  add_backup None 9 230 4 4 10 (Some 1) None false false Example.diamond_start
    = (Raise KeyError, Example.diamond_start) ∧
  remove_backup None 9 230 (Some 4) 4 10 (Some 1) false Example.diamond_start
    = (Raise KeyError, Example.diamond_start).
Proof.
  apply (compiler_needs_switch Example.diamond_start 9 230 [4] true 10 (Some 1) None
           false false false None 4 4 All).
  intros sw. by vm_compute.
Defined.

Local Close Scope Z_scope.

(** [add_flow] with [forced = true] on a flow that has a destination: the
    pipeline for the union of the requested and the installed ports is sent
    again and recorded, also when every requested port is installed
    already. *)
Theorem add_flow_forced (s : state) (switch_id : node) (dst_address : Z)
    (dsts : list node) (multicast : bool) (src_address : Z) (tag : option Z)
    (prev_switch_id : option node) (sw : switch) (ports_s ports_h : gset Z)
    (in_port : option Z) (current_s current_h : gset Z) (current_tables : nat)
    (mtch : ofp_match) :
  node_attrs s !! switch_id = Some (NSwitch sw) →
  _get_ports switch_id dsts s = (Ret (ports_s, ports_h), s) →
  in_port_of prev_switch_id switch_id s = (Ret in_port, s) →
  _get_match dst_address src_address multicast tag in_port s = (Ret mtch, s) →
  flows sw !! _get_key multicast dst_address src_address tag prev_switch_id
    = Some (current_s, current_h, current_tables) →
  0 < size current_s ∨ 0 < size current_h →
  ∃ s',
    add_flow switch_id dst_address dsts multicast src_address tag true prev_switch_id s
      = (Ret tt, s') ∧
    node_attrs s' =
      <[switch_id :=
          NSwitch (set_flows sw
            (<[_get_key multicast dst_address src_address tag prev_switch_id :=
                 (ports_s ∪ current_s, ports_h ∪ current_h,
                  length (_get_actions (FF_groups sw)
                            (_get_key multicast dst_address src_address tag prev_switch_id)
                            tag (ports_s ∪ current_s) (ports_h ∪ current_h)))]>
               (flows sw)))]> (node_attrs s) ∧
    sent s' =
      sent s ++
      install_msgs switch_id (_get_priority tag in_port) current_tables mtch
        (_get_actions (FF_groups sw)
           (_get_key multicast dst_address src_address tag prev_switch_id)
           tag (ports_s ∪ current_s) (ports_h ∪ current_h)) ∧
    network s' = network s ∧ heap s' = heap s ∧ groups s' = groups s.
Proof.
  intros Hsw Hports Hin Hmatch Hflow Hnonempty. unfold add_flow.
  erewrite bind_run; [|by apply get_switch_run].
  erewrite bind_run; [|exact Hports]. cbv beta iota.
  erewrite bind_run; [|exact Hin].
  erewrite bind_run; [|by apply get_switch_run].
  rewrite Hflow.
  assert (bool_decide (0 < size current_s) || bool_decide (0 < size current_h) = true)
    as ->.
  { destruct Hnonempty; [rewrite bool_decide_eq_true_2 by done; done|].
    rewrite (bool_decide_eq_true_2 (0 < size current_h)) by done. apply orb_true_r. }
  cbv beta iota.
  erewrite bind_run; [|exact Hmatch].
  erewrite bind_run; [|apply install_actions_run].
  erewrite bind_run; [|by apply get_switch_run].
  erewrite bind_run; [|reflexivity].
  erewrite bind_run; [|reflexivity].
  erewrite bind_run; [|reflexivity].
  destruct tag; eexists; (split; [reflexivity|]); by repeat split.
Qed.

Local Open Scope Z_scope.

(** Switch [1] of [Example.one_output] already forwards to [2]; a forced
    [add_flow] for [2] sends the flow-mod again. *)
Lemma add_flow_forced_witness :
  ∃ s',
    add_flow 1 230 [2] true 10 None true None Example.one_output = (Ret tt, s') ∧
    node_attrs s' = node_attrs Example.one_output ∧
    sent s' =
      sent Example.one_output ++
      [(1, OFPFlowMod 0 OFPFC_MODIFY_STRICT 2 (OFPMatch 1000 (Some 2000) None None)
             [OFPInstructionActions [OFPActionOutput 1]])].
Proof.
  destruct (add_flow_forced Example.one_output 1 230 [2] true 10 None None
              (Example.switch_of Example.one_output 1) {[1]} ∅ None {[1]} ∅ 1%nat
              (OFPMatch 1000 (Some 2000) None None))
    as (s' & Hrun & Hattrs & Hsent & _).
  { by vm_compute. }
  { by vm_compute. }
  { by vm_compute. }
  { by vm_compute. }
  { by vm_compute. }
  { left. by vm_compute. }
  exists s'. split; [exact Hrun|]. split.
  - rewrite Hattrs. by vm_compute.
  - rewrite Hsent. by vm_compute.
Defined.

Local Close Scope Z_scope.

(** [_install_actions] writes the new pipeline over the old one: it sends
    one flow-mod per table that the new or the old pipeline uses, in the
    order of the tables and with the given priority and match. A table of
    the new pipeline is modified when the old one had it and added
    otherwise, with the actions of that table and a jump to the next table
    unless it is the last; a table only the old pipeline had is deleted.
    Nothing else changes. *)
Theorem install_actions_tables (s : state) (switch_id : node) (prio : Z)
    (current_tables : nat) (mtch : ofp_match) (actions : list (list action)) :
  ∃ s' msgs,
    _install_actions switch_id prio current_tables mtch actions s = (Ret tt, s') ∧
    s' = with_sent s (sent s ++ msgs) ∧
    length msgs = length actions `max` current_tables ∧
    (∀ i acts, actions !! i = Some acts →
       msgs !! i =
       Some (switch_id,
             OFPFlowMod i
               (if decide (i < current_tables) then OFPFC_MODIFY_STRICT else OFPFC_ADD)
               prio mtch
               (OFPInstructionActions acts ::
                if decide (S i = length actions) then []
                else [OFPInstructionGotoTable (S i)]))) ∧
    (∀ i, length actions ≤ i < current_tables →
       msgs !! i = Some (switch_id, OFPFlowMod i OFPFC_DELETE_STRICT prio mtch [])).
Proof.
  exists (with_sent s (sent s ++ install_msgs switch_id prio current_tables mtch actions)),
         (install_msgs switch_id prio current_tables mtch actions).
  split; [apply install_actions_run|]. split; [done|]. unfold install_msgs. split_and!.
  - rewrite length_app, !length_fmap, !length_seq. lia.
  - intros i acts Hi. apply lookup_lt_Some in Hi as Hlt.
    rewrite lookup_app_l by (by rewrite length_fmap, length_seq).
    rewrite list_lookup_fmap, lookup_seq_lt by done. simpl. rewrite Hi. simpl.
    do 3 f_equal.
    + case_bool_decide; [by rewrite decide_True|by rewrite decide_False].
    + f_equal. case_bool_decide; [rewrite decide_False by lia|rewrite decide_True by lia].
      * by rewrite Nat.add_1_r.
      * done.
  - intros i [Hge Hlt].
    rewrite lookup_app_r by (by rewrite length_fmap, length_seq).
    rewrite length_fmap, length_seq, list_lookup_fmap.
    rewrite lookup_seq_lt by lia. simpl. do 3 f_equal. lia.
Qed.

Global Instance action_eq_dec : EqDecision action.
Proof. solve_decision. Defined.

(** How often a list of actions outputs to [port]. *)
Definition outputs_to (port : Z) (l : list action) : nat :=
  length (filter (λ a, a = OFPActionOutput port) l).

Lemma outputs_to_app port l1 l2 :
  outputs_to port (l1 ++ l2) = outputs_to port l1 + outputs_to port l2.
Proof. unfold outputs_to. by rewrite filter_app, length_app. Qed.

Lemma outputs_to_none port l :
  Forall (λ a, a ≠ OFPActionOutput port) l → outputs_to port l = 0.
Proof.
  unfold outputs_to. induction 1 as [|a l Ha _ IH]; [done|].
  by rewrite filter_cons_False.
Qed.

Lemma outputs_to_fmap port (l : list Z) :
  NoDup l →
  outputs_to port (OFPActionOutput <$> l) = if bool_decide (port ∈ l) then 1 else 0.
Proof.
  unfold outputs_to. induction 1 as [|q l Hq Hnd IH]; [done|].
  cbn [fmap list_fmap]. destruct (decide (q = port)) as [->|Hne].
  - rewrite filter_cons_True by done. simpl. rewrite IH.
    rewrite bool_decide_eq_false_2 by done.
    rewrite bool_decide_eq_true_2; [done|]. apply elem_of_cons. by left.
  - rewrite filter_cons_False by congruence. rewrite IH.
    erewrite bool_decide_ext; [reflexivity|]. rewrite elem_of_cons.
    split; [auto|]. by intros [?|?].
Qed.

Lemma outputs_to_ungrouped (port : Z) (FF : gmap (Z * flow_key) (list (Z * nat)))
    (key : flow_key) (l : list Z) :
  NoDup l →
  outputs_to port
    (concat ((λ q, match FF !! _get_FF_key q key with
                   | Some _ => []
                   | None => [OFPActionOutput q]
                   end) <$> l)) =
  if bool_decide (port ∈ l ∧ FF !! (port, key) = None) then 1 else 0.
Proof.
  induction 1 as [|q l Hq Hnd IH].
  { rewrite bool_decide_eq_false_2; [done|]. intros [?%elem_of_nil _]. done. }
  cbn [fmap list_fmap concat]. rewrite outputs_to_app, IH. unfold _get_FF_key.
  destruct (decide (q = port)) as [->|Hne].
  - rewrite (bool_decide_eq_false_2 (port ∈ l ∧ _)) by tauto.
    destruct (FF !! (port, key)) eqn:HFF.
    + rewrite bool_decide_eq_false_2; [done|]. by intros [_ ?].
    + rewrite bool_decide_eq_true_2; [|split; [apply elem_of_cons; by left|done]].
      unfold outputs_to. by rewrite filter_cons_True.
  - assert (outputs_to port
              match FF !! (q, key) with Some _ => [] | None => [OFPActionOutput q] end = 0)
      as ->.
    { apply outputs_to_none. destruct (FF !! (q, key)); [done|].
      apply Forall_singleton. congruence. }
    erewrite bool_decide_ext; [reflexivity|]. rewrite elem_of_cons.
    split; [intros [? ?]; auto|]. intros [[?|?] ?]; [congruence|done].
Qed.

Lemma elem_of_concat_2 {A} (x : A) (l : list A) (ls : list (list A)) :
  x ∈ l → l ∈ ls → x ∈ concat ls.
Proof.
  intros Hx. induction ls as [|k ls IH]; [by intros ?%elem_of_nil|].
  intros [->|Hin]%elem_of_cons; simpl; apply elem_of_app; auto.
Qed.

Lemma concat_if_nonempty {A} (l : list A) :
  concat (if bool_decide (0 < length l) then [l] else []) = l.
Proof.
  case_bool_decide as H; simpl; [apply app_nil_r|].
  destruct l; [done|simpl in H; lia].
Qed.

(** The pipeline [_get_actions] compiles has at most three tables. It
    outputs once to every switch port that has no fast-failover group for
    the flow, once to every host port, and to no other port (a port in both
    sets is served twice); a switch port that has groups is served by its
    groups instead. The VLAN tag is popped exactly when a tagged flow
    reaches hosts. *)
Theorem get_actions_outputs (FF : gmap (Z * flow_key) (list (Z * nat)))
    (key : flow_key) (tag : option Z) (ports_s ports_h : gset Z) :
  length (_get_actions FF key tag ports_s ports_h) ≤ 3 ∧
  (∀ port,
     outputs_to port (concat (_get_actions FF key tag ports_s ports_h)) =
     (if bool_decide (port ∈ ports_s ∧ FF !! (port, key) = None) then 1 else 0) +
     (if bool_decide (port ∈ ports_h) then 1 else 0)) ∧
  (∀ port gs g, port ∈ ports_s → FF !! (port, key) = Some gs → g ∈ gs →
     OFPActionGroup g.1 ∈ concat (_get_actions FF key tag ports_s ports_h)) ∧
  (OFPActionPopVlan ∈ concat (_get_actions FF key tag ports_s ports_h) ↔
   is_Some tag ∧ ports_h ≠ ∅).
Proof.
  unfold _get_actions.
  set (groups := concat ((λ port, match FF !! _get_FF_key port key with
                                  | Some gs => (λ gi, OFPActionGroup gi.1) <$> gs
                                  | None => []
                                  end) <$> elements ports_s)).
  set (outs := concat ((λ port, match FF !! _get_FF_key port key with
                                | Some _ => []
                                | None => [OFPActionOutput port]
                                end) <$> elements ports_s)).
  set (hosts := OFPActionOutput <$> elements ports_h).
  assert (Forall (λ a, ∃ g, a = OFPActionGroup g) groups) as Hgroups.
  { unfold groups. apply Forall_concat, Forall_fmap, Forall_forall. intros q _. simpl.
    destruct (FF !! _get_FF_key q key); [|done].
    apply Forall_fmap, Forall_forall. intros gi _. simpl. eauto. }
  assert (Forall (λ a, ∃ q, a = OFPActionOutput q) outs) as Houts.
  { unfold outs. apply Forall_concat, Forall_fmap, Forall_forall. intros q _. simpl.
    destruct (FF !! _get_FF_key q key); [done|]. apply Forall_singleton. eauto. }
  assert (Forall (λ a, ∃ q, a = OFPActionOutput q) hosts) as Hhosts.
  { unfold hosts. apply Forall_fmap, Forall_forall. intros q _. simpl. eauto. }
  assert (hosts = [] ↔ ports_h = ∅) as Hempty.
  { unfold hosts. rewrite <- (leibniz_equiv_iff ports_h), <- elements_empty_iff.
    split; [apply fmap_nil_inv|by intros ->]. }
  assert (∀ port, outputs_to port groups = 0) as Hg0.
  { intros port. apply outputs_to_none. eapply Forall_impl; [exact Hgroups|].
    by intros a [g ->]. }
  assert (∀ port, outputs_to port outs =
            if bool_decide (port ∈ ports_s ∧ FF !! (port, key) = None) then 1 else 0)
    as Ho.
  { intros port. unfold outs. rewrite outputs_to_ungrouped by apply NoDup_elements.
    erewrite bool_decide_ext; [reflexivity|]. by rewrite elem_of_elements. }
  assert (∀ port, outputs_to port hosts = if bool_decide (port ∈ ports_h) then 1 else 0)
    as Hh.
  { intros port. unfold hosts. rewrite outputs_to_fmap by apply NoDup_elements.
    erewrite bool_decide_ext; [reflexivity|]. by rewrite elem_of_elements. }
  assert (∀ port gs g, port ∈ ports_s → FF !! (port, key) = Some gs → g ∈ gs →
            OFPActionGroup g.1 ∈ groups) as Hin.
  { intros port gs g Hp HFF Hg. unfold groups.
    apply (elem_of_concat_2 _ ((λ gi, OFPActionGroup gi.1) <$> gs)).
    - apply list_elem_of_fmap. by exists g.
    - apply list_elem_of_fmap. exists port. unfold _get_FF_key. rewrite HFF.
      split; [done|]. by apply elem_of_elements. }
  destruct tag as [t|].
  - (* tagged: hosts are served after the tag is popped *)
    rewrite !concat_app, !concat_if_nonempty, app_nil_r.
    assert (concat (if bool_decide (1 < length (OFPActionPopVlan :: hosts))
                    then [OFPActionPopVlan :: hosts] else []) =
            if decide (hosts = []) then [] else OFPActionPopVlan :: hosts) as ->.
    { destruct hosts as [|a hosts']; [done|].
      rewrite bool_decide_eq_true_2 by (simpl; lia).
      rewrite decide_False by done. simpl. by rewrite app_nil_r. }
    split_and!.
    + rewrite !length_app. repeat case_bool_decide; simpl; lia.
    + intros port. rewrite !outputs_to_app, Hg0, Ho, <- Hh. cbn [Nat.add]. f_equal.
      destruct (decide (hosts = [])) as [Hn|_]; [by rewrite Hn|].
      unfold outputs_to. by rewrite filter_cons_False.
    + intros port gs g Hp HFF Hg. apply elem_of_app. left. eauto.
    + rewrite !elem_of_app. split.
      * intros [Hx|[Hx|Hx]].
        -- eapply Forall_forall in Hgroups as [? ?]; [|exact Hx]. done.
        -- eapply Forall_forall in Houts as [? ?]; [|exact Hx]. done.
        -- destruct (decide (hosts = [])) as [Hn|Hne]; [by apply elem_of_nil in Hx|].
           split; [eauto|]. by rewrite <- Hempty.
      * intros [_ Hne]. right. right. rewrite decide_False by (by rewrite Hempty).
        apply elem_of_cons. by left.
  - (* untagged: one table of outputs *)
    rewrite !concat_app, !concat_if_nonempty. simpl. rewrite app_nil_r.
    split_and!.
    + rewrite !length_app. repeat case_bool_decide; simpl; lia.
    + intros port. by rewrite !outputs_to_app, Hg0, Ho, Hh.
    + intros port gs g Hp HFF Hg. apply elem_of_app. left. eauto.
    + rewrite !elem_of_app. split; [|by intros [[? [=]] _]].
      intros [Hx|[[Hx|Hx]|Hx]].
      * eapply Forall_forall in Hgroups as [? ?]; [|exact Hx]. done.
      * eapply Forall_forall in Houts as [? ?]; [|exact Hx]. done.
      * eapply Forall_forall in Hhosts as [? ?]; [|exact Hx]. done.
      * by apply elem_of_nil in Hx.
Qed.

(** ** The forwarding compiler: fast-failover groups *)

(** A fast-failover group made by [_add_FF_group] and removed by
    [_remove_FF_group] again: when the switch has no group registered under
    the key of the port and no bucket list under its next group id, both
    calls return, the switch is sent a [GROUP_ADD] and a [GROUP_DELETE] for
    that id, and afterwards its flows, registered groups and bucket lists
    are what they were; only the group-id cursor has moved on. *)
Theorem FF_group_round_trip (s : state) (switch_id : node) (sw : switch)
    (port : Z) (tag : option Z) (dst_address src_address : Z)
    (prev_switch_id : option node) :
  node_attrs s !! switch_id = Some (NSwitch sw) →
  FF_groups sw !! (port, McKey dst_address src_address tag prev_switch_id) = None →
  buckets sw !! group_id_index sw = None →
  ∃ s1 s2 sw1,
    _add_FF_group switch_id (port, McKey dst_address src_address tag prev_switch_id)
      port tag s = (Ret tt, s1) ∧
    node_attrs s1 !! switch_id = Some (NSwitch sw1) ∧
    FF_groups sw1 !! (port, McKey dst_address src_address tag prev_switch_id)
      = Some [(group_id_index sw, 0)] ∧
    buckets sw1 !! group_id_index sw = Some [(Port port, tag, false)] ∧
    _remove_FF_group switch_id (group_id_index sw) dst_address src_address
      prev_switch_id s1 = (Ret tt, s2) ∧
    node_attrs s2 =
      <[switch_id :=
          NSwitch (set_group_id_index sw
                     (if bool_decide (group_id_index sw + 1 < 1)%Z then 1%Z
                      else (group_id_index sw + 1)%Z))]> (node_attrs s) ∧
    sent s2 =
      sent s ++
      [(switch_id, OFPGroupMod OFPGC_ADD (group_id_index sw)
                     [OFPBucket (Port port) [OFPActionOutput port]]);
       (switch_id, OFPGroupMod OFPGC_DELETE (group_id_index sw) [])] ∧
    network s2 = network s ∧ heap s2 = heap s ∧ groups s2 = groups s.
Proof.
  intros Hsw HFF Hb. destruct sw as [fl FF bk gi]. simpl in *.
  set (key := (port, McKey dst_address src_address tag prev_switch_id)) in *.
  set (gi' := if bool_decide (gi + 1 < 1)%Z then 1%Z else (gi + 1)%Z).
  set (sw1 := Switch fl (<[key := [(gi, 0)]]> FF) (<[gi := [(Port port, tag, false)]]> bk) gi').
  assert (∃ s1, _add_FF_group switch_id key port tag s = (Ret tt, s1) ∧
            node_attrs s1 = <[switch_id := NSwitch sw1]> (node_attrs s) ∧
            sent s1 = sent s ++
              [(switch_id, OFPGroupMod OFPGC_ADD gi
                             [OFPBucket (Port port) [OFPActionOutput port]])] ∧
            network s1 = network s ∧ heap s1 = heap s ∧ groups s1 = groups s)
    as (s1 & Hadd & HA1 & HS1 & HN1 & HH1 & HG1).
  { unfold _add_FF_group. erewrite bind_run; [|by apply get_switch_run].
    erewrite bind_run.
    2:{ unfold _add_group. erewrite bind_run; [|by apply get_switch_run].
        erewrite bind_run; [|reflexivity]. erewrite bind_run; [|reflexivity].
        erewrite bind_run; [|by apply get_switch_run].
        erewrite bind_run; [|reflexivity]. reflexivity. }
    erewrite bind_run; [|apply get_switch_run; simpl; apply lookup_insert_eq].
    erewrite bind_run; [|reflexivity].
    erewrite bind_run; [|apply get_switch_run; simpl; apply lookup_insert_eq].
    eexists. split; [reflexivity|]. simpl. split_and!; try done.
    by rewrite !insert_insert_eq. }
  assert (node_attrs s1 !! switch_id = Some (NSwitch sw1)) as Hsw1.
  { rewrite HA1. apply lookup_insert_eq. }
  exists s1. 
  assert (∃ s2, _remove_FF_group switch_id gi dst_address src_address prev_switch_id s1
                  = (Ret tt, s2) ∧
            node_attrs s2 = <[switch_id := NSwitch (Switch fl FF bk gi')]> (node_attrs s) ∧
            sent s2 = sent s1 ++ [(switch_id, OFPGroupMod OFPGC_DELETE gi [])] ∧
            network s2 = network s1 ∧ heap s2 = heap s1 ∧ groups s2 = groups s1)
    as (s2 & Hrem & HA2 & HS2 & HN2 & HH2 & HG2).
  { unfold _remove_FF_group. erewrite bind_run; [|by apply get_switch_run].
    erewrite bind_run; [|reflexivity].
    erewrite bind_run; [|by apply get_switch_run].
    unfold sw1 at 1. cbn [buckets]. rewrite lookup_insert_eq.
    erewrite bind_run; [|reflexivity].
    erewrite bind_run; [|reflexivity].
    erewrite bind_run; [|reflexivity]. cbv beta iota.
    erewrite bind_run; [|reflexivity].
    erewrite bind_run; [|by apply get_switch_run].
    change (_get_FF_key port (_get_key true dst_address src_address tag prev_switch_id))
      with key.
    unfold sw1 at 1. cbn [FF_groups]. rewrite lookup_insert_eq.
    erewrite bind_run; [|reflexivity].
    cbn [length pop_group lookup list_lookup]. rewrite decide_True by done.
    cbn [pop_group delete list_delete].
    erewrite bind_run; [|reflexivity].
    erewrite bind_run; [|reflexivity].
    rewrite bool_decide_eq_true_2 by done.
    erewrite bind_run.
    2:{ unfold del_FF_group.
        erewrite bind_run; [|apply get_switch_run; simpl; apply lookup_insert_eq].
        cbn [FF_groups set_FF_groups]. rewrite lookup_insert_eq. reflexivity. }
    erewrite bind_run; [|apply get_switch_run; simpl; apply lookup_insert_eq].
    cbn [buckets set_FF_groups set_buckets].
    unfold sw1. cbn [buckets]. rewrite lookup_insert_eq.
    erewrite bind_run; [|reflexivity].
    eexists. split; [reflexivity|]. simpl. split_and!; try done.
    rewrite HA1, !insert_insert_eq. f_equal. f_equal. unfold set_buckets. simpl. f_equal.
    - rewrite delete_insert_eq. by apply delete_id.
    - rewrite delete_insert_eq. by apply delete_id. }
  exists s2, sw1. split_and!; try done; try congruence.
  - unfold sw1. simpl. apply lookup_insert_eq.
  - unfold sw1. simpl. apply lookup_insert_eq.
  - rewrite HS2, HS1, <- app_assoc. done.
Qed.

Local Open Scope Z_scope.

Lemma FF_group_round_trip_witness :
  ∃ s1 s2 sw1,
    _add_FF_group 1 (1, McKey 230 10 None None) 1 None Example.diamond_start
      = (Ret tt, s1) ∧
    node_attrs s1 !! 1 = Some (NSwitch sw1) ∧
    FF_groups sw1 !! (1, McKey 230 10 None None) = Some [(1, 0%nat)] ∧
    buckets sw1 !! 1 = Some [(Port 1, None, false)] ∧
    _remove_FF_group 1 1 230 10 None s1 = (Ret tt, s2) ∧
    node_attrs s2 = <[1 := NSwitch (Switch ∅ ∅ ∅ 2)]> (node_attrs Example.diamond_start) ∧
    sent s2 =
      sent Example.diamond_start ++
      [(1, OFPGroupMod OFPGC_ADD 1 [OFPBucket (Port 1) [OFPActionOutput 1]]);
       (1, OFPGroupMod OFPGC_DELETE 1 [])] ∧
    network s2 = network Example.diamond_start ∧
    heap s2 = heap Example.diamond_start ∧ groups s2 = groups Example.diamond_start.
Proof.
  apply (FF_group_round_trip Example.diamond_start 1 (Switch ∅ ∅ ∅ 1) 1 None 230 10 None).
  - by vm_compute.
  - done.
  - done.
Defined.

Local Close Scope Z_scope.

Lemma pop_group_overrun g_id n : ∀ i l,
  0 < n → length l < n + i → (pop_group n i l g_id).2 = false.
Proof.
  induction n as [|n IH]; intros i l Hn Hlen; [lia|]. cbn [pop_group].
  destruct (l !! i) as [[g x]|] eqn:Hi; [|done].
  apply lookup_lt_Some in Hi as Hlt. apply IH; [lia|].
  destruct (decide (g = g_id)); [|lia].
  rewrite length_delete by eauto. lia.
Qed.

Lemma pop_group_scan g_id n : ∀ i l,
  n + i = length l →
  ((pop_group n i l g_id).2 = true ↔
   ∀ j g x, i ≤ j → S j < length l → l !! j = Some (g, x) → g ≠ g_id) ∧
  ((pop_group n i l g_id).2 = true →
   (pop_group n i l g_id).1 =
   match last l with
   | Some (g, _) => if decide (0 < n ∧ g = g_id) then take (length l - 1) l else l
   | None => l
   end).
Proof.
  induction n as [|n IH]; intros i l Hlen; cbn [pop_group].
  - split.
    + split; [|done]. intros _ j g x Hij Hj. lia.
    + intros _. destruct (last l) as [[g x]|]; [|done].
      by rewrite decide_False by lia.
  - destruct (l !! i) as [[g x]|] eqn:Hi.
    2:{ apply lookup_ge_None in Hi. lia. }
    destruct (decide (g = g_id)) as [->|Hne].
    + (* the entry at [i] is popped *)
      destruct (decide (n = 0)) as [->|Hn].
      * (* it was the last one *)
        cbn [pop_group]. assert (i = length l - 1) as Hi_last by lia. split.
        -- split; [|done]. intros _ j g x' Hij Hj. lia.
        -- intros _. rewrite last_lookup.
           replace (pred (length l)) with i by lia. rewrite Hi.
           rewrite decide_True by (split; [lia|done]).
           rewrite <- Hi_last. clear -Hi Hlen.
           assert (length l = S i) as Hl by lia.
           cbn [fst]. apply list_eq. intros k. destruct (decide (k < i)) as [Hk|Hk].
           ++ rewrite list_lookup_delete_lt, lookup_take_lt by done. done.
           ++ rewrite list_lookup_delete_ge, lookup_take_ge by lia.
              apply lookup_ge_None. lia.
      * assert ((pop_group n (S i) (delete i l) g_id).2 = false) as Hover.
        { apply pop_group_overrun; [lia|]. rewrite length_delete by eauto. lia. }
        rewrite Hover. split; [|done]. split; [done|]. intros Hall. exfalso.
        apply (Hall i g_id x); [lia|lia|done|done].
    + destruct (IH (S i) l) as [Hiff Hres]; [lia|]. split.
      * rewrite Hiff. split.
        -- intros Hall j g' x' Hij Hj Hl. destruct (decide (j = i)) as [->|Hji].
           ++ rewrite Hi in Hl. by injection Hl as <- _.
           ++ eapply Hall; [|done|done]. lia.
        -- intros Hall j g' x' Hij. apply Hall. lia.
      * intros Hok. rewrite (Hres Hok). destruct (last l) as [[g' x']|] eqn:Hlast; [|done].
        destruct (decide (0 < n ∧ g' = g_id)) as [[Hn ->]|Hno].
        -- by rewrite decide_True by (split; [lia|done]).
        -- destruct (decide (n = 0)) as [->|Hn].
           ++ rewrite last_lookup in Hlast. replace (pred (length l)) with i in Hlast by lia.
              rewrite Hi in Hlast. injection Hlast as <- <-.
              by rewrite decide_False by (intros [_ ?]; done).
           ++ rewrite decide_False; [done|]. intros [_ ->]. apply Hno. split; [lia|done].
Qed.

(** The loop that takes the group [g_id] off the list of copies
    ([for i in range(0, len(first_groups)): if first_groups[i][0] == g_id:
    first_groups.pop(i)]) only ends without an [IndexError] when [g_id] is
    not registered before the last position of the list: popping an
    earlier entry makes the range, fixed before the loop, run past the end
    of the shortened list. When it ends, the list has lost its last entry
    if that was [g_id]'s and is unchanged otherwise. *)
Theorem pop_group_last_only (l : list (Z * nat)) (g_id : Z) :
  ((pop_group (length l) 0 l g_id).2 = true ↔
   ∀ j g x, S j < length l → l !! j = Some (g, x) → g ≠ g_id) ∧
  ((pop_group (length l) 0 l g_id).2 = true →
   (pop_group (length l) 0 l g_id).1 =
   match last l with
   | Some (g, _) => if decide (g = g_id) then take (length l - 1) l else l
   | None => l
   end).
Proof.
  destruct (pop_group_scan g_id (length l) 0 l) as [Hiff Hres]; [lia|]. split.
  - rewrite Hiff. split.
    + intros Hall j g x. apply Hall. lia.
    + intros Hall j g x _. apply Hall.
  - intros Hok. rewrite (Hres Hok). destruct (last l) as [[g x]|] eqn:Hlast; [|done].
    assert (0 < length l) by (destruct l; [done|simpl; lia]).
    destruct (decide (g = g_id)).
    + by rewrite decide_True.
    + by rewrite decide_False by (by intros [_ ?]).
Qed.

(** ** What the forwarding compiler leaves alone *)

(** [s'] differs from [s] in the attributes of the node [switch_id], in
    messages sent to [switch_id] and in log lines, and in nothing else. *)
Definition touches_only (switch_id : node) (s s' : state) : Prop :=
  network s' = network s ∧ ip_2_mac s' = ip_2_mac s ∧
  groups s' = groups s ∧ heap s' = heap s ∧ next_handle s' = next_handle s ∧
  (∀ n, n ≠ switch_id → node_attrs s' !! n = node_attrs s !! n) ∧
  (∃ msgs, sent s' = sent s ++ msgs ∧ ∀ m, m ∈ msgs → m.1 = switch_id) ∧
  (∃ lines, logs s' = logs s ++ lines).

Definition confined {A} (switch_id : node) (m : M A) : Prop :=
  ∀ s, touches_only switch_id s (m s).2.

Lemma touches_only_refl id s : touches_only id s s.
Proof.
  repeat split; try done.
  - exists []. rewrite app_nil_r. split; [done|]. by intros m ?%elem_of_nil.
  - exists []. by rewrite app_nil_r.
Qed.

Lemma touches_only_trans id s1 s2 s3 :
  touches_only id s1 s2 → touches_only id s2 s3 → touches_only id s1 s3.
Proof.
  intros (Hn1 & Hi1 & Hg1 & Hh1 & Hx1 & Ha1 & (m1 & Hs1 & Hm1) & (l1 & Hl1))
         (Hn2 & Hi2 & Hg2 & Hh2 & Hx2 & Ha2 & (m2 & Hs2 & Hm2) & (l2 & Hl2)).
  repeat split; try congruence.
  - intros n Hne. rewrite Ha2, Ha1 by done. done.
  - exists (m1 ++ m2). split; [by rewrite Hs2, Hs1, app_assoc|].
    intros m [?|?]%elem_of_app; auto.
  - exists (l1 ++ l2). by rewrite Hl2, Hl1, app_assoc.
Qed.

Lemma confined_ret {A} id (a : A) : confined id (ret a).
Proof. intros s. apply touches_only_refl. Qed.

Lemma confined_raise {A} id e : confined id (@raise A e).
Proof. intros s. apply touches_only_refl. Qed.

Lemma confined_get_state id : confined id get_state.
Proof. intros s. apply touches_only_refl. Qed.

Lemma confined_lookup_or_raise {A} id e (o : option A) :
  confined id (lookup_or_raise e o).
Proof. destruct o; [apply confined_ret|apply confined_raise]. Qed.

Lemma confined_bind {A B} id (m : M A) (f : A → M B) :
  confined id m → (∀ a, confined id (f a)) → confined id (bind m f).
Proof.
  intros Hm Hf s. unfold bind. specialize (Hm s).
  destruct (m s) as [[a| |] s']; simpl in *; [|done|done].
  eapply touches_only_trans; [done|]. apply Hf.
Qed.

Lemma confined_for_each {A} id (l : list A) (body : A → M unit) :
  (∀ a, confined id (body a)) → confined id (for_each l body).
Proof.
  intros Hb. induction l as [|a l IH]; cbn [for_each].
  - apply confined_ret.
  - apply confined_bind; auto.
Qed.

Lemma confined_log id m : confined id (log m).
Proof.
  intros s. repeat split; try done.
  - exists []. rewrite app_nil_r. split; [done|]. by intros ? ?%elem_of_nil.
  - by exists [m].
Qed.

Lemma confined_send_msg id cmd : confined id (send_msg id cmd).
Proof.
  intros s. repeat split; try done.
  - exists [(id, cmd)]. split; [done|]. by intros ? ->%list_elem_of_singleton.
  - exists []. by rewrite app_nil_r.
Qed.

Lemma confined_set_switch id sw : confined id (set_switch id sw).
Proof.
  intros s. repeat split; try done.
  - intros n Hne. simpl. by rewrite lookup_insert_ne.
  - exists []. rewrite app_nil_r. split; [done|]. by intros ? ?%elem_of_nil.
  - exists []. by rewrite app_nil_r.
Qed.

Create HintDb confined discriminated.
#[local] Hint Resolve confined_ret confined_raise confined_get_state
  confined_lookup_or_raise confined_log confined_send_msg confined_set_switch
  : confined.

Ltac confined_step :=
  match goal with
  | |- confined _ (bind _ _) => apply confined_bind; [|intros ?]
  | |- confined _ (for_each _ _) => apply confined_for_each; intros ?
  | |- confined _ (match ?x with _ => _ end) => destruct x
  | |- confined _ (let '(_, _) := ?x in _) => destruct x
  | |- confined _ _ => solve [eauto with confined]
  end.

Ltac confined_auto := repeat confined_step.

Lemma confined_get_switch id n : confined id (get_switch n).
Proof. unfold get_switch. confined_auto. Qed.

Lemma confined_get_edge id u v : confined id (get_edge u v).
Proof. unfold get_edge. confined_auto. Qed.

Lemma confined_is_host id n : confined id (is_host n).
Proof. unfold is_host. confined_auto. Qed.

#[local] Hint Resolve confined_get_switch confined_get_edge confined_is_host
  : confined.

Lemma confined_get_ports_loop id switch_id dsts ps ph :
  confined id (_get_ports_loop switch_id dsts ps ph).
Proof.
  revert ps ph. induction dsts as [|d dsts IH]; intros ps ph; cbn [_get_ports_loop];
    confined_auto; apply IH.
Qed.

Lemma confined_get_match id d a m t i : confined id (_get_match d a m t i).
Proof. unfold _get_match. confined_auto. Qed.

Lemma confined_install_actions id prio n m acts :
  confined id (_install_actions id prio n m acts).
Proof. unfold _install_actions. confined_auto. Qed.

Lemma confined_in_port_of id p n : confined id (in_port_of p n).
Proof. unfold in_port_of. confined_auto. Qed.

Lemma confined_in_port_or_zero id p n : confined id (in_port_or_zero p n).
Proof. unfold in_port_or_zero. confined_auto. Qed.

#[local] Hint Resolve confined_get_ports_loop confined_get_match
  confined_install_actions confined_in_port_of confined_in_port_or_zero : confined.

Lemma confined_add_flow id d dsts m a t f p :
  confined id (add_flow id d dsts m a t f p).
Proof. unfold add_flow, _get_ports. confined_auto. Qed.

Lemma confined_add_group id b : confined id (_add_group id b).
Proof. unfold _add_group. confined_auto. Qed.

#[local] Hint Resolve confined_add_flow confined_add_group : confined.

Lemma confined_add_FF_group id k p t : confined id (_add_FF_group id k p t).
Proof. unfold _add_FF_group. confined_auto. Qed.

Lemma confined_del_FF_group id k : confined id (del_FF_group id k).
Proof. unfold del_FF_group. confined_auto. Qed.

Lemma confined_set_bucket_list id g l : confined id (set_bucket_list id g l).
Proof. unfold set_bucket_list. confined_auto. Qed.

Lemma confined_set_FF_entry id k l : confined id (set_FF_entry id k l).
Proof. unfold set_FF_entry. confined_auto. Qed.

Lemma confined_hashable_port id p : confined id (hashable_port p).
Proof. unfold hashable_port. confined_auto. Qed.

#[local] Hint Resolve confined_add_FF_group confined_del_FF_group
  confined_set_bucket_list confined_set_FF_entry confined_hashable_port : confined.

Lemma confined_unregister_live id d a p bs : confined id (unregister_live id d a p bs).
Proof.
  induction bs as [|[[port tag] drop] bs IH]; cbn [unregister_live];
    confined_auto; apply IH.
Qed.

Lemma confined_unregister_from id d a p bs : confined id (unregister_from id d a p bs).
Proof.
  induction bs as [|[[port tag] drop] bs IH]; cbn [unregister_from];
    confined_auto; apply IH.
Qed.

#[local] Hint Resolve confined_unregister_live confined_unregister_from : confined.

Lemma confined_remove_FF_group id g d a p : confined id (_remove_FF_group id g d a p).
Proof. unfold _remove_FF_group. confined_auto. Qed.

#[local] Hint Resolve confined_remove_FF_group : confined.

Lemma confined_remove_groups_of id n : ∀ i cur attached g_key d a p,
  confined id (remove_groups_of n i cur attached id g_key d a p).
Proof.
  induction n as [|n IH]; intros i cur attached g_key d a p; cbn [remove_groups_of];
    confined_auto; apply IH.
Qed.

#[local] Hint Resolve confined_remove_groups_of : confined.

Lemma confined_remove_relevant_groups id ports key d a p :
  confined id (remove_relevant_groups id ports key d a p).
Proof. unfold remove_relevant_groups. confined_auto. Qed.

#[local] Hint Resolve confined_remove_relevant_groups : confined.

Lemma confined_remove_flow id d dsts m a t p :
  confined id (remove_flow id d dsts m a t p).
Proof. unfold remove_flow, _get_ports. confined_auto. Qed.

Lemma confined_add_backup p id d dst b a t o n i :
  confined id (add_backup p id d dst b a t o n i).
Proof. unfold add_backup. confined_auto. Qed.

Lemma confined_scan_copies id sw bp tag copies : ∀ rem index,
  confined id (scan_copies sw bp tag copies rem index).
Proof.
  induction copies as [|[g i] copies IH]; intros rem index; cbn [scan_copies];
    confined_auto; apply IH.
Qed.

Lemma confined_remove_backup_groups id d a p ip index rem : ∀ removed,
  confined id (remove_backup_groups id d a p ip index rem removed).
Proof.
  induction rem as [|g rem IH]; intros removed; cbn [remove_backup_groups];
    confined_auto; apply IH.
Qed.

#[local] Hint Resolve confined_scan_copies confined_remove_backup_groups : confined.

Lemma confined_remove_backup p id d dst b a t i :
  confined id (remove_backup p id d dst b a t i).
Proof. unfold remove_backup. confined_auto. Qed.

(** The four entry points of the forwarding compiler work on one switch:
    whatever the arguments and whatever the outcome (also when they
    raise half way), they leave the topology, the address table, the group
    registry and the trees as they were, change the attributes of no node
    but [switch_id], send messages to [switch_id] only, and only add to the
    messages sent and to the log. *)
Theorem compiler_confined (switch_id : node) (dst_address src_address : Z)
    (tag tag_origin : option Z) (prev_switch_id : option node) :
  (∀ dsts multicast forced,
     confined switch_id
       (add_flow switch_id dst_address dsts multicast src_address tag forced
          prev_switch_id)) ∧
  (∀ dsts multicast,
     confined switch_id
       (remove_flow switch_id dst_address dsts multicast src_address tag
          prev_switch_id)) ∧
  (∀ dst backup_dst needs_backup in_port_flow,
     confined switch_id
       (add_backup prev_switch_id switch_id dst_address dst backup_dst src_address
          tag tag_origin needs_backup in_port_flow)) ∧
  (∀ dst backup_dst in_port_flow,
     confined switch_id
       (remove_backup prev_switch_id switch_id dst_address dst backup_dst
          src_address tag in_port_flow)).
Proof.
  split_and!; intros.
  - apply confined_add_flow.
  - apply confined_remove_flow.
  - apply confined_add_backup.
  - apply confined_remove_backup.
Qed.

(** ** Removing a group *)

Lemma no_div_del_FF_group id k : no_div (del_FF_group id k).
Proof. unfold del_FF_group. no_div_auto. Qed.

#[local] Hint Resolve no_div_del_FF_group : no_div.

Lemma no_div_unregister_live id d a p bs : no_div (unregister_live id d a p bs).
Proof.
  induction bs as [|[[port tag] drop] bs IH]; cbn [unregister_live];
    no_div_auto; apply IH.
Qed.

#[local] Hint Resolve no_div_unregister_live : no_div.

Lemma no_div_remove_FF_group id g d a p : no_div (_remove_FF_group id g d a p).
Proof. unfold _remove_FF_group. no_div_auto. Qed.

#[local] Hint Resolve no_div_remove_FF_group : no_div.

Lemma no_div_remove_groups_of id n : ∀ i cur attached g_key d a p,
  no_div (remove_groups_of n i cur attached id g_key d a p).
Proof.
  induction n as [|n IH]; intros i cur attached g_key d a p; cbn [remove_groups_of];
    no_div_auto; apply IH.
Qed.

#[local] Hint Resolve no_div_remove_groups_of : no_div.

Lemma no_div_remove_relevant_groups id ports key d a p :
  no_div (remove_relevant_groups id ports key d a p).
Proof. unfold remove_relevant_groups. no_div_auto. Qed.

#[local] Hint Resolve no_div_remove_relevant_groups : no_div.

Lemma no_div_remove_flow id d dsts m a t p : no_div (remove_flow id d dsts m a t p).
Proof. unfold remove_flow, _get_ports. no_div_auto. Qed.

(** A loop whose body leaves the state alone until it raises. *)
Lemma for_each_first_raise {A} (P : A → Prop) (R : state → Prop) (l : list A)
    (body : A → M unit) s :
  (∃ a, a ∈ l ∧ P a) →
  (∀ a, a ∈ l → P a ∨ body a s = (Ret tt, s)) →
  (∀ a, a ∈ l → P a → ∃ e s', body a s = (Raise e, s') ∧ R s') →
  ∃ e s', for_each l body s = (Raise e, s') ∧ R s'.
Proof.
  induction l as [|a l IH]; intros (a0 & Hin & Ha0) Hall Hraise.
  - by apply elem_of_nil in Hin.
  - cbn [for_each]. destruct (Hall a) as [Ha|Ha]; [by left| |].
    + destruct (Hraise a) as (e & s' & Hb & HR); [by left|done|].
      exists e, s'. split; [|done]. by apply bind_raise.
    + erewrite bind_run; [|exact Ha]. apply IH.
      * apply elem_of_cons in Hin as [Heq|Hin]; [|by eauto]. subst a0.
        exfalso. destruct (Hraise a) as (e & s' & Hb & _); [by left|done|]. congruence.
      * intros b Hb. apply Hall. by right.
      * intros b Hb. apply Hraise. by right.
Qed.

(** [remove_group] cannot take down a group that forwards anything. When
    the tree of the group has an edge and the flow of every forwarding node
    is installed, the first [remove_flow(node, ip_group, 'all', ...)]
    raises, [remove_group] ends with that exception, and the group is still
    registered with its tree. *)
Theorem remove_group_stuck (fuel : nat) (ip_group ip_source : Z) (s : state)
    (T : handle) (t : tree) :
  groups s !! (ip_group, ip_source) = Some T →
  heap s !! T = Some t →
  0 < fuel →
  (∃ n nb, t_adj t !! n = Some nb ∧ 0 < size nb) →
  (∀ n nb, t_adj t !! n = Some nb → 0 < size nb →
     ∃ sw, node_attrs s !! n = Some (NSwitch sw) ∧
           is_Some (flows sw !! McKey ip_group ip_source (t_tag t) None)) →
  ∃ e s', remove_group fuel ip_group ip_source s = (Raise e, s') ∧
          groups s' !! (ip_group, ip_source) = Some T ∧ heap s' = heap s.
Proof.
  intros Hg Ht Hfuel (n0 & nb0 & Hn0 & Hsz0) Hflows.
  destruct fuel as [|fuel]; [lia|].
  assert (∃ e s', _remove_all_flows (S fuel) ip_group ip_source T s = (Raise e, s') ∧
                  (groups s' = groups s ∧ heap s' = heap s)) as (e & s' & Hrun & Hgs & Hhs).
  { cbn [_remove_all_flows]. erewrite bind_run; [|by apply get_tree_run].
    apply (for_each_first_raise (λ '(n, nb), 0 < size nb)).
    - exists (n0, nb0). split; [by apply elem_of_map_to_list|done].
    - intros [n nb] _. destruct (decide (0 < size nb)) as [Hsz|Hsz]; [by left|right].
      by rewrite bool_decide_eq_false_2.
    - intros [n nb] Hin%elem_of_map_to_list Hsz.
      rewrite bool_decide_eq_true_2 by done.
      destruct (Hflows n nb Hin Hsz) as (sw & Hsw & Hfl).
      pose proof (remove_flow_all_never_returns s n ip_group true ip_source (t_tag t)
                    None sw Hsw Hfl) as Hnot.
      pose proof (no_div_remove_flow n ip_group All true ip_source (t_tag t) None s)
        as Hnd.
      pose proof (confined_remove_flow n ip_group All true ip_source (t_tag t) None s)
        as (_ & _ & Hgr & Hhp & _).
      destruct (remove_flow n ip_group All true ip_source (t_tag t) None s)
        as [[[]|e|] s1] eqn:Hrf; simpl in *; [done| |done].
      exists e, s1. split; [|done]. by apply bind_raise. }
  exists e, s'. unfold remove_group. erewrite bind_run; [|reflexivity].
  rewrite Hg. split; [by apply bind_raise|]. by rewrite Hgs.
Qed.

Local Open Scope Z_scope.

Lemma remove_group_stuck_witness :
  ∃ e s', remove_group 1 230 10 oneway_unprotected = (Raise e, s') ∧
          groups s' !! (230, 10) = Some 0%nat ∧ heap s' = heap oneway_unprotected.
Proof.
  apply (remove_group_stuck 1 230 10 oneway_unprotected 0%nat tree_1_2_8).
  - by vm_compute.
  - by vm_compute.
  - lia.
  - exists 1, {[2 := None]}. split; by vm_compute.
  - intros n nb Hn Hsz. apply elem_of_map_to_list in Hn. vm_compute in Hn.
    set_unfold in Hn. destruct Hn as [[= -> ->]|[[= -> ->]|[[= -> ->]|[]]]].
    + vm_compute in Hsz. lia.
    + eexists. split; [by vm_compute|]. vm_compute. eauto.
    + eexists. split; [by vm_compute|]. vm_compute. eauto.
Defined.

Local Close Scope Z_scope.

(** The tree [_create_tree(switch_id)] builds for a new group: the root
    and nothing else, untagged, its own primary. *)
Definition root_only (switch_id : node) (h : handle) : tree :=
  {| t_adj := {[switch_id := ∅]}; t_root := switch_id; t_parent := None;
     t_primary := h; t_predecessor_switch := None; t_tag := None;
     t_tag_index := Some 1%Z |}.

(** [create_group] registers a root-only tree under a key that is free,
    and only logs when called again for the key, whatever the root asked
    for; [remove_group] right after it takes the registration back:
    the groups are what they were, no switch has been touched and no
    message sent. The tree object stays behind unreferenced. *)
Theorem create_remove_group (fuel : nat) (ip_group ip_source : Z)
    (switch_id : node) (s : state) :
  groups s !! (ip_group, ip_source) = None →
  0 < fuel →
  ∃ s1 s2,
    create_group ip_group ip_source switch_id s = (Ret tt, s1) ∧
    groups s1 = <[(ip_group, ip_source) := next_handle s]> (groups s) ∧
    heap s1 = <[next_handle s := root_only switch_id (next_handle s)]> (heap s) ∧
    (∀ other, create_group ip_group ip_source other s1 =
       (Ret tt, with_log s1 (LogGroupAlreadyCreated (ip_group, ip_source)))) ∧
    remove_group fuel ip_group ip_source s1 = (Ret tt, s2) ∧
    groups s2 = groups s ∧ heap s2 = heap s1 ∧
    network s2 = network s ∧ node_attrs s2 = node_attrs s ∧
    ip_2_mac s2 = ip_2_mac s ∧ sent s2 = sent s ∧
    logs s2 = logs s ++ [LogCreatedNewGroup (ip_group, ip_source);
                         LogGroupRemoved (ip_group, ip_source)].
Proof.
  intros Hg Hfuel. destruct fuel as [|fuel]; [lia|].
  eexists _, _. split.
  { unfold create_group. erewrite bind_run; [|reflexivity]. rewrite Hg.
    unfold _create_tree, alloc, set_tree, set_groups, log, bind, ret, get_state.
    cbn. reflexivity. }
  split; [done|]. split; [done|]. split.
  { intros other. unfold create_group. erewrite bind_run; [|reflexivity].
    cbn [groups]. by rewrite lookup_insert_eq. }
  split.
  { unfold remove_group. erewrite bind_run; [|reflexivity].
    cbn [groups]. rewrite lookup_insert_eq.
    erewrite bind_run.
    2:{ cbn [_remove_all_flows]. erewrite bind_run.
        2:{ apply get_tree_run. cbn [heap]. apply lookup_insert_eq. }
        cbn [t_adj]. rewrite map_to_list_singleton.
        cbn [for_each]. rewrite bool_decide_eq_false_2 by (rewrite map_size_empty; lia).
        reflexivity. }
    reflexivity. }
  cbn. split_and!; try done.
  - rewrite delete_insert_eq. by apply delete_id.
  - by rewrite <- app_assoc.
Qed.

Local Open Scope Z_scope.

Lemma create_remove_group_witness :
  ∃ s1 s2,
    create_group 231 10 4 Example.diamond_start = (Ret tt, s1) ∧
    groups s1 = <[(231, 10) := next_handle Example.diamond_start]>
                  (groups Example.diamond_start) ∧
    heap s1 = <[next_handle Example.diamond_start :=
                  root_only 4 (next_handle Example.diamond_start)]>
                (heap Example.diamond_start) ∧
    (∀ other, create_group 231 10 other s1 =
       (Ret tt, with_log s1 (LogGroupAlreadyCreated (231, 10)))) ∧
    remove_group 1 231 10 s1 = (Ret tt, s2) ∧
    groups s2 = groups Example.diamond_start ∧ heap s2 = heap s1 ∧
    network s2 = network Example.diamond_start ∧
    node_attrs s2 = node_attrs Example.diamond_start ∧
    ip_2_mac s2 = ip_2_mac Example.diamond_start ∧
    sent s2 = sent Example.diamond_start ∧
    logs s2 = logs Example.diamond_start ++
              [LogCreatedNewGroup (231, 10); LogGroupRemoved (231, 10)].
Proof.
  apply (create_remove_group 1 231 10 4 Example.diamond_start).
  - by vm_compute.
  - lia.
Defined.

Local Close Scope Z_scope.

(** ** Subscribers out of reach *)

Lemma no_admissible_path network exclude T (src v : node) :
  src ≠ v →
  (∀ u e, nx.edge_data network u v = Some e → live e = false) →
  ¬ rtc (admissible network exclude T) src v.
Proof.
  intros Hne Hdead Hrtc. apply rtc_inv_r in Hrtc as [?|(u & _ & e & He & Hlive & _)];
    [done|]. apply Hdead in He. congruence.
Qed.

(** A subscriber that no live link leads to cannot join. With either
    strategy and any level of protection, on a well-formed network and a
    tree that is an out-arborescence of network nodes, [add_subscriber] for
    a node all of whose incoming links are down (or that has none) returns
    after logging "no path": no flow is installed, no tree is changed. *)
Theorem add_subscriber_cut_off (fuel : nat) (join : join_fn) (F : nat)
    (ip_group ip_source : Z) (v : node) (s : state) (T : handle) (t : tree) :
  join = SPT.join ∨ join = DST.join →
  groups s !! (ip_group, ip_source) = Some T →
  heap s !! T = Some t →
  nx.wf (network s) →
  map_Forall (λ n _, is_Some (network s !! n)) (t_adj t) →
  arborescence t →
  ¬ in_tree t v →
  (∀ u e, nx.edge_data (network s) u v = Some e → live e = false) →
  add_subscriber fuel join F ip_group ip_source v s =
    (Ret tt, with_log s (LogNoPath (t_root t) v)).
Proof.
  intros Hjoin Hg Ht Hwf HTG Harb Hv Hdead.
  assert (∀ n, in_tree t n → is_Some (network s !! n)) as HTG'.
  { intros n [x Hx]. apply (HTG n x Hx). }
  pose proof Harb as (HrT & _).
  assert (join (network s) ∅ t v = Ret []) as Hnil.
  { destruct Hjoin as [-> | ->].
    - destruct (SPT_join_spec (network s) ∅ t v) as (p & Hj & Hemp & _); auto.
      rewrite Hj. f_equal. apply Hemp. right.
      apply no_admissible_path; [|done]. by intros <-.
    - destruct (DST_join_spec (network s) ∅ t v) as (p & Hj & Hemp & _); auto.
      rewrite Hj. f_equal. apply Hemp. right. intros (src & Hsrc & Hrtc).
      revert Hrtc. apply no_admissible_path; [|done]. by intros <-. }
  unfold add_subscriber. erewrite bind_run; [|reflexivity]. rewrite Hg.
  erewrite bind_run; [|by apply get_tree_run].
  apply has_node_not_in_tree in Hv. rewrite Hv.
  unfold _process_request. cbn [negb].
  erewrite bind_run.
  2:{ erewrite bind_run.
      2:{ unfold call_join. erewrite bind_run; [|reflexivity].
          erewrite bind_run; [|by apply get_tree_run]. rewrite Hnil. reflexivity. }
      cbn [length]. rewrite bool_decide_eq_true_2 by done.
      erewrite bind_run; [|by apply get_tree_run].
      reflexivity. }
  reflexivity.
Qed.

Local Open Scope Z_scope.

(** In [Example.diamond] nothing leads to a node [77]. *)
Lemma add_subscriber_cut_off_witness :
  add_subscriber 1 DST.join 3 230 10 77 Example.diamond_start =
    (Ret tt, with_log Example.diamond_start (LogNoPath 1 77)).
Proof.
  apply (add_subscriber_cut_off 1 DST.join 3 230 10 77 Example.diamond_start 0%nat
           (root_only 1 0%nat)).
  - by right.
  - by vm_compute.
  - by vm_compute.
  - unfold nx.wf. apply (bool_decide_unpack _). by vm_compute.
  - apply (bool_decide_unpack _). by vm_compute.
  - split; [unfold in_tree; vm_compute; eauto|]. split; [by vm_compute|].
    exists (λ _, 0%nat). intros n Hn Hroot. apply in_tree_elements in Hn.
    vm_compute in Hn. set_unfold in Hn. by destruct Hn as [->|[]].
  - intros Hin. unfold in_tree in Hin. vm_compute in Hin. by destruct Hin.
  - intros u e He. exfalso. unfold nx.edge_data in He.
    destruct (network Example.diamond_start !! u) as [nb|] eqn:Hu; [|done].
    assert (map_Forall (λ _ (nb : gmap node edata), nb !! (77 : node) = None)
              (network Example.diamond_start)) as Hall.
    { apply (bool_decide_unpack _). by vm_compute. }
    pose proof (Hall u nb Hu) as Hnone. simpl in Hnone. congruence.
Defined.

Local Close Scope Z_scope.

(** ** Topology events *)

Section graphs.
Context {E : Type}.
Implicit Types G : gmap node (gmap node E).

Lemma graph_ext G1 G2 :
  (∀ n, is_Some (G1 !! n) ↔ is_Some (G2 !! n)) →
  (∀ u z, nx.edge_data G1 u z = nx.edge_data G2 u z) → G1 = G2.
Proof.
  intros Hdom Hed. apply map_eq. intros n. specialize (Hdom n).
  destruct (G1 !! n) as [nb1|] eqn:H1, (G2 !! n) as [nb2|] eqn:H2.
  - f_equal. apply map_eq. intros z. specialize (Hed n z).
    unfold nx.edge_data in Hed. by rewrite H1, H2 in Hed.
  - destruct Hdom as [Hd _]. by destruct Hd.
  - destruct Hdom as [_ Hd]. by destruct Hd.
  - done.
Qed.

Lemma graph_add_node_lookup G x n :
  nx.add_node G x !! n = if decide (n = x) then Some (default ∅ (G !! x)) else G !! n.
Proof.
  unfold nx.add_node. destruct (G !! x) as [nb|] eqn:Hx; destruct (decide (n = x)) as [->|Hne].
  - by rewrite Hx.
  - done.
  - by rewrite lookup_insert_eq.
  - by rewrite lookup_insert_ne.
Qed.

Lemma graph_add_node_is_Some G x n :
  is_Some (nx.add_node G x !! n) ↔ is_Some (G !! n) ∨ n = x.
Proof.
  rewrite graph_add_node_lookup. destruct (decide (n = x)) as [->|Hne].
  - split; eauto.
  - split; [auto|]. by intros [?|?].
Qed.

Lemma graph_add_node_edge_data G x u z :
  nx.edge_data (nx.add_node G x) u z = nx.edge_data G u z.
Proof.
  unfold nx.edge_data. rewrite graph_add_node_lookup.
  destruct (decide (u = x)) as [->|Hne]; [|done]. by destruct (G !! x).
Qed.

Lemma graph_add_edge_is_Some G x y d n :
  is_Some (nx.add_edge G x y d !! n) ↔ is_Some (G !! n) ∨ n = x ∨ n = y.
Proof.
  unfold nx.add_edge. destruct (decide (n = x)) as [->|Hx].
  { rewrite lookup_insert_eq. split; eauto. }
  rewrite lookup_insert_ne by done. rewrite !graph_add_node_lookup.
  destruct (decide (n = y)) as [->|Hy]; [split; eauto|].
  rewrite decide_False by done. split; [auto|]. by intros [?|[?|?]].
Qed.

Lemma graph_add_edge_edge_data G x y d u z :
  nx.edge_data (nx.add_edge G x y d) u z =
  if decide (u = x ∧ z = y) then Some d else nx.edge_data G u z.
Proof.
  unfold nx.edge_data, nx.add_edge. destruct (decide (u = x)) as [->|Hx].
  - rewrite lookup_insert_eq, !graph_add_node_lookup.
    match goal with |- <[y:=d]> (default ∅ ?o) !! z = _ =>
      assert (default ∅ o = default ∅ (G !! x)) as -> end.
    { destruct (decide (x = y)) as [<-|Hxy].
      - by rewrite decide_True.
      - by rewrite decide_True. }
    destruct (decide (z = y)) as [->|Hz].
    + rewrite lookup_insert_eq. by rewrite decide_True.
    + rewrite lookup_insert_ne by done. rewrite decide_False by (by intros [_ ?]).
      by destruct (G !! x).
  - rewrite lookup_insert_ne by done. rewrite decide_False by (by intros [? _]).
    rewrite !graph_add_node_lookup. destruct (decide (u = y)) as [->|Hy].
    + rewrite decide_False by done. by destruct (G !! y).
    + by rewrite decide_False.
Qed.

(** Well-formedness in terms of edges. *)
Lemma wf_edges G :
  nx.wf G ↔ ∀ u z, is_Some (nx.edge_data G u z) → is_Some (G !! z).
Proof.
  unfold nx.wf, nx.edge_data. split.
  - intros Hwf u z. destruct (G !! u) as [nb|] eqn:Hu; [|by intros []].
    intros [e He]. exact (Hwf u nb Hu z e He).
  - intros Hed u nb Hu z e He. apply (Hed u z). rewrite Hu. eauto.
Qed.

Lemma edge_data_is_node G u z :
  is_Some (nx.edge_data G u z) → is_Some (G !! u).
Proof. unfold nx.edge_data. destruct (G !! u); [eauto|by intros []]. Qed.

Lemma wf_add_node G x : nx.wf G → nx.wf (nx.add_node G x).
Proof.
  rewrite !wf_edges. intros Hwf u z. rewrite graph_add_node_edge_data.
  intros H. apply graph_add_node_is_Some. left. eauto.
Qed.

Lemma wf_add_edge G x y d : nx.wf G → nx.wf (nx.add_edge G x y d).
Proof.
  rewrite !wf_edges. intros Hwf u z. rewrite graph_add_edge_edge_data.
  intros H. apply graph_add_edge_is_Some.
  destruct (decide (u = x ∧ z = y)) as [[-> ->]|_]; [auto|]. left. eauto.
Qed.

Lemma elem_of_predecessors G u v :
  u ∈ nx.predecessors G v ↔ is_Some (nx.edge_data G u v).
Proof.
  unfold nx.predecessors, nx.nodes, nx.has_edge. rewrite list_elem_of_filter.
  rewrite elem_of_elements, elem_of_dom. split.
  - intros [H _]. by destruct (nx.edge_data G u v).
  - intros H. split; [by destruct H as [? ->]|]. by eapply edge_data_is_node.
Qed.

Lemma elem_of_successors G u v :
  v ∈ successors G u ↔ is_Some (nx.edge_data G u v).
Proof.
  unfold successors, nx.edge_data. destruct (G !! u) as [nb|].
  - by rewrite elem_of_elements, elem_of_dom.
  - split; [by intros ?%elem_of_nil|by intros []].
Qed.

End graphs.

(** A link marked as down. *)
Definition dead (e : edata) : edata := EData (src_port e) (dst_port e) false.

Definition mark_dead (G : gmap node (gmap node edata)) (u v : node)
  : gmap node (gmap node edata) :=
  match G !! u with
  | Some nb =>
      match nb !! v with
      | Some e => <[u := <[v := dead e]> nb]> G
      | None => G
      end
  | None => G
  end.

Definition with_network (s : state) (G : gmap node (gmap node edata)) : state :=
  {| network := G; node_attrs := node_attrs s; ip_2_mac := ip_2_mac s;
     sent := sent s; logs := logs s; groups := groups s; heap := heap s;
     next_handle := next_handle s |}.

Lemma with_network_id s : with_network s (network s) = s.
Proof. by destruct s. Qed.

Lemma dead_dead e : dead (dead e) = dead e.
Proof. done. Qed.

Lemma mark_dead_is_Some G u v n : is_Some (mark_dead G u v !! n) ↔ is_Some (G !! n).
Proof.
  unfold mark_dead. destruct (G !! u) as [nb|] eqn:Hu; [|done].
  destruct (nb !! v) as [e|]; [|done].
  destruct (decide (n = u)) as [->|Hne].
  - rewrite lookup_insert_eq, Hu. split; eauto.
  - by rewrite lookup_insert_ne.
Qed.

Lemma mark_dead_edge_data G u v x y :
  nx.edge_data (mark_dead G u v) x y =
  if decide (x = u ∧ y = v) then dead <$> nx.edge_data G x y else nx.edge_data G x y.
Proof.
  unfold mark_dead, nx.edge_data. destruct (G !! u) as [nb|] eqn:Hu.
  - destruct (nb !! v) as [e|] eqn:Hv.
    + destruct (decide (x = u)) as [->|Hx].
      * rewrite lookup_insert_eq, Hu. destruct (decide (y = v)) as [->|Hy].
        -- rewrite lookup_insert_eq, decide_True, Hv by done. done.
        -- rewrite lookup_insert_ne by done. by rewrite decide_False by (by intros [_ ?]).
      * rewrite lookup_insert_ne by done. by rewrite decide_False by (by intros [? _]).
    + destruct (decide (x = u ∧ y = v)) as [[-> ->]|_]; [|done]. by rewrite Hu, Hv.
  - destruct (decide (x = u ∧ y = v)) as [[-> ->]|_]; [|done]. by rewrite Hu.
Qed.

Lemma mark_dead_wf G u v : nx.wf G → nx.wf (mark_dead G u v).
Proof.
  rewrite !wf_edges. intros Hwf x y. rewrite mark_dead_edge_data, mark_dead_is_Some.
  intros H. apply (Hwf x y). destruct (decide (x = u ∧ y = v)); [|done].
  by apply fmap_is_Some in H.
Qed.

Lemma set_dead_run s u v :
  is_Some (nx.edge_data (network s) u v) →
  set_dead u v s = (Ret tt, with_network s (mark_dead (network s) u v)).
Proof.
  unfold nx.edge_data, set_dead, mark_dead. intros [e He].
  erewrite bind_run; [|reflexivity].
  destruct (network s !! u) as [nb|]; [|done]. cbn [lookup_or_raise].
  erewrite bind_run; [|reflexivity]. rewrite He. done.
Qed.

(** Marking a list of links. *)
Definition mark_all (mk : node → edge) (G : gmap node (gmap node edata))
    (l : list node) : gmap node (gmap node edata) :=
  foldl (λ G n, mark_dead G (mk n).1 (mk n).2) G l.

Lemma mark_all_run (mk : node → edge) l : ∀ s,
  (∀ n, n ∈ l → is_Some (nx.edge_data (network s) (mk n).1 (mk n).2)) →
  for_each l (λ n, set_dead (mk n).1 (mk n).2) s =
    (Ret tt, with_network s (mark_all mk (network s) l)).
Proof.
  induction l as [|n l IH]; intros s Hl.
  - cbn. by rewrite with_network_id.
  - cbn [for_each]. erewrite bind_run; [|apply set_dead_run, Hl; by left].
    rewrite IH.
    + done.
    + intros m Hm. cbn [with_network network]. rewrite mark_dead_edge_data.
      assert (m ∈ n :: l) as Hm' by (by right). specialize (Hl m Hm').
      destruct (decide _); [by apply fmap_is_Some|done].
Qed.

Lemma mark_all_is_Some mk l : ∀ G n,
  is_Some (mark_all mk G l !! n) ↔ is_Some (G !! n).
Proof.
  induction l as [|m l IH]; intros G n; [done|].
  cbn. unfold mark_all in IH. by rewrite IH, mark_dead_is_Some.
Qed.

Lemma mark_all_wf mk l : ∀ G, nx.wf G → nx.wf (mark_all mk G l).
Proof.
  induction l as [|m l IH]; intros G HG; [done|].
  cbn. apply IH. by apply mark_dead_wf.
Qed.

Lemma mark_all_other mk l x y : ∀ G,
  (∀ n, n ∈ l → mk n ≠ (x, y)) →
  nx.edge_data (mark_all mk G l) x y = nx.edge_data G x y.
Proof.
  induction l as [|m l IH]; intros G Hl; [done|].
  cbn. unfold mark_all in IH. rewrite IH.
  - rewrite mark_dead_edge_data. rewrite decide_False; [done|].
    intros [-> ->]. apply (Hl m); [by left|]. by destruct (mk m).
  - intros n Hn. apply Hl. by right.
Qed.

Lemma mark_all_hit mk l x y : ∀ G,
  (∃ n, n ∈ l ∧ mk n = (x, y)) →
  nx.edge_data (mark_all mk G l) x y = dead <$> nx.edge_data G x y.
Proof.
  induction l as [|m l IH]; intros G (n & Hn & Hmk); [by apply elem_of_nil in Hn|].
  cbn. fold (mark_all mk (mark_dead G (mk m).1 (mk m).2) l).
  destruct (decide (Exists (λ n, mk n = (x, y)) l)) as [Hex|Hex].
  - apply Exists_exists in Hex. rewrite IH by done.
    rewrite mark_dead_edge_data. destruct (decide _); [|done].
    by destruct (nx.edge_data G x y).
  - rewrite mark_all_other.
    2:{ intros k Hk Heq. apply Hex, Exists_exists. eauto. }
    apply elem_of_cons in Hn as [->|Hn].
    + rewrite mark_dead_edge_data, Hmk. by rewrite decide_True.
    + exfalso. apply Hex, Exists_exists. eauto.
Qed.

Lemma mark_all_edge_is_Some mk l x y : ∀ G,
  is_Some (nx.edge_data (mark_all mk G l) x y) ↔ is_Some (nx.edge_data G x y).
Proof.
  induction l as [|m l IH]; intros G; [done|].
  cbn. fold (mark_all mk (mark_dead G (mk m).1 (mk m).2) l).
  rewrite IH, mark_dead_edge_data. destruct (decide _); [|done].
  by rewrite fmap_is_Some.
Qed.

Lemma mark_all_complete mk l G x y n :
  mk n = (x, y) →
  (is_Some (nx.edge_data G x y) → n ∈ l) →
  nx.edge_data (mark_all mk G l) x y = dead <$> nx.edge_data G x y.
Proof.
  intros Hmk Hin. destruct (nx.edge_data G x y) as [e|] eqn:He.
  - rewrite mark_all_hit; [by rewrite He|]. exists n. split; [|done]. apply Hin. eauto.
  - apply eq_None_not_Some. rewrite mark_all_edge_is_Some, He. by intros [].
Qed.

Lemma SPT_join_hops_live network exclude T v p x y :
  SPT.join network exclude T v = Ret p → (x, y) ∈ consecutive p →
  ∃ e, nx.edge_data network x y = Some e ∧ live e = true.
Proof.
  intros Hj Hin. apply elem_of_consecutive in Hin as (i & Hx & Hy).
  assert (p ≠ []) as Hne by (by intros ->).
  destruct (SPT_join_sound _ _ _ _ _ Hj Hne) as (_ & _ & _ & Hc).
  destruct (chain_lookup _ _ _ _ _ Hc Hx Hy) as [(e & He & Hlive & _) _]. eauto.
Qed.

Lemma dead_not_live (o : option edata) e : dead <$> o = Some e → live e = false.
Proof. destruct o as [e0|]; [|done]. by intros [= <-]. Qed.

(** [linkDelete] always returns. It marks the link as down when the
    network has it and changes nothing else: every other link and every
    node stay as they are, no tree is repaired, no switch is reprogrammed
    and no message is sent (the repair it asks the builder for is a
    no-op). From then on no path of [SPT.join] has the hop [src -> dst],
    also where the tree already uses it. *)
Theorem linkDelete_takes_effect (s : state) (src dst : node) :
  ∃ r s',
    linkDelete src dst s = (Ret r, s') ∧
    r = (if nx.has_edge (network s) src dst then Some (LogRemovedLink src dst)
         else None) ∧
    (∀ x y, nx.edge_data (network s') x y =
            if decide (x = src ∧ y = dst) then dead <$> nx.edge_data (network s) x y
            else nx.edge_data (network s) x y) ∧
    (∀ n, is_Some (network s' !! n) ↔ is_Some (network s !! n)) ∧
    node_attrs s' = node_attrs s ∧ heap s' = heap s ∧ groups s' = groups s ∧
    ip_2_mac s' = ip_2_mac s ∧ sent s' = sent s ∧ logs s' = logs s ∧
    (∀ exclude T v p, SPT.join (network s') exclude T v = Ret p →
       (src, dst) ∉ consecutive p).
Proof.
  assert (∃ r s', linkDelete src dst s = (Ret r, s') ∧
            r = (if nx.has_edge (network s) src dst
                 then Some (LogRemovedLink src dst) else None) ∧
            s' = with_network s (mark_dead (network s) src dst))
    as (r & s' & Hrun & Hr & Hs').
  { unfold linkDelete. erewrite bind_run; [|reflexivity].
    unfold nx.has_edge. destruct (nx.edge_data (network s) src dst) as [e|] eqn:He.
    - cbn [is_some]. erewrite bind_run; [|apply set_dead_run; rewrite He; eauto].
      eexists _, _. split; [reflexivity|]. done.
    - cbn [is_some]. eexists _, _. split; [reflexivity|]. split; [done|].
      unfold mark_dead. unfold nx.edge_data in He.
      destruct (network s !! src) as [nb|]; [rewrite He|]; by rewrite with_network_id. }
  exists r, s'. split; [done|]. split; [done|]. subst s'. cbn [with_network network].
  assert (∀ x y, nx.edge_data (mark_dead (network s) src dst) x y =
            if decide (x = src ∧ y = dst) then dead <$> nx.edge_data (network s) x y
            else nx.edge_data (network s) x y) as Hed.
  { intros x y. apply mark_dead_edge_data. }
  split_and!; try done.
  - intros n. apply mark_dead_is_Some.
  - intros exclude T v p Hj Hin.
    destruct (SPT_join_hops_live _ _ _ _ _ _ _ Hj Hin) as (e & He & Hlive).
    rewrite Hed, decide_True in He by done. apply dead_not_live in He. congruence.
Qed.

(** [switchLeave] always returns. On a well-formed network it marks
    every link into and out of the switch as down and changes nothing else:
    the node stays, with its attributes, and no tree is repaired. From then
    on no path of [SPT.join] has a hop that starts or ends at the switch. *)
Theorem switchLeave_isolates (s : state) (sid : node) :
  nx.wf (network s) →
  ∃ r s',
    switchLeave sid s = (Ret r, s') ∧
    r = (if nx.has_node (network s) sid then Some (LogRemovedSwitch sid) else None) ∧
    (∀ x y, nx.edge_data (network s') x y =
            if decide (x = sid ∨ y = sid) then dead <$> nx.edge_data (network s) x y
            else nx.edge_data (network s) x y) ∧
    (∀ n, is_Some (network s' !! n) ↔ is_Some (network s !! n)) ∧
    node_attrs s' = node_attrs s ∧ heap s' = heap s ∧ groups s' = groups s ∧
    ip_2_mac s' = ip_2_mac s ∧ sent s' = sent s ∧ logs s' = logs s ∧
    (∀ exclude T v p x y, SPT.join (network s') exclude T v = Ret p →
       (x, y) ∈ consecutive p → x ≠ sid ∧ y ≠ sid).
Proof.
  intros Hwf.
  set (G1 := mark_all (λ n, (n, sid)) (network s) (nx.predecessors (network s) sid)).
  set (G2 := mark_all (λ n, (sid, n)) G1 (successors G1 sid)).
  assert (∀ x y, nx.edge_data G1 x y =
            if decide (y = sid) then dead <$> nx.edge_data (network s) x y
            else nx.edge_data (network s) x y) as HG1.
  { intros x y. unfold G1. destruct (decide (y = sid)) as [->|Hy].
    - apply (mark_all_complete _ _ _ _ _ x); [done|]. by rewrite elem_of_predecessors.
    - apply mark_all_other. intros n _ [= _ ?]. done. }
  assert (∀ x y, nx.edge_data G2 x y =
            if decide (x = sid ∨ y = sid) then dead <$> nx.edge_data (network s) x y
            else nx.edge_data (network s) x y) as HG2.
  { intros x y. unfold G2. destruct (decide (x = sid)) as [->|Hx].
    - rewrite decide_True by auto.
      rewrite (mark_all_complete _ _ _ _ _ y); [|done|by rewrite elem_of_successors].
      rewrite HG1. destruct (decide (y = sid)); [|done].
      by destruct (nx.edge_data (network s) sid y).
    - rewrite mark_all_other by (by intros n _ [= ? _]). rewrite HG1.
      destruct (decide (y = sid)) as [->|Hy].
      + by rewrite decide_True by auto.
      + by rewrite decide_False by (by intros [?|?]). }
  assert (∃ r s', switchLeave sid s = (Ret r, s') ∧
            r = (if nx.has_node (network s) sid then Some (LogRemovedSwitch sid)
                 else None) ∧
            s' = with_network s (if nx.has_node (network s) sid then G2 else network s))
    as (r & s' & Hrun & Hr & Hs').
  { unfold switchLeave. erewrite bind_run; [|reflexivity].
    destruct (nx.has_node (network s) sid).
    - erewrite bind_run.
      2:{ apply (mark_all_run (λ n, (n, sid))). intros n Hn. cbn [fst snd].
          by apply elem_of_predecessors. }
      fold G1. erewrite bind_run; [|reflexivity]. cbn [with_network network].
      erewrite bind_run.
      2:{ apply (mark_all_run (λ n, (sid, n))). intros n Hn. cbn [fst snd].
          by apply elem_of_successors. }
      cbn [with_network network]. fold G2.
      eexists _, _. split; [reflexivity|]. done.
    - eexists _, _. split; [reflexivity|]. split; [done|]. by rewrite with_network_id. }
  exists r, s'. split; [done|]. split; [done|]. subst s'. cbn [with_network network].
  assert (∀ x y,
    nx.edge_data (if nx.has_node (network s) sid then G2 else network s) x y =
    if decide (x = sid ∨ y = sid) then dead <$> nx.edge_data (network s) x y
    else nx.edge_data (network s) x y) as Hed.
  { intros x y. unfold nx.has_node. destruct (network s !! sid) as [nb|] eqn:Hsid; [done|].
    cbn [is_some]. destruct (decide (x = sid ∨ y = sid)) as [Hxy|_]; [|done].
    assert (nx.edge_data (network s) x y = None) as ->; [|done].
    apply eq_None_not_Some. intros Hsome. destruct Hxy as [-> | ->].
    - apply edge_data_is_node in Hsome. rewrite Hsid in Hsome. by destruct Hsome.
    - apply wf_edges in Hsome; [|done]. rewrite Hsid in Hsome. by destruct Hsome. }
  split_and!; try done.
  - intros n. destruct (nx.has_node (network s) sid); [|done].
    unfold G2, G1. by rewrite !mark_all_is_Some.
  - intros exclude T v p x y Hj Hin.
    destruct (SPT_join_hops_live _ _ _ _ _ _ _ Hj Hin) as (e & He & Hlive).
    rewrite Hed in He. destruct (decide (x = sid ∨ y = sid)) as [Hxy|Hxy].
    + apply dead_not_live in He. congruence.
    + split; intros ->; apply Hxy; auto.
Qed.

Local Open Scope Z_scope.

Lemma switchLeave_isolates_witness :
  ∃ r s',
    switchLeave 2 Example.diamond_start = (Ret r, s') ∧
    r = (if nx.has_node (network Example.diamond_start) 2
         then Some (LogRemovedSwitch 2) else None) ∧
    (∀ x y, nx.edge_data (network s') x y =
            if decide (x = 2 ∨ y = 2)
            then dead <$> nx.edge_data (network Example.diamond_start) x y
            else nx.edge_data (network Example.diamond_start) x y) ∧
    (∀ n, is_Some (network s' !! n) ↔ is_Some (network Example.diamond_start !! n)) ∧
    node_attrs s' = node_attrs Example.diamond_start ∧
    heap s' = heap Example.diamond_start ∧ groups s' = groups Example.diamond_start ∧
    ip_2_mac s' = ip_2_mac Example.diamond_start ∧
    sent s' = sent Example.diamond_start ∧ logs s' = logs Example.diamond_start ∧
    (∀ exclude T v p x y, SPT.join (network s') exclude T v = Ret p →
       (x, y) ∈ consecutive p → x ≠ 2 ∧ y ≠ 2).
Proof.
  apply (switchLeave_isolates Example.diamond_start 2).
  unfold nx.wf. apply (bool_decide_unpack _). by vm_compute.
Defined.

Local Close Scope Z_scope.

(** A link that goes down and comes back with the ports it had is the
    link it was: [linkDelete] and then [linkAdd] leave the state exactly as
    it was before. *)
Theorem linkDelete_linkAdd (s : state) (src dst : node) (src_port_no dst_port_no : Z) :
  nx.edge_data (network s) src dst = Some (EData src_port_no dst_port_no true) →
  is_Some (network s !! dst) →
  ∃ s1,
    linkDelete src dst s = (Ret (Some (LogRemovedLink src dst)), s1) ∧
    nx.edge_data (network s1) src dst = Some (EData src_port_no dst_port_no false) ∧
    linkAdd src dst src_port_no dst_port_no s1 = (Ret (LogAddedLink src dst), s).
Proof.
  intros He Hdst. exists (with_network s (mark_dead (network s) src dst)).
  split_and!.
  - unfold linkDelete. erewrite bind_run; [|reflexivity].
    unfold nx.has_edge. rewrite He. cbn [is_some].
    erewrite bind_run; [|apply set_dead_run; rewrite He; eauto]. done.
  - cbn [with_network network]. rewrite mark_dead_edge_data, decide_True, He by done.
    done.
  - assert (nx.add_edge (mark_dead (network s) src dst) src dst
              (EData src_port_no dst_port_no true) = network s) as Hback.
    2:{ unfold linkAdd. erewrite bind_run; [|reflexivity].
        cbn [with_network network]. rewrite Hback. by destruct s. }
    apply graph_ext.
    + intros n. rewrite graph_add_edge_is_Some, mark_dead_is_Some. split; [|auto].
      intros [?|[->| ->]]; [done| |done]. apply edge_data_is_node with dst.
      rewrite He. eauto.
    + intros u z. rewrite graph_add_edge_edge_data, mark_dead_edge_data.
      destruct (decide (u = src ∧ z = dst)) as [[-> ->]|_]; [|done]. by rewrite He.
Qed.

Local Open Scope Z_scope.

Lemma linkDelete_linkAdd_witness :
  ∃ s1,
    linkDelete 1 2 Example.diamond_start = (Ret (Some (LogRemovedLink 1 2)), s1) ∧
    nx.edge_data (network s1) 1 2 = Some (EData 1 1 false) ∧
    linkAdd 1 2 1 1 s1 = (Ret (LogAddedLink 1 2), Example.diamond_start).
Proof.
  apply (linkDelete_linkAdd Example.diamond_start 1 2 1 1).
  - by vm_compute.
  - vm_compute. eauto.
Defined.

Local Close Scope Z_scope.

(** A host is attached where it was first seen. For a [mac] the network
    does not know, [_hostFound] adds the host node with a live link in each
    direction, on port [port] at the switch's end, and leaves every other
    link alone; from then on the switch's port towards it counts as a host
    port ([_get_ports]), and a later [_hostFound] for the same [mac], at
    whatever switch and port, changes nothing. *)
Theorem hostFound_once (s : state) (switch_id : node) (port : Z) (mac : node) :
  network s !! mac = None →
  mac ≠ switch_id →
  ∃ s1,
    _hostFound switch_id port mac s = (Ret (Some (LogAddedHost mac switch_id)), s1) ∧
    nx.edge_data (network s1) switch_id mac = Some (EData port (-1) true) ∧
    nx.edge_data (network s1) mac switch_id = Some (EData (-1) port true) ∧
    (∀ x y, ¬ (x = switch_id ∧ y = mac) → ¬ (x = mac ∧ y = switch_id) →
       nx.edge_data (network s1) x y = nx.edge_data (network s) x y) ∧
    node_attrs s1 = <[mac := NHost]> (node_attrs s) ∧
    _get_ports switch_id [mac] s1 = (Ret (∅, {[port]}), s1) ∧
    (∀ switch_id' port', _hostFound switch_id' port' mac s1 = (Ret None, s1)).
Proof.
  intros Hnew Hne.
  set (G := nx.add_edge
              (nx.add_edge (nx.add_node (network s) mac) mac switch_id
                 (EData (-1) port true))
              switch_id mac (EData port (-1) true)).
  set (s1 := {| network := G; node_attrs := <[mac := NHost]> (node_attrs s);
                ip_2_mac := ip_2_mac s; sent := sent s; logs := logs s;
                groups := groups s; heap := heap s; next_handle := next_handle s |}).
  assert (∀ x y, nx.edge_data G x y =
            if decide (x = switch_id ∧ y = mac) then Some (EData port (-1) true)
            else if decide (x = mac ∧ y = switch_id) then Some (EData (-1) port true)
            else nx.edge_data (network s) x y) as HG.
  { intros x y. unfold G.
    by rewrite !graph_add_edge_edge_data, graph_add_node_edge_data. }
  exists s1. split_and!.
  - unfold _hostFound. erewrite bind_run; [|reflexivity].
    unfold nx.has_node. rewrite Hnew. done.
  - cbn [s1 network]. rewrite HG. by rewrite decide_True.
  - cbn [s1 network]. rewrite HG.
    rewrite decide_False by (by intros [? _]). by rewrite decide_True.
  - intros x y H1 H2. cbn [s1 network]. rewrite HG. by rewrite !decide_False.
  - done.
  - unfold _get_ports. cbn [_get_ports_loop].
    erewrite bind_run.
    2:{ unfold get_edge. erewrite bind_run; [|reflexivity].
        cbn [s1 network]. rewrite HG, decide_True by done. reflexivity. }
    erewrite bind_run.
    2:{ unfold is_host. erewrite bind_run; [|reflexivity].
        cbn [s1 node_attrs]. rewrite lookup_insert_eq. reflexivity. }
    cbn [src_port]. by rewrite (right_id_L ∅ (∪)).
  - intros switch_id' port'. unfold _hostFound. erewrite bind_run; [|reflexivity].
    assert (is_Some (network s1 !! mac)) as [nb Hnb].
    { cbn [s1 network]. unfold G. rewrite !graph_add_edge_is_Some. auto. }
    unfold nx.has_node. by rewrite Hnb.
Qed.

Local Open Scope Z_scope.

Lemma hostFound_once_witness :
  ∃ s1,
    _hostFound 3 4 77 Example.diamond_start = (Ret (Some (LogAddedHost 77 3)), s1) ∧
    nx.edge_data (network s1) 3 77 = Some (EData 4 (-1) true) ∧
    nx.edge_data (network s1) 77 3 = Some (EData (-1) 4 true) ∧
    (∀ x y, ¬ (x = 3 ∧ y = 77) → ¬ (x = 77 ∧ y = 3) →
       nx.edge_data (network s1) x y =
       nx.edge_data (network Example.diamond_start) x y) ∧
    node_attrs s1 = <[77 := NHost]> (node_attrs Example.diamond_start) ∧
    _get_ports 3 [77] s1 = (Ret (∅, {[4]}), s1) ∧
    (∀ switch_id' port', _hostFound switch_id' port' 77 s1 = (Ret None, s1)).
Proof.
  apply (hostFound_once Example.diamond_start 3 4 77).
  - by vm_compute.
  - done.
Defined.

Local Close Scope Z_scope.

(** The graph the topology handlers maintain stays well-formed: each of
    them returns, whatever the event, and leaves a network in which every
    link ends in a node. *)
Theorem topology_keeps_wf (s : state) :
  nx.wf (network s) →
  (∀ id, ∃ r s', switchEnter id s = (Ret r, s') ∧ nx.wf (network s')) ∧
  (∀ sid, ∃ r s', switchLeave sid s = (Ret r, s') ∧ nx.wf (network s')) ∧
  (∀ src dst src_port_no dst_port_no,
     ∃ r s', linkAdd src dst src_port_no dst_port_no s = (Ret r, s') ∧
             nx.wf (network s')) ∧
  (∀ src dst, ∃ r s', linkDelete src dst s = (Ret r, s') ∧ nx.wf (network s')) ∧
  (∀ switch_id port mac,
     ∃ r s', _hostFound switch_id port mac s = (Ret r, s') ∧ nx.wf (network s')).
Proof.
  intros Hwf. split_and!.
  - intros id. eexists _, _. split; [reflexivity|]. by apply wf_add_node.
  - intros sid. unfold switchLeave. erewrite bind_run; [|reflexivity].
    destruct (nx.has_node (network s) sid); [|by eexists _, _].
    erewrite bind_run.
    2:{ apply (mark_all_run (λ n, (n, sid))). intros n Hn. cbn [fst snd].
        by apply elem_of_predecessors. }
    erewrite bind_run; [|reflexivity]. cbn [with_network network].
    erewrite bind_run.
    2:{ apply (mark_all_run (λ n, (sid, n))). intros n Hn. cbn [fst snd].
        by apply elem_of_successors. }
    eexists _, _. split; [reflexivity|]. cbn [with_network network].
    by do 2 apply mark_all_wf.
  - intros src dst sp dp. eexists _, _. split; [reflexivity|]. by apply wf_add_edge.
  - intros src dst. unfold linkDelete. erewrite bind_run; [|reflexivity].
    unfold nx.has_edge. destruct (nx.edge_data (network s) src dst) as [e|] eqn:He;
      cbn [is_some]; [|by eexists _, _].
    erewrite bind_run; [|apply set_dead_run; rewrite He; eauto].
    eexists _, _. split; [reflexivity|]. by apply mark_dead_wf.
  - intros switch_id port mac. unfold _hostFound. erewrite bind_run; [|reflexivity].
    destruct (nx.has_node (network s) mac); [by eexists _, _|].
    eexists _, _. split; [reflexivity|]. cbn.
    by do 2 apply wf_add_edge; apply wf_add_node.
Qed.

Local Open Scope Z_scope.

Lemma topology_keeps_wf_witness :
  (∀ id, ∃ r s', switchEnter id Example.diamond_start = (Ret r, s') ∧
                 nx.wf (network s')) ∧
  (∀ sid, ∃ r s', switchLeave sid Example.diamond_start = (Ret r, s') ∧
                  nx.wf (network s')) ∧
  (∀ src dst src_port_no dst_port_no,
     ∃ r s', linkAdd src dst src_port_no dst_port_no Example.diamond_start =
               (Ret r, s') ∧ nx.wf (network s')) ∧
  (∀ src dst, ∃ r s', linkDelete src dst Example.diamond_start = (Ret r, s') ∧
                      nx.wf (network s')) ∧
  (∀ switch_id port mac,
     ∃ r s', _hostFound switch_id port mac Example.diamond_start = (Ret r, s') ∧
             nx.wf (network s')).
Proof.
  apply (topology_keeps_wf Example.diamond_start).
  unfold nx.wf. apply (bool_decide_unpack _). by vm_compute.
Defined.

Local Close Scope Z_scope.

(** ** The forwarding compiler: backups *)

Lemma get_edge_run s u v e :
  nx.edge_data (network s) u v = Some e → get_edge u v s = (Ret e, s).
Proof. intros H. unfold get_edge, bind, get_state. by rewrite H. Qed.

Lemma in_port_or_zero_frame s s' prev id ip :
  in_port_or_zero prev id s = (Ret ip, s) → network s' = network s →
  in_port_or_zero prev id s' = (Ret ip, s').
Proof.
  unfold in_port_or_zero. destruct prev as [p|]; [|by intros [= <-]].
  unfold get_edge, bind, get_state, lookup_or_raise. intros H Hn. rewrite Hn.
  destruct (nx.edge_data (network s) p id); [|done]. by injection H as <-.
Qed.

(** [s'] is [s] with other node attributes and with [msgs] sent after what
    [s] had sent; the log is left open. *)
Definition sends (s s' : state) (attrs : gmap node node_attr)
    (msgs : list (node * message)) : Prop :=
  steps_to s s' attrs (heap s) ∧ sent s' = sent s ++ msgs.

Lemma sends_trans s s1 s2 A1 M1 A2 M2 :
  sends s s1 A1 M1 → sends s1 s2 A2 M2 → sends s s2 A2 (M1 ++ M2).
Proof.
  intros [(? & ? & ? & ? & ? & ?) HS1] [(? & ? & ? & ? & ? & ?) HS2].
  split; [repeat split; congruence|]. by rewrite HS2, HS1, <- app_assoc.
Qed.

Section backup.
Variables (prev_switch_id : option node) (switch_id : node) (dst_address : Z).
Variables (dst backup_dst : node) (src_address : Z) (tag tag_origin : option Z).
Variables (in_port_flow : bool) (in_port : Z) (e e' : edata).
Let prev := if in_port_flow then prev_switch_id else None.
Let g_key := (src_port e, McKey dst_address src_address tag_origin prev).
Let b_g_key := (src_port e', McKey dst_address src_address tag prev).

(** [add_backup] where the group of the protected port, as it is after
    the group has been made if it was missing, ends with the bucket its
    registration points at: the backup goes into a new last bucket. *)
Lemma add_backup_append_run (needs_backup : bool) s sw s_mid sw_mid
    base_id index copies base_group :
  node_attrs s !! switch_id = Some (NSwitch sw) →
  in_port_or_zero prev_switch_id switch_id s = (Ret in_port, s) →
  nx.edge_data (network s) switch_id dst = Some e →
  nx.edge_data (network s) switch_id backup_dst = Some e' →
  FF_groups sw !! b_g_key = None →
  (if is_some (FF_groups sw !! g_key) then ret tt
   else
     _add_FF_group switch_id g_key (src_port e) tag_origin ;;;
     add_flow switch_id dst_address [] true src_address tag_origin true prev)
    (with_log s (LogAddingBackup backup_dst dst switch_id prev)) = (Ret tt, s_mid) →
  node_attrs s_mid !! switch_id = Some (NSwitch sw_mid) →
  FF_groups sw_mid !! g_key = Some ((base_id, index) :: copies) →
  buckets sw_mid !! base_id = Some base_group →
  length base_group = index + 1 →
  ∃ s1,
    add_backup prev_switch_id switch_id dst_address dst backup_dst src_address
      tag tag_origin needs_backup in_port_flow s = (Ret tt, s1) ∧
    sends s_mid s1
      (<[switch_id :=
           NSwitch (Switch (flows sw_mid)
                      (<[b_g_key := [(base_id, index + 1)]]> (FF_groups sw_mid))
                      (<[base_id := base_group ++ [(Port (src_port e'), tag, false)]]>
                         (buckets sw_mid))
                      (group_id_index sw_mid))]> (node_attrs s_mid))
      [(switch_id,
        OFPGroupMod OFPGC_MODIFY base_id
          (_parse_buckets_list in_port
             (base_group ++ [(Port (src_port e'), tag, false)])))].
Proof.
  intros Hsw Hin He He' Hb Hpre Hmid Hg Hbk Hlen.
  destruct sw_mid as [fl FF bk gi]. cbn [FF_groups buckets flows group_id_index] in *.
  unfold bucket in *.
  unfold add_backup. erewrite bind_run; [|by apply get_switch_run].
  erewrite bind_run; [|exact Hin].
  erewrite bind_run; [|by apply get_edge_run].
  erewrite bind_run; [|by apply get_edge_run].
  erewrite bind_run; [|reflexivity].
  erewrite bind_run; [|by apply get_switch_run].
  fold prev. unfold _get_FF_key, _get_key. fold b_g_key g_key.
  rewrite Hb. cbn [is_some].
  erewrite bind_run; [|exact Hpre].
  erewrite bind_run; [|by apply get_switch_run].
  cbn [FF_groups buckets]. rewrite Hg.
  erewrite bind_run; [|reflexivity].
  erewrite bind_run; [|reflexivity]. cbv beta iota.
  unfold bucket. rewrite Hbk. erewrite bind_run; [|reflexivity].
  rewrite bool_decide_eq_true_2 by done.
  erewrite bind_run.
  2:{ erewrite bind_run.
      2:{ unfold set_bucket_list. erewrite bind_run; [|by apply get_switch_run].
          reflexivity. }
      erewrite bind_run; [|reflexivity].
      unfold set_FF_entry.
      erewrite bind_run; [|apply get_switch_run; simpl; apply lookup_insert_eq].
      reflexivity. }
  erewrite bind_run; [|reflexivity].
  eexists. split; [reflexivity|]. unfold sends, steps_to. cbn.
  split_and!; try reflexivity. by rewrite insert_insert_eq.
Qed.

(** [remove_backup] of the backup in the last bucket of its group, behind
    a bucket that is not marked as dropped: the bucket and its
    registration go, the group stays. *)
Lemma remove_backup_last_run s sw base_id index rest base_group last_port last_tag :
  node_attrs s !! switch_id = Some (NSwitch sw) →
  in_port_or_zero prev_switch_id switch_id s = (Ret in_port, s) →
  nx.edge_data (network s) switch_id dst = Some e →
  nx.edge_data (network s) switch_id backup_dst = Some e' →
  FF_groups sw !! b_g_key = Some ((base_id, index + 1) :: rest) →
  buckets sw !! base_id = Some (base_group ++ [(Port (src_port e'), tag, false)]) →
  length base_group = index + 1 →
  base_group !! index = Some (last_port, last_tag, false) →
  ∃ s',
    remove_backup prev_switch_id switch_id dst_address (Some dst) backup_dst
      src_address tag in_port_flow s = (Ret tt, s') ∧
    sends s s'
      (<[switch_id :=
           NSwitch (Switch (flows sw) (delete b_g_key (FF_groups sw))
                      (<[base_id := base_group]> (buckets sw))
                      (group_id_index sw))]> (node_attrs s))
      [(switch_id,
        OFPGroupMod OFPGC_MODIFY base_id (_parse_buckets_list in_port base_group))].
Proof.
  intros Hsw Hin He He' Hb Hbk Hlen Hlast.
  destruct sw as [fl FF bk gi]. cbn [FF_groups buckets flows group_id_index] in *.
  unfold bucket in *.
  set (new_group := base_group ++ [(Port (src_port e'), tag, false)]) in *.
  unfold remove_backup. erewrite bind_run; [|by apply get_switch_run].
  erewrite bind_run; [|exact Hin].
  fold prev. erewrite bind_run; [|reflexivity].
  erewrite bind_run; [|by apply get_edge_run].
  erewrite bind_run; [|by apply get_edge_run].
  erewrite bind_run; [|reflexivity].
  erewrite bind_run; [|by apply get_switch_run].
  unfold _get_FF_key, _get_key. fold b_g_key.
  cbn [FF_groups]. rewrite Hb.
  erewrite bind_run; [|reflexivity]. cbv beta iota.
  cbn [buckets]. unfold bucket. rewrite Hbk.
  erewrite bind_run; [|reflexivity].
  assert (∃ fp ft fd, new_group !! 0 = Some (fp, ft, fd)) as (fp & ft & fd & H0).
  { unfold new_group. destruct base_group as [|[[fp ft] fd] rest']; [simpl in Hlen; lia|].
    by exists fp, ft, fd. }
  unfold bucket. rewrite H0. erewrite bind_run; [|reflexivity]. cbv beta iota.
  assert (length new_group = index + 1 + 1) as Hlen'.
  { unfold new_group. rewrite length_app, Hlen. simpl. lia. }
  unfold bucket. rewrite bool_decide_eq_true_2 by done.
  erewrite bind_run; [|reflexivity]. cbv beta iota.
  replace (index + 1) with (S index) by lia.
  erewrite bind_run.
  2:{ cbn [remove_backup_groups].
      erewrite bind_run; [|by apply get_switch_run].
      cbn [buckets]. unfold bucket. rewrite Hbk.
      erewrite bind_run; [|reflexivity].
      assert (new_group !! index = Some (last_port, last_tag, false)) as Hl'.
      { unfold new_group. rewrite lookup_app_l by (rewrite Hlen; lia). done. }
      assert (new_group !! S index = Some (Port (src_port e'), tag, false)) as Hn'.
      { unfold new_group. rewrite lookup_app_r by (rewrite Hlen; lia).
        rewrite Hlen. by replace (S index - (index + 1)) with 0 by lia. }
      unfold bucket. rewrite Hl'. erewrite bind_run; [|reflexivity]. cbv beta iota.
      unfold bucket. rewrite Hn'. erewrite bind_run; [|reflexivity].
      assert (drop (S index) new_group = [(Port (src_port e'), tag, false)]) as ->.
      { unfold new_group. apply drop_app_length'. rewrite Hlen. lia. }
      assert (take (S index) new_group = base_group) as ->.
      { unfold new_group. apply take_app_length'. rewrite Hlen. lia. }
      erewrite bind_run.
      2:{ cbn [unregister_from]. erewrite bind_run.
          2:{ erewrite bind_run; [|reflexivity].
              unfold del_FF_group. erewrite bind_run; [|by apply get_switch_run].
              unfold _get_FF_key, _get_key. fold b_g_key.
              cbn [FF_groups]. rewrite Hb. reflexivity. }
          reflexivity. }
      erewrite bind_run.
      2:{ unfold set_bucket_list.
          erewrite bind_run; [|apply get_switch_run; simpl; apply lookup_insert_eq].
          reflexivity. }
      erewrite bind_run; [|reflexivity].
      reflexivity. }
  erewrite bind_run; [|reflexivity].
  eexists. split; [reflexivity|]. unfold sends, steps_to. cbn.
  split_and!; try reflexivity. by rewrite insert_insert_eq.
Qed.

End backup.

(** A backup added to a group that ends in a live bucket, and removed
    again. The switch has the group [base_id] registered at the head of the
    copies for the protected port, its bucket list ends with the entry the
    registration points at, which is not marked as dropped, and the backup
    port is not registered for the backup's tag. Then [add_backup] appends
    the bucket of the backup and registers it at the next level,
    [remove_backup] takes both back, and the attributes of every node are
    what they were; the switch has been sent the group with and then
    without the bucket. *)
Theorem backup_round_trip (s : state) (prev_switch_id : option node)
    (switch_id : node) (sw : switch) (dst_address : Z) (dst backup_dst : node)
    (src_address : Z) (tag tag_origin : option Z) (needs_backup in_port_flow : bool)
    (in_port : Z) (e e' : edata) (base_id : Z) (index : nat) (copies : list (Z * nat))
    (base_group : list bucket) (last_port : bport) (last_tag : option Z) :
  let prev := if in_port_flow then prev_switch_id else None in
  let g_key := (src_port e, McKey dst_address src_address tag_origin prev) in
  let b_g_key := (src_port e', McKey dst_address src_address tag prev) in
  let new_group := base_group ++ [(Port (src_port e'), tag, false)] in
  node_attrs s !! switch_id = Some (NSwitch sw) →
  in_port_or_zero prev_switch_id switch_id s = (Ret in_port, s) →
  nx.edge_data (network s) switch_id dst = Some e →
  nx.edge_data (network s) switch_id backup_dst = Some e' →
  FF_groups sw !! g_key = Some ((base_id, index) :: copies) →
  buckets sw !! base_id = Some base_group →
  length base_group = index + 1 →
  base_group !! index = Some (last_port, last_tag, false) →
  FF_groups sw !! b_g_key = None →
  ∃ s1 s2 sw1,
    add_backup prev_switch_id switch_id dst_address dst backup_dst src_address
      tag tag_origin needs_backup in_port_flow s = (Ret tt, s1) ∧
    node_attrs s1 !! switch_id = Some (NSwitch sw1) ∧
    FF_groups sw1 !! b_g_key = Some [(base_id, index + 1)] ∧
    buckets sw1 !! base_id = Some new_group ∧
    remove_backup prev_switch_id switch_id dst_address (Some dst) backup_dst
      src_address tag in_port_flow s1 = (Ret tt, s2) ∧
    node_attrs s2 = node_attrs s ∧
    sent s2 =
      sent s ++
      [(switch_id, OFPGroupMod OFPGC_MODIFY base_id
                     (_parse_buckets_list in_port new_group));
       (switch_id, OFPGroupMod OFPGC_MODIFY base_id
                     (_parse_buckets_list in_port base_group))] ∧
    network s2 = network s ∧ heap s2 = heap s ∧ groups s2 = groups s.
Proof.
  intros prev g_key b_g_key new_group Hsw Hin He He' Hg Hbk Hlen Hlast Hb.
  destruct (add_backup_append_run prev_switch_id switch_id dst_address dst backup_dst
              src_address tag tag_origin in_port_flow in_port e e' needs_backup s sw
              (with_log s (LogAddingBackup backup_dst dst switch_id prev)) sw
              base_id index copies base_group)
    as (s1 & Hadd & (Hn1 & Hi1 & Hg1 & Hx1 & Ha1 & Hh1) & Hs1); try done.
  { fold prev g_key. by rewrite Hg. }
  cbn [with_log network node_attrs sent heap groups ip_2_mac next_handle] in *.
  set (sw1 := Switch (flows sw) (<[b_g_key := [(base_id, index + 1)]]> (FF_groups sw))
                (<[base_id := new_group]> (buckets sw)) (group_id_index sw)) in *.
  assert (node_attrs s1 !! switch_id = Some (NSwitch sw1)) as Hsw1.
  { rewrite Ha1. apply lookup_insert_eq. }
  destruct (remove_backup_last_run prev_switch_id switch_id dst_address dst backup_dst
              src_address tag in_port_flow in_port e e' s1 sw1 base_id index []
              base_group last_port last_tag)
    as (s2 & Hrem & (Hn2 & Hi2 & Hg2 & Hx2 & Ha2 & Hh2) & Hs2); try done.
  { by eapply in_port_or_zero_frame. }
  { by rewrite Hn1. }
  { by rewrite Hn1. }
  { cbn. apply lookup_insert_eq. }
  { cbn. apply lookup_insert_eq. }
  exists s1, s2, sw1. split_and!; try done; try congruence.
  - cbn. apply lookup_insert_eq.
  - cbn. apply lookup_insert_eq.
  - rewrite Ha2, Ha1, insert_insert_eq. cbn.
    rewrite delete_insert_eq, insert_insert_eq.
    rewrite (delete_id _ _ Hb), (insert_id _ _ _ Hbk).
    destruct sw. by apply insert_id.
  - rewrite Hs2, Hs1, <- app_assoc. done.
Qed.

Local Open Scope Z_scope.

(** Switch [1] of [Example.oneway_back] still has the group that protects
    its port towards [2]; the detour through [3] is added with the tag [5]
    and removed again. *)
Lemma backup_round_trip_witness :
  ∃ s1 s2 sw1,
    add_backup None 1 230 2 3 10 (Some 5) None true false Example.oneway_back
      = (Ret tt, s1) ∧
    node_attrs s1 !! 1 = Some (NSwitch sw1) ∧
    FF_groups sw1 !! (2, McKey 230 10 (Some 5) None) = Some [(1, 1%nat)] ∧
    buckets sw1 !! 1 = Some [(Port 1, None, false); (Port 2, Some 5, false)] ∧
    remove_backup None 1 230 (Some 2) 3 10 (Some 5) false s1 = (Ret tt, s2) ∧
    node_attrs s2 = node_attrs Example.oneway_back ∧
    sent s2 =
      sent Example.oneway_back ++
      [(1, OFPGroupMod OFPGC_MODIFY 1
             (_parse_buckets_list 0 [(Port 1, None, false); (Port 2, Some 5, false)]));
       (1, OFPGroupMod OFPGC_MODIFY 1 (_parse_buckets_list 0 [(Port 1, None, false)]))] ∧
    network s2 = network Example.oneway_back ∧ heap s2 = heap Example.oneway_back ∧
    groups s2 = groups Example.oneway_back.
Proof.
  apply (backup_round_trip Example.oneway_back None 1
           (Example.switch_of Example.oneway_back 1) 230 2 3 10 (Some 5) None true false
           0 (EData 1 1 true) (EData 2 1 true) 1 0%nat [] [(Port 1, None, false)]
           (Port 1) None).
  - by vm_compute.
  - done.
  - by vm_compute.
  - by vm_compute.
  - by vm_compute.
  - by vm_compute.
  - done.
  - done.
  - by vm_compute.
Defined.

Local Close Scope Z_scope.

(** Backup requests that change nothing. [add_backup] for a backup port
    that is already registered under the backup's tag, and [remove_backup]
    for one that is not, return after two log lines; nothing is sent and no
    forwarding state changes. *)
Theorem backup_requests_noop (s : state) (prev_switch_id : option node)
    (switch_id : node) (sw : switch) (dst_address : Z) (dst backup_dst : node)
    (src_address : Z) (tag tag_origin : option Z) (needs_backup in_port_flow : bool)
    (in_port : Z) (e e' : edata) :
  let prev := if in_port_flow then prev_switch_id else None in
  let b_g_key := (src_port e', McKey dst_address src_address tag prev) in
  node_attrs s !! switch_id = Some (NSwitch sw) →
  in_port_or_zero prev_switch_id switch_id s = (Ret in_port, s) →
  nx.edge_data (network s) switch_id dst = Some e →
  nx.edge_data (network s) switch_id backup_dst = Some e' →
  (is_Some (FF_groups sw !! b_g_key) →
   add_backup prev_switch_id switch_id dst_address dst backup_dst src_address
     tag tag_origin needs_backup in_port_flow s =
   (Ret tt, with_logs s (logs s ++ [LogAddingBackup backup_dst dst switch_id prev;
                                    LogBackupAlreadyInstalled]))) ∧
  (FF_groups sw !! b_g_key = None →
   remove_backup prev_switch_id switch_id dst_address (Some dst) backup_dst
     src_address tag in_port_flow s =
   (Ret tt, with_logs s (logs s ++ [LogRemovingBackup backup_dst dst switch_id;
                                    LogBackupNotInstalled]))).
Proof.
  intros prev b_g_key Hsw Hin He He'. split.
  - intros [l Hl]. unfold add_backup.
    erewrite bind_run; [|by apply get_switch_run].
    erewrite bind_run; [|exact Hin].
    erewrite bind_run; [|by apply get_edge_run].
    erewrite bind_run; [|by apply get_edge_run].
    erewrite bind_run; [|reflexivity].
    erewrite bind_run; [|by apply get_switch_run].
    fold prev. unfold _get_FF_key, _get_key. fold b_g_key. rewrite Hl.
    cbn [is_some]. unfold log, with_logs. cbn. by rewrite <- app_assoc.
  - intros Hnone. unfold remove_backup.
    erewrite bind_run; [|by apply get_switch_run].
    erewrite bind_run; [|exact Hin].
    erewrite bind_run; [|reflexivity].
    erewrite bind_run; [|by apply get_edge_run].
    erewrite bind_run; [|by apply get_edge_run].
    erewrite bind_run; [|reflexivity].
    erewrite bind_run; [|by apply get_switch_run].
    fold prev. unfold _get_FF_key, _get_key. fold b_g_key. rewrite Hnone.
    unfold log, with_logs. cbn. by rewrite <- app_assoc.
Qed.

Local Open Scope Z_scope.

Lemma backup_requests_noop_witness :
  (is_Some (FF_groups (Example.switch_of Example.oneway_two 1)
              !! (2, McKey 230 10 (Some 1) None)) →
   add_backup None 1 230 2 3 10 (Some 1) None true false Example.oneway_two =
   (Ret tt, with_logs Example.oneway_two
              (logs Example.oneway_two ++
               [LogAddingBackup 3 2 1 None; LogBackupAlreadyInstalled]))) ∧
  (FF_groups (Example.switch_of Example.oneway_two 1)
     !! (2, McKey 230 10 (Some 1) None) = None →
   remove_backup None 1 230 (Some 2) 3 10 (Some 1) false Example.oneway_two =
   (Ret tt, with_logs Example.oneway_two
              (logs Example.oneway_two ++
               [LogRemovingBackup 3 2 1; LogBackupNotInstalled]))).
Proof.
  apply (backup_requests_noop Example.oneway_two None 1
           (Example.switch_of Example.oneway_two 1) 230 2 3 10 (Some 1) None true false
           0 (EData 1 1 true) (EData 2 1 true)).
  - by vm_compute.
  - done.
  - by vm_compute.
  - by vm_compute.
Defined.

Local Close Scope Z_scope.

(** The ports a bucket entry sends to. *)
Definition bport_ports (port : bport) : list Z :=
  match port with
  | Port p => [p]
  | PortList l => l
  end.

(** What [parse_buckets] makes of the entry at position [i]. *)
Definition parsed_bucket (in_port : Z) (tagged first : bool) (b : bucket) : ofp_bucket :=
  let '(port, tag, drop) := b in
  if drop then OFPBucket port []
  else
    OFPBucket (match port with Port p => Port p | PortList _ => Port in_port end)
      (match tag with
       | Some t =>
           if first then []
           else (if tagged then [] else [OFPActionPushVlan]) ++
                [OFPActionSetField_vlan_vid (Z.lor 0x1000 t)]
       | None => []
       end ++ (output_or_in_port in_port <$> bport_ports port)).

Lemma parse_buckets_lookup in_port tagged bkts : ∀ first i b,
  bkts !! i = Some b →
  parse_buckets in_port tagged first bkts !! i =
  Some (parsed_bucket in_port tagged (first && bool_decide (i = 0)) b).
Proof.
  induction bkts as [|[[port tag] drop] bkts IH]; intros first i b Hi; [done|].
  cbn [parse_buckets]. destruct i as [|i].
  - injection Hi as <-. cbn [lookup list_lookup parsed_bucket].
    rewrite bool_decide_eq_true_2 by done. rewrite andb_true_r.
    destruct drop; [done|]. by destruct port.
  - change (bkts !! i = Some b) in Hi.
    match goal with |- (?x :: ?l) !! S i = ?r => change (l !! i = r) end.
    rewrite (IH false i b Hi).
    rewrite (bool_decide_eq_false_2 (S i = 0)) by done. by rewrite andb_false_r.
Qed.

Lemma parse_buckets_length in_port tagged bkts : ∀ first,
  length (parse_buckets in_port tagged first bkts) = length bkts.
Proof.
  induction bkts as [|[[port tag] drop] bkts IH]; intros first; [done|].
  cbn [parse_buckets length]. by rewrite IH.
Qed.

(** [_parse_buckets_list] turns the recorded buckets into OpenFlow buckets
    one for one and in order. An entry marked as dropped becomes a bucket
    without actions that still watches the entry's port; a live one watches
    its port (the in-port for a list of ports) and outputs to each of its
    ports. The first bucket only outputs: it never touches the VLAN tag. A
    tag is pushed only in groups whose first entry is untagged. No bucket
    outputs to the in-port by its number: the reserved port [OFPP_IN_PORT]
    stands in for it. *)
Theorem parse_buckets_list_shape (in_port : Z) (bkts : list bucket) :
  length (_parse_buckets_list in_port bkts) = length bkts ∧
  ∀ i port tag drop, bkts !! i = Some (port, tag, drop) →
    ∃ b, _parse_buckets_list in_port bkts !! i = Some b ∧
      (drop = true → b = OFPBucket port []) ∧
      (drop = false →
         watch_port b = match port with Port p => Port p | PortList _ => Port in_port end ∧
         ∀ p, p ∈ bport_ports port →
           OFPActionOutput (if decide (p = in_port) then OFPP_IN_PORT else p)
             ∈ bucket_actions b) ∧
      (i = 0 → ∀ a, a ∈ bucket_actions b → ∃ p, a = OFPActionOutput p) ∧
      (OFPActionPushVlan ∈ bucket_actions b →
         ∃ p0 d0, bkts !! 0 = Some (p0, None, d0)) ∧
      (in_port ≠ OFPP_IN_PORT → OFPActionOutput in_port ∉ bucket_actions b).
Proof.
  split.
  { unfold _parse_buckets_list. destruct bkts as [|[[p0 t0] d0] rest]; [done|].
    apply parse_buckets_length. }
  intros i port tag drop Hi.
  assert (∃ p0 t0 d0, bkts !! 0 = Some (p0, t0, d0)) as (p0 & t0 & d0 & H0).
  { destruct bkts as [|[[p0 t0] d0] rest]; [done|]. by exists p0, t0, d0. }
  assert (_parse_buckets_list in_port bkts =
          parse_buckets in_port (is_some t0) true bkts) as ->.
  { unfold _parse_buckets_list. destruct bkts as [|[[p1 t1] d1] rest]; [done|].
    by injection H0 as _ <- _. }
  rewrite (parse_buckets_lookup _ _ _ _ _ _ Hi). eexists. split; [reflexivity|].
  cbn [andb parsed_bucket]. destruct drop.
  { cbn [bucket_actions]. split_and!; try done.
    - by intros _ a ?%elem_of_nil.
    - by intros ?%elem_of_nil.
    - by intros _ ?%elem_of_nil. }
  cbn [bucket_actions watch_port].
  assert (∀ a, a ∈ output_or_in_port in_port <$> bport_ports port →
               ∃ p, a = OFPActionOutput p ∧ (in_port ≠ OFPP_IN_PORT → p ≠ in_port))
    as Houts.
  { intros a (p & -> & _)%list_elem_of_fmap. unfold output_or_in_port.
    eexists. split; [reflexivity|]. intros Hne. by destruct (decide (p = in_port)). }
  split_and!.
  - done.
  - intros _. split; [done|]. intros p Hp. apply elem_of_app. right.
    apply list_elem_of_fmap. by exists p.
  - intros -> a Ha. rewrite bool_decide_eq_true_2 in Ha by done.
    assert (a ∈ output_or_in_port in_port <$> bport_ports port) as Ha'.
    { destruct tag; by rewrite app_nil_l in Ha. }
    destruct (Houts a Ha') as (p & -> & _). eauto.
  - intros [Ha|Ha]%elem_of_app.
    + destruct tag as [t|]; [|by apply elem_of_nil in Ha].
      destruct (bool_decide (i = 0)); [by apply elem_of_nil in Ha|].
      destruct t0 as [t0|]; [|by eauto]. cbn [is_some] in Ha.
      by apply list_elem_of_singleton in Ha.
    + by destruct (Houts _ Ha) as (p & ? & _).
  - intros Hne [Ha|Ha]%elem_of_app.
    + destruct tag as [t|]; [|by apply elem_of_nil in Ha].
      destruct (bool_decide (i = 0)); [by apply elem_of_nil in Ha|].
      apply elem_of_app in Ha as [Ha|Ha].
      * destruct (is_some t0); [by apply elem_of_nil in Ha|].
        by apply list_elem_of_singleton in Ha.
      * by apply list_elem_of_singleton in Ha.
    + destruct (Houts _ Ha) as (p & [= <-] & Hp). by apply Hp.
Qed.

(** [_remove_FF_group] of a group with one bucket that is registered
    alone under the key of its port. *)
Lemma remove_FF_group_single_run s id sw gid port tag d a prev k :
  node_attrs s !! id = Some (NSwitch sw) →
  buckets sw !! gid = Some [(Port port, tag, false)] →
  FF_groups sw !! (port, McKey d a tag prev) = Some [(gid, k)] →
  ∃ s',
    _remove_FF_group id gid d a prev s = (Ret tt, s') ∧
    sends s s'
      (<[id := NSwitch (Switch (flows sw)
                          (delete (port, McKey d a tag prev) (FF_groups sw))
                          (delete gid (buckets sw)) (group_id_index sw))]>
         (node_attrs s))
      [(id, OFPGroupMod OFPGC_DELETE gid [])].
Proof.
  intros Hsw Hbk Hg. destruct sw as [fl FF bk gi].
  cbn [FF_groups buckets flows group_id_index] in *. unfold bucket in *.
  unfold _remove_FF_group. erewrite bind_run; [|by apply get_switch_run].
  erewrite bind_run; [|reflexivity].
  erewrite bind_run; [|by apply get_switch_run].
  cbn [buckets]. unfold bucket. rewrite Hbk.
  erewrite bind_run; [|reflexivity].
  erewrite bind_run; [|reflexivity].
  erewrite bind_run; [|reflexivity]. cbv beta iota.
  erewrite bind_run; [|reflexivity].
  erewrite bind_run; [|by apply get_switch_run].
  unfold _get_FF_key, _get_key. cbn [FF_groups]. rewrite Hg.
  erewrite bind_run; [|reflexivity].
  cbn [length pop_group lookup list_lookup]. rewrite decide_True by done.
  cbn [pop_group delete list_delete].
  erewrite bind_run; [|reflexivity].
  erewrite bind_run; [|reflexivity].
  rewrite bool_decide_eq_true_2 by done.
  erewrite bind_run.
  2:{ unfold del_FF_group.
      erewrite bind_run; [|apply get_switch_run; simpl; apply lookup_insert_eq].
      cbn [FF_groups set_FF_groups]. rewrite lookup_insert_eq. reflexivity. }
  erewrite bind_run; [|apply get_switch_run; simpl; apply lookup_insert_eq].
  cbn [buckets set_FF_groups set_buckets]. unfold bucket. rewrite Hbk.
  erewrite bind_run; [|reflexivity].
  eexists. split; [reflexivity|]. unfold sends, steps_to. cbn.
  split_and!; try reflexivity. rewrite !insert_insert_eq. f_equal. f_equal.
  unfold set_buckets, set_FF_groups. cbn. f_equal.
  by rewrite delete_insert_eq.
Qed.

Section protected.
Variables (ip_group ip_source : Z) (tag_origin : option Z).
Let key := McKey ip_group ip_source tag_origin None.

Lemma add_FF_group_run s id sw g_key port tag :
  node_attrs s !! id = Some (NSwitch sw) →
  ∃ s',
    _add_FF_group id g_key port tag s = (Ret tt, s') ∧
    sends s s'
      (<[id :=
           NSwitch (Switch (flows sw)
             (<[g_key := [(group_id_index sw, 0)]]> (FF_groups sw))
             (<[group_id_index sw := [(Port port, tag, false)]]> (buckets sw))
             (if bool_decide (group_id_index sw + 1 < 1)%Z then 1%Z
              else (group_id_index sw + 1)%Z))]> (node_attrs s))
      [(id, OFPGroupMod OFPGC_ADD (group_id_index sw)
              [OFPBucket (Port port) [OFPActionOutput port]])].
Proof.
  intros Hsw. destruct sw as [fl FF bk gi].
  unfold _add_FF_group. erewrite bind_run; [|by apply get_switch_run].
  erewrite bind_run.
  2:{ unfold _add_group. erewrite bind_run; [|by apply get_switch_run].
      erewrite bind_run; [|reflexivity]. erewrite bind_run; [|reflexivity].
      erewrite bind_run; [|by apply get_switch_run].
      erewrite bind_run; [|reflexivity]. reflexivity. }
  erewrite bind_run; [|apply get_switch_run; simpl; apply lookup_insert_eq].
  erewrite bind_run; [|reflexivity].
  erewrite bind_run; [|apply get_switch_run; simpl; apply lookup_insert_eq].
  eexists. split; [reflexivity|]. unfold sends, steps_to. cbn.
  split_and!; try reflexivity. by rewrite !insert_insert_eq.
Qed.

(** [add_flow] with no destination and [forced = true] on a flow that
    has outputs: the flow is written again for the ports it has. *)
Lemma add_flow_again_run s id sw cs ch ct mg ms :
  node_attrs s !! id = Some (NSwitch sw) →
  ip_2_mac s !! ip_group = Some mg → ip_2_mac s !! ip_source = Some ms →
  flows sw !! key = Some (cs, ch, ct) → cs ≠ ∅ ∨ ch ≠ ∅ →
  ∃ s',
    add_flow id ip_group [] true ip_source tag_origin true None s = (Ret tt, s') ∧
    steps_to s s'
      (<[id :=
           NSwitch (set_flows sw
             (<[key := (cs, ch,
                        length (_get_actions (FF_groups sw) key tag_origin cs ch))]>
                (flows sw)))]> (node_attrs s))
      (heap s).
Proof.
  intros Hsw Hg Ha Hk Hne. unfold add_flow.
  erewrite bind_run; [|by apply get_switch_run].
  erewrite bind_run; [|reflexivity]. cbv beta iota.
  erewrite bind_run; [|reflexivity].
  erewrite bind_run; [|by apply get_switch_run].
  change (_get_key true ip_group ip_source tag_origin None) with key.
  rewrite Hk.
  assert (bool_decide (0 < size cs) || bool_decide (0 < size ch) = true) as ->.
  { apply orb_true_iff. destruct Hne as [Hne'|Hne']; [left|right];
      apply bool_decide_eq_true_2;
      apply (proj1 (Nat.neq_0_lt_0 _)); by rewrite size_empty_iff, leibniz_equiv_iff. }
  cbv beta iota. rewrite !(left_id_L ∅ (∪)).
  erewrite bind_run; [|by eapply get_match_run].
  erewrite bind_run; [|apply install_actions_run].
  erewrite bind_run; [|by apply get_switch_run].
  erewrite bind_run; [|reflexivity].
  erewrite bind_run; [|reflexivity].
  erewrite bind_run; [|reflexivity].
  destruct tag_origin; eexists; (split; [reflexivity|]); unfold steps_to; cbn;
    split_and!; reflexivity.
Qed.

(** What [add_backup] does first on a port that has no group yet: it makes
    the group and writes the flow again, which now sends to the group. *)
Lemma protect_first_run s id sw port cs ch ct mg ms :
  node_attrs s !! id = Some (NSwitch sw) →
  ip_2_mac s !! ip_group = Some mg → ip_2_mac s !! ip_source = Some ms →
  flows sw !! key = Some (cs, ch, ct) → cs ≠ ∅ ∨ ch ≠ ∅ →
  ∃ s',
    (_add_FF_group id (port, key) port tag_origin ;;;
     add_flow id ip_group [] true ip_source tag_origin true None) s = (Ret tt, s') ∧
    steps_to s s'
      (<[id :=
           NSwitch (Switch
             (<[key := (cs, ch,
                        length (_get_actions
                                  (<[(port, key) := [(group_id_index sw, 0)]]>
                                     (FF_groups sw)) key tag_origin cs ch))]> (flows sw))
             (<[(port, key) := [(group_id_index sw, 0)]]> (FF_groups sw))
             (<[group_id_index sw := [(Port port, tag_origin, false)]]> (buckets sw))
             (if bool_decide (group_id_index sw + 1 < 1)%Z then 1%Z
              else (group_id_index sw + 1)%Z))]> (node_attrs s))
      (heap s).
Proof.
  intros Hsw Hg Ha Hk Hne.
  destruct (add_FF_group_run s id sw (port, key) port tag_origin Hsw)
    as (s1 & Hrun1 & (Hn1 & Hi1 & Hg1 & Hx1 & Ha1 & Hh1) & _).
  erewrite bind_run; [|exact Hrun1].
  edestruct (add_flow_again_run s1 id) as (s2 & Hrun2 & Hn2 & Hi2 & Hg2 & Hx2 & Ha2 & Hh2).
  { rewrite Ha1. apply lookup_insert_eq. }
  { by rewrite Hi1. }
  { by rewrite Hi1. }
  { cbn [flows]. exact Hk. }
  { exact Hne. }
  exists s2. split; [exact Hrun2|]. repeat split; try congruence.
  rewrite Ha2, Ha1, insert_insert_eq. done.
Qed.

(** The groups of one port, where that is one group of one bucket. *)
Lemma remove_relevant_group_run s id sw port gid k :
  node_attrs s !! id = Some (NSwitch sw) →
  FF_groups sw !! (port, key) = Some [(gid, k)] →
  buckets sw !! gid = Some [(Port port, tag_origin, false)] →
  ∃ s',
    remove_relevant_groups id [port] key ip_group ip_source None s = (Ret tt, s') ∧
    steps_to s s'
      (<[id := NSwitch (Switch (flows sw) (delete (port, key) (FF_groups sw))
                          (delete gid (buckets sw)) (group_id_index sw))]>
         (node_attrs s))
      (heap s).
Proof.
  intros Hsw HFF Hbk.
  destruct (remove_FF_group_single_run s id sw gid port tag_origin ip_group ip_source
              None k Hsw Hbk HFF)
    as (s1 & Hrun1 & (Hn1 & Hi1 & Hg1 & Hx1 & Ha1 & Hh1) & _).
  unfold remove_relevant_groups. cbn [for_each].
  erewrite bind_run.
  2:{ erewrite bind_run; [|by apply get_switch_run].
      unfold _get_FF_key. rewrite HFF.
      cbn [length remove_groups_of lookup list_lookup].
      erewrite bind_run; [|by apply get_switch_run].
      erewrite bind_run; [|exact Hrun1].
      erewrite bind_run; [|apply get_switch_run; rewrite Ha1; apply lookup_insert_eq].
      cbn [FF_groups]. rewrite lookup_delete_eq. reflexivity. }
  exists s1. split; [reflexivity|]. by repeat split.
Qed.

(** [remove_flow] of the only destination of a flow whose port has a
    group of one bucket: flow, group and registration go together. *)
Lemma remove_flow_group_run s id dst sw e swd mg ms ct gid k :
  node_attrs s !! id = Some (NSwitch sw) →
  nx.edge_data (network s) id dst = Some e →
  node_attrs s !! dst = Some (NSwitch swd) →
  ip_2_mac s !! ip_group = Some mg → ip_2_mac s !! ip_source = Some ms →
  flows sw !! key = Some ({[src_port e]}, ∅, ct) →
  FF_groups sw !! (src_port e, key) = Some [(gid, k)] →
  buckets sw !! gid = Some [(Port (src_port e), tag_origin, false)] →
  ∃ s',
    remove_flow id ip_group (Dsts [dst]) true ip_source tag_origin None s = (Ret tt, s') ∧
    steps_to s s'
      (<[id := NSwitch (Switch (delete key (flows sw))
                          (delete (src_port e, key) (FF_groups sw))
                          (delete gid (buckets sw)) (group_id_index sw))]>
         (node_attrs s))
      (heap s).
Proof.
  intros Hsw He Hdst Hg Ha Hk HFF Hbk. destruct sw as [fl FF bk gi].
  cbn [FF_groups buckets flows group_id_index] in *.
  unfold remove_flow.
  erewrite bind_run; [|by apply get_switch_run].
  erewrite bind_run; [|reflexivity].
  erewrite bind_run; [|by apply get_switch_run].
  change (_get_key true ip_group ip_source tag_origin None) with key.
  cbn [flows]. rewrite Hk.
  erewrite bind_run.
  2:{ erewrite bind_run; [|by eapply get_ports_one]. cbn [host_attr port_sets].
      cbv beta iota. reflexivity. }
  cbv beta iota.
  erewrite bind_run; [|by eapply get_match_run].
  erewrite bind_run; [|by apply get_switch_run].
  rewrite !difference_diag_L, size_empty. rewrite !bool_decide_eq_true_2 by done.
  cbn [andb].
  erewrite bind_run.
  2:{ erewrite bind_run; [|apply (for_each_send id
        (λ _, OFPFlowMod 0 OFPFC_DELETE_STRICT (_get_priority tag_origin None)
                (OFPMatch mg (Some ms) (Z.lor 4096 <$> tag_origin) None) []))].
      reflexivity. }
  rewrite elements_singleton. cbn [filter list_filter].
  rewrite decide_True by set_solver.
  match goal with |- ex (λ s', bind _ _ ?st = _ ∧ _) => set (s_a := st) end.
  assert (steps_to s s_a
            (<[id := NSwitch (Switch (delete key fl) FF bk gi)]> (node_attrs s)) (heap s))
    as (Hn1 & Hi1 & Hg1 & Hx1 & Ha1 & Hh1) by (by repeat split).
  clearbody s_a.
  destruct (remove_relevant_group_run s_a id (Switch (delete key fl) FF bk gi)
              (src_port e) gid k)
    as (s2 & Hrun2 & Hn2 & Hi2 & Hg2 & Hx2 & Ha2 & Hh2).
  { rewrite Ha1. apply lookup_insert_eq. }
  { exact HFF. }
  { exact Hbk. }
  erewrite bind_run; [|exact Hrun2].
  erewrite bind_run; [|reflexivity].
  erewrite bind_run; [|reflexivity].
  destruct tag_origin; eexists; (split; [reflexivity|]); unfold steps_to; cbn;
    split_and!; try congruence; by rewrite Ha2, Ha1, insert_insert_eq.
Qed.

End protected.

(** The life of a protected destination at one switch. A switch that
    has neither the flow nor a group for it gets the flow towards another
    switch ([add_flow]), then a backup for that link ([add_backup], which
    makes the fast-failover group of the port, points the flow at the group
    and appends the backup's bucket), then loses the backup
    ([remove_backup]) and the destination ([remove_flow], which deletes the
    flow and, with it, the group). All four calls return, and afterwards
    the attributes of every node are what they were, except that the
    switch's group-id cursor has moved on by one. *)
Theorem protected_flow_lifecycle (s : state) (prev_switch_id : option node)
    (x dst backup_dst : node) (sw swd : switch) (ip_group ip_source : Z)
    (tag tag_origin : option Z) (needs_backup : bool) (in_port : Z)
    (e e' : edata) (mg ms : Z) :
  let key := McKey ip_group ip_source tag_origin None in
  let g_key := (src_port e, key) in
  let b_g_key := (src_port e', McKey ip_group ip_source tag None) in
  node_attrs s !! x = Some (NSwitch sw) →
  node_attrs s !! dst = Some (NSwitch swd) →
  nx.edge_data (network s) x dst = Some e →
  nx.edge_data (network s) x backup_dst = Some e' →
  in_port_or_zero prev_switch_id x s = (Ret in_port, s) →
  ip_2_mac s !! ip_group = Some mg → ip_2_mac s !! ip_source = Some ms →
  flows sw !! key = None →
  FF_groups sw !! g_key = None →
  FF_groups sw !! b_g_key = None →
  b_g_key ≠ g_key →
  buckets sw !! group_id_index sw = None →
  ∃ s1 s2 s3 s4 sw2,
    add_flow x ip_group [dst] true ip_source tag_origin false None s = (Ret tt, s1) ∧
    add_backup prev_switch_id x ip_group dst backup_dst ip_source tag tag_origin
      needs_backup false s1 = (Ret tt, s2) ∧
    node_attrs s2 !! x = Some (NSwitch sw2) ∧
    FF_groups sw2 !! g_key = Some [(group_id_index sw, 0)] ∧
    FF_groups sw2 !! b_g_key = Some [(group_id_index sw, 1)] ∧
    buckets sw2 !! group_id_index sw =
      Some [(Port (src_port e), tag_origin, false); (Port (src_port e'), tag, false)] ∧
    remove_backup prev_switch_id x ip_group (Some dst) backup_dst ip_source tag false s2
      = (Ret tt, s3) ∧
    remove_flow x ip_group (Dsts [dst]) true ip_source tag_origin None s3 = (Ret tt, s4) ∧
    node_attrs s4 =
      <[x := NSwitch (set_group_id_index sw
                        (if bool_decide (group_id_index sw + 1 < 1)%Z then 1%Z
                         else (group_id_index sw + 1)%Z))]> (node_attrs s) ∧
    network s4 = network s ∧ heap s4 = heap s ∧ groups s4 = groups s ∧
    ip_2_mac s4 = ip_2_mac s.
Proof.
  intros key g_key b_g_key Hsw Hdst He He' Hin Hmg Hms Hk Hg Hb Hne Hbk.
  destruct sw as [fl FF bk gi]. cbn [FF_groups buckets flows group_id_index] in *.
  set (gi' := if bool_decide (gi + 1 < 1)%Z then 1%Z else (gi + 1)%Z).
  set (b0 := (Port (src_port e), tag_origin, false) : bucket).
  set (b1 := (Port (src_port e'), tag, false) : bucket).
  (* the flow *)
  destruct (add_flow_run ip_group ip_source tag_origin s x dst (Switch fl FF bk gi) e
              (NSwitch swd) mg ms)
    as (s1 & Hrun1 & Hn1 & Hi1 & Hg1 & Hx1 & Ha1 & Hh1); try done.
  { unfold flow_ok. cbn [flows]. fold key. by rewrite Hk. }
  unfold flow_with in Ha1. cbn [flows host_attr port_sets fst snd FF_groups] in Ha1.
  fold key in Ha1. rewrite Hk in Ha1. cbn [fst snd set_flows flows] in Ha1.
  set (n1 := length (_get_actions FF key tag_origin {[src_port e]} ∅)) in *.
  set (sw_a := Switch (<[key := ({[src_port e]}, ∅, n1)]> fl) FF bk gi).
  assert (node_attrs s1 !! x = Some (NSwitch sw_a)) as Hsw1.
  { rewrite Ha1. apply lookup_insert_eq. }
  (* the backup *)
  destruct (protect_first_run ip_group ip_source tag_origin
              (with_log s1 (LogAddingBackup backup_dst dst x None)) x sw_a (src_port e)
              {[src_port e]} ∅ n1 mg ms)
    as (s_mid & Hpre & Hnm & Him & Hgm & Hxm & Ham & Hhm).
  { exact Hsw1. }
  { cbn. by rewrite Hi1. }
  { cbn. by rewrite Hi1. }
  { cbn. apply lookup_insert_eq. }
  { left. apply non_empty_singleton_L. }
  cbn [with_log network node_attrs ip_2_mac groups heap next_handle sw_a flows FF_groups
       buckets group_id_index] in Hnm, Him, Hgm, Hxm, Ham, Hhm.
  fold key g_key gi' b0 in Ham. rewrite Ha1, !insert_insert_eq in Ham.
  set (n2 := length (_get_actions (<[g_key := [(gi, 0)]]> FF) key tag_origin
                       {[src_port e]} ∅)) in *.
  set (sw_mid := Switch (<[key := ({[src_port e]}, ∅, n2)]> fl)
                   (<[g_key := [(gi, 0)]]> FF) (<[gi := [b0]]> bk) gi') in *.
  destruct (add_backup_append_run prev_switch_id x ip_group dst backup_dst ip_source
              tag tag_origin false in_port e e' needs_backup s1 sw_a s_mid sw_mid
              gi 0 [] [b0])
    as (s2 & Hrun2 & (Hn2 & Hi2 & Hg2 & Hx2 & Ha2 & Hh2) & _).
  { exact Hsw1. }
  { by eapply in_port_or_zero_frame. }
  { by rewrite Hn1. }
  { by rewrite Hn1. }
  { exact Hb. }
  { cbn [sw_a FF_groups]. fold key g_key. rewrite Hg. exact Hpre. }
  { rewrite Ham. apply lookup_insert_eq. }
  { cbn. apply lookup_insert_eq. }
  { cbn. apply lookup_insert_eq. }
  { done. }
  cbn [sw_mid flows FF_groups buckets group_id_index app] in Ha2.
  fold key b_g_key b1 in Ha2. rewrite Ham, !insert_insert_eq in Ha2.
  set (sw2 := Switch (<[key := ({[src_port e]}, ∅, n2)]> fl)
                (<[b_g_key := [(gi, 0 + 1)]]> (<[g_key := [(gi, 0)]]> FF))
                (<[gi := [b0; b1]]> bk) gi') in *.
  assert (node_attrs s2 !! x = Some (NSwitch sw2)) as Hsw2.
  { rewrite Ha2. apply lookup_insert_eq. }
  (* the backup goes *)
  destruct (remove_backup_last_run prev_switch_id x ip_group dst backup_dst ip_source
              tag false in_port e e' s2 sw2 gi 0 [] [b0] (Port (src_port e)) tag_origin)
    as (s3 & Hrun3 & (Hn3 & Hi3 & Hg3 & Hx3 & Ha3 & Hh3) & _).
  { exact Hsw2. }
  { eapply in_port_or_zero_frame; [exact Hin|]. congruence. }
  { rewrite Hn2, Hnm, Hn1. exact He. }
  { rewrite Hn2, Hnm, Hn1. exact He'. }
  { cbn. apply lookup_insert_eq. }
  { cbn. apply lookup_insert_eq. }
  { done. }
  { done. }
  cbn [sw2 flows FF_groups buckets group_id_index] in Ha3.
  fold key b_g_key in Ha3. rewrite Ha2, !insert_insert_eq in Ha3.
  rewrite delete_insert_eq in Ha3.
  rewrite (delete_insert_ne _ b_g_key g_key) in Ha3 by done.
  rewrite (delete_id _ _ Hb) in Ha3.
  set (sw3 := Switch (<[key := ({[src_port e]}, ∅, n2)]> fl)
                (<[g_key := [(gi, 0)]]> FF) (<[gi := [b0]]> bk) gi') in *.
  (* the flow goes, and the group with it *)
  assert (∃ swd', node_attrs s3 !! dst = Some (NSwitch swd')) as [swd' Hdst3].
  { rewrite Ha3. destruct (decide (dst = x)) as [->|Hdx].
    - rewrite lookup_insert_eq. eauto.
    - rewrite lookup_insert_ne by done. eauto. }
  destruct (remove_flow_group_run ip_group ip_source tag_origin s3 x dst sw3 e swd'
              mg ms n2 gi 0)
    as (s4 & Hrun4 & Hn4 & Hi4 & Hg4 & Hx4 & Ha4 & Hh4).
  { rewrite Ha3. apply lookup_insert_eq. }
  { rewrite Hn3, Hn2, Hnm, Hn1. exact He. }
  { exact Hdst3. }
  { rewrite Hi3, Hi2, Him, Hi1. exact Hmg. }
  { rewrite Hi3, Hi2, Him, Hi1. exact Hms. }
  { cbn. apply lookup_insert_eq. }
  { cbn. apply lookup_insert_eq. }
  { cbn. apply lookup_insert_eq. }
  cbn [sw3 flows FF_groups buckets group_id_index] in Ha4.
  fold key g_key in Ha4. rewrite Ha3, !insert_insert_eq in Ha4.
  rewrite !delete_insert_eq in Ha4.
  rewrite (delete_id _ _ Hk), (delete_id _ _ Hg), (delete_id _ _ Hbk) in Ha4.
  exists s1, s2, s3, s4, sw2. split_and!; try done; try congruence.
  - cbn. rewrite lookup_insert_ne by done. apply lookup_insert_eq.
  - cbn. apply lookup_insert_eq.
  - cbn. apply lookup_insert_eq.
Qed.

Local Open Scope Z_scope.

(** Switch [1] of [Example.diamond] forwards the group to [2], protects
    the link with the detour through [3] under the tag [1], and gives both
    up again. *)
Lemma protected_flow_lifecycle_witness :
  ∃ s1 s2 s3 s4 sw2,
    add_flow 1 230 [2] true 10 None false None Example.diamond_start = (Ret tt, s1) ∧
    add_backup None 1 230 2 3 10 (Some 1) None true false s1 = (Ret tt, s2) ∧
    node_attrs s2 !! 1 = Some (NSwitch sw2) ∧
    FF_groups sw2 !! (1, McKey 230 10 None None) = Some [(1, 0%nat)] ∧
    FF_groups sw2 !! (2, McKey 230 10 (Some 1) None) = Some [(1, 1%nat)] ∧
    buckets sw2 !! 1 = Some [(Port 1, None, false); (Port 2, Some 1, false)] ∧
    remove_backup None 1 230 (Some 2) 3 10 (Some 1) false s2 = (Ret tt, s3) ∧
    remove_flow 1 230 (Dsts [2]) true 10 None None s3 = (Ret tt, s4) ∧
    node_attrs s4 =
      <[1 := NSwitch (Switch ∅ ∅ ∅ 2)]> (node_attrs Example.diamond_start) ∧
    network s4 = network Example.diamond_start ∧
    heap s4 = heap Example.diamond_start ∧
    groups s4 = groups Example.diamond_start ∧
    ip_2_mac s4 = ip_2_mac Example.diamond_start.
Proof.
  apply (protected_flow_lifecycle Example.diamond_start None 1 2 3
           (Switch ∅ ∅ ∅ 1) (Switch ∅ ∅ ∅ 1) 230 10 (Some 1) None true 0
           (EData 1 1 true) (EData 2 1 true) 1000 2000).
  - by vm_compute.
  - by vm_compute.
  - by vm_compute.
  - by vm_compute.
  - done.
  - by vm_compute.
  - by vm_compute.
  - done.
  - done.
  - done.
  - done.
  - done.
Defined.

Local Close Scope Z_scope.

(** ** Links that cannot be protected *)

Lemma set_tag_index_back primt tag i :
  t_tag_index primt = Some tag → set_tag_index (set_tag_index primt i) tag = primt.
Proof. destruct primt. simpl. by intros ->. Qed.

Lemma set_adj_back t a : set_adj (set_adj t a) (t_adj t) = t.
Proof. by destruct t. Qed.

Lemma tag_back tag tag1 :
  tag1 = (if bool_decide (max_vid < tag + 1)%Z then 1%Z else (tag + 1)%Z) →
  (1 ≤ tag ≤ 4094)%Z →
  (if bool_decide (tag1 - 1 < 1)%Z then max_vid else (tag1 - 1)%Z) = tag.
Proof. intros -> Ht. unfold max_vid. repeat case_bool_decide; lia. Qed.

(** A link of the tree that has no backup yet and cannot get one. When
    the join strategy finds no path for the new backup tree,
    [_process_request] logs "no backup path", takes the backup tree off the
    link again and hands its tag back: the tree, the primary's [tag_index]
    and all forwarding state are exactly what they were, nothing is put on
    the work queue and nothing has been sent. The tree object that was
    created is left behind, referenced by nothing. *)
Theorem unprotectable_edge_untouched (join : join_fn) (F : nat) (v : node)
    (ip_group ip_source : Z) (T : handle) (down : gset edge) (before_x : option node)
    (x y : node) (s : state) (t primt : tree) (tag : Z) :
  let predecessor :=
    match before_x with Some p => Some p | None => t_predecessor_switch t end in
  let bt :=
    {| t_adj := {[x := ∅]}; t_root := x; t_parent := Some T;
       t_primary := t_primary t; t_predecessor_switch := predecessor;
       t_tag := Some tag; t_tag_index := None |} in
  heap_fresh s →
  heap s !! T = Some t →
  nx.edge_data (t_adj t) x y = Some None →
  heap s !! t_primary t = Some primt →
  t_tag_index primt = Some tag →
  (1 ≤ tag ≤ 4094)%Z →
  join (network s) (down ∪ {[(x, y)]} ∪ {[(y, x)]}) bt v = Ret [] →
  protect_edge join F v ip_group ip_source T down (before_x, x, y) s =
  (Ret [],
   {| network := network s; node_attrs := node_attrs s; ip_2_mac := ip_2_mac s;
      sent := sent s; logs := logs s ++ [LogNoBackupPath x v]; groups := groups s;
      heap := <[next_handle s := bt]> (heap s);
      next_handle := S (next_handle s) |}).
Proof.
  intros predecessor bt Hfresh HT Hxy Hprim Hidx Htag Hjoin.
  assert (T ≠ next_handle s) as HTn.
  { intros ->. assert (next_handle s < next_handle s) by (apply Hfresh; eauto). lia. }
  assert (t_primary t ≠ next_handle s) as HPn.
  { intros Heq. assert (t_primary t < next_handle s) by (apply Hfresh; eauto). lia. }
  unfold nx.edge_data in Hxy. destruct (t_adj t !! x) as [nb|] eqn:Hx; [|done].
  unfold protect_edge. erewrite bind_run; [|by apply get_tree_run].
  fold predecessor. unfold nx.edge_data. rewrite Hx, Hxy.
  erewrite bind_run; [|reflexivity].
  set (tag1 := if bool_decide (max_vid < tag + 1)%Z then 1%Z else (tag + 1)%Z).
  set (nh := next_handle s) in *.
  set (adjB := <[x := <[y := Some nh]> nb]> (t_adj t)).
  set (t1 := if decide (t_primary t = T) then set_tag_index t tag1 else t).
  assert (t_adj t1 = t_adj t) as Hadj1 by (unfold t1; by case_decide).
  assert (t_primary t = T → primt = t) as Hsame by (intros Heq; congruence).
  assert (<[x := <[y := None]> (<[y := Some nh]> nb)]> adjB = t_adj t1) as HadjBack.
  { unfold adjB. rewrite !insert_insert_eq, Hadj1.
    rewrite (insert_id nb y None Hxy). by apply insert_id. }
  erewrite bind_run.
  2:{ erewrite bind_run; [|by eapply create_backup_run].
      fold tag1 bt nh. erewrite bind_run.
      2:{ unfold tree_set_backup. erewrite bind_run.
          2:{ apply (get_tree_run _ _ t1). cbn [heap]. rewrite lookup_insert.
              unfold t1. case_decide as Hc.
              - by rewrite (Hsame Hc).
              - by rewrite lookup_insert_ne. }
          rewrite Hadj1, Hx. erewrite bind_run; [|reflexivity].
          rewrite Hxy. erewrite bind_run; [|reflexivity]. reflexivity. }
      reflexivity. }
  fold adjB. erewrite bind_run.
  2:{ unfold call_join. erewrite bind_run; [|reflexivity].
      erewrite bind_run.
      2:{ apply (get_tree_run _ _ bt). cbn [heap].
          rewrite !lookup_insert_ne by done. apply lookup_insert_eq. }
      cbn [network]. rewrite Hjoin. reflexivity. }
  cbn [length]. rewrite bool_decide_eq_false_2 by lia.
  erewrite bind_run; [|reflexivity].
  erewrite bind_run.
  2:{ apply (get_tree_run _ _ bt). cbn [heap].
      rewrite !lookup_insert_ne by done. apply lookup_insert_eq. }
  assert (nx.number_of_edges (t_adj bt) = 0) as ->.
  { unfold nx.number_of_edges, bt. cbn [t_adj]. by rewrite map_fold_singleton. }
  rewrite bool_decide_eq_true_2 by done.
  erewrite bind_run.
  2:{ erewrite bind_run.
      2:{ unfold tree_set_backup. erewrite bind_run.
          2:{ apply get_tree_run. cbn [heap]. apply lookup_insert_eq. }
          cbn [set_adj t_adj]. unfold adjB at 1. rewrite lookup_insert_eq.
          erewrite bind_run; [|reflexivity]. rewrite lookup_insert_eq.
          erewrite bind_run; [|reflexivity].
          rewrite HadjBack. cbn [set_adj]. reflexivity. }
      eapply (undo_tree_run _ _ bt (set_tag_index primt tag1) tag1).
      - cbn [heap]. rewrite !lookup_insert_ne by done. apply lookup_insert_eq.
      - cbn [bt t_parent]. eauto.
      - cbn [heap bt t_primary]. rewrite lookup_insert. case_decide as Hc.
        + f_equal. symmetry in Hc. rewrite (Hsame Hc). unfold t1.
          rewrite decide_True by done. by destruct t.
        + rewrite lookup_insert_ne by done. apply lookup_insert_eq.
      - done. }
  cbn. f_equal. f_equal.
  rewrite (tag_back tag tag1 eq_refl Htag), (set_tag_index_back _ _ _ Hidx).
  rewrite set_adj_back. apply map_eq. intros h. rewrite !lookup_insert.
  destruct (decide (t_primary t = h)) as [<-|Hp].
  { rewrite decide_False by done. done. }
  destruct (decide (T = h)) as [<-|Ht]; [|done].
  rewrite decide_False by done. unfold t1. rewrite decide_False by done. done.
Qed.

Local Open Scope Z_scope.

(** In [Example.oneway] the host [8] hangs on switch [2] alone: its link
    cannot be protected. *)
Lemma unprotectable_edge_untouched_witness :
  protect_edge SPT.join 1 8 230 10 0%nat ∅ (Some 1, 2, 8) oneway_unprotected =
  (Ret [],
   {| network := network oneway_unprotected;
      node_attrs := node_attrs oneway_unprotected;
      ip_2_mac := ip_2_mac oneway_unprotected;
      sent := sent oneway_unprotected;
      logs := logs oneway_unprotected ++ [LogNoBackupPath 2 8];
      groups := groups oneway_unprotected;
      heap :=
        <[next_handle oneway_unprotected :=
            {| t_adj := {[2 := ∅]}; t_root := 2; t_parent := Some 0%nat;
               t_primary := t_primary tree_1_2_8; t_predecessor_switch := Some 1;
               t_tag := Some 1; t_tag_index := None |}]>
          (heap oneway_unprotected);
      next_handle := S (next_handle oneway_unprotected) |}).
Proof.
  apply (unprotectable_edge_untouched SPT.join 1 8 230 10 0%nat ∅ (Some 1) 2 8
           oneway_unprotected tree_1_2_8 tree_1_2_8 1).
  - assert (map_Forall (λ h _, (h < next_handle oneway_unprotected)%nat)
              (heap oneway_unprotected)) as Hall.
    { apply (bool_decide_unpack _). by vm_compute. }
    intros h [x Hx]. exact (Hall h x Hx).
  - by vm_compute.
  - by vm_compute.
  - by vm_compute.
  - done.
  - lia.
  - by vm_compute.
Defined.

Local Close Scope Z_scope.

(** * Shortest paths *)

Lemma chain_snoc_inv {A} (R : A → A → Prop) p a b :
  chain R (p ++ [b]) → last p = Some a → chain R p ∧ R a b.
Proof.
  induction p as [|x q IH]; [done|]. intros Hc Hl. destruct q as [|y q'].
  - simpl in *. injection Hl as ->. destruct Hc as [Hab _]. auto.
  - destruct Hc as [Hxy Hc]. destruct (IH Hc Hl) as [Hq Hab]. split; [|done].
    split; done.
Qed.

(** Dijkstra's search finds least-cost paths. *)
Section dijkstra_optimal.
Context {E : Type} (G : gmap node (gmap node E)).
Context (w : node → node → E → option Q) (S0 : list node) (t : node).
Hypothesis G_wf : nx.wf G.
Hypothesis S0_in_G : ∀ s, s ∈ S0 → is_Some (G !! s).
Hypothesis w_nonneg : ∀ x y e c, w x y e = Some c → (0 <= c)%Q.

(** The cost of an edge, and of a path: the sum over its edges. *)
Definition cost (a b : node) : Q :=
  match G !! a with
  | Some nb => match nb !! b with Some e => default 0%Q (w a b e) | None => 0%Q end
  | None => 0%Q
  end.

Fixpoint pweight (p : list node) : Q :=
  match p with
  | a :: r => match r with b :: _ => (cost a b + pweight r)%Q | [] => 0%Q end
  | [] => 0%Q
  end.

Lemma cost_nonneg a b : (0 <= cost a b)%Q.
Proof.
  unfold cost. destruct (G !! a) as [nb|]; [|lra].
  destruct (nb !! b) as [e|]; [|lra].
  destruct (w a b e) as [c|] eqn:Hw; simpl; [eauto|lra].
Qed.

Lemma cost_edge v u nb e c :
  G !! v = Some nb → nb !! u = Some e → w v u e = Some c → cost v u = c.
Proof. intros HG Hnb Hw. unfold cost. by rewrite HG, Hnb, Hw. Qed.

Lemma pweight_nonneg p : (0 <= pweight p)%Q.
Proof.
  induction p as [|a r IH]; simpl; [lra|]. destruct r as [|b r']; [lra|].
  pose proof (cost_nonneg a b). lra.
Qed.

Lemma pweight_snoc p v u :
  last p = Some v → (pweight (p ++ [u]) == pweight p + cost v u)%Q.
Proof.
  induction p as [|a r IH]; [done|]. intros Hl. destruct r as [|b r'].
  - simpl in *. injection Hl as ->. lra.
  - specialize (IH Hl). cbn [app pweight] in *. lra.
Qed.

(** What the search knows at the head of the loop ([cur = None]) and while
    it goes through the successors of [v] ([cur = Some v]): the recorded
    distance of a node is the cost of its recorded path; settled nodes keep
    theirs; the edges out of a settled node have been looked at; every
    node that is seen and not settled waits in the fringe with its
    distance, and no fringe entry is below the distance of its node. *)
Record oinv (cur : option node) (st : nx.dstate) : Prop := {
  oi_weight : ∀ u su p, nx.seen st !! u = Some su → nx.paths st !! u = Some p →
    (pweight p == su)%Q;
  oi_settled : ∀ v dv, nx.dist st !! v = Some dv →
    ∃ sv, nx.seen st !! v = Some sv ∧ (sv == dv)%Q;
  oi_closed : ∀ v dv u, nx.dist st !! v = Some dv → cur ≠ Some v → usable G w v u →
    ∃ su, nx.seen st !! u = Some su ∧ (su <= dv + cost v u)%Q;
  oi_fringe_seen : ∀ u su, nx.seen st !! u = Some su → nx.dist st !! u = None →
    ∃ d c, (d, c, u) ∈ nx.fringe st ∧ (d == su)%Q;
  oi_fringe_ge : ∀ d c u, (d, c, u) ∈ nx.fringe st →
    ∃ su, nx.seen st !! u = Some su ∧ (su <= d)%Q
}.

(** A walk from a source either ends in a settled node, at a distance
    that is at most the cost of the walk, or has passed a node that still
    waits in the fringe with such a distance. *)
Lemma walk_bound st q s x :
  dinv G w S0 t None st → oinv None st →
  s ∈ S0 → head q = Some s → last q = Some x → chain (usable G w) q →
  (∃ dx, nx.dist st !! x = Some dx ∧ (dx <= pweight q)%Q) ∨
  (∃ y su, nx.seen st !! y = Some su ∧ nx.dist st !! y = None ∧ (su <= pweight q)%Q).
Proof.
  intros I O Hs. revert x. induction q as [|u q IH] using rev_ind; [done|].
  intros x Hh Hl Hc. rewrite last_snoc in Hl. injection Hl as <-.
  assert (∀ y sy c, nx.seen st !! y = Some sy → (sy <= c)%Q →
            (∃ dx, nx.dist st !! y = Some dx ∧ (dx <= c)%Q) ∨
            (∃ y' su, nx.seen st !! y' = Some su ∧ nx.dist st !! y' = None ∧
                      (su <= c)%Q)) as Hcase.
  { intros y sy c Hy Hle. destruct (nx.dist st !! y) as [dy|] eqn:Hdy.
    - left. exists dy. split; [done|].
      destruct (oi_settled _ _ O _ _ Hdy) as (sv & Hsv & Heq).
      rewrite Hy in Hsv. injection Hsv as <-. lra.
    - right. exists y, sy. done. }
  destruct q as [|a q'] eqn:Hq.
  - simpl in Hh. injection Hh as ->.
    destruct (di_sources _ _ _ _ _ _ I _ Hs) as (q0 & Hq0 & Hle).
    apply (Hcase s q0); [done|]. simpl. done.
  - rewrite <- Hq in *. assert (is_Some (last q)) as [v Hv].
    { rewrite Hq. rewrite last_cons. destruct (last q'); eauto. }
    destruct (chain_snoc_inv _ _ _ _ Hc Hv) as [Hcq Hvu].
    pose proof (pweight_snoc q v u Hv) as Hw.
    pose proof (cost_nonneg v u) as Hc0.
    destruct (IH v) as [(dv & Hdv & Hle)|(y & su & Hy & Hdy & Hle)]; auto.
    { rewrite Hq in *. done. }
    + destruct (oi_closed _ _ O v dv u Hdv) as (su & Hsu & Hle'); [done|done|].
      apply (Hcase u su); [done|]. lra.
    + right. exists y, su. split_and!; [done|done|lra].
Qed.

Lemma oinv_push v d st u e nb cst pv :
  dinv G w S0 t (Some v) st → oinv (Some v) st →
  nx.dist st !! v = Some d →
  G !! v = Some nb → nb !! u = Some e → w v u e = Some cst →
  nx.dist st !! u = None →
  nx.paths st !! v = Some pv →
  (∀ su, nx.seen st !! u = Some su → (d + cst < su)%Q) →
  oinv (Some v) (nx.push (d + cst) u pv st).
Proof.
  intros I O Hdv HG Hnb Hw Hdu Hpv Hsu.
  assert (v ≠ u) as Hvu by congruence.
  destruct (di_paths _ _ _ _ _ _ I _ _ Hpv) as (s & r & Hpveq & Hs & Hr & Hl & Hch).
  destruct (oi_settled _ _ O _ _ Hdv) as (sv & Hsv & Hsveq).
  pose proof (oi_weight _ _ O _ _ _ Hsv Hpv) as Hwpv.
  split; simpl.
  - intros x sx p. destruct (decide (x = u)) as [->|Hne].
    + rewrite !lookup_insert_eq. intros [= <-] [= <-].
      rewrite (pweight_snoc pv v u Hl). rewrite (cost_edge v u nb e cst) by done. lra.
    + rewrite !lookup_insert_ne by done. apply (oi_weight _ _ O).
  - intros x dx Hx. destruct (decide (x = u)) as [->|Hne]; [congruence|].
    rewrite lookup_insert_ne by done. by apply (oi_settled _ _ O).
  - intros v' dv' x Hv' Hcur Hux.
    destruct (oi_closed _ _ O _ _ _ Hv' Hcur Hux) as (sx & Hsx & Hle).
    destruct (decide (x = u)) as [->|Hne].
    + rewrite lookup_insert_eq. eexists. split; [done|]. specialize (Hsu _ Hsx). lra.
    + rewrite lookup_insert_ne by done. eauto.
  - intros x sx. destruct (decide (x = u)) as [->|Hne].
    + rewrite lookup_insert_eq. intros [= <-] _. exists (d + cst)%Q, (nx.counter st).
      split; [apply elem_of_cons; by left|lra].
    + rewrite lookup_insert_ne by done. intros Hx Hdx.
      destruct (oi_fringe_seen _ _ O _ _ Hx Hdx) as (d' & c' & Hin & Heq).
      exists d', c'. split; [apply elem_of_cons; by right|done].
  - intros d' c' x Hin. apply elem_of_cons in Hin as [[= -> -> ->]|Hin].
    + rewrite lookup_insert_eq. eexists. split; [done|lra].
    + destruct (oi_fringe_ge _ _ O _ _ _ Hin) as (sx & Hsx & Hle).
      destruct (decide (x = u)) as [->|Hne].
      * rewrite lookup_insert_eq. eexists. split; [done|]. specialize (Hsu _ Hsx). lra.
      * rewrite lookup_insert_ne by done. eauto.
Qed.

(** Distances only go down. *)
Definition improves (st st' : nx.dstate) : Prop :=
  ∀ x sx, nx.seen st !! x = Some sx → ∃ sx', nx.seen st' !! x = Some sx' ∧ (sx' <= sx)%Q.

Lemma improves_refl st : improves st st.
Proof. intros x sx Hx. exists sx. split; [done|lra]. Qed.

Lemma improves_trans st1 st2 st3 :
  improves st1 st2 → improves st2 st3 → improves st1 st3.
Proof.
  intros H1 H2 x sx Hx. destruct (H1 _ _ Hx) as (s2 & Hs2 & Hle2).
  destruct (H2 _ _ Hs2) as (s3 & Hs3 & Hle3). exists s3. split; [done|lra].
Qed.

Lemma relax_oinv v d st u e nb st' :
  dinv G w S0 t (Some v) st → oinv (Some v) st →
  nx.dist st !! v = Some d →
  (∀ x dx, nx.dist st !! x = Some dx → (dx <= d)%Q) →
  G !! v = Some nb → nb !! u = Some e →
  nx.relax w v d st (u, e) = inr st' →
  oinv (Some v) st' ∧ improves st st' ∧
  (is_Some (w v u e) → ∃ su, nx.seen st' !! u = Some su ∧ (su <= d + cost v u)%Q).
Proof.
  intros I O Hdv Hmax HG Hnb. unfold nx.relax.
  destruct (w v u e) as [cst|] eqn:Hw.
  2:{ intros [= <-]. split_and!; [done|apply improves_refl|by intros []]. }
  assert (0 <= cst)%Q as Hc by eauto.
  rewrite (cost_edge v u nb e cst) by done.
  destruct (nx.dist st !! u) as [du|] eqn:Hdu.
  { destruct (nx.Qlt_bool (d + cst) du); [done|]. intros [= <-].
    split_and!; [done|apply improves_refl|]. intros _.
    destruct (oi_settled _ _ O _ _ Hdu) as (su & Hsu & Heq).
    exists su. split; [done|]. specialize (Hmax _ _ Hdu). lra. }
  assert (is_Some (nx.paths st !! v)) as [pv Hpv].
  { apply (di_seen_paths _ _ _ _ _ _ I), (di_dist_seen _ _ _ _ _ _ I). eauto. }
  rewrite Hpv.
  assert (∀ st', st' = nx.push (d + cst) u pv st →
     (∀ su, nx.seen st !! u = Some su → (d + cst < su)%Q) →
     oinv (Some v) st' ∧ improves st st' ∧
     (is_Some (Some cst) → ∃ su, nx.seen st' !! u = Some su ∧ (su <= d + cst)%Q))
    as Hpush.
  { intros st1 -> Hsu. split_and!.
    - eapply oinv_push; eauto.
    - intros x sx Hx. simpl. destruct (decide (x = u)) as [->|Hne].
      + rewrite lookup_insert_eq. eexists. split; [done|]. specialize (Hsu _ Hx). lra.
      + rewrite lookup_insert_ne by done. exists sx. split; [done|lra].
    - intros _. simpl. rewrite lookup_insert_eq. eexists. split; [done|lra]. }
  simpl. destruct (nx.seen st !! u) as [su|] eqn:Hsu.
  - destruct (nx.Qlt_bool (d + cst) su) eqn:Hlt.
    + intros [= <-]. apply Hpush; [done|]. intros ? [= <-]. by apply Qlt_bool_true.
    + intros [= <-]. split_and!; [done|apply improves_refl|]. intros _.
      exists su. split; [done|]. by apply Qlt_bool_false.
  - intros [= <-]. apply Hpush; [done|]. intros ?; done.
Qed.

Lemma relax_all_oinv v d nb items : ∀ st st',
  dinv G w S0 t (Some v) st → oinv (Some v) st →
  nx.dist st !! v = Some d →
  (∀ x dx, nx.dist st !! x = Some dx → (dx <= d)%Q) →
  (0 <= d)%Q →
  G !! v = Some nb → (∀ u e, (u, e) ∈ items → nb !! u = Some e) →
  nx.relax_all w v d st items = inr st' →
  oinv (Some v) st' ∧ improves st st' ∧
  (∀ u e, (u, e) ∈ items → is_Some (w v u e) →
          ∃ su, nx.seen st' !! u = Some su ∧ (su <= d + cost v u)%Q).
Proof.
  induction items as [|[u e] items IH]; intros st st' I O Hdv Hmax Hd0 HG Hit.
  - intros [= <-]. split_and!; [done|apply improves_refl|].
    intros ? ? Hin. by apply elem_of_nil in Hin.
  - cbn [nx.relax_all].
    assert (nb !! u = Some e) as Hnb by (apply Hit, elem_of_cons; by left).
    destruct (relax_inv G w S0 t G_wf w_nonneg v d st u e nb)
      as (st1 & Hr1 & I1 & Hd1 & _); auto.
    rewrite Hr1. intros Hrest.
    destruct (relax_oinv v d st u e nb st1) as (O1 & Himp1 & Hu1); auto.
    destruct (IH st1 st') as (O2 & Himp2 & Hu2); auto.
    { by rewrite Hd1. }
    { intros ??. rewrite Hd1. apply Hmax. }
    { intros ?? Hin. apply Hit. apply elem_of_cons. by right. }
    split_and!; [done|by eapply improves_trans|].
    intros u' e' Hin Hw'. apply elem_of_cons in Hin as [[= -> ->]|Hin]; [|eauto].
    destruct (Hu1 Hw') as (su & Hsu & Hle).
    destruct (Himp2 _ _ Hsu) as (su' & Hsu' & Hle'). exists su'. split; [done|lra].
Qed.

Lemma oinv_pop st d c v rest :
  oinv None st → nx.fringe st ≡ₚ (d, c, v) :: rest →
  is_Some (nx.dist st !! v) →
  oinv None {| nx.dist := nx.dist st; nx.seen := nx.seen st;
               nx.paths := nx.paths st; nx.fringe := rest;
               nx.counter := nx.counter st |}.
Proof.
  intros O Hperm [dv Hv]. split; simpl; try apply O.
  - intros u su Hu Hdu. destruct (oi_fringe_seen _ _ O _ _ Hu Hdu) as (d' & c' & Hin & Heq).
    rewrite Hperm in Hin. apply elem_of_cons in Hin as [[= -> -> ->]|Hin]; [congruence|].
    eauto.
  - intros d' c' u Hin. apply (oi_fringe_ge _ _ O _ c'). rewrite Hperm.
    apply elem_of_cons. by right.
Qed.

(** The entry that is popped for a node that is not settled carries the
    distance of the node. *)
Lemma popped_is_seen st d c v rest :
  oinv None st → nx.fringe st ≡ₚ (d, c, v) :: rest →
  (∀ y, y ∈ nx.fringe st → (d <= y.1.1)%Q) →
  nx.dist st !! v = None →
  ∃ sv, nx.seen st !! v = Some sv ∧ (sv == d)%Q.
Proof.
  intros O Hperm Hmin Hv.
  assert ((d, c, v) ∈ nx.fringe st) as Hin0.
  { rewrite Hperm. apply elem_of_cons. by left. }
  destruct (oi_fringe_ge _ _ O _ _ _ Hin0) as (sv & Hsv & Hle).
  exists sv. split; [done|].
  destruct (oi_fringe_seen _ _ O _ _ Hsv Hv) as (d' & c' & Hin & Heq).
  specialize (Hmin _ Hin). simpl in Hmin. lra.
Qed.

Lemma oinv_settle st d c v rest :
  oinv None st → nx.fringe st ≡ₚ (d, c, v) :: rest →
  (∀ y, y ∈ nx.fringe st → (d <= y.1.1)%Q) →
  nx.dist st !! v = None →
  oinv (Some v) {| nx.dist := <[v := d]> (nx.dist st); nx.seen := nx.seen st;
                   nx.paths := nx.paths st; nx.fringe := rest;
                   nx.counter := nx.counter st |}.
Proof.
  intros O Hperm Hmin Hv.
  destruct (popped_is_seen st d c v rest O Hperm Hmin Hv) as (sv & Hsv & Heq).
  split; simpl; try apply O.
  - intros x dx. destruct (decide (x = v)) as [->|Hne].
    + rewrite lookup_insert_eq. intros [= <-]. eauto.
    + rewrite lookup_insert_ne by done. apply (oi_settled _ _ O).
  - intros v' dv' u Hv' Hcur Hu. assert (v' ≠ v) by congruence.
    rewrite lookup_insert_ne in Hv' by done. eapply (oi_closed _ _ O); eauto.
  - intros u su Hu Hdu. destruct (decide (u = v)) as [->|Hne].
    { by rewrite lookup_insert_eq in Hdu. }
    rewrite lookup_insert_ne in Hdu by done.
    destruct (oi_fringe_seen _ _ O _ _ Hu Hdu) as (d' & c' & Hin & Heq').
    rewrite Hperm in Hin. apply elem_of_cons in Hin as [[= -> -> ->]|Hin]; [done|].
    eauto.
  - intros d' c' u Hin. apply (oi_fringe_ge _ _ O _ c'). rewrite Hperm.
    apply elem_of_cons. by right.
Qed.

Lemma oinv_close st v d nb :
  oinv (Some v) st → G !! v = Some nb → nx.dist st !! v = Some d →
  (∀ u e, (u, e) ∈ map_to_list nb → is_Some (w v u e) →
          ∃ su, nx.seen st !! u = Some su ∧ (su <= d + cost v u)%Q) →
  oinv None st.
Proof.
  intros O HG Hd Hcl. split; try apply O.
  intros v' dv' u Hv' _ Hu. destruct (decide (v' = v)) as [->|Hne].
  - destruct Hu as (nb' & e & HG' & Hnb & Hw). rewrite HG in HG'. injection HG' as <-.
    rewrite Hd in Hv'. injection Hv' as <-.
    eapply Hcl; [|done]. by apply elem_of_map_to_list.
  - eapply (oi_closed _ _ O); eauto. congruence.
Qed.

(** The path recorded for the target when the loop ends costs no more
    than any walk from a source to the target. *)
Definition opost (st : nx.dstate) : Prop :=
  ∀ p q s, nx.paths st !! t = Some p →
    s ∈ S0 → head q = Some s → last q = Some t → chain (usable G w) q →
    (pweight p <= pweight q)%Q.

Lemma dijkstra_loop_optimal fuel : ∀ st st',
  dinv G w S0 t None st → oinv None st →
  nx.dijkstra_loop fuel G w t st = Ret st' → opost st'.
Proof.
  induction fuel as [|fuel IH]; intros st st' I O; [done|].
  cbn [nx.dijkstra_loop].
  destruct (nx.heappop (nx.fringe st)) as [[[[d c] v] rest]|] eqn:Hpop.
  2:{ intros [= <-] p q s _ Hs Hh Hl Hc.
      assert (nx.fringe st = []) as Hf.
      { destruct (nx.fringe st); [done|discriminate]. }
      assert (rtc (usable G w) s t) as Hr by (by eapply chain_rtc).
      pose proof (dinv_settled_all G w S0 t st s t I Hf Hs Hr) as [? Hd].
      rewrite (di_target _ _ _ _ _ _ I) in Hd. done. }
  apply heappop_spec in Hpop as [Hperm Hmin].
  assert ((d, c, v) ∈ nx.fringe st) as Hin0.
  { rewrite Hperm. apply elem_of_cons. by left. }
  destruct (nx.dist st !! v) as [dv|] eqn:Hdv.
  { apply IH.
    - eapply dinv_pop; eauto.
    - eapply oinv_pop; eauto. }
  destruct (decide (v = t)) as [->|Hvt].
  { intros [= <-] p q s Hp Hs Hh Hl Hc. simpl in Hp.
    destruct (popped_is_seen st d c t rest O Hperm Hmin Hdv) as (sv & Hsv & Heq).
    rewrite (oi_weight _ _ O _ _ _ Hsv Hp).
    destruct (walk_bound st q s t I O Hs Hh Hl Hc)
      as [(dx & Hdx & _)|(y & su & Hy & Hdy & Hle)]; [congruence|].
    destruct (oi_fringe_seen _ _ O _ _ Hy Hdy) as (d' & c' & Hin & Heq').
    specialize (Hmin _ Hin). simpl in Hmin. lra. }
  destruct (di_seen_G _ _ _ _ _ _ I v) as [nb HG].
  { apply (di_fringe _ _ _ _ _ _ I _ _ _ Hin0). }
  rewrite HG.
  pose proof (dinv_settle G w S0 t st d c v rest I Hperm Hmin Hdv Hvt) as I2.
  pose proof (oinv_settle st d c v rest O Hperm Hmin Hdv) as O2.
  assert (∀ x dx,
    nx.dist {| nx.dist := <[v:=d]> (nx.dist st); nx.seen := nx.seen st;
               nx.paths := nx.paths st; nx.fringe := rest;
               nx.counter := nx.counter st |} !! x = Some dx → (dx <= d)%Q) as Hmax.
  { simpl. intros x dx Hx. destruct (decide (x = v)) as [->|Hne].
    + rewrite lookup_insert_eq in Hx. injection Hx as <-. lra.
    + rewrite lookup_insert_ne in Hx by done. eapply (di_mono _ _ _ _ _ _ I); eauto. }
  assert (0 <= d)%Q as Hd0 by apply (di_fringe _ _ _ _ _ _ I _ _ _ Hin0).
  edestruct (relax_all_inv G w S0 t G_wf w_nonneg v d nb (map_to_list nb)) as
    (st3 & Hrun & I3 & Hd3 & Hf3 & Hs3 & Hu3); [exact I2| |exact Hmax|exact Hd0|exact HG| |].
  - simpl. by rewrite lookup_insert_eq.
  - intros u e. apply elem_of_map_to_list.
  - rewrite Hrun.
    destruct (relax_all_oinv v d nb (map_to_list nb) _ st3 I2 O2) as (O3 & _ & Hcl);
      auto.
    { simpl. by rewrite lookup_insert_eq. }
    { intros u e. apply elem_of_map_to_list. }
    apply IH.
    + eapply dinv_close; eauto.
    + eapply oinv_close; eauto. rewrite Hd3. simpl. by rewrite lookup_insert_eq.
Qed.

Lemma init_state_oinv : oinv None (nx.init_state S0).
Proof.
  unfold nx.init_state.
  match goal with |- oinv _ (foldl _ ?st0 _) =>
    destruct (init_fold S0 st0) as (Hd & Hp & Hl & Hs & Hf & _ & Hu) end.
  simpl in *. split.
  - intros u su p. rewrite Hs, Hp. intros Hu' H.
    apply init_paths_lookup in H as [-> Hin].
    rewrite bool_decide_eq_true_2 in Hu' by done. injection Hu' as <-. simpl. lra.
  - intros v dv. rewrite Hd, lookup_empty. done.
  - intros v dv u. rewrite Hd, lookup_empty. done.
  - intros u su. rewrite Hs. destruct (decide (u ∈ S0)) as [Hin|Hnin].
    + rewrite bool_decide_eq_true_2 by done. intros [= <-] _.
      destruct (Hu _ Hin) as [c Hc]. exists 0%Q, c. split; [done|lra].
    + rewrite bool_decide_eq_false_2 by done. rewrite lookup_empty. done.
  - intros d c u Hin. destruct (Hf _ _ _ Hin) as [Hn|[-> Hin']].
    + by apply elem_of_nil in Hn.
    + rewrite Hs, bool_decide_eq_true_2 by done. eexists. split; [done|lra].
Qed.

(** The path [multi_source_dijkstra] reports for the target costs no more
    than any walk from a source to the target along usable edges. *)
Lemma multi_source_dijkstra_optimal ps p q s :
  t ∉ S0 →
  nx.multi_source_dijkstra G S0 t w = Ret ps → ps !! t = Some p →
  s ∈ S0 → head q = Some s → last q = Some t → chain (usable G w) q →
  (pweight p <= pweight q)%Q.
Proof.
  intros Ht Hrun Hp Hs Hh Hl Hc. unfold nx.multi_source_dijkstra in Hrun.
  destruct S0 as [|a l] eqn:HS0; [done|]. rewrite <- HS0 in *.
  rewrite bool_decide_eq_false_2 in Hrun by done.
  destruct (nx.dijkstra_loop _ G w t _) as [st| |] eqn:Hloop; [|done|done].
  injection Hrun as <-.
  eapply (dijkstra_loop_optimal _ _ st); eauto.
  - by apply init_state_inv.
  - apply init_state_oinv.
Qed.

End dijkstra_optimal.

(** ** The join strategies are greedy *)

Lemma inject_nat_le (a b : nat) :
  (inject_Z (Z.of_nat a) <= inject_Z (Z.of_nat b))%Q → a ≤ b.
Proof. rewrite <- Zle_Qle. lia. Qed.

(** With the weights of [DST.join] every usable edge costs one. *)
Lemma DST_pweight network exclude T l :
  chain (usable network (DST.weight exclude T)) l →
  (pweight network (DST.weight exclude T) l == inject_Z (Z.of_nat (length l - 1)))%Q.
Proof.
  induction l as [|a r IH]; [done|]. intros [Hh Hc]. destruct r as [|b r'].
  { simpl. done. }
  specialize (IH Hc). cbn [pweight]. rewrite IH.
  assert (cost network (DST.weight exclude T) a b = 1%Q) as ->.
  { destruct Hh as (nb & e & HG & Hnb & Hw). unfold cost. rewrite HG, Hnb.
    unfold DST.weight in *. destruct (negb (live e)); [by destruct Hw|].
    case_bool_decide; [by destruct Hw|].
    destruct (negb (nx.has_edge (t_adj T) a b) && nx.has_node (t_adj T) b);
      [by destruct Hw|done]. }
  cbn [length]. replace (S (S (length r')) - 1) with (S (S (length r') - 1)) by lia.
  rewrite Nat2Z.inj_succ, <- Z.add_1_l, inject_Z_plus. done.
Qed.

(** [DST.join] attaches the subscriber by as few new links as possible.
    On a well-formed network that has the nodes of the tree, the number of
    nodes of the returned path that are outside the tree (each costs one
    new link) is at most the number of hops of any walk that leads from a
    node of the tree to the subscriber along admissible links. *)
Theorem DST_join_fewest_new_links (network : gmap node (gmap node edata))
    (exclude : gset edge) (T : tree) (v : node) (p q : list node) (s : node) :
  nx.wf network →
  (∀ n, in_tree T n → is_Some (network !! n)) →
  DST.join network exclude T v = Ret p → p ≠ [] →
  in_tree T s → head q = Some s → last q = Some v →
  chain (admissible network exclude T) q →
  length (filter (λ x, nx.has_node (t_adj T) x = false) p) ≤ length q - 1.
Proof.
  intros Hwf HTG Hj Hne Hs Hh Hl Hc. unfold DST.join in Hj.
  destruct (nx.has_node (t_adj T) v) eqn:Hv; [by injection Hj as <-|].
  apply has_node_not_in_tree in Hv. unfold DST.join_body in Hj.
  destruct (nx.multi_source_dijkstra _ _ _ _) as [ps|[]|] eqn:Hms; try done;
    try (by injection Hj as <-).
  destruct (ps !! v) as [path|] eqn:Hpath; [|by injection Hj as <-].
  destruct (multi_source_dijkstra_sound _ _ _ _ _ Hms _ _ Hpath)
    as ((s0 & Hs0 & Hh0) & Hl0 & Hc0).
  destruct path as [|w r]; [done|]. simpl in Hh0. injection Hh0 as ->.
  assert (in_tree T s0) as Hs0T.
  { unfold nx.nodes in Hs0. by apply elem_of_elements, elem_of_dom in Hs0. }
  destruct (DST.walk_up _ _ _ _) as [anc|[]|] eqn:Hw; try done;
    try (by injection Hj as <-).
  injection Hj as <-. apply walk_up_sound in Hw as (up & -> & Hup & _).
  rewrite app_nil_l.
  assert (filter (λ x, nx.has_node (t_adj T) x = false) (reverse up) = []) as Hpre.
  { assert (∀ x, x ∈ reverse up → in_tree T x) as Hall.
    { intros x Hx. apply Hup. by apply elem_of_reverse. }
    induction (reverse up) as [|x l IH]; [done|].
    rewrite filter_cons_False.
    - apply IH. intros y Hy. apply Hall. by right.
    - intros Hn. apply has_node_not_in_tree in Hn. apply Hn, Hall. by left. }
  rewrite filter_app, Hpre, app_nil_l, filter_cons_False.
  2:{ intros Hn. by apply has_node_not_in_tree in Hn. }
  etrans; [apply length_filter|]. apply inject_nat_le.
  assert (chain (usable network (DST.weight exclude T)) q) as Hcq.
  { eapply chain_impl; [|exact Hc]. intros a b. apply DST_weight_admissible. }
  assert (chain (usable network (DST.weight exclude T)) (s0 :: r)) as Hcp.
  { eapply chain_impl; [|exact Hc0]. by intros a b [? _]. }
  rewrite <- (DST_pweight _ _ _ _ Hcq).
  replace (length r) with (length (s0 :: r) - 1) by (simpl; lia).
  rewrite <- (DST_pweight _ _ _ _ Hcp).
  apply (multi_source_dijkstra_optimal network (DST.weight exclude T)
           (nx.nodes (t_adj T)) v) with (ps := ps) (s := s); try done.
  - intros x Hx. apply HTG. unfold nx.nodes in Hx.
    by apply elem_of_elements, elem_of_dom in Hx.
  - intros x y e c. unfold DST.weight. destruct (negb (live e)); [done|].
    case_bool_decide; [done|].
    destruct (negb (nx.has_edge (t_adj T) x y) && nx.has_node (t_adj T) y); [done|].
    intros [= <-]. lra.
  - unfold nx.nodes. rewrite elem_of_elements, elem_of_dom. done.
  - unfold nx.nodes. rewrite elem_of_elements, elem_of_dom. done.
Qed.

Lemma DST_join_fewest_new_links_witness :
  length (filter (λ x, nx.has_node (t_adj Example.tree_1_2) x = false) [1; 2; 4; 9]%Z)
  ≤ length [2; 4; 9]%Z - 1.
Proof.
  assert (∀ y : node, y ≠ 1%Z → y ≠ 2%Z → ¬ in_tree Example.tree_1_2 y) as Hout.
  { intros y H1 H2 Hy. apply in_tree_elements in Hy. vm_compute in Hy.
    set_unfold in Hy. by destruct Hy as [->|[->|[]]]. }
  apply (DST_join_fewest_new_links Example.diamond ∅ Example.tree_1_2 9%Z
           [1; 2; 4; 9]%Z [2; 4; 9]%Z 2%Z).
  - unfold nx.wf. apply (bool_decide_unpack _). by vm_compute.
  - intros n Hn. apply in_tree_elements in Hn. vm_compute in Hn. set_unfold in Hn.
    destruct Hn as [->|[->|[]]]; vm_compute; eauto.
  - by vm_compute.
  - done.
  - unfold in_tree. vm_compute. eauto.
  - done.
  - done.
  - cbn [chain]. split_and!; try done; unfold admissible;
      (eexists; split_and!; [by vm_compute|done|set_solver|right; by apply Hout]).
Defined.

(** The hops of a walk that run along the tree. *)
Definition tree_hops (T : tree) (p : list node) : nat :=
  length (filter (λ e : node * node, nx.has_edge (t_adj T) e.1 e.2 = true)
            (consecutive p)).

Lemma NoDup_consecutive p : NoDup p → NoDup (consecutive p).
Proof.
  intros Hp. apply (NoDup_fmap_1 snd). unfold consecutive.
  rewrite snd_zip; [|rewrite length_drop; lia].
  eapply (sublist_NoDup _ p); [done|apply sublist_drop].
Qed.

(** Distinct edges of a graph are at most [number_of_edges]. *)
Lemma edges_bound {E} (l : list (node * node)) :
  ∀ G : gmap node (gmap node E),
  NoDup l → (∀ e, e ∈ l → nx.has_edge G e.1 e.2 = true) →
  length l ≤ nx.number_of_edges G.
Proof.
  induction l as [|[x y] l IH]; intros G Hnd Hall; [simpl; lia|].
  apply NoDup_cons in Hnd as [Hnin Hnd].
  assert (nx.has_edge G x y = true) as Hxy by (apply (Hall (x, y)); by left).
  unfold nx.has_edge, nx.edge_data in Hxy.
  destruct (G !! x) as [nb|] eqn:HG; [|done]. simpl in Hxy.
  destruct (nb !! y) as [d|] eqn:Hnb; [|done].
  specialize (IH (<[x := delete y nb]> G) Hnd).
  rewrite (number_of_edges_delete G x nb HG).
  rewrite (number_of_edges_delete (<[x := delete y nb]> G) x (delete y nb)) in IH
    by apply lookup_insert_eq.
  rewrite delete_insert_eq in IH.
  assert (size nb = S (size (delete y nb))) as Hsz.
  { rewrite <- (insert_id nb y d Hnb) at 1. rewrite <- insert_delete_eq.
    rewrite map_size_insert_None; [done|apply lookup_delete_eq]. }
  cbn [length]. rewrite Hsz. cut (length l ≤ size (delete y nb) + nx.number_of_edges (delete x G)); [lia|].
  apply IH. intros [a b] Hin. cbn [fst snd].
  assert (nx.has_edge G a b = true) as Hab by (apply (Hall (a, b)); by right).
  unfold nx.has_edge, nx.edge_data in *.
  destruct (decide (a = x)) as [->|Hax].
  - rewrite lookup_insert_eq. rewrite HG in Hab. simpl in *.
    rewrite lookup_delete_ne; [done|]. intros <-. done.
  - by rewrite lookup_insert_ne.
Qed.

Lemma tree_hops_bound T p : NoDup p → tree_hops T p ≤ nx.number_of_edges (t_adj T).
Proof.
  intros Hp. unfold tree_hops. apply edges_bound.
  - apply NoDup_filter, NoDup_consecutive, Hp.
  - intros e He. by apply list_elem_of_filter in He as [He _].
Qed.

Lemma tree_hops_le_hops T l : tree_hops T l ≤ length l - 1.
Proof.
  unfold tree_hops. etrans; [apply length_filter|]. unfold consecutive.
  rewrite length_zip, length_drop. lia.
Qed.

Lemma inject_Z_scaled (M h k : Z) :
  (inject_Z (M * h - k) == inject_Z M * inject_Z h - inject_Z k)%Q.
Proof. unfold Z.sub. by rewrite inject_Z_plus, inject_Z_opp, inject_Z_mult. Qed.

(** With the weights of [SPT.join] a walk costs its hops, less [epsilon]
    for each hop along the tree. *)
Lemma SPT_pweight network exclude T (m : nat) l :
  chain (usable network (SPT.weight exclude T (1 / inject_Z (Z.of_nat m + 1)))) l →
  (pweight network (SPT.weight exclude T (1 / inject_Z (Z.of_nat m + 1))) l
     * inject_Z (Z.of_nat m + 1)
   == inject_Z ((Z.of_nat m + 1) * Z.of_nat (length l - 1) - Z.of_nat (tree_hops T l)))%Q.
Proof.
  set (M := inject_Z (Z.of_nat m + 1)).
  assert (¬ (M == 0)%Q) as HM.
  { unfold M, Qeq. simpl. lia. }
  induction l as [|a r IH].
  { intros _. change (tree_hops T []) with 0. cbn [pweight length].
    rewrite Qmult_0_l. by replace (_ * _ - _)%Z with 0%Z by lia. }
  intros [Hh Hc]. destruct r as [|b r'].
  { change (tree_hops T [a]) with 0. cbn [pweight length].
    rewrite Qmult_0_l. by replace (_ * _ - _)%Z with 0%Z by lia. }
  specialize (IH Hc). cbn [pweight]. rewrite Qmult_plus_distr_l, IH.
  unfold tree_hops in *. rewrite consecutive_cons.
  cbn [length]. replace (S (S (length r')) - 1) with (S (S (length r') - 1)) by lia.
  destruct Hh as (nb & e & HG & Hnb & Hw). unfold cost. rewrite HG, Hnb.
  unfold SPT.weight in *. destruct (negb (live e)); [by destruct Hw|].
  case_bool_decide; [by destruct Hw|].
  destruct (nx.has_edge (t_adj T) a b) eqn:Hab.
  - rewrite filter_cons_True by done. cbn [default length].
    rewrite !inject_Z_scaled. fold M. clearbody M.
    rewrite !Nat2Z.inj_succ. unfold Z.succ. rewrite !inject_Z_plus.
    change (inject_Z 1) with 1%Q. unfold id. field. done.
  - rewrite filter_cons_False by (cbn [fst snd]; congruence).
    destruct (nx.has_node (t_adj T) b); [by destruct Hw|]. cbn [default].
    rewrite !inject_Z_scaled. fold M. clearbody M.
    rewrite !Nat2Z.inj_succ. unfold Z.succ. rewrite !inject_Z_plus.
    change (inject_Z 1) with 1%Q. unfold id. ring.
Qed.

(** [SPT.join] returns a path with the fewest hops and, among those, one
    that rides the tree longest (the weights taken as exact rationals). On
    a well-formed network that has the root, which the tree holds, a path
    the strategy returns for [v] has no more hops than any walk from the
    root to [v] along admissible links, and no fewer hops along the tree
    than any such walk of the same length. *)
Theorem SPT_join_fewest_hops (network : gmap node (gmap node edata))
    (exclude : gset edge) (T : tree) (v : node) (p q : list node) :
  nx.wf network → is_Some (network !! t_root T) → in_tree T (t_root T) →
  SPT.join network exclude T v = Ret p → p ≠ [] →
  head q = Some (t_root T) → last q = Some v →
  chain (admissible network exclude T) q →
  length p ≤ length q ∧ (length q = length p → tree_hops T q ≤ tree_hops T p).
Proof.
  intros Hwf Hroot HrT Hj Hne Hh Hl Hc.
  pose proof (SPT_join_simple _ _ _ _ _ Hj) as Hnd.
  unfold SPT.join in Hj.
  destruct (nx.has_node (t_adj T) v) eqn:Hv; [by injection Hj as <-|].
  apply has_node_not_in_tree in Hv. unfold nx.dijkstra_path in Hj.
  set (m := nx.number_of_edges (t_adj T)) in *.
  destruct (nx.multi_source_dijkstra _ _ _ _) as [ps|[]|] eqn:Hms; try done;
    try (by injection Hj as <-).
  destruct (ps !! v) as [path|] eqn:Hpath; [|by injection Hj as <-].
  injection Hj as ->.
  destruct (multi_source_dijkstra_sound _ _ _ _ _ Hms _ _ Hpath) as (_ & _ & Hc0).
  set (W := SPT.weight exclude T (1 / inject_Z (Z.of_nat m + 1))) in *.
  assert (chain (usable network W) q) as Hcq.
  { eapply chain_impl; [|exact Hc]. intros a b. apply SPT_weight_admissible. }
  assert (chain (usable network W) p) as Hcp.
  { eapply chain_impl; [|exact Hc0]. by intros a b [? _]. }
  assert (pweight network W p <= pweight network W q)%Q as Hle.
  { apply (multi_source_dijkstra_optimal network W [t_root T] v)
      with (ps := ps) (s := t_root T); try done.
    - intros x Hx. by apply list_elem_of_singleton in Hx as ->.
    - intros x y e c. apply SPT_weight_nonneg.
    - intros Hin. by apply list_elem_of_singleton in Hin as ->.
    - by apply list_elem_of_singleton. }
  apply (Qmult_le_compat_r _ _ (inject_Z (Z.of_nat m + 1))) in Hle.
  2:{ unfold Qle. simpl. lia. }
  unfold W in Hle. rewrite !SPT_pweight in Hle by done.
  rewrite <- Zle_Qle in Hle.
  pose proof (tree_hops_bound T p Hnd) as Hb. fold m in Hb.
  pose proof (tree_hops_le_hops T q) as Hq.
  assert (1 ≤ length p) by (destruct p; [done|simpl; lia]).
  assert (1 ≤ length q) by (destruct q; [done|simpl; lia]).
  split; [nia|]. intros Heq. rewrite Heq in Hle. lia.
Qed.

Lemma SPT_join_fewest_hops_witness :
  length [1; 2; 4; 9]%Z ≤ length [1; 3; 4; 9]%Z ∧
  (length [1; 3; 4; 9]%Z = length [1; 2; 4; 9]%Z →
   tree_hops Example.tree_1_2 [1; 3; 4; 9]%Z ≤ tree_hops Example.tree_1_2 [1; 2; 4; 9]%Z).
Proof.
  assert (∀ y : node, y ≠ 1%Z → y ≠ 2%Z → ¬ in_tree Example.tree_1_2 y) as Hout.
  { intros y H1 H2 Hy. apply in_tree_elements in Hy. vm_compute in Hy.
    set_unfold in Hy. by destruct Hy as [->|[->|[]]]. }
  apply (SPT_join_fewest_hops Example.diamond ∅ Example.tree_1_2 9%Z).
  - unfold nx.wf. apply (bool_decide_unpack _). by vm_compute.
  - vm_compute. eauto.
  - unfold in_tree. vm_compute. eauto.
  - by vm_compute.
  - done.
  - done.
  - done.
  - cbn [chain]. split_and!; try done; unfold admissible;
      (eexists; split_and!; [by vm_compute|done|set_solver|right; by apply Hout]).
Defined.
